(** * The token-indexed Aho-Corasick automaton of libyara/ahocorasick.c

    A shallow embedding of the automaton builder: the queue of the
    failure-link pass, the two-representation trie layer, the token
    generators, string insertion and failure-link construction, followed
    by the properties proved about them. *)

From stdpp Require Import base list gmap.
From Stdlib Require Import ZArith Lia.

Local Open Scope Z_scope.

(** ** What the file takes from its headers *)

(** [#define MAX_TOKEN 4] and [#define MAX_TABLE_BASED_STATES_DEPTH 1]. *)
Definition MAX_TOKEN : Z := 4.
Definition MAX_TABLE_BASED_STATES_DEPTH : Z := 1.

(** The mask sentinels, the two regular-expression character tables and the
    width of [int] come from headers that are not part of the sources; the
    development is parametric in them. *)
Record yara_h := {
  MASK_OR : Z;
  MASK_OR_END : Z;
  MASK_EXACT_SKIP : Z;
  MASK_RANGE_SKIP : Z;
  MASK_END : Z;
  isregexescapable : Z → bool;
  isregexhashable : Z → bool;
  sizeof_int : Z
}.

(** The sentinels are pairwise different and none of them is the mask of a
    significant byte, [0xFF]. *)
Definition masks_distinct (Y : yara_h) : Prop :=
  NoDup [255; MASK_OR Y; MASK_OR_END Y; MASK_EXACT_SKIP Y;
         MASK_RANGE_SKIP Y; MASK_END Y].

(** A mask byte that is neither [0xFF] nor a sentinel: a wildcarded byte. *)
Definition is_wildcard (Y : yara_h) (m : Z) : Prop :=
  m ∉ [255; MASK_OR Y; MASK_OR_END Y; MASK_EXACT_SKIP Y;
       MASK_RANGE_SKIP Y; MASK_END Y].

(** Modelled from the spec: the pattern record [STRING] is declared in
    yara.h; the spec gives its content as the literal bytes (with their
    length), the flags hex, regex, ascii, wide and nocase, a mask stream and
    an opaque regex handle that is only asked for its first-byte set. *)
Record STRING := {
  identifier : nat;
  is_hex : bool;
  is_regexp : bool;
  is_ascii : bool;
  is_wide : bool;
  is_no_case : bool;
  str_bytes : list Z;
  str_mask : list Z;
  re_first_bytes : list Z
}.

(** [string->length] *)
Definition str_length (s : STRING) : Z := Z.of_nat (length (str_bytes s)).

(** [p[i]] for a byte array; a read outside the array, whose value C leaves
    open, reads 0 here. *)
Definition byte_at (p : list Z) (i : Z) : Z :=
  if i <? 0 then 0 else default 0 (p !! Z.to_nat i).

(** The [n] bytes a [memcpy] reads from [p + pos]. *)
Definition bytes_from (p : list Z) (pos n : Z) : list Z :=
  (λ k, byte_at p (pos + k)) <$> seqZ 0 n.

(** ** The token buffer

    The generators write [int]s and bytes one after the other into a scratch
    buffer; the buffer is the sequence of the cells written. *)
Inductive cell :=
  | INT (v : Z)
  | BYTE (b : Z).

Definition buffer := list cell.

Definition cell_size (Y : yara_h) (c : cell) : Z :=
  match c with
  | INT _ => sizeof_int Y
  | BYTE _ => 1
  end.

(** Number of bytes of the scratch buffer a sequence of writes covers. *)
Definition buffer_size (Y : yara_h) (b : buffer) : Z :=
  foldr (λ c n, cell_size Y c + n) 0 b.

(** [*((int* ) output_buffer) = v; output_buffer += sizeof(int);] *)
Definition write_int (out : buffer) (v : Z) : buffer := out ++ [INT v].

(** [memcpy(output_buffer, bytes, n); output_buffer += n;] *)
Definition write_bytes (out : buffer) (bytes : list Z) : buffer :=
  out ++ (BYTE <$> bytes).

(** A token record: its backtrack and its bytes; the length field of the
    record is the number of bytes. *)
Record token := { tk_backtrack : Z; tk_bytes : list Z }.

Definition tk_length (t : token) : Z := Z.of_nat (length (tk_bytes t)).

(** The format of the buffer:
    [size 1] [backtrack 1] [token 1] ... [size N] [backtrack N] [token N] *)
Definition encode_token (t : token) : buffer :=
  INT (tk_length t) :: INT (tk_backtrack t) :: (BYTE <$> tk_bytes t).

Definition encode_tokens (ts : list token) : buffer :=
  ts ≫= encode_token.

(** ** _yr_ac_gen_case_combinations *)

Definition is_lower (c : Z) : bool := (97 <=? c) && (c <=? 122).
Definition is_upper (c : Z) : bool := (65 <=? c) && (c <=? 90).
Definition is_letter (c : Z) : bool := is_lower c || is_upper c.

(** [new_token[token_offset] -= 32] or [+= 32] *)
Definition swap_case (c : Z) : Z :=
  if is_lower c then c - 32 else c + 32.

(** The recursion descends one position of the token per call; [depth]
    bounds the number of nested calls. [tok] holds the [token_length] bytes
    of the token. [past] is the byte that [token[token_offset]] reads when
    the offset is not inside the token: the read then lands behind the
    token, on a byte that nothing has written. The byte swapped in
    [new_token] then lies behind the new record as well, where the next
    write lands. *)
Fixpoint gen_case_combinations_rec (depth : nat) (past : Z) (tok : list Z)
    (token_length token_offset token_backtrack : Z) (out : buffer) : buffer :=
  match depth with
  | O => out
  | S depth' =>
    let out :=
      if token_offset + 1 <? token_length
      then gen_case_combinations_rec depth' past tok token_length
             (token_offset + 1) token_backtrack out
      else out in
    let c := if token_offset <? token_length
             then byte_at tok token_offset else past in
    if is_letter c then
      let out := write_int out token_length in
      let out := write_int out token_backtrack in
      let new_token :=
        <[Z.to_nat token_offset := swap_case c]>
          (bytes_from tok 0 token_length) in
      let out := write_bytes out new_token in
      if token_offset + 1 <? token_length
      then gen_case_combinations_rec depth' past new_token token_length
             (token_offset + 1) token_backtrack out
      else out
    else out
  end.

(** The call at [token_offset] nests [token_length - token_offset] calls (one
    when the offset is already at or past the last position). *)
Definition _yr_ac_gen_case_combinations (past : Z) (tok : list Z)
    (token_length token_offset token_backtrack : Z) (out : buffer) : buffer :=
  gen_case_combinations_rec
    (S (Z.to_nat (token_length - token_offset - 1)))
    past tok token_length token_offset token_backtrack out.

(** ** _yr_ac_gen_hex_tokens *)

(** The local variables of the scan that live across iterations. *)
Record hex_state := {
  hx_inside_or : bool;
  hx_token_length : Z;
  hx_backtrack : Z;
  hx_max_unique_bytes : Z;
  hx_candidate_token_position : Z;
  hx_candidate_token_length : Z;
  hx_candidate_token_backtrack : Z;
  hx_or_string_length : Z;
  hx_previous_or_string_length : Z;
  hx_string_position : Z;
  hx_last : list Z
}.

Definition hex_init : hex_state :=
  {| hx_inside_or := false; hx_token_length := 0; hx_backtrack := 0;
     hx_max_unique_bytes := 0; hx_candidate_token_position := 0;
     hx_candidate_token_length := 0; hx_candidate_token_backtrack := 0;
     hx_or_string_length := 0; hx_previous_or_string_length := 0;
     hx_string_position := 0; hx_last := [] |}.

(** The two nested [for] loops: one for the final slot, plus one for each
    earlier slot of [last] whose byte does not occur in a later slot. *)
Fixpoint unique_scan (last : list Z) : Z :=
  match last with
  | [] => 0
  | x :: rest =>
    match rest with
    | [] => 0
    | _ => (if forallb (λ y, negb (x =? y)) rest then 1 else 0)
           + unique_scan rest
    end
  end.

Definition count_unique_bytes (last : list Z) : Z := 1 + unique_scan last.

(** How one iteration of the [while] ends. *)
Inductive hex_ctl :=
  | HEX_NEXT       (* falls through to [mask++] *)
  | HEX_SKIP       (* MASK_EXACT_SKIP: reads the count, then [mask++] *)
  | HEX_BREAK.     (* one of the three [break]s *)

(** The outcome of the comparisons of [*mask] with [0xFF] and with the
    sentinels other than [MASK_END]. *)
Record mask_tests := {
  is_literal : bool;       (* *mask == 0xFF *)
  is_or : bool;            (* *mask == MASK_OR *)
  is_or_end : bool;        (* *mask == MASK_OR_END *)
  is_exact_skip : bool;    (* *mask == MASK_EXACT_SKIP *)
  is_range_skip : bool     (* *mask == MASK_RANGE_SKIP *)
}.

Definition test_mask (Y : yara_h) (m : Z) : mask_tests :=
  {| is_literal := m =? 255;
     is_or := m =? MASK_OR Y;
     is_or_end := m =? MASK_OR_END Y;
     is_exact_skip := m =? MASK_EXACT_SKIP Y;
     is_range_skip := m =? MASK_RANGE_SKIP Y |}.

Section hex.
Variable Y : yara_h.
Variable str : list Z.
Variable max_token_length : Z.

(** The body of the [while] for a mask byte with the comparisons [k], up
    to the point where the count of an exact skip is read. *)
Definition hex_body (k : mask_tests) (st : hex_state)
    : hex_ctl * hex_state :=
  let string_position := hx_string_position st in
  let last :=
    if hx_token_length st =? 0
    then replicate (Z.to_nat max_token_length) (byte_at str string_position)
    else hx_last st in
  let inside_or := if is_or k then true else hx_inside_or st in
  let inside_or := if is_or_end k then false else inside_or in
  let literal := is_literal k && negb inside_or in
  let token_length :=
    if literal
    then Z.min (hx_token_length st + 1) max_token_length
    else 0 in
  let last :=
    if literal
    then <[Z.to_nat (Z.rem string_position max_token_length) :=
             byte_at str string_position]> last
    else last in
  let unique_bytes := count_unique_bytes last in
  let better :=
    literal &&
    ((hx_max_unique_bytes st <? unique_bytes) ||
     (hx_candidate_token_length st <? token_length)) in
  let st1 :=
    {| hx_inside_or := inside_or;
       hx_token_length := token_length;
       hx_backtrack := hx_backtrack st;
       hx_max_unique_bytes :=
         if better then unique_bytes else hx_max_unique_bytes st;
       hx_candidate_token_position :=
         if better then string_position - token_length + 1
         else hx_candidate_token_position st;
       hx_candidate_token_length :=
         if better then token_length else hx_candidate_token_length st;
       hx_candidate_token_backtrack :=
         if better then hx_backtrack st - token_length + 1
         else hx_candidate_token_backtrack st;
       hx_or_string_length := hx_or_string_length st;
       hx_previous_or_string_length := hx_previous_or_string_length st;
       hx_string_position := string_position;
       hx_last := last |} in
  if better && (token_length =? max_token_length)
     && (unique_bytes =? max_token_length)
  then (HEX_BREAK, st1)
  else
    let advance :=
      negb (is_or k) && negb (is_or_end k) &&
      negb (is_exact_skip k) && negb (is_range_skip k) in
    let string_position :=
      if advance then string_position + 1 else string_position in
    let or_string_length :=
      if advance && inside_or then hx_or_string_length st + 1
      else hx_or_string_length st in
    let backtrack :=
      if advance && negb inside_or then hx_backtrack st + 1
      else hx_backtrack st in
    let st2 :=
      {| hx_inside_or := inside_or;
         hx_token_length := token_length;
         hx_backtrack := backtrack;
         hx_max_unique_bytes := hx_max_unique_bytes st1;
         hx_candidate_token_position := hx_candidate_token_position st1;
         hx_candidate_token_length := hx_candidate_token_length st1;
         hx_candidate_token_backtrack := hx_candidate_token_backtrack st1;
         hx_or_string_length := or_string_length;
         hx_previous_or_string_length := hx_previous_or_string_length st;
         hx_string_position := string_position;
         hx_last := last |} in
    if is_exact_skip k then (HEX_SKIP, st2)
    else if is_range_skip k then (HEX_BREAK, st2)
    else if is_or k || is_or_end k then
      let previous :=
        if hx_previous_or_string_length st =? 0 then or_string_length
        else hx_previous_or_string_length st in
      if negb (or_string_length =? previous)
      then (HEX_BREAK,
            {| hx_inside_or := inside_or;
               hx_token_length := token_length;
               hx_backtrack := backtrack;
               hx_max_unique_bytes := hx_max_unique_bytes st1;
               hx_candidate_token_position :=
                 hx_candidate_token_position st1;
               hx_candidate_token_length := hx_candidate_token_length st1;
               hx_candidate_token_backtrack :=
                 hx_candidate_token_backtrack st1;
               hx_or_string_length := or_string_length;
               hx_previous_or_string_length := previous;
               hx_string_position := string_position;
               hx_last := last |})
      else
        (HEX_NEXT,
         {| hx_inside_or := inside_or;
            hx_token_length := token_length;
            hx_backtrack :=
              if is_or_end k then backtrack + previous else backtrack;
            hx_max_unique_bytes := hx_max_unique_bytes st1;
            hx_candidate_token_position := hx_candidate_token_position st1;
            hx_candidate_token_length := hx_candidate_token_length st1;
            hx_candidate_token_backtrack :=
              hx_candidate_token_backtrack st1;
            hx_or_string_length := 0;
            hx_previous_or_string_length :=
              if is_or_end k then 0 else previous;
            hx_string_position := string_position;
            hx_last := last |})
    else (HEX_NEXT, st2).

(** [backtrack += *mask] after the [mask++] of an exact skip *)
Definition hex_add_skip (count : Z) (st : hex_state) : hex_state :=
  {| hx_inside_or := hx_inside_or st;
     hx_token_length := hx_token_length st;
     hx_backtrack := hx_backtrack st + count;
     hx_max_unique_bytes := hx_max_unique_bytes st;
     hx_candidate_token_position := hx_candidate_token_position st;
     hx_candidate_token_length := hx_candidate_token_length st;
     hx_candidate_token_backtrack := hx_candidate_token_backtrack st;
     hx_or_string_length := hx_or_string_length st;
     hx_previous_or_string_length := hx_previous_or_string_length st;
     hx_string_position := hx_string_position st;
     hx_last := hx_last st |}.

(** The [while ( *mask != MASK_END)] loop over the mask stream. A stream
    that ends without [MASK_END] (or in the middle of an exact skip) makes
    the C code read past it; the scan has no result then. *)
Fixpoint hex_scan (mask : list Z) (st : hex_state) : option hex_state :=
  match mask with
  | [] => None
  | m :: mask' =>
    if m =? MASK_END Y then Some st
    else
      match hex_body (test_mask Y m) st with
      | (HEX_BREAK, st') => Some st'
      | (HEX_NEXT, st') => hex_scan mask' st'
      | (HEX_SKIP, st') =>
        match mask' with
        | [] => None
        | count :: mask'' => hex_scan mask'' (hex_add_skip count st')
        end
      end
  end.

(** The record written after the loop. *)
Definition hex_emit (st : hex_state) (out : buffer) : buffer :=
  let out := write_int out (hx_candidate_token_length st) in
  let out := write_int out (hx_candidate_token_backtrack st) in
  write_bytes out
    (bytes_from str (hx_candidate_token_position st)
       (hx_candidate_token_length st)).

End hex.

Definition _yr_ac_gen_hex_tokens (Y : yara_h) (s : STRING)
    (max_token_length : Z) (out : buffer) : option buffer :=
  st ← hex_scan Y (str_bytes s) max_token_length (str_mask s) hex_init;
  Some (hex_emit (str_bytes s) st out).

(** ** _yr_ac_gen_regexp_tokens *)

Section regexp.
Variable Y : yara_h.
Variable str : list Z.
Variable len : Z.
Variable max_token_length : Z.

(** The [while (i < string->length && token_length < max_token_length)]
    loop; [tok] holds the [token_length] bytes accepted so far. Every
    iteration that does not leave the loop accepts one byte, so
    [max_token_length] iterations are all the loop can make. *)
Fixpoint regexp_scan (iterations : nat) (i : Z) (tok : list Z) : list Z :=
  match iterations with
  | O => tok
  | S iterations' =>
    if (i <? len) && (Z.of_nat (length tok) <? max_token_length) then
      let current := byte_at str i in
      let next := if i + 1 <? len then byte_at str (i + 1) else 0 in
      if (current =? 92) && isregexescapable Y next
      then regexp_scan iterations' (i + 2) (tok ++ [next])
      else if isregexhashable Y current && negb (next =? 42)
              && negb (next =? 123) && negb (next =? 63)
      then regexp_scan iterations' (i + 1) (tok ++ [current])
      else tok
    else tok
  end.
End regexp.

(** One record of length 1 and backtrack 0 per first byte. *)
Definition write_first_bytes (first_bytes : list Z) (out : buffer) : buffer :=
  foldl (λ out b, write_bytes (write_int (write_int out 1) 0) [b])
        out first_bytes.

Definition _yr_ac_gen_regexp_tokens (Y : yara_h) (s : STRING)
    (max_token_length : Z) (out : buffer) : buffer :=
  let i := if byte_at (str_bytes s) 0 =? 94 then 1 else 0 in
  let tok :=
    regexp_scan Y (str_bytes s) (str_length s) max_token_length
      (Z.to_nat max_token_length) i [] in
  let token_length := Z.of_nat (length tok) in
  if 0 <? token_length then
    let out := write_int out token_length in
    let out := write_int out 0 in
    let out := write_bytes out tok in
    if is_no_case s
    then
      (* the token has at least one byte: the call reads inside it only *)
      _yr_ac_gen_case_combinations 0 tok token_length 0 0 out
    else out
  else
    (* yr_regex_get_first_bytes(&(string->re), first_bytes) *)
    write_first_bytes (re_first_bytes s) out.

(** ** _yr_ac_gen_tokens *)

(** The bytes the [while (i < token_length)] loop of the wide branch writes:
    the bytes of the string at the even positions, zeros at the odd ones. *)
Definition wide_bytes (str : list Z) (token_length : Z) : list Z :=
  (λ i, if Z.rem i 2 =? 0 then byte_at str (i / 2) else 0)
    <$> seqZ 0 token_length.

(** The scratch buffer as [yr_malloc] hands it over: the byte it holds at
    each offset before anything is written there. *)
Definition block := Z → Z.

(** In the two branches of a text pattern the token that the case expander
    receives is the one just written, [str], at the end of the output: the
    byte behind it is the byte of the block at the offset the output has
    reached. *)
Definition gen_ascii_tokens (Y : yara_h) (mem : block) (s : STRING)
    (max_token_length : Z) (out : buffer) : buffer :=
  let token_length := Z.min (str_length s) max_token_length in
  let out := write_int out token_length in
  let out := write_int out 0 in
  let str := bytes_from (str_bytes s) 0 token_length in
  let out := write_bytes out str in
  if is_no_case s
  then _yr_ac_gen_case_combinations (mem (buffer_size Y out))
         str token_length 0 0 out
  else out.

Definition gen_wide_tokens (Y : yara_h) (mem : block) (s : STRING)
    (max_token_length : Z) (out : buffer) : buffer :=
  let token_length := Z.min (str_length s * 2) max_token_length in
  let out := write_int out token_length in
  let out := write_int out 0 in
  let str := wide_bytes (str_bytes s) token_length in
  let out := write_bytes out str in
  if is_no_case s
  then _yr_ac_gen_case_combinations (mem (buffer_size Y out))
         str token_length 0 0 out
  else out.

(** The whole content of the scratch buffer [mem], terminator included; no
    result when the hex scan runs off its mask. *)
Definition _yr_ac_gen_tokens (Y : yara_h) (mem : block) (s : STRING)
    (max_token_length : Z) : option buffer :=
  out ← (if is_hex s then _yr_ac_gen_hex_tokens Y s max_token_length []
         else if is_regexp s
         then Some (_yr_ac_gen_regexp_tokens Y s max_token_length [])
         else
           let out := [] in
           let out := if is_ascii s
                      then gen_ascii_tokens Y mem s max_token_length out
                      else out in
           let out := if is_wide s
                      then gen_wide_tokens Y mem s max_token_length out
                      else out in
           Some out);
  Some (write_int out 0).

(** ** Reading the buffer back

    The records of a buffer up to its terminator, as [yr_ac_add_string]
    walks them: a length, and when it is not 0 a backtrack and that many
    bytes. *)
Definition read_int (cur : buffer) : option (Z * buffer) :=
  match cur with
  | INT v :: cur' => Some (v, cur')
  | _ => None
  end.

Definition read_byte (cur : buffer) : option (Z * buffer) :=
  match cur with
  | BYTE b :: cur' => Some (b, cur')
  | _ => None
  end.

Fixpoint read_bytes (n : nat) (cur : buffer) : option (list Z * buffer) :=
  match n with
  | O => Some ([], cur)
  | S n' =>
    '(b, cur) ← read_byte cur;
    '(bs, cur) ← read_bytes n' cur;
    Some (b :: bs, cur)
  end.

Fixpoint read_tokens (fuel : nat) (cur : buffer) : option (list token) :=
  match fuel with
  | O => None
  | S fuel' =>
    '(token_length, cur) ← read_int cur;
    if token_length =? 0 then Some []
    else
      '(token_backtrack, cur) ← read_int cur;
      '(bytes, cur) ← read_bytes (Z.to_nat token_length) cur;
      ts ← read_tokens fuel' cur;
      Some ({| tk_backtrack := token_backtrack; tk_bytes := bytes |} :: ts)
  end.

(** The tokens the generator hands to the automaton for a pattern. *)
Definition emitted_tokens (Y : yara_h) (mem : block) (s : STRING)
    : option (list token) :=
  out ← _yr_ac_gen_tokens Y mem s MAX_TOKEN;
  read_tokens (length out) out.

(** ** Example patterns *)

(** A block that holds zero bytes, and one that holds the letter a at every
    offset. *)
Definition zeros : block := λ _, 0.
Definition letters : block := λ _, 97.

Definition yara_h_example : yara_h :=
  {| MASK_OR := 1; MASK_OR_END := 2; MASK_EXACT_SKIP := 3;
     MASK_RANGE_SKIP := 4; MASK_END := 5;
     isregexescapable := λ c, bool_decide (c ∈ [92; 46; 42; 43; 63; 40; 41; 91; 93; 123; 125; 124; 94; 36]);
     isregexhashable := λ c, is_letter c || ((48 <=? c) && (c <=? 57));
     sizeof_int := 4 |}.

Definition hex_string (bytes mask : list Z) : STRING :=
  {| identifier := 0; is_hex := true; is_regexp := false; is_ascii := false;
     is_wide := false; is_no_case := false;
     str_bytes := bytes; str_mask := mask; re_first_bytes := [] |}.

Definition text_string (id : nat) (ascii wide nocase : bool)
    (bytes : list Z) : STRING :=
  {| identifier := id; is_hex := false; is_regexp := false;
     is_ascii := ascii; is_wide := wide; is_no_case := nocase;
     str_bytes := bytes; str_mask := []; re_first_bytes := [] |}.

Definition regexp_string (nocase : bool) (bytes first_bytes : list Z)
    : STRING :=
  {| identifier := 0; is_hex := false; is_regexp := true;
     is_ascii := false; is_wide := false; is_no_case := nocase;
     str_bytes := bytes; str_mask := []; re_first_bytes := first_bytes |}.


(** ** The arena and the automaton it holds *)

(** A reference into the arena is the index of the struct; [None] is the
    null pointer. *)
Abbreviation ptr := nat (only parsing).

(** [AC_MATCH] *)
Record AC_MATCH := {
  m_backtrack : Z;
  m_string : STRING;
  m_next : option ptr
}.

(** The transitions of a state: the 256-entry table of an
    [AC_TABLE_BASED_STATE], or the chain of [AC_STATE_TRANSITION] records of
    an [AC_LIST_BASED_STATE], newest first. *)
Inductive AC_TRANSITIONS :=
  | TABLE (t : list (option ptr))
  | LIST (l : list (Z * ptr)).

(** [AC_STATE] with the transitions of its representation. *)
Record AC_STATE := {
  depth : Z;
  failure : option ptr;
  matches : option ptr;
  transitions : AC_TRANSITIONS
}.

(** Modelled from the spec: the arena allocator (arena.c) is an external
    collaborator; it owns every state and output record, never frees one,
    hands out zeroed structs and answers insufficient-memory when it cannot
    serve a request. [room] is the number of requests it can still serve. *)
Record ARENA := {
  states : list AC_STATE;
  match_records : list AC_MATCH;
  room : nat
}.

(** [AC_AUTOMATON] *)
Record AC_AUTOMATON := { root : ptr }.

Inductive status :=
  | ERROR_SUCCESS
  | ERROR_INSUFICIENT_MEMORY.

Definition set_states (a : ARENA) (sts : list AC_STATE) : ARENA :=
  {| states := sts; match_records := match_records a; room := room a |}.

Definition set_match_records (a : ARENA) (ms : list AC_MATCH) : ARENA :=
  {| states := states a; match_records := ms; room := room a |}.

(** One request to the arena. *)
Definition arena_request (a : ARENA) : option ARENA :=
  match room a with
  | O => None
  | S r => Some {| states := states a; match_records := match_records a;
                   room := r |}
  end.

Definition empty_table : AC_TRANSITIONS := TABLE (replicate 256 None).

(** [yr_arena_allocate_struct] for a state of the given representation: the
    struct is zeroed. *)
Definition allocate_state (a : ARENA) (tr : AC_TRANSITIONS)
    : option (ptr * ARENA) :=
  a ← arena_request a;
  Some (length (states a),
        set_states a
          (states a ++ [{| depth := 0; failure := None; matches := None;
                           transitions := tr |}])).

(** [yr_arena_allocate_struct] for an [AC_MATCH], with the three
    assignments that follow it. *)
Definition allocate_match (a : ARENA) (m : AC_MATCH) : option (ptr * ARENA) :=
  a ← arena_request a;
  Some (length (match_records a),
        set_match_records a (match_records a ++ [m])).

(** [yr_arena_make_relocatable], and the allocation of one
    [AC_STATE_TRANSITION]. *)
Definition yr_arena_make_relocatable (a : ARENA) : option ARENA :=
  arena_request a.
Definition allocate_transition (a : ARENA) : option ARENA :=
  arena_request a.

(** Field updates through a pointer. *)
Definition update_state (a : ARENA) (p : ptr) (f : AC_STATE → AC_STATE)
    : ARENA :=
  set_states a (alter f p (states a)).

Definition set_depth (d : Z) (s : AC_STATE) : AC_STATE :=
  {| depth := d; failure := failure s; matches := matches s;
     transitions := transitions s |}.
Definition set_failure (f : option ptr) (s : AC_STATE) : AC_STATE :=
  {| depth := depth s; failure := f; matches := matches s;
     transitions := transitions s |}.
Definition set_matches (m : option ptr) (s : AC_STATE) : AC_STATE :=
  {| depth := depth s; failure := failure s; matches := m;
     transitions := transitions s |}.
Definition set_transitions (tr : AC_TRANSITIONS) (s : AC_STATE) : AC_STATE :=
  {| depth := depth s; failure := failure s; matches := matches s;
     transitions := tr |}.
Definition set_next (n : option ptr) (m : AC_MATCH) : AC_MATCH :=
  {| m_backtrack := m_backtrack m; m_string := m_string m; m_next := n |}.

Definition update_match (a : ARENA) (p : ptr) (f : AC_MATCH → AC_MATCH)
    : ARENA :=
  set_match_records a (alter f p (match_records a)).

(** ** _yr_ac_first_child, _yr_ac_next_child, yr_ac_next_state *)

(** The [for (i = *iterator; i < 256; i++)] scan of a table for its next
    non-null slot; [n] slots are left to look at. *)
Fixpoint table_scan (n : nat) (t : list (option ptr)) (i : Z)
    : option (ptr * Z) :=
  match n with
  | O => None
  | S n' =>
    match t !! Z.to_nat i with
    | Some (Some child) => Some (child, i + 1)
    | _ => table_scan n' t (i + 1)
    end
  end.

(** The iterator of a table-based state is the index to resume at; the
    iterator of a list-based state points at a transition record, given here
    by its position in the chain. The result is the child and the new value
    of the iterator, or [None] for [NULL]. *)
Definition _yr_ac_next_child (a : ARENA) (state : ptr) (iterator : Z)
    : option (ptr * Z) :=
  s ← states a !! state;
  if depth s <=? MAX_TABLE_BASED_STATES_DEPTH then
    match transitions s with
    | TABLE t => table_scan (Z.to_nat (256 - iterator)) t iterator
    | LIST _ => None
    end
  else
    match transitions s with
    | LIST l =>
      '(_, child) ← l !! Z.to_nat (iterator + 1);
      Some (child, iterator + 1)
    | TABLE _ => None
    end.

Definition _yr_ac_first_child (a : ARENA) (state : ptr) : option (ptr * Z) :=
  s ← states a !! state;
  if depth s <=? MAX_TABLE_BASED_STATES_DEPTH then
    _yr_ac_next_child a state 0
  else
    match transitions s with
    | LIST ((_, child) :: _) => Some (child, 0)
    | _ => None
    end.

(** The [while (transition != NULL)] search of a transition chain. *)
Fixpoint find_transition (l : list (Z * ptr)) (input : Z) : option ptr :=
  match l with
  | [] => None
  | (b, target) :: l' =>
    if b =? input then Some target else find_transition l' input
  end.

Definition yr_ac_next_state (a : ARENA) (state : ptr) (input : Z)
    : option ptr :=
  s ← states a !! state;
  if depth s <=? MAX_TABLE_BASED_STATES_DEPTH then
    match transitions s with
    | TABLE t => mjoin (t !! Z.to_nat input)
    | LIST _ => None
    end
  else
    match transitions s with
    | LIST l => find_transition l input
    | TABLE _ => None
    end.

(** ** _yr_ac_create_state *)

(** [table_based_state->transitions[input].state = new_state] *)
Definition set_table_entry (input : Z) (new_state : ptr) (s : AC_STATE)
    : AC_STATE :=
  match transitions s with
  | TABLE t => set_transitions (TABLE (<[Z.to_nat input := Some new_state]> t)) s
  | LIST _ => s
  end.

(** [new_transition->next = list_based_state->transitions;
     list_based_state->transitions = new_transition] *)
Definition push_transition (input : Z) (new_state : ptr) (s : AC_STATE)
    : AC_STATE :=
  match transitions s with
  | LIST l => set_transitions (LIST ((input, new_state) :: l)) s
  | TABLE _ => s
  end.

(** The result is the new state, or [None] for [NULL], and the arena as the
    call leaves it. *)
Definition _yr_ac_create_state (a : ARENA) (state : ptr) (input : Z)
    : option ptr * ARENA :=
  match states a !! state with
  | None => (None, a)
  | Some s =>
    match allocate_state a
            (if depth s <? MAX_TABLE_BASED_STATES_DEPTH
             then empty_table else LIST []) with
    | None => (None, a)
    | Some (new_state, a) =>
      let linked :=
        if depth s <=? MAX_TABLE_BASED_STATES_DEPTH then
          a ← yr_arena_make_relocatable a;
          Some (update_state a state (set_table_entry input new_state))
        else
          a ← allocate_transition a;
          Some (update_state a state (push_transition input new_state)) in
      match linked with
      | None => (None, a)
      | Some a =>
        (Some new_state, update_state a new_state (set_depth (depth s + 1)))
      end
    end
  end.

(** ** yr_ac_create_automaton *)

(** What a call leaves in [*automaton]: nothing when the arena does not
    serve the [AC_AUTOMATON] struct, the struct with its [root] field still
    null when the arena does not serve the root, the automaton otherwise. *)
Inductive automaton_out :=
  | NOT_WRITTEN
  | WITHOUT_ROOT
  | AUTOMATON (automaton : AC_AUTOMATON).

(** The request for the [AC_AUTOMATON] struct, then the table-based root. *)
Definition yr_ac_create_automaton (a : ARENA)
    : status * ARENA * automaton_out :=
  match arena_request a with
  | None => (ERROR_INSUFICIENT_MEMORY, a, NOT_WRITTEN)
  | Some a =>
    match allocate_state a empty_table with
    | None => (ERROR_INSUFICIENT_MEMORY, a, WITHOUT_ROOT)
    | Some (root_state, a) =>
      (ERROR_SUCCESS,
       update_state a root_state (λ s, set_matches None (set_depth 0 s)),
       AUTOMATON {| root := root_state |})
    end
  end.

(** ** yr_ac_add_string *)

(** The [for (i = 0; i < token_length; i++)] walk from the root, creating
    the states that are missing. The inner result is the state reached, or
    [None] when [_yr_ac_create_state] returned [NULL]; there is no result when
    the cursor does not stand on a byte. *)
Fixpoint walk_token (n : nat) (a : ARENA) (state : ptr) (cur : buffer)
    : option (option ptr * ARENA * buffer) :=
  match n with
  | O => Some (Some state, a, cur)
  | S n' =>
    '(input, cur) ← read_byte cur;
    match yr_ac_next_state a state input with
    | Some next_state => walk_token n' a next_state cur
    | None =>
      match _yr_ac_create_state a state input with
      | (Some next_state, a) => walk_token n' a next_state cur
      | (None, a) => Some (None, a, cur)
      end
    end
  end.

(** The allocation of an output record for [s] and the assignments that
    prepend it to the chain of [state]; [None] when the arena cannot serve
    it. *)
Definition new_match_at (a : ARENA) (state : ptr) (s : STRING)
    (match_backtrack : Z) : option ARENA :=
  st ← states a !! state;
  '(new_match, a) ← allocate_match a
     {| m_backtrack := match_backtrack; m_string := s;
        m_next := matches st |};
  Some (update_state a state (set_matches (Some new_match))).

(** The [while (token_length != 0)] loop, entered with a token length that
    is not 0. The result is the status, the arena and the value left in
    [*min_token_length]. *)
Fixpoint add_tokens (fuel : nat) (a : ARENA) (automaton : AC_AUTOMATON)
    (s : STRING) (token_length min_token_length : Z) (cur : buffer)
    : option (status * ARENA * Z) :=
  match fuel with
  | O => None
  | S fuel' =>
    let min_token_length :=
      if token_length <? min_token_length then token_length
      else min_token_length in
    '(token_backtrack, cur) ← read_int cur;
    '(reached, a, cur) ← walk_token (Z.to_nat token_length) a
                           (root automaton) cur;
    match reached with
    | None => Some (ERROR_INSUFICIENT_MEMORY, a, min_token_length)
    | Some state =>
      '(token_length, cur) ← read_int cur;
      st ← states a !! state;
      match new_match_at a state s (depth st + token_backtrack) with
      | None => Some (ERROR_INSUFICIENT_MEMORY, a, min_token_length)
      | Some a =>
        if token_length =? 0
        then Some (ERROR_SUCCESS, a, min_token_length)
        else add_tokens fuel' a automaton s token_length min_token_length cur
      end
    end
  end.

(** The size of the scratch buffer:
    [2 * (1 << MAX_TOKEN) * (2 * sizeof(int) + MAX_TOKEN) + sizeof(int)]. *)
Definition tokens_capacity (Y : yara_h) : Z :=
  2 * Z.shiftl 1 MAX_TOKEN * (2 * sizeof_int Y + MAX_TOKEN) + sizeof_int Y.

(** [scratch] is what [yr_malloc] answers to the request for the scratch
    buffer: the block, or [None] for [NULL]; [min_token_length] is the value
    the caller's variable holds on entry. There is no result when the
    generator has no result or writes past the end of the scratch buffer. *)
Definition yr_ac_add_string (Y : yara_h) (scratch : option block)
    (a : ARENA) (automaton : AC_AUTOMATON) (s : STRING)
    (min_token_length : Z) : option (status * ARENA * Z) :=
  match scratch with
  | None => Some (ERROR_INSUFICIENT_MEMORY, a, min_token_length)
  | Some mem =>
    tokens ← _yr_ac_gen_tokens Y mem s MAX_TOKEN;
    if tokens_capacity Y <? buffer_size Y tokens then None
    else
    '(token_length, cur) ← read_int tokens;
    if token_length =? 0 then
      _ ← states a !! root automaton;
      match new_match_at a (root automaton) s 0 with
      | None => Some (ERROR_INSUFICIENT_MEMORY, a, 0)
      | Some a => Some (ERROR_SUCCESS, a, 0)
      end
    else
      add_tokens (length tokens) a automaton s token_length MAX_TOKEN cur
  end.

(** ** The queue of the failure-link pass *)

(** [QUEUE_NODE]; a node is named by its address in the scratch heap. *)
Record QUEUE_NODE := {
  qn_value : option ptr;
  qn_previous : option nat;
  qn_next : option nat
}.

(** [QUEUE] *)
Record QUEUE := {
  q_head : option nat;
  q_tail : option nat
}.

(** Modelled from the spec: [yr_malloc] and [yr_free] (mem.h) are the
    scratch heap, which may answer insufficient-memory. The heap holds the
    queue nodes that are live and serves a request while fewer than [limit]
    of them are. *)
Record HEAP := {
  nodes : gmap nat QUEUE_NODE;
  limit : nat
}.

Definition set_nodes (h : HEAP) (ns : gmap nat QUEUE_NODE) : HEAP :=
  {| nodes := ns; limit := limit h |}.

(** The address of a node that is not live, or [None] for [NULL]. *)
Definition yr_malloc (h : HEAP) : option nat :=
  if decide (size (nodes h) < limit h)%nat
  then Some (fresh (dom (nodes h)))
  else None.

Definition yr_free (h : HEAP) (p : nat) : HEAP :=
  set_nodes h (delete p (nodes h)).

Definition qn_set_next (n : option nat) (node : QUEUE_NODE) : QUEUE_NODE :=
  {| qn_value := qn_value node; qn_previous := qn_previous node;
     qn_next := n |}.
Definition qn_set_previous (p : option nat) (node : QUEUE_NODE)
    : QUEUE_NODE :=
  {| qn_value := qn_value node; qn_previous := p; qn_next := qn_next node |}.

Definition empty_queue : QUEUE := {| q_head := None; q_tail := None |}.

Definition _yr_ac_queue_push (h : HEAP) (queue : QUEUE) (value : option ptr)
    : status * HEAP * QUEUE :=
  match yr_malloc h with
  | None => (ERROR_INSUFICIENT_MEMORY, h, queue)
  | Some pushed_node =>
    let ns :=
      <[pushed_node := {| qn_value := value; qn_previous := q_tail queue;
                          qn_next := None |}]> (nodes h) in
    match q_tail queue with
    | Some t =>
      (ERROR_SUCCESS,
       set_nodes h (alter (qn_set_next (Some pushed_node)) t ns),
       {| q_head := q_head queue; q_tail := Some pushed_node |})
    | None =>
      (ERROR_SUCCESS, set_nodes h ns,
       {| q_head := Some pushed_node; q_tail := Some pushed_node |})
    end
  end.

(** The popped value, [None] for [NULL]. A [q_head] that is not a live node
    is outside C; the model then leaves everything as it is. *)
Definition _yr_ac_queue_pop (h : HEAP) (queue : QUEUE)
    : option ptr * HEAP * QUEUE :=
  match q_head queue with
  | None => (None, h, queue)
  | Some popped_node =>
    match nodes h !! popped_node with
    | None => (None, h, queue)
    | Some node =>
      let '(ns, queue) :=
        match qn_next node with
        | Some hd =>
          (alter (qn_set_previous None) hd (nodes h),
           {| q_head := Some hd; q_tail := q_tail queue |})
        | None => (nodes h, {| q_head := None; q_tail := None |})
        end in
      (qn_value node, yr_free (set_nodes h ns) popped_node, queue)
    end
  end.

Definition _yr_ac_queue_is_empty (queue : QUEUE) : bool :=
  bool_decide (q_head queue = None).

(** ** yr_ac_create_failure_links *)

(** [(uint8_t) i]: the conversion of an [int] argument to the [uint8_t]
    parameter of [yr_ac_next_state]. *)
Definition uint8 (i : Z) : Z := i mod 256.

(** [while (match->next != NULL) match = match->next;] from a record that
    is not null: the last record of the chain. *)
Fixpoint last_match (fuel : nat) (a : ARENA) (m : ptr) : option ptr :=
  match fuel with
  | O => None
  | S fuel' =>
    r ← match_records a !! m;
    match m_next r with
    | None => Some m
    | Some m' => last_match fuel' a m'
    end
  end.

(** The first statements of the body of the traversal: the chain of the
    state just dequeued meets the chain of the root. *)
Definition link_root_matches (fuel : nat) (a : ARENA)
    (root_state current_state : ptr) : option ARENA :=
  r ← states a !! root_state;
  c ← states a !! current_state;
  match matches c with
  | Some m =>
    m ← last_match fuel a m;
    rec ← match_records a !! m;
    if 0 <? m_backtrack rec
    then Some (update_match a m (set_next (matches r)))
    else Some a
  | None => Some (update_state a current_state (set_matches (matches r)))
  end.

(** The assignments made once [temp_state] is found: the failure link, and
    the chain of [temp_state] behind the chain of [transition_state]. *)
Definition link_to (fuel : nat) (a : ARENA) (transition_state temp_state : ptr)
    : option ARENA :=
  let a := update_state a transition_state (set_failure (Some temp_state)) in
  t ← states a !! transition_state;
  tmp ← states a !! temp_state;
  match matches t with
  | None =>
    Some (update_state a transition_state (set_matches (matches tmp)))
  | Some m =>
    m ← last_match fuel a m;
    Some (update_match a m (set_next (matches tmp)))
  end.

(** The [while (1)] loop. [i] is the local variable of that name, which the
    function reads without ever having assigned it. *)
Fixpoint find_failure (fuel : nat) (chain_fuel : nat) (a : ARENA) (i : Z)
    (root_state transition_state failure_state : ptr) : option ARENA :=
  match fuel with
  | O => None
  | S fuel' =>
    fs ← states a !! failure_state;
    match yr_ac_next_state a failure_state (uint8 i) with
    | Some temp_state => link_to chain_fuel a transition_state temp_state
    | None =>
      if decide (failure_state = root_state)
      then Some (update_state a transition_state
                   (set_failure (Some root_state)))
      else
        failure_state ← failure fs;
        find_failure fuel' chain_fuel a i root_state transition_state
          failure_state
    end
  end.

(** The inner [while (transition_state != NULL)] loop over the children of
    the state just dequeued. *)
Fixpoint link_children (fuel : nat) (a : ARENA) (h : HEAP) (queue : QUEUE)
    (i : Z) (root_state current_state : ptr) (child : option (ptr * Z))
    : option (ARENA * HEAP * QUEUE) :=
  match child with
  | None => Some (a, h, queue)
  | Some (transition_state, iterator) =>
    match fuel with
    | O => None
    | S fuel' =>
      let '(_, h, queue) := _yr_ac_queue_push h queue (Some transition_state) in
      c ← states a !! current_state;
      failure_state ← failure c;
      a ← find_failure (S fuel') (S fuel') a i root_state transition_state
            failure_state;
      link_children fuel' a h queue i root_state current_state
        (_yr_ac_next_child a current_state iterator)
    end
  end.

(** The first [while (state != NULL)] loop: the children of the root. *)
Fixpoint push_root_children (fuel : nat) (a : ARENA) (h : HEAP)
    (queue : QUEUE) (root_state : ptr) (child : option (ptr * Z))
    : option (ARENA * HEAP * QUEUE) :=
  match child with
  | None => Some (a, h, queue)
  | Some (state, iterator) =>
    match fuel with
    | O => None
    | S fuel' =>
      let '(_, h, queue) := _yr_ac_queue_push h queue (Some state) in
      let a := update_state a state (set_failure (Some root_state)) in
      push_root_children fuel' a h queue root_state
        (_yr_ac_next_child a root_state iterator)
    end
  end.

(** One turn of [while (!_yr_ac_queue_is_empty(&queue))]; the state that was
    dequeued is returned with the new memory. *)
Definition traverse_step (fuel : nat) (i : Z) (root_state : ptr)
    (a : ARENA) (h : HEAP) (queue : QUEUE)
    : option (ptr * (ARENA * HEAP * QUEUE)) :=
  let '(popped, h, queue) := _yr_ac_queue_pop h queue in
  current_state ← popped;
  a ← link_root_matches fuel a root_state current_state;
  r ← link_children fuel a h queue i root_state current_state
        (_yr_ac_first_child a current_state);
  Some (current_state, r).

Fixpoint traverse (turns fuel : nat) (i : Z) (root_state : ptr)
    (a : ARENA) (h : HEAP) (queue : QUEUE) : option ARENA :=
  if _yr_ac_queue_is_empty queue then Some a
  else
    match turns with
    | O => None
    | S turns' =>
      '(_, (a, h, queue)) ← traverse_step fuel i root_state a h queue;
      traverse turns' fuel i root_state a h queue
    end.

(** The states in the order the traversal dequeues them in its first
    [turns] turns. *)
Fixpoint visit_order (turns fuel : nat) (i : Z) (root_state : ptr)
    (a : ARENA) (h : HEAP) (queue : QUEUE) : list ptr :=
  if _yr_ac_queue_is_empty queue then []
  else
    match turns with
    | O => []
    | S turns' =>
      match traverse_step fuel i root_state a h queue with
      | None => []
      | Some (current_state, (a, h, queue)) =>
        current_state :: visit_order turns' fuel i root_state a h queue
      end
    end.

(** The memory at the head of the traversal loop: the root's failure link
    set, its children pushed. *)
Definition failure_links_init (fuel : nat) (a : ARENA) (h : HEAP)
    (automaton : AC_AUTOMATON) : option (ARENA * HEAP * QUEUE) :=
  let root_state := root automaton in
  _ ← states a !! root_state;
  let a := update_state a root_state (set_failure (Some root_state)) in
  push_root_children fuel a h empty_queue root_state
    (_yr_ac_first_child a root_state).

(** [fuel] bounds the length of every loop of the function; the result is
    [None] when a loop needs more, or when a null or dangling pointer is
    followed. [h] is the scratch heap the queue nodes come from. *)
Definition yr_ac_create_failure_links (fuel : nat) (i : Z) (a : ARENA)
    (h : HEAP) (automaton : AC_AUTOMATON) : option ARENA :=
  '(a, h, queue) ← failure_links_init fuel a h automaton;
  traverse fuel fuel i (root automaton) a h queue.

(** ** Example automaton *)

Definition empty_arena (room : nat) : ARENA :=
  {| states := []; match_records := []; room := room |}.

Definition empty_heap (limit : nat) : HEAP :=
  {| nodes := ∅; limit := limit |}.

Definition ascii (id : nat) (bytes : list Z) := text_string id true false false bytes.

Definition add_all (Y : yara_h) (a : ARENA) (automaton : AC_AUTOMATON)
    (l : list STRING) : option ARENA :=
  foldl (λ oa s, a ← oa;
           '(_, a, _) ← yr_ac_add_string Y (Some zeros) a automaton s 0;
           Some a)
        (Some a) l.

Definition she_he_his_hers : list STRING :=
  [ascii 0 [115; 104; 101]; ascii 1 [104; 101];
   ascii 2 [104; 105; 115]; ascii 3 [104; 101; 114; 115]].

Definition built (i : Z) :=
  match yr_ac_create_automaton (empty_arena 100) with
  | (_, a, AUTOMATON automaton) =>
     a ← add_all yara_h_example a automaton she_he_his_hers;
     a' ← yr_ac_create_failure_links 100 i a (empty_heap 100) automaton;
     Some (a, a')
  | _ => None
  end.


(** * Vocabulary of the properties *)

(** ** Mask bytes *)

Definition literal_tests : mask_tests :=
  {| is_literal := true; is_or := false; is_or_end := false;
     is_exact_skip := false; is_range_skip := false |}.

Definition wildcard_tests : mask_tests :=
  {| is_literal := false; is_or := false; is_or_end := false;
     is_exact_skip := false; is_range_skip := false |}.

(** The pattern of the comment above [_yr_ac_gen_hex_tokens],
    98 56 ?? ?? 00 00 00 00 34 EB 45 97 21, with [w] the mask of a
    wildcarded byte. *)
Definition comment_pattern (Y : yara_h) (w : Z) : STRING :=
  hex_string
    [0x98; 0x56; 0; 0; 0; 0; 0; 0; 0x34; 0xEB; 0x45; 0x97; 0x21]
    [255; 255; w; w; 255; 255; 255; 255; 255; 255; 255; 255; 255; MASK_END Y].

(** The regular expression [.*abc] of an engine that lets [.] start with
    any of the 256 bytes. *)
Definition dot_star_abc : STRING :=
  regexp_string false [46; 42; 97; 98; 99] (seqZ 0 256).

(** ** Case variants *)

(** [v] is obtained from [tok] by toggling the case of some of its ASCII
    letters. *)
Definition is_case_variant (tok v : list Z) : Prop :=
  Forall2 (λ c d, d = c ∨ (is_letter c = true ∧ d = swap_case c)) tok v.

(** All of them, the token itself first. *)
Fixpoint case_variants (tok : list Z) : list (list Z) :=
  match tok with
  | [] => [[]]
  | c :: rest =>
    let vs := case_variants rest in
    (cons c <$> vs) ++
    (if is_letter c then cons (swap_case c) <$> vs else [])
  end.

(** The number of ASCII letters of a token. *)
Definition count_letters (tok : list Z) : nat :=
  length (filter (λ c, is_letter c = true) tok).

(** The records with backtrack [bt] whose bytes are [pre] followed by one of
    [vs]. *)
Definition variant_tokens (bt : Z) (pre : list Z) (vs : list (list Z))
    : list token :=
  (λ v, {| tk_backtrack := bt; tk_bytes := pre ++ v |}) <$> vs.

(** The ASCII case-insensitive pattern "Hi". *)
Definition nocase_Hi : STRING := text_string 0 true false true [72; 105].

(** The ASCII case-insensitive pattern without bytes. *)
Definition nocase_empty : STRING := text_string 0 true false true [].

(** The claim that a pattern yields 2^k tokens, the token of its first
    min(length, MAX_TOKEN) bytes first, [k] being the number of ASCII
    letters among these bytes. *)
Definition yields_all_case_variants (Y : yara_h) (mem : block) (s : STRING)
    : Prop :=
  let tok := take (Z.to_nat MAX_TOKEN) (str_bytes s) in
  ∃ ts, emitted_tokens Y mem s = Some ts ∧
        length ts = (2 ^ count_letters tok)%nat ∧
        head ts = Some {| tk_backtrack := 0; tk_bytes := tok |}.

(** ** Hex patterns *)

(** For each byte position of a hex pattern, whether the byte is a
    significant literal outside the alternations, up to the end of the mask
    or its first variable-width skip: [inside_or] tells whether the stream
    starts inside an alternation. *)
Fixpoint literal_flags (Y : yara_h) (inside_or : bool) (mask : list Z)
    : list bool :=
  match mask with
  | [] => []
  | m :: rest =>
    if m =? MASK_END Y then []
    else if m =? MASK_RANGE_SKIP Y then []
    else if m =? MASK_EXACT_SKIP Y then
      match rest with
      | [] => []
      | _ :: rest' => literal_flags Y inside_or rest'
      end
    else if m =? MASK_OR Y then literal_flags Y true rest
    else if m =? MASK_OR_END Y then literal_flags Y false rest
    else ((m =? 255) && negb inside_or) :: literal_flags Y inside_or rest
  end.

(** The positions [pos, pos + len) all hold such literals. *)
Definition literal_window (flags : list bool) (pos len : Z) : Prop :=
  0 ≤ pos ∧ 0 ≤ len ∧
  ∀ k : nat, pos ≤ Z.of_nat k < pos + len → flags !! k = Some true.

(** The number of distinct bytes of a window. *)
Definition distinct_bytes (w : list Z) : Z :=
  Z.of_nat (length (remove_dups w)).

(** The state at the head of the scan loop once the mask bytes [pre] have
    been consumed, none of them ending the scan. *)
Fixpoint hex_run (Y : yara_h) (str : list Z) (max_token_length : Z)
    (pre : list Z) (st : hex_state) : option hex_state :=
  match pre with
  | [] => Some st
  | m :: pre' =>
    if m =? MASK_END Y then None
    else
      match hex_body str max_token_length (test_mask Y m) st with
      | (HEX_BREAK, _) => None
      | (HEX_NEXT, st') => hex_run Y str max_token_length pre' st'
      | (HEX_SKIP, st') =>
        match pre' with
        | [] => None
        | count :: pre'' =>
          hex_run Y str max_token_length pre'' (hex_add_skip count st')
        end
      end
  end.

(** The claim that the token of a hex pattern has the most distinct bytes
    of all windows of literals of at most [MAX_TOKEN] bytes, and is the
    longest among those with as many. *)
Definition chooses_most_distinct (Y : yara_h) (s : STRING) : Prop :=
  ∀ st, hex_scan Y (str_bytes s) MAX_TOKEN (str_mask s) hex_init = Some st →
  ∀ pos len, 0 < len ≤ MAX_TOKEN →
    literal_window (literal_flags Y false (str_mask s)) pos len →
    let other := bytes_from (str_bytes s) pos len in
    let chosen := bytes_from (str_bytes s) (hx_candidate_token_position st)
                    (hx_candidate_token_length st) in
    distinct_bytes other < distinct_bytes chosen ∨
    (distinct_bytes other = distinct_bytes chosen ∧
     len ≤ hx_candidate_token_length st).

(** The hex pattern 01 02 ?? 00 00 00. *)
Definition two_then_zeros : STRING :=
  hex_string [1; 2; 0; 0; 0; 0] [255; 255; 0; 255; 255; 255; 5].

Definition or_tests : mask_tests :=
  {| is_literal := false; is_or := true; is_or_end := false;
     is_exact_skip := false; is_range_skip := false |}.
Definition or_end_tests : mask_tests :=
  {| is_literal := false; is_or := false; is_or_end := true;
     is_exact_skip := false; is_range_skip := false |}.
Definition exact_skip_tests : mask_tests :=
  {| is_literal := false; is_or := false; is_or_end := false;
     is_exact_skip := true; is_range_skip := false |}.
Definition range_skip_tests : mask_tests :=
  {| is_literal := false; is_or := false; is_or_end := false;
     is_exact_skip := false; is_range_skip := true |}.

(** The candidate of a scan state is a window of literals of at most
    [max] bytes among the positions [flags] describes. *)
Definition candidate_ok (max : Z) (flags : list bool) (st : hex_state)
    : Prop :=
  hx_candidate_token_length st ≤ max ∧
  hx_candidate_token_position st + hx_candidate_token_length st
    ≤ Z.of_nat (length flags) ∧
  literal_window flags (hx_candidate_token_position st)
    (hx_candidate_token_length st).

(** What holds at the head of the scan loop when [flags] describes the
    positions consumed: the position, and the run of literals that ends
    there. *)
Definition hex_inv (max : Z) (flags : list bool) (st : hex_state) : Prop :=
  hx_string_position st = Z.of_nat (length flags) ∧
  0 ≤ hx_token_length st ≤ max ∧
  hx_token_length st ≤ Z.of_nat (length flags) ∧
  literal_window flags (Z.of_nat (length flags) - hx_token_length st)
    (hx_token_length st) ∧
  candidate_ok max flags st.

(** [last], a ring of [max] slots, holds the bytes at the positions
    [lo, hi): the byte of position [q] sits in slot [q mod max], and every
    slot holds the byte of one of these positions. *)
Definition ring_holds (str : list Z) (max : Z) (ring : list Z) (lo hi : Z)
    : Prop :=
  length ring = Z.to_nat max ∧
  (∀ q, lo ≤ q < hi → ring !! Z.to_nat (q mod max) = Some (byte_at str q)) ∧
  (∀ j x, ring !! j = Some x → ∃ q, lo ≤ q < hi ∧ x = byte_at str q).

Definition ring_ok (str : list Z) (max : Z) (st : hex_state) : Prop :=
  0 < hx_token_length st →
  ring_holds str max (hx_last st)
    (hx_string_position st - hx_token_length st) (hx_string_position st).

(** [last] after the body has seen a literal at the position of [st]. *)
Definition ring_write (str : list Z) (max : Z) (st : hex_state) : list Z :=
  <[Z.to_nat (Z.rem (hx_string_position st) max) :=
      byte_at str (hx_string_position st)]>
    (if hx_token_length st =? 0
     then replicate (Z.to_nat max) (byte_at str (hx_string_position st))
     else hx_last st).

(** The candidate of a state: position, length, backtrack and recorded
    count. *)
Definition candidate (st : hex_state) : Z * Z * Z * Z :=
  (hx_candidate_token_position st, hx_candidate_token_length st,
   hx_candidate_token_backtrack st, hx_max_unique_bytes st).

(** What a mask byte is to the choice of the token: a significant byte
    outside the alternations; any other byte of the pattern ([counted]
    tells whether it lies outside the alternations, where bytes count for
    the backtrack); or a sentinel, which stands for no byte of the pattern
    and lets the backtrack jump by the length of a skip or of the branches
    of an alternation. *)
Inductive hex_event :=
  | EV_LITERAL
  | EV_OTHER (counted : bool)
  | EV_GAP (jump : Z).

(** The events of a mask, up to its end, its first variable-width skip or
    its first alternation whose branches differ in length: [inside_or]
    tells whether the mask starts inside an alternation, [or_length] is the
    length of the current branch so far and [previous] the length of the
    branches before it, 0 when there is none. *)
Fixpoint hex_events (Y : yara_h) (inside_or : bool) (or_length previous : Z)
    (mask : list Z) : list hex_event :=
  match mask with
  | [] => []
  | m :: rest =>
    if m =? MASK_END Y then []
    else if m =? MASK_EXACT_SKIP Y then
      match rest with
      | [] => []
      | count :: rest' =>
        EV_GAP count :: hex_events Y inside_or or_length previous rest'
      end
    else if m =? MASK_RANGE_SKIP Y then []
    else if (m =? MASK_OR Y) || (m =? MASK_OR_END Y) then
      let branch := if previous =? 0 then or_length else previous in
      if or_length =? branch then
        if m =? MASK_OR_END Y
        then EV_GAP branch :: hex_events Y false 0 0 rest
        else EV_GAP 0 :: hex_events Y true 0 branch rest
      else []
    else
      (if (m =? 255) && negb inside_or then EV_LITERAL
       else EV_OTHER (negb inside_or))
      :: hex_events Y inside_or
           (if inside_or then or_length + 1 else or_length) previous rest
  end.

(** The choice of the token, event by event: [pos] is the position in the
    pattern, [run] the number of literals that end just before it, capped
    by [max], [bt] the backtrack of the position, and [cand] the candidate
    (position, length, backtrack and recorded count of distinct bytes). At
    a literal the window of the last [n] literals, [n] the length of the
    run capped by [max], replaces the candidate when it has more distinct
    bytes than the count recorded or is longer than the candidate, and the
    choice is made when the window has [max] bytes, all distinct. Any other
    event ends the run and leaves the candidate. *)
Fixpoint greedy_choice (str : list Z) (max : Z) (evs : list hex_event)
    (pos run bt : Z) (cand : Z * Z * Z * Z) : Z * Z * Z * Z :=
  match evs with
  | [] => cand
  | EV_GAP jump :: evs' => greedy_choice str max evs' pos 0 (bt + jump) cand
  | EV_OTHER counted :: evs' =>
    greedy_choice str max evs' (pos + 1) 0
      (if counted then bt + 1 else bt) cand
  | EV_LITERAL :: evs' =>
    let n := Z.min (run + 1) max in
    let u := distinct_bytes (bytes_from str (pos - n + 1) n) in
    let '(_, cand_length, _, cand_count) := cand in
    if (cand_count <? u) || (cand_length <? n) then
      let window := (pos - n + 1, n, bt - n + 1, u) in
      if (n =? max) && (u =? max) then window
      else greedy_choice str max evs' (pos + 1) n (bt + 1) window
    else greedy_choice str max evs' (pos + 1) n (bt + 1) cand
  end.

(** The hex pattern 01 02 ?? 05. *)
Definition two_wildcard_one : STRING :=
  hex_string [1; 2; 0; 5] [255; 255; 0; 255; 5].

(** ** The trie in the arena *)

(** The representation of a state is the one its depth calls for. *)
Definition repr_ok (s : AC_STATE) : Prop :=
  match transitions s with
  | TABLE t => depth s ≤ MAX_TABLE_BASED_STATES_DEPTH ∧ length t = 256%nat
  | LIST _ => MAX_TABLE_BASED_STATES_DEPTH < depth s
  end.

Definition is_table_based (s : AC_STATE) : Prop :=
  ∃ t, transitions s = TABLE t.

(** [s] has a transition to [c] on the byte [b]. *)
Definition transition (s : AC_STATE) (b : Z) (c : ptr) : Prop :=
  match transitions s with
  | TABLE t => 0 ≤ b ∧ t !! Z.to_nat b = Some (Some c)
  | LIST l => (b, c) ∈ l
  end.

(** Every state has the representation of its depth, and its transitions
    lead to states of the arena that are one level deeper. *)
Definition state_wf (a : ARENA) (s : AC_STATE) : Prop :=
  0 ≤ depth s ∧ repr_ok s ∧
  ∀ b c, transition s b c →
    ∃ sc, states a !! c = Some sc ∧ depth sc = depth s + 1.

Definition arena_wf (a : ARENA) : Prop :=
  ∀ p s, states a !! p = Some s → state_wf a s.

Definition is_byte (b : Z) : Prop := 0 ≤ b < 256.

(** The state reached from [state] along the bytes of a token. *)
Fixpoint follow (a : ARENA) (state : ptr) (bytes : list Z) : option ptr :=
  match bytes with
  | [] => Some state
  | b :: bytes' =>
    next ← yr_ac_next_state a state b;
    follow a next bytes'
  end.

(** [a'] holds the states of [a] with their depth, failure link and output
    chain, the transitions of [a], and the records of [a]; the states it
    adds have no output record. *)
Definition arena_extends (a a' : ARENA) : Prop :=
  (∀ p sp, states a !! p = Some sp →
     ∃ sp', states a' !! p = Some sp' ∧ depth sp' = depth sp ∧
            matches sp' = matches sp ∧ failure sp' = failure sp) ∧
  (∀ p b c, is_byte b → yr_ac_next_state a p b = Some c →
     yr_ac_next_state a' p b = Some c) ∧
  (∀ p sp', states a !! p = None → states a' !! p = Some sp' →
     matches sp' = None) ∧
  match_records a' = match_records a.

(** The records of an output chain, from its head to the record whose
    [next] is null. *)
Inductive chain_of (a : ARENA) : option ptr → list ptr → Prop :=
  | chain_nil : chain_of a None []
  | chain_cons m r l :
      match_records a !! m = Some r →
      chain_of a (m_next r) l →
      chain_of a (Some m) (m :: l).

(** The head of the output chain of [p], null when [p] is not a state. *)
Definition matches_of (a : ARENA) (p : ptr) : option ptr :=
  s ← states a !! p; matches s.

(** What inserting the token [t] of the pattern [s] into [a] leaves in
    [a']: the state reached from the root along the bytes of [t] is at the
    depth of the length of [t], and its output chain is a new record for [s]
    with the backtrack of [t] added to that depth, followed by the chain the
    state had in [a]. *)
Definition token_attached (a : ARENA) (root_state : ptr) (s : STRING)
    (t : token) (a' : ARENA) : Prop :=
  ∃ terminal st m,
    follow a' root_state (tk_bytes t) = Some terminal ∧
    states a' !! terminal = Some st ∧
    depth st = tk_length t ∧
    matches st = Some m ∧
    match_records a !! m = None ∧
    match_records a' !! m =
      Some {| m_backtrack := depth st + tk_backtrack t; m_string := s;
              m_next := matches_of a terminal |} ∧
    (∀ l, chain_of a (matches_of a terminal) l →
          chain_of a' (Some m) (m :: l)).

(** The tokens [ts] inserted one after the other. *)
Inductive tokens_attached (root_state : ptr) (s : STRING)
    : ARENA → list token → ARENA → Prop :=
  | attached_nil a : tokens_attached root_state s a [] a
  | attached_cons a t a1 ts a' :
      token_attached a root_state s t a1 →
      tokens_attached root_state s a1 ts a' →
      tokens_attached root_state s a (t :: ts) a'.

(** The bytes of a pattern and of its first-byte set are bytes. *)
Definition string_wf (s : STRING) : Prop :=
  Forall is_byte (str_bytes s) ∧ Forall is_byte (re_first_bytes s).

(** The smallest length among the tokens, capped by [bound]. *)
Definition min_length (bound : Z) (ts : list token) : Z :=
  foldl (λ m t, Z.min m (tk_length t)) bound ts.

(** The origin of a new state once the transition is installed, and the
    new state once its depth is set. *)
Definition linked_origin (s : AC_STATE) (input : Z) (n : ptr) : AC_STATE :=
  if depth s <=? MAX_TABLE_BASED_STATES_DEPTH
  then set_table_entry input n s
  else push_transition input n s.

Definition created_state (s : AC_STATE) : AC_STATE :=
  {| depth := depth s + 1; failure := None; matches := None;
     transitions := if depth s <? MAX_TABLE_BASED_STATES_DEPTH
                    then empty_table else LIST [] |}.

(** [a'] has the states of [a] with their depth and transitions: the two
    arenas hold the same trie. *)
Definition same_shape (a a' : ARENA) : Prop :=
  length (states a') = length (states a) ∧
  ∀ p s, states a !! p = Some s →
    ∃ s', states a' !! p = Some s' ∧ depth s' = depth s ∧
          transitions s' = transitions s.

(** The records written for a token with backtrack 0: the token, followed
    by its other case variants when the pattern is case-insensitive. *)
Definition token_records (nocase : bool) (tok : list Z) : list token :=
  match tok with
  | [] => [{| tk_backtrack := 0; tk_bytes := [] |}]
  | _ =>
    if nocase then variant_tokens 0 [] (case_variants tok)
    else [{| tk_backtrack := 0; tk_bytes := tok |}]
  end.

(** All that is written for the token: the records of [token_records], and
    for a token without bytes of a case-insensitive pattern a second record
    without bytes when the byte [past], found behind the token, is a
    letter. *)
Definition written_records (nocase : bool) (past : Z) (tok : list Z)
    : list token :=
  token_records nocase tok ++
  match tok with
  | [] => if nocase && is_letter past
          then [{| tk_backtrack := 0; tk_bytes := [] |}] else []
  | _ => []
  end.

(** The lengths the scan of a hex pattern keeps are within the bound. *)
Definition hex_lengths_ok (max : Z) (st : hex_state) : Prop :=
  0 ≤ hx_token_length st ≤ max ∧ 0 ≤ hx_candidate_token_length st ≤ max.

(** The pattern [s] is attached to the root of [a] in [a']: the output
    chain of the root is a new record for [s] with backtrack 0, followed by
    the chain the root had in [a]. *)
Definition root_attached (a : ARENA) (root_state : ptr) (s : STRING)
    (a' : ARENA) : Prop :=
  ∃ m,
    matches_of a' root_state = Some m ∧
    match_records a !! m = None ∧
    match_records a' !! m =
      Some {| m_backtrack := 0; m_string := s;
              m_next := matches_of a root_state |} ∧
    (∀ l, chain_of a (matches_of a root_state) l →
          chain_of a' (Some m) (m :: l)).

(** The requests to the arena that suffice for adding a pattern with the
    tokens [ts]: for every token, a state and its link for each byte and
    one output record; one output record for a pattern without token. *)
Definition requests_for (ts : list token) : nat :=
  match ts with
  | [] => 1
  | _ => foldr (λ t n, 2 * length (tk_bytes t) + 1 + n) 0 ts
  end%nat.

(** [m] is the smallest length of the tokens [ts]. *)
Definition is_min_length (m : Z) (ts : list token) : Prop :=
  (∃ t, t ∈ ts ∧ m = tk_length t) ∧ ∀ t, t ∈ ts → m ≤ tk_length t.

(** ** Example automata *)

(** The arena and the automaton [yr_ac_create_automaton] returns in an
    empty arena with room for 100 requests. *)
Definition example_arena : ARENA :=
  (yr_ac_create_automaton (empty_arena 100)).1.2.

Definition example_automaton : AC_AUTOMATON := {| root := 0 |}.

(** The ASCII pattern "she". *)
Definition she : STRING := ascii 0 [115; 104; 101].

(** The arena once "she" has been added to the example automaton. *)
Definition arena_with_she : ARENA :=
  match yr_ac_add_string yara_h_example (Some zeros) example_arena
          example_automaton she 0 with
  | Some (_, a, _) => a
  | None => example_arena
  end.

(** The example arena after the state for the byte 's' has been created
    under its root. *)
Definition arena_with_s : ARENA :=
  (_yr_ac_create_state example_arena 0 115).2.

(** ** The queue as a list *)

(** The operations on a queue and what each lets the caller see. *)
Inductive queue_op :=
  | OP_PUSH (value : option ptr)
  | OP_POP
  | OP_IS_EMPTY.

Inductive queue_obs :=
  | OBS_STATUS (s : status)
  | OBS_VALUE (v : option ptr)
  | OBS_EMPTY (b : bool).

(** The linked queue under one operation. *)
Definition queue_step (h : HEAP) (q : QUEUE) (op : queue_op)
    : queue_obs * (HEAP * QUEUE) :=
  match op with
  | OP_PUSH v =>
    let '(s, h, q) := _yr_ac_queue_push h q v in (OBS_STATUS s, (h, q))
  | OP_POP =>
    let '(v, h, q) := _yr_ac_queue_pop h q in (OBS_VALUE v, (h, q))
  | OP_IS_EMPTY => (OBS_EMPTY (_yr_ac_queue_is_empty q), (h, q))
  end.

Fixpoint queue_run (h : HEAP) (q : QUEUE) (ops : list queue_op)
    : list queue_obs :=
  match ops with
  | [] => []
  | op :: ops' =>
    let '(obs, (h, q)) := queue_step h q op in obs :: queue_run h q ops'
  end.

(** A first-in first-out queue that holds at most [limit] values: a push
    appends at the end, a pop takes the first value, and nothing else. *)
Definition fifo_step (limit : nat) (l : list (option ptr)) (op : queue_op)
    : queue_obs * list (option ptr) :=
  match op with
  | OP_PUSH v =>
    if decide (length l < limit)%nat
    then (OBS_STATUS ERROR_SUCCESS, l ++ [v])
    else (OBS_STATUS ERROR_INSUFICIENT_MEMORY, l)
  | OP_POP =>
    match l with
    | [] => (OBS_VALUE None, [])
    | v :: l' => (OBS_VALUE v, l')
    end
  | OP_IS_EMPTY => (OBS_EMPTY (bool_decide (l = [])), l)
  end.

Fixpoint fifo_run (limit : nat) (l : list (option ptr))
    (ops : list queue_op) : list queue_obs :=
  match ops with
  | [] => []
  | op :: ops' =>
    let '(obs, l) := fifo_step limit l op in obs :: fifo_run limit l ops'
  end.

(** The nodes [ns] (address and value), linked in this order from [p], the
    first one with [prev] for its [previous] field. *)
Fixpoint linked (m : gmap nat QUEUE_NODE) (prev p : option nat)
    (ns : list (nat * option ptr)) : Prop :=
  match ns with
  | [] => p = None
  | (x, v) :: ns' =>
    p = Some x ∧
    ∃ nx, m !! x = Some {| qn_value := v; qn_previous := prev;
                           qn_next := nx |} ∧
          linked m (Some x) nx ns'
  end.

(** The queue [q] in the heap [h] holds the nodes [ns], and the heap
    nothing else. *)
Definition queue_rep (h : HEAP) (q : QUEUE) (ns : list (nat * option ptr))
    : Prop :=
  NoDup ns.*1 ∧
  linked (nodes h) None (q_head q) ns ∧
  q_tail q = fst <$> last ns ∧
  dom (nodes h) = list_to_set ns.*1.

(** ** Breadth-first order *)

(** The depth of the state at [p]. *)
Definition depth_of (a : ARENA) (p : ptr) : Z :=
  default 0 (depth <$> states a !! p).

Definition depth_is (a : ARENA) (p : ptr) (d : Z) : Prop :=
  ∃ s, states a !! p = Some s ∧ depth s = d.

(** [c] is a child of [p] in the trie. *)
Definition is_child (a : ARENA) (p c : ptr) : Prop :=
  ∃ s b, states a !! p = Some s ∧ transition s b c.

Definition non_decreasing (l : list Z) : Prop :=
  ∀ (i j : nat) x y, l !! i = Some x → l !! j = Some y → (i ≤ j)%nat → x ≤ y.

(** The states waiting in a breadth-first traversal: states of depth [d],
    then states of depth [d + 1]. *)
Definition frontier (a : ARENA) (d : Z) (ps : list ptr) : Prop :=
  ∃ ps1 ps2, ps = ps1 ++ ps2 ∧
    Forall (λ p, depth_is a p d) ps1 ∧
    Forall (λ p, depth_is a p (d + 1)) ps2.

(** At the head of the traversal loop: the arena holds the trie of [a0],
    and the queue a frontier of it. *)
Definition bfs_inv (a0 : ARENA) (d : Z) (a : ARENA) (h : HEAP) (q : QUEUE)
    : Prop :=
  same_shape a0 a ∧
  ∃ ns ps, queue_rep h q ns ∧ ns.*2 = Some <$> ps ∧ frontier a0 d ps.

(** The example arena with the states for "s", "h" and "sh", created in
    this order. *)
Definition arena_s_h_sh : ARENA :=
  (_yr_ac_create_state (_yr_ac_create_state arena_with_s 0 104).2 1 104).2.

(** The order in which the traversal dequeues the states of the automaton
    built for the patterns "she", "he", "his" and "hers". *)
Definition example_visit_order (i : Z) : option (list ptr) :=
  match yr_ac_create_automaton (empty_arena 100) with
  | (_, a, AUTOMATON automaton) =>
    a ← add_all yara_h_example a automaton she_he_his_hers;
    '(a1, h1, q1) ← failure_links_init 100 a (empty_heap 100) automaton;
    Some (visit_order 100 100 i (root automaton) a1 h1 q1)
  | _ => None
  end.

(** Three pushes into a heap with room for two nodes, then pops. *)
Definition example_ops : list queue_op :=
  [OP_IS_EMPTY; OP_PUSH (Some 1%nat); OP_PUSH (Some 2%nat);
   OP_PUSH (Some 3%nat); OP_POP; OP_IS_EMPTY; OP_POP; OP_IS_EMPTY; OP_POP].

(** The example arena once "she" and then a pattern without bytes have been
    added: the state for "she" and the root have one output record each. *)
Definition arena_she_and_empty : ARENA :=
  default example_arena
    (add_all yara_h_example example_arena example_automaton
       [she; ascii 1 []]).

(** The states for "she" and for "he" in the automaton built for the
    patterns "she", "he", "his" and "hers", and the failure link of the
    former, once [yr_ac_create_failure_links] has run with the value [i] in
    its local variable of that name. *)
Definition she_and_he (i : Z) : option (ptr * ptr * option ptr) :=
  '(_, a') ← built i;
  she_state ← follow a' 0 [115; 104; 101];
  he_state ← follow a' 0 [104; 101];
  s ← states a' !! she_state;
  Some (she_state, he_state, failure s).

(** The failure link that is found for "she": the state for "h" when the
    byte of [i] is 'h', the state for "s" when it is 's', the root
    otherwise. *)
Definition she_failure_found (i : Z) : ptr :=
  if decide (uint8 i = 104) then 4%nat
  else if decide (uint8 i = 115) then 1%nat
  else 0%nat.

(** ** More of the queue, the trie and the generators *)

(** The heap and the queue after a sequence of operations. *)
Fixpoint queue_exec (h : HEAP) (q : QUEUE) (ops : list queue_op)
    : HEAP * QUEUE :=
  match ops with
  | [] => (h, q)
  | op :: ops' => let '(_, (h, q)) := queue_step h q op in queue_exec h q ops'
  end.

(** The loop [child = _yr_ac_first_child(state, &iterator);
    while (child != NULL) { ...; child = _yr_ac_next_child(state,
    &iterator); }] of the source, collecting the children it meets. *)
Fixpoint children_from (fuel : nat) (a : ARENA) (state : ptr)
    (child : option (ptr * Z)) : list ptr :=
  match child, fuel with
  | Some (c, iterator), S fuel' =>
    c :: children_from fuel' a state (_yr_ac_next_child a state iterator)
  | _, _ => []
  end.

Definition children (fuel : nat) (a : ARENA) (state : ptr) : list ptr :=
  children_from fuel a state (_yr_ac_first_child a state).

(** The targets of the transitions of a state: the entries of its table
    that are not null, by increasing byte, or the states of its chain of
    transition records, newest first. *)
Definition targets (s : AC_STATE) : list ptr :=
  match transitions s with
  | TABLE t => omap id t
  | LIST l => l.*2
  end.

(** The wide form of a text: each byte followed by a zero byte. *)
Definition widen (str : list Z) : list Z := str ≫= λ c, [c; 0].

(** The ASCII and wide text pattern "ab". *)
Definition ascii_wide_ab : STRING := text_string 0 true true false [97; 98].

(** The regular expression [.*abc] with the 32 first bytes 0 to 31. *)
Definition dot_star_abc_32 : STRING :=
  regexp_string false [46; 42; 97; 98; 99] (seqZ 0 32).

(** The literal prefix the scan of [_yr_ac_gen_regexp_tokens] accepts: the
    bytes of the token of a regular expression, none when the expression
    does not start with literals. *)
Definition regexp_prefix (Y : yara_h) (s : STRING) : list Z :=
  regexp_scan Y (str_bytes s) (str_length s) MAX_TOKEN (Z.to_nat MAX_TOKEN)
    (if byte_at (str_bytes s) 0 =? 94 then 1 else 0) [].

(** ** What the failure-link pass changes *)

(** [a'] holds the trie of [a] and its output records with their pattern
    and backtrack: the two differ in failure links, in the heads of output
    chains and in the [next] fields of output records only. *)
Definition links_only (a a' : ARENA) : Prop :=
  same_shape a a' ∧ room a' = room a ∧
  length (match_records a') = length (match_records a) ∧
  ∀ m r, match_records a !! m = Some r →
    ∃ r', match_records a' !! m = Some r' ∧
          m_backtrack r' = m_backtrack r ∧ m_string r' = m_string r.

(** The failure link of the root leads to the root, and every other
    failure link of [a] to a state of the trie [a0] that is nearer to the
    root than the state that has the link. *)
Definition links_shallower (a0 : ARENA) (root_state : ptr) (a : ARENA)
    : Prop :=
  (∃ sr, states a !! root_state = Some sr ∧ failure sr = Some root_state) ∧
  ∀ p s f, states a !! p = Some s → failure s = Some f → p ≠ root_state →
    ∃ sf, states a0 !! f = Some sf ∧ depth sf < depth_of a0 p.

(** No state has a failure link yet. *)
Definition no_failure_links (a : ARENA) : Prop :=
  ∀ p s, states a !! p = Some s → failure s = None.

(** ** What adding a pattern keeps *)

(** [a'] keeps what [a] holds: every state with its depth and its failure
    link, every transition, every output record, and the output chain of
    every state as the end of the chain the state has in [a']. *)
Definition trie_grows (a a' : ARENA) : Prop :=
  (∀ p sp, states a !! p = Some sp →
     ∃ sp', states a' !! p = Some sp' ∧ depth sp' = depth sp ∧
            failure sp' = failure sp ∧
            ∀ l, chain_of a (matches sp) l →
                 ∃ pre, chain_of a' (matches sp') (pre ++ l)) ∧
  (∀ p b c, is_byte b → yr_ac_next_state a p b = Some c →
            yr_ac_next_state a' p b = Some c) ∧
  (∃ more, match_records a' = match_records a ++ more).

(** Every state has an output chain that ends. *)
Definition chains_ok (a : ARENA) : Prop :=
  ∀ p sp, states a !! p = Some sp → ∃ l, chain_of a (matches sp) l.

(** A well-formed automaton: a well-formed trie whose output chains end and
    whose root is at depth 0. *)
Definition automaton_ok (a : ARENA) (root_state : ptr) : Prop :=
  arena_wf a ∧ chains_ok a ∧
  ∃ sr, states a !! root_state = Some sr ∧ depth sr = 0.

(** The token [t] of the pattern [s] can be looked up in [a]: its bytes
    lead from the root to a state at the depth of its length, whose output
    chain has a record for [s] with the backtrack of the token added to
    that depth. *)
Definition listed (a : ARENA) (root_state : ptr) (s : STRING) (t : token)
    : Prop :=
  ∃ terminal st l m r,
    follow a root_state (tk_bytes t) = Some terminal ∧
    states a !! terminal = Some st ∧
    depth st = tk_length t ∧
    chain_of a (matches st) l ∧ m ∈ l ∧
    match_records a !! m = Some r ∧
    m_string r = s ∧ m_backtrack r = tk_length t + tk_backtrack t.

(** The bytes of a buffer are bytes. *)
Definition cell_ok (c : cell) : Prop :=
  match c with
  | BYTE b => is_byte b
  | INT _ => True
  end.

(** The record of a pattern from which no token could be extracted. *)
Definition no_token : token := {| tk_backtrack := 0; tk_bytes := [] |}.

(** The arena once "she" and then "he" have been added to the example
    automaton. *)
Definition arena_she_he : ARENA :=
  default example_arena
    (add_all yara_h_example example_arena example_automaton
       [she; ascii 1 [104; 101]]).

(** The example arena with room for three more requests only. *)
Definition example_arena_room3 : ARENA :=
  {| states := states example_arena;
     match_records := match_records example_arena; room := 3 |}.

(** ** Hex patterns of bytes and wildcards *)

(** A mask of significant bytes and wildcarded bytes only: no alternation
    and no skip. *)
Definition simple_mask (Y : yara_h) (pre : list Z) : Prop :=
  Forall (λ m, m = 255 ∨ is_wildcard Y m) pre.

(** The scan is outside alternations, and its backtrack and the backtrack
    of its candidate are positions in the pattern. *)
Definition backtrack_is_position (st : hex_state) : Prop :=
  hx_inside_or st = false ∧
  hx_backtrack st = hx_string_position st ∧
  hx_candidate_token_backtrack st = hx_candidate_token_position st.

(** The hex pattern AA ?? 01 02 03 04 05, with [w] the mask of a wildcarded
    byte. *)
Definition wildcard_then_five (Y : yara_h) (w : Z) : STRING :=
  hex_string [170; 0; 1; 2; 3; 4; 5]
    [255; w; 255; 255; 255; 255; 255; MASK_END Y].

(** ** Several patterns *)

(** The patterns [l] added one after the other by successful calls of
    [yr_ac_add_string]. *)
Inductive adds (Y : yara_h) (automaton : AC_AUTOMATON)
    : ARENA → list STRING → ARENA → Prop :=
  | adds_nil a : adds Y automaton a [] a
  | adds_cons a s mem min0 a1 m l a' :
      yr_ac_add_string Y (Some mem) a automaton s min0
        = Some (ERROR_SUCCESS, a1, m) →
      adds Y automaton a1 l a' →
      adds Y automaton a (s :: l) a'.

(** The pattern "he". *)
Definition he : STRING := ascii 1 [104; 101].

(** No state is deeper than [bound]. *)
Definition depth_bounded (bound : Z) (a : ARENA) : Prop :=
  ∀ p sp, states a !! p = Some sp → depth sp ≤ bound.

(** ** Regular expressions *)

(** The pattern [s] with other bytes. *)
Definition with_bytes (s : STRING) (bytes : list Z) : STRING :=
  {| identifier := identifier s; is_hex := is_hex s;
     is_regexp := is_regexp s; is_ascii := is_ascii s; is_wide := is_wide s;
     is_no_case := is_no_case s; str_bytes := bytes; str_mask := str_mask s;
     re_first_bytes := re_first_bytes s |}.

(** The byte after the first one, 0 when there is none: what the scan of a
    regular expression looks at to tell a quantifier. *)
Definition second_byte (s : STRING) : Z :=
  if 1 <? str_length s then byte_at (str_bytes s) 1 else 0.

(** The regular expression [abc.*]. *)
Definition abc_dot_star : STRING :=
  regexp_string false [97; 98; 99; 46; 42] (seqZ 0 32).


(** * Properties *)

(** ** The hex scan on the mask bytes of a pattern *)

Section mask_tests.
Variable Y : yara_h.
Hypothesis Hdistinct : masks_distinct Y.

Lemma masks_distinct_inv :
  255 ≠ MASK_OR Y ∧ 255 ≠ MASK_OR_END Y ∧ 255 ≠ MASK_EXACT_SKIP Y ∧
  255 ≠ MASK_RANGE_SKIP Y ∧ 255 ≠ MASK_END Y ∧
  MASK_OR Y ≠ MASK_OR_END Y ∧ MASK_OR Y ≠ MASK_EXACT_SKIP Y ∧
  MASK_OR Y ≠ MASK_RANGE_SKIP Y ∧ MASK_OR Y ≠ MASK_END Y ∧
  MASK_OR_END Y ≠ MASK_EXACT_SKIP Y ∧ MASK_OR_END Y ≠ MASK_RANGE_SKIP Y ∧
  MASK_OR_END Y ≠ MASK_END Y ∧
  MASK_EXACT_SKIP Y ≠ MASK_RANGE_SKIP Y ∧ MASK_EXACT_SKIP Y ≠ MASK_END Y ∧
  MASK_RANGE_SKIP Y ≠ MASK_END Y.
Proof.
  red in Hdistinct. rewrite !NoDup_cons, !elem_of_cons in Hdistinct.
  intuition congruence.
Qed.


Lemma test_mask_literal : test_mask Y 255 = literal_tests.
Proof.
  destruct masks_distinct_inv as (?&?&?&?&?&_).
  unfold test_mask, literal_tests. f_equal; try reflexivity;
    by apply Z.eqb_neq.
Qed.

Lemma test_mask_wildcard w : is_wildcard Y w → test_mask Y w = wildcard_tests.
Proof.
  unfold is_wildcard. rewrite !not_elem_of_cons. intros (?&?&?&?&?&?&_).
  unfold test_mask, wildcard_tests. f_equal; by apply Z.eqb_neq.
Qed.

Lemma hex_scan_step str max m rest st :
  m ≠ MASK_END Y →
  hex_scan Y str max (m :: rest) st =
    match hex_body str max (test_mask Y m) st with
    | (HEX_BREAK, st') => Some st'
    | (HEX_NEXT, st') => hex_scan Y str max rest st'
    | (HEX_SKIP, st') =>
      match rest with
      | [] => None
      | count :: rest' => hex_scan Y str max rest' (hex_add_skip count st')
      end
    end.
Proof. intros Hm. simpl. apply Z.eqb_neq in Hm. by rewrite Hm. Qed.

Lemma hex_scan_literal str max rest st :
  hex_scan Y str max (255 :: rest) st =
    match hex_body str max literal_tests st with
    | (HEX_BREAK, st') => Some st'
    | (HEX_NEXT, st') => hex_scan Y str max rest st'
    | (HEX_SKIP, st') =>
      match rest with
      | [] => None
      | count :: rest' => hex_scan Y str max rest' (hex_add_skip count st')
      end
    end.
Proof.
  rewrite hex_scan_step, test_mask_literal; [done|].
  by destruct masks_distinct_inv as (?&?&?&?&?&_).
Qed.

Lemma hex_scan_wildcard str max w rest st :
  is_wildcard Y w →
  hex_scan Y str max (w :: rest) st =
    match hex_body str max wildcard_tests st with
    | (HEX_BREAK, st') => Some st'
    | (HEX_NEXT, st') => hex_scan Y str max rest st'
    | (HEX_SKIP, st') =>
      match rest with
      | [] => None
      | count :: rest' => hex_scan Y str max rest' (hex_add_skip count st')
      end
    end.
Proof.
  intros Hw. rewrite hex_scan_step, test_mask_wildcard; [done..|].
  unfold is_wildcard in Hw. rewrite !not_elem_of_cons in Hw. tauto.
Qed.

Lemma hex_scan_end str max rest st :
  hex_scan Y str max (MASK_END Y :: rest) st = Some st.
Proof. simpl. by rewrite Z.eqb_refl. Qed.
End mask_tests.

(** Runs the body of the scan on the mask byte at the head of the stream. *)
Ltac hex_run_body :=
  match goal with
  | |- context [hex_body ?s ?m ?k ?st] =>
    let r := eval vm_compute in (hex_body s m k st) in
    change (hex_body s m k st) with r; cbv beta iota
  end.

Ltac hex_step :=
  first [ rewrite hex_scan_literal by assumption
        | rewrite hex_scan_wildcard by assumption ];
  hex_run_body.

(** C2: on the hex pattern 98 56 ?? ?? 00 00 00 00 34 EB 45 97 21, with
    maximum token length 4, the generator does emit exactly one record, but
    it is 00 34 EB 45 with backtrack 7: the scan stops at the first window
    with four distinct bytes, one position before 34 EB 45 97. *)
Theorem hex_tokens_of_comment_pattern (Y : yara_h) (mem : block) (w : Z) :
  masks_distinct Y → is_wildcard Y w →
  emitted_tokens Y mem (comment_pattern Y w) =
    Some [{| tk_backtrack := 7; tk_bytes := [0x00; 0x34; 0xEB; 0x45] |}].
Proof.
  intros Hd Hw.
  unfold emitted_tokens, _yr_ac_gen_tokens, comment_pattern, hex_string.
  cbn [is_hex]. unfold _yr_ac_gen_hex_tokens. cbn [str_bytes str_mask].
  unfold MAX_TOKEN.
  do 11 hex_step.
  reflexivity.
Qed.

Lemma masks_distinct_example : masks_distinct yara_h_example.
Proof. unfold masks_distinct. apply (bool_decide_unpack _). vm_compute. exact I. Qed.

Lemma is_wildcard_example : is_wildcard yara_h_example 0.
Proof. unfold is_wildcard. apply (bool_decide_unpack _). vm_compute. exact I. Qed.

Lemma hex_tokens_of_comment_pattern_witness :
  masks_distinct yara_h_example ∧ is_wildcard yara_h_example 0 ∧
  emitted_tokens yara_h_example zeros (comment_pattern yara_h_example 0) =
    Some [{| tk_backtrack := 7; tk_bytes := [0x00; 0x34; 0xEB; 0x45] |}].
Proof.
  assert (Hd : masks_distinct yara_h_example)
    by (unfold masks_distinct; apply (bool_decide_unpack _); vm_compute;
        exact I).
  assert (Hw : is_wildcard yara_h_example 0)
    by (unfold is_wildcard; apply (bool_decide_unpack _); vm_compute;
        exact I).
  split; [exact Hd|]. split; [exact Hw|].
  exact (hex_tokens_of_comment_pattern yara_h_example zeros 0 Hd Hw).
Defined.

(** ** Sizes of buffers *)

Lemma buffer_size_app Y (b1 b2 : buffer) :
  buffer_size Y (b1 ++ b2) = buffer_size Y b1 + buffer_size Y b2.
Proof.
  unfold buffer_size. induction b1 as [|c b1 IH]; simpl; [done|].
  rewrite IH. lia.
Qed.

Lemma buffer_size_bytes Y (bs : list Z) :
  buffer_size Y (BYTE <$> bs) = Z.of_nat (length bs).
Proof.
  induction bs as [|b bs IH]; [done|].
  change (buffer_size Y (BYTE <$> b :: bs))
    with (1 + buffer_size Y (BYTE <$> bs)).
  rewrite IH. simpl length. lia.
Qed.

Lemma buffer_size_first_bytes Y fb out :
  buffer_size Y (write_first_bytes fb out) =
    buffer_size Y out + Z.of_nat (length fb) * (2 * sizeof_int Y + 1).
Proof.
  unfold write_first_bytes. revert out.
  induction fb as [|b fb IH]; intros out; simpl; [lia|].
  rewrite IH. unfold write_bytes, write_int.
  rewrite !buffer_size_app. simpl. lia.
Qed.

(** C9: the regular expression [.*abc] has no literal prefix, so the
    generator writes one 1-byte record per first byte; with 256 first bytes
    that is 256 * (2 * sizeof(int) + 1) + sizeof(int) bytes, more than the
    scratch buffer holds. *)
Theorem regexp_tokens_overflow_scratch (Y : yara_h) (mem : block) :
  0 ≤ sizeof_int Y →
  ∃ out, _yr_ac_gen_tokens Y mem dot_star_abc MAX_TOKEN = Some out ∧
         buffer_size Y out = 256 * (2 * sizeof_int Y + 1) + sizeof_int Y ∧
         tokens_capacity Y < buffer_size Y out.
Proof.
  intros Hs.
  exists (write_int (_yr_ac_gen_regexp_tokens Y dot_star_abc MAX_TOKEN []) 0).
  split; [reflexivity|].
  assert (Hsz : buffer_size Y
            (write_int (_yr_ac_gen_regexp_tokens Y dot_star_abc MAX_TOKEN []) 0)
          = 256 * (2 * sizeof_int Y + 1) + sizeof_int Y).
  { unfold _yr_ac_gen_regexp_tokens, write_int.
    assert (Htok : regexp_scan Y (str_bytes dot_star_abc)
                     (str_length dot_star_abc) MAX_TOKEN
                     (Z.to_nat MAX_TOKEN) 0 [] = []).
    { clear Hs. destruct Y as [? ? ? ? ? esc hash ?]. vm_compute.
      by destruct (hash 46). }
    change (byte_at (str_bytes dot_star_abc) 0 =? 94) with false.
    cbv iota. rewrite Htok.
    change (0 <? Z.of_nat (length (@nil Z))) with false. cbv iota.
    rewrite buffer_size_app, buffer_size_first_bytes.
    change (length (re_first_bytes dot_star_abc)) with 256%nat.
    simpl. lia. }
  split; [exact Hsz|]. rewrite Hsz.
  unfold tokens_capacity. change (Z.shiftl 1 MAX_TOKEN) with 16.
  unfold MAX_TOKEN. lia.
Qed.

Lemma regexp_tokens_overflow_scratch_witness :
  0 ≤ sizeof_int yara_h_example ∧
  ∃ out, _yr_ac_gen_tokens yara_h_example zeros dot_star_abc MAX_TOKEN = Some out ∧
         buffer_size yara_h_example out
           = 256 * (2 * sizeof_int yara_h_example + 1)
             + sizeof_int yara_h_example ∧
         tokens_capacity yara_h_example < buffer_size yara_h_example out.
Proof.
  assert (H : 0 ≤ sizeof_int yara_h_example) by (simpl; lia).
  split; [exact H|]. exact (regexp_tokens_overflow_scratch yara_h_example zeros H).
Defined.

(** ** Reading byte arrays *)

Lemma byte_at_lookup (l : list Z) (n : nat) x :
  l !! n = Some x → byte_at l (Z.of_nat n) = x.
Proof.
  intros H. unfold byte_at.
  destruct (Z.ltb_spec (Z.of_nat n) 0); [lia|].
  by rewrite Nat2Z.id, H.
Qed.

Lemma length_bytes_from l pos n : length (bytes_from l pos n) = Z.to_nat n.
Proof. unfold bytes_from. by rewrite length_fmap, length_seqZ. Qed.

Lemma bytes_from_take (l : list Z) n :
  0 ≤ n ≤ Z.of_nat (length l) → bytes_from l 0 n = take (Z.to_nat n) l.
Proof.
  intros Hn. apply list_eq. intros i. unfold bytes_from.
  rewrite list_lookup_fmap.
  destruct (decide (Z.of_nat i < n)) as [Hi|Hi].
  - rewrite lookup_seqZ_lt by done. simpl.
    rewrite lookup_take_lt by lia.
    destruct (lookup_lt_is_Some_2 l i) as [x Hx]; [lia|].
    rewrite Hx. f_equal. by apply byte_at_lookup.
  - rewrite lookup_seqZ_ge by lia. simpl.
    symmetry. apply lookup_ge_None. rewrite length_take. lia.
Qed.

Lemma bytes_from_all (l : list Z) :
  bytes_from l 0 (Z.of_nat (length l)) = l.
Proof.
  rewrite bytes_from_take by lia. rewrite Nat2Z.id. apply firstn_all.
Qed.

(** ** The format of the buffer *)

Lemma encode_tokens_app ts1 ts2 :
  encode_tokens (ts1 ++ ts2) = encode_tokens ts1 ++ encode_tokens ts2.
Proof. unfold encode_tokens. apply bind_app. Qed.

Lemma encode_tokens_cons t ts :
  encode_tokens (t :: ts) = encode_token t ++ encode_tokens ts.
Proof. reflexivity. Qed.

Lemma write_token_encode out len bt bytes :
  len = Z.of_nat (length bytes) →
  write_bytes (write_int (write_int out len) bt) bytes =
    out ++ encode_tokens [{| tk_backtrack := bt; tk_bytes := bytes |}].
Proof.
  intros ->. unfold write_bytes, write_int, encode_tokens. simpl.
  rewrite app_nil_r. unfold encode_token, tk_length. simpl.
  by rewrite <- !app_assoc.
Qed.

Lemma read_bytes_app (bs : list Z) rest :
  read_bytes (length bs) ((BYTE <$> bs) ++ rest) = Some (bs, rest).
Proof.
  induction bs as [|b bs IH]; [done|].
  change (read_bytes (length (b :: bs)) ((BYTE <$> b :: bs) ++ rest))
    with ('(bs0, cur) ← read_bytes (length bs) ((BYTE <$> bs) ++ rest);
          Some (b :: bs0, cur)).
  by rewrite IH.
Qed.

(** Reading back what was written: the records up to the first one of
    length 0, or up to the terminator. *)
Lemma read_tokens_encode fuel ts rest :
  Forall (λ t, tk_bytes t ≠ []) ts →
  (length ts < fuel)%nat →
  read_tokens fuel (encode_tokens ts ++ INT 0 :: rest) = Some ts.
Proof.
  revert fuel. induction ts as [|t ts IH]; intros fuel Hpos Hfuel.
  - destruct fuel; [simpl in Hfuel; lia|]. reflexivity.
  - destruct fuel as [|fuel]; [simpl in Hfuel; lia|].
    apply Forall_cons in Hpos as [Ht Hpos].
    rewrite encode_tokens_cons. unfold encode_token.
    cbn [read_tokens app read_int mbind option_bind].
    destruct (Z.eqb_spec (tk_length t) 0) as [H0|_].
    { unfold tk_length in H0. destruct (tk_bytes t); [done|simpl in H0; lia]. }
    cbn [read_int mbind option_bind].
    unfold tk_length. rewrite Nat2Z.id, <- app_assoc, read_bytes_app.
    cbn [mbind option_bind]. rewrite IH by (done || simpl in Hfuel; lia).
    simpl. by destruct t.
Qed.

Lemma length_encode_tokens ts : (length ts ≤ length (encode_tokens ts))%nat.
Proof.
  induction ts as [|t ts IH]; [done|].
  rewrite encode_tokens_cons, length_app. unfold encode_token. simpl. lia.
Qed.

(** ** Case variants *)

Lemma case_variants_head tok :
  case_variants tok = tok :: tail (case_variants tok).
Proof.
  induction tok as [|c tok IH]; [done|].
  simpl. destruct (case_variants tok) as [|v vs]; [done|].
  injection IH as ->. reflexivity.
Qed.

Lemma tail_fmap {A B} (f : A → B) (l : list A) : tail (f <$> l) = f <$> tail l.
Proof. by destruct l. Qed.

Lemma case_variants_tail c tok :
  tail (case_variants (c :: tok)) =
    (cons c <$> tail (case_variants tok)) ++
    (if is_letter c then cons (swap_case c) <$> case_variants tok else []).
Proof.
  simpl. destruct (case_variants tok) as [|v vs] eqn:E; [|done].
  by rewrite case_variants_head in E.
Qed.

Lemma swap_case_letter c : is_letter c = true → is_letter (swap_case c) = true.
Proof. unfold is_letter, swap_case, is_lower, is_upper. intros H.
  destruct (Z.leb_spec 97 c), (Z.leb_spec c 122), (Z.leb_spec 65 c),
    (Z.leb_spec c 90); simpl in *; try done; lia.
Qed.

Lemma swap_case_ne c : swap_case c ≠ c.
Proof. unfold swap_case. destruct (is_lower c); lia. Qed.

Lemma length_case_variants tok :
  length (case_variants tok) = (2 ^ count_letters tok)%nat.
Proof.
  unfold count_letters. induction tok as [|c tok IH]; [done|].
  simpl. rewrite length_app, length_fmap, IH.
  rewrite filter_cons. destruct (is_letter c) eqn:Hc.
  - rewrite decide_True by done. rewrite length_fmap, IH. simpl. lia.
  - rewrite decide_False by done. simpl. lia.
Qed.

Lemma elem_of_case_variants tok v :
  v ∈ case_variants tok ↔ is_case_variant tok v.
Proof.
  unfold is_case_variant. revert v.
  induction tok as [|c tok IH]; intros v; simpl.
  - rewrite list_elem_of_singleton. split; [intros ->; constructor|].
    by intros ->%Forall2_nil_inv_l.
  - rewrite elem_of_app, list_elem_of_fmap. split.
    + intros [(w & -> & Hw)|H].
      * constructor; [by left|]. by apply IH.
      * destruct (is_letter c) eqn:Hc; [|by apply elem_of_nil in H].
        apply list_elem_of_fmap in H as (w & -> & Hw).
        constructor; [by right|]. by apply IH.
    + intros H. apply Forall2_cons_inv_l in H as (d & w & Hd & Hw & ->).
      apply IH in Hw. destruct Hd as [->|[Hc ->]].
      * left. eauto.
      * right. rewrite Hc. apply list_elem_of_fmap. eauto.
Qed.

Lemma NoDup_case_variants tok : NoDup (case_variants tok).
Proof.
  induction tok as [|c tok IH]; simpl.
  - apply NoDup_singleton.
  - apply NoDup_app. split; [|split].
    + apply NoDup_fmap_2; [|done]. intros ?? [=]. done.
    + intros v Hv Hv'. destruct (is_letter c); [|by apply elem_of_nil in Hv'].
      apply list_elem_of_fmap in Hv as (w & -> & _).
      apply list_elem_of_fmap in Hv' as (w' & [= Hc _] & _).
      by apply (swap_case_ne c).
    + destruct (is_letter c); [|apply NoDup_nil_2].
      apply NoDup_fmap_2; [|done]. intros ?? [=]. done.
Qed.

Lemma length_case_variant tok v :
  v ∈ case_variants tok → length v = length tok.
Proof.
  rewrite elem_of_case_variants. unfold is_case_variant.
  intros H. symmetry. by eapply Forall2_length.
Qed.

(** ** What _yr_ac_gen_case_combinations writes *)

Lemma variant_tokens_snoc bt pre c vs :
  variant_tokens bt (pre ++ [c]) vs = variant_tokens bt pre (cons c <$> vs).
Proof.
  unfold variant_tokens. rewrite <- list_fmap_compose.
  apply list_fmap_ext. intros _ v _. simpl. by rewrite <- app_assoc.
Qed.

Lemma gen_case_combinations_rec_spec past depth : ∀ tok bt out (o : nat),
  (o < length tok)%nat → (length tok - o ≤ depth)%nat →
  gen_case_combinations_rec depth past tok (Z.of_nat (length tok))
    (Z.of_nat o) bt out
  = out ++ encode_tokens
             (variant_tokens bt (take o tok)
                (tail (case_variants (drop o tok)))).
Proof.
  induction depth as [|depth IH]; intros tok bt out o Ho Hd; [lia|].
  destruct (lookup_lt_is_Some_2 tok o Ho) as [x Hx].
  cbn [gen_case_combinations_rec].
  assert (Hin : (Z.of_nat o <? Z.of_nat (length tok)) = true)
    by (apply Z.ltb_lt; lia).
  rewrite Hin.
  rewrite (byte_at_lookup _ _ _ Hx), bytes_from_all, Nat2Z.id.
  rewrite (drop_S _ _ _ Hx), case_variants_tail.
  replace (Z.of_nat o + 1) with (Z.of_nat (S o)) by lia.
  assert (Htok' : <[o := swap_case x]> tok
                  = take o tok ++ swap_case x :: drop (S o) tok)
    by (by apply insert_take_drop).
  assert (Hlen' : length (<[o := swap_case x]> tok) = length tok)
    by apply length_insert.
  destruct (Z.ltb_spec (Z.of_nat (S o)) (Z.of_nat (length tok))) as [Hlt|Hge].
  - rewrite IH by lia.
    rewrite (take_S_r _ _ _ Hx), variant_tokens_snoc.
    destruct (is_letter x).
    + rewrite write_token_encode by (by rewrite Hlen').
      rewrite <- Hlen' at 1. rewrite IH by (rewrite ?Hlen'; lia).
      rewrite drop_insert_lt by lia.
      replace (take (S o) (<[o:=swap_case x]> tok))
        with (take o tok ++ [swap_case x]).
      2:{ rewrite Htok'. rewrite take_app_ge by (rewrite length_take; lia).
          rewrite length_take, Nat.min_l by lia.
          replace (S o - o)%nat with 1%nat by lia.
          reflexivity. }
      rewrite variant_tokens_snoc.
      rewrite <- !app_assoc, <- !encode_tokens_app. do 2 f_equal.
      pose proof (case_variants_head (drop (S o) tok)) as Hh.
      set (vs := tail (case_variants (drop (S o) tok))) in *.
      rewrite Hh. unfold variant_tokens. rewrite fmap_app, !fmap_cons.
      rewrite Htok'. reflexivity.
    + rewrite app_nil_r. reflexivity.
  - assert (Hend : drop (S o) tok = []) by (apply drop_ge; lia).
    rewrite Hend. simpl case_variants. simpl tail. simpl fmap at 1.
    destruct (is_letter x).
    + rewrite write_token_encode by (by rewrite Hlen').
      rewrite Htok', Hend. reflexivity.
    + simpl. unfold encode_tokens, variant_tokens. simpl.
      by rewrite app_nil_r.
Qed.

(** The records written for a token of at least one byte, from offset 0:
    its case variants other than the token itself, in the order of
    [case_variants], whatever lies behind the token. *)
Lemma gen_case_combinations_spec past tok bt out :
  tok ≠ [] →
  _yr_ac_gen_case_combinations past tok (Z.of_nat (length tok)) 0 bt out
  = out ++ encode_tokens (variant_tokens bt [] (tail (case_variants tok))).
Proof.
  intros Hne. unfold _yr_ac_gen_case_combinations.
  assert (0 < length tok)%nat by (destruct tok; [done|simpl; lia]).
  rewrite (gen_case_combinations_rec_spec past _ tok bt out 0%nat) by lia.
  reflexivity.
Qed.

(** On a token without bytes the function reads the byte behind the token:
    when it is a letter a record without bytes is written, nothing
    otherwise. *)
Lemma gen_case_combinations_nil past bt out :
  _yr_ac_gen_case_combinations past [] 0 0 bt out
  = if is_letter past
    then out ++ encode_tokens [{| tk_backtrack := bt; tk_bytes := [] |}]
    else out.
Proof.
  unfold _yr_ac_gen_case_combinations. cbn [gen_case_combinations_rec].
  change (Z.to_nat (0 - 0 - 1)) with 0%nat.
  cbn [gen_case_combinations_rec].
  change (0 + 1 <? 0) with false. change (0 <? 0) with false. cbv iota.
  destruct (is_letter past); [|done].
  unfold write_bytes, write_int. rewrite <- !app_assoc. reflexivity.
Qed.

(** A token followed by the output of the case expander: all the case
    variants of the token. *)
Lemma token_and_case_combinations past tok bt out :
  tok ≠ [] →
  _yr_ac_gen_case_combinations past tok (Z.of_nat (length tok)) 0 bt
    (write_bytes (write_int (write_int out (Z.of_nat (length tok))) bt) tok)
  = out ++ encode_tokens (variant_tokens bt [] (case_variants tok)).
Proof.
  intros Hne. rewrite gen_case_combinations_spec by done.
  rewrite write_token_encode by done.
  rewrite <- app_assoc, <- encode_tokens_app.
  rewrite (case_variants_head tok) at 2. reflexivity.
Qed.

(** ** The tokens of an ASCII case-insensitive pattern *)

Lemma take_min_length {A} (l : list A) (n : nat) :
  take (length l `min` n) l = take n l.
Proof.
  destruct (decide (n ≤ length l)%nat).
  - by rewrite Nat.min_r by lia.
  - rewrite Nat.min_l by lia. rewrite !take_ge by lia. done.
Qed.

Lemma ascii_token_bytes s :
  bytes_from (str_bytes s) 0 (Z.min (str_length s) MAX_TOKEN)
  = take (Z.to_nat MAX_TOKEN) (str_bytes s).
Proof.
  unfold str_length, MAX_TOKEN.
  rewrite bytes_from_take by lia.
  rewrite Z2Nat.inj_min, Nat2Z.id. apply take_min_length.
Qed.

Lemma gen_ascii_nocase Y mem s out :
  is_no_case s = true → str_bytes s ≠ [] →
  gen_ascii_tokens Y mem s MAX_TOKEN out
  = out ++ encode_tokens
             (variant_tokens 0 []
                (case_variants (take (Z.to_nat MAX_TOKEN) (str_bytes s)))).
Proof.
  intros Hnc Hne. unfold gen_ascii_tokens. rewrite Hnc, ascii_token_bytes.
  set (tok := take (Z.to_nat MAX_TOKEN) (str_bytes s)).
  assert (Hlen : Z.min (str_length s) MAX_TOKEN = Z.of_nat (length tok)).
  { unfold tok, str_length, MAX_TOKEN. rewrite length_take. lia. }
  rewrite Hlen. apply token_and_case_combinations.
  unfold tok. destruct (str_bytes s); [done|]. done.
Qed.

Lemma variant_tokens_nonempty bt tok :
  tok ≠ [] →
  Forall (λ t, tk_bytes t ≠ []) (variant_tokens bt [] (case_variants tok)).
Proof.
  intros Hne. unfold variant_tokens. apply Forall_fmap, Forall_forall.
  intros v Hv. simpl. apply length_case_variant in Hv.
  destruct v; [|done]. destruct tok; [done|simpl in Hv; lia].
Qed.

(** An ASCII case-insensitive pattern without bytes: the first record of
    the buffer has length 0, which ends the buffer for its reader, whatever
    the case expander found behind the token. *)
Lemma empty_nocase_tokens Y mem s :
  is_hex s = false → is_regexp s = false → is_ascii s = true →
  is_wide s = false → is_no_case s = true → str_bytes s = [] →
  emitted_tokens Y mem s = Some [].
Proof.
  intros Hhex Hre Hascii Hwide Hnc Hnil.
  unfold emitted_tokens, _yr_ac_gen_tokens.
  rewrite Hhex, Hre, Hascii, Hwide. cbn [mbind option_bind].
  unfold gen_ascii_tokens, str_length. rewrite Hnc, Hnil.
  change (Z.min (Z.of_nat (length (@nil Z))) MAX_TOKEN) with 0.
  change (bytes_from [] 0 0) with (@nil Z).
  rewrite gen_case_combinations_nil.
  by destruct (is_letter _).
Qed.

(** C7, as it stands, fails on the pattern without bytes: it has no letter,
    so one token is claimed, and none is emitted, whether the byte found
    behind the empty token is a letter or not. *)
Lemma empty_pattern_yields_no_token :
  ¬ yields_all_case_variants yara_h_example zeros nocase_empty ∧
  ¬ yields_all_case_variants yara_h_example letters nocase_empty.
Proof.
  split; intros (ts & Hts & Hlen & _);
    vm_compute in Hts; injection Hts as <-; discriminate Hlen.
Qed.

(** The buffer of the pattern without bytes: one record without bytes and
    the terminator, and a second record when the byte behind the first is a
    letter. *)
Example empty_nocase_buffer :
  _yr_ac_gen_tokens yara_h_example zeros nocase_empty MAX_TOKEN
    = Some [INT 0; INT 0; INT 0] ∧
  _yr_ac_gen_tokens yara_h_example letters nocase_empty MAX_TOKEN
    = Some [INT 0; INT 0; INT 0; INT 0; INT 0].
Proof. split; reflexivity. Qed.

(** C7, amended: an ASCII case-insensitive pattern of at least one byte,
    whose token [tok] is its first min(length, MAX_TOKEN) bytes with [k]
    ASCII letters among them, yields exactly 2^k records, the original
    first, without repetition; the records are exactly the ones with
    backtrack 0 whose bytes are [tok] with the case of some of its letters
    toggled, so all of them have the length of [tok]. A pattern without
    bytes yields no token. In particular "Hi" yields Hi, HI, hi, hI. *)
Theorem ascii_nocase_tokens (Y : yara_h) (mem : block) (s : STRING) :
  is_hex s = false → is_regexp s = false → is_ascii s = true →
  is_wide s = false → is_no_case s = true →
  let tok := take (Z.to_nat MAX_TOKEN) (str_bytes s) in
  (str_bytes s ≠ [] →
   ∃ ts, emitted_tokens Y mem s = Some ts ∧
     length ts = (2 ^ count_letters tok)%nat ∧
     NoDup ts ∧
     head ts = Some {| tk_backtrack := 0; tk_bytes := tok |} ∧
     (∀ t, t ∈ ts ↔ tk_backtrack t = 0 ∧ is_case_variant tok (tk_bytes t)) ∧
     Forall (λ t, tk_length t = Z.min (str_length s) MAX_TOKEN
                  ∧ tk_backtrack t = 0) ts) ∧
  (str_bytes s = [] → emitted_tokens Y mem s = Some []) ∧
  emitted_tokens Y mem nocase_Hi =
    Some [{| tk_backtrack := 0; tk_bytes := [72; 105] |};
          {| tk_backtrack := 0; tk_bytes := [72; 73] |};
          {| tk_backtrack := 0; tk_bytes := [104; 105] |};
          {| tk_backtrack := 0; tk_bytes := [104; 73] |}].
Proof.
  intros Hhex Hre Hascii Hwide Hnc tok.
  split; [|split; [by apply empty_nocase_tokens|reflexivity]].
  intros Hne.
  assert (Htok : tok ≠ []).
  { unfold tok. destruct (str_bytes s); [done|]. done. }
  exists (variant_tokens 0 [] (case_variants tok)).
  assert (Hmem : ∀ t, t ∈ variant_tokens 0 [] (case_variants tok)
                      ↔ tk_backtrack t = 0 ∧ is_case_variant tok (tk_bytes t)).
  { intros t. unfold variant_tokens. rewrite list_elem_of_fmap.
    setoid_rewrite elem_of_case_variants. split.
    - intros (v & -> & Hv). done.
    - intros [Hbt Hv]. exists (tk_bytes t). destruct t; simpl in *.
      by subst. }
  split; [|split; [|split; [|split; [|split]]]].
  - unfold emitted_tokens, _yr_ac_gen_tokens.
    rewrite Hhex, Hre, Hascii, Hwide. cbn [mbind option_bind].
    rewrite gen_ascii_nocase by done. fold tok. unfold write_int.
    rewrite app_nil_l. apply read_tokens_encode.
    + by apply variant_tokens_nonempty.
    + rewrite length_app. simpl.
      pose proof (length_encode_tokens
                    (variant_tokens 0 [] (case_variants tok))). lia.
  - unfold variant_tokens. by rewrite length_fmap, length_case_variants.
  - unfold variant_tokens. apply NoDup_fmap_2; [|apply NoDup_case_variants].
    intros v w [=]. done.
  - rewrite (case_variants_head tok). reflexivity.
  - exact Hmem.
  - apply Forall_forall. intros t Ht. apply Hmem in Ht as [Hbt Hv].
    split; [|done]. unfold tk_length.
    unfold is_case_variant in Hv. apply Forall2_length in Hv. rewrite <- Hv.
    unfold tok, str_length, MAX_TOKEN. rewrite length_take. lia.
Qed.

Lemma ascii_nocase_tokens_witness :
  (let s := nocase_Hi in
   let tok := take (Z.to_nat MAX_TOKEN) (str_bytes s) in
   str_bytes s ≠ [] ∧
   ∃ ts, emitted_tokens yara_h_example letters s = Some ts ∧
     length ts = (2 ^ count_letters tok)%nat ∧
     NoDup ts ∧
     head ts = Some {| tk_backtrack := 0; tk_bytes := tok |} ∧
     (∀ t, t ∈ ts ↔ tk_backtrack t = 0 ∧ is_case_variant tok (tk_bytes t)) ∧
     Forall (λ t, tk_length t = Z.min (str_length s) MAX_TOKEN
                  ∧ tk_backtrack t = 0) ts) ∧
  (str_bytes nocase_empty = [] ∧
   emitted_tokens yara_h_example letters nocase_empty = Some []).
Proof.
  split.
  - assert (Hne : str_bytes nocase_Hi ≠ []) by discriminate.
    split; [exact Hne|].
    exact (proj1 (ascii_nocase_tokens yara_h_example letters nocase_Hi
                    eq_refl eq_refl eq_refl eq_refl eq_refl) Hne).
  - split; [reflexivity|].
    exact (proj1 (proj2 (ascii_nocase_tokens yara_h_example letters
                           nocase_empty eq_refl eq_refl eq_refl eq_refl
                           eq_refl)) eq_refl).
Defined.

(** ** The count of distinct bytes *)

Lemma forallb_ne_not_elem x (l : list Z) :
  forallb (λ y, negb (x =? y)) l = true ↔ x ∉ l.
Proof.
  induction l as [|y l IH]; simpl.
  - split; [intros _; apply not_elem_of_nil|done].
  - rewrite andb_true_iff, IH, not_elem_of_cons, negb_true_iff, Z.eqb_neq.
    done.
Qed.

(** The two nested loops count the distinct bytes of [last]. *)
Lemma count_unique_bytes_distinct last :
  last ≠ [] → count_unique_bytes last = distinct_bytes last.
Proof.
  unfold count_unique_bytes, distinct_bytes.
  induction last as [|x rest IH]; [done|]. intros _.
  destruct rest as [|y rest']; [done|].
  set (rest := y :: rest') in *.
  assert (Hr : 1 + unique_scan rest = Z.of_nat (length (remove_dups rest)))
    by (by apply IH).
  change (unique_scan (x :: rest))
    with ((if forallb (λ y, negb (x =? y)) rest then 1 else 0)
          + unique_scan rest).
  clearbody rest. cbn [remove_dups].
  destruct (decide_rel elem_of x rest) as [Hin|Hnin].
  - destruct (forallb (λ y, negb (x =? y)) rest) eqn:E; [|lia].
    by apply forallb_ne_not_elem in E.
  - apply forallb_ne_not_elem in Hnin. rewrite Hnin. simpl length. lia.
Qed.

Lemma distinct_bytes_ext (l k : list Z) :
  (∀ x, x ∈ l ↔ x ∈ k) → distinct_bytes l = distinct_bytes k.
Proof.
  intros H. unfold distinct_bytes. f_equal. apply Permutation_length.
  apply NoDup_Permutation; [apply NoDup_remove_dups..|].
  intros x. rewrite !elem_of_remove_dups. apply H.
Qed.

(** C3, as it stands, fails on 01 02 ?? 00 00 00: the scan emits 00 00 00,
    one distinct byte, although 01 02 is a window of literals with two. *)
Lemma longer_window_beats_more_distinct :
  ¬ chooses_most_distinct yara_h_example two_then_zeros.
Proof.
  intros H.
  destruct (hex_scan yara_h_example (str_bytes two_then_zeros) MAX_TOKEN
              (str_mask two_then_zeros) hex_init) as [st|] eqn:Hscan;
    [|vm_compute in Hscan; discriminate].
  assert (Hw : literal_window
                 (literal_flags yara_h_example false (str_mask two_then_zeros))
                 0 2).
  { split; [lia|]. split; [lia|].
    intros k Hk. assert (k = 0 ∨ k = 1)%nat as [->| ->] by lia;
      vm_compute; reflexivity. }
  specialize (H st Hscan 0 2 ltac:(unfold MAX_TOKEN; lia) Hw).
  vm_compute in Hscan. injection Hscan as <-.
  vm_compute in H. destruct H as [H|[H _]]; discriminate H.
Qed.

Example two_then_zeros_token :
  emitted_tokens yara_h_example zeros two_then_zeros =
    Some [{| tk_backtrack := 3; tk_bytes := [0; 0; 0] |}].
Proof. vm_compute. reflexivity. Qed.

(** ** The ring of the last bytes *)

Lemma mod_slots_differ max p q :
  0 < max → q < p → p - q < max → q mod max ≠ p mod max.
Proof.
  intros Hmax Hlt Hd E.
  pose proof (Z.div_mod p max ltac:(lia)).
  pose proof (Z.div_mod q max ltac:(lia)).
  set (k := p / max - q / max).
  assert (Hk : p - q = max * k) by (unfold k; lia).
  assert (k ≤ 0 ∨ 1 ≤ k) as [Hk'|Hk'] by lia; nia.
Qed.

Lemma mod_slot_position max lo j :
  0 < max → 0 ≤ j < max → ∃ q, lo ≤ q < lo + max ∧ q mod max = j.
Proof.
  intros Hmax Hj. exists (lo + (j - lo) mod max).
  pose proof (Z.mod_pos_bound (j - lo) max Hmax).
  split; [lia|].
  rewrite Zplus_mod_idemp_r. replace (lo + (j - lo)) with j by lia.
  by apply Z.mod_small.
Qed.

Lemma elem_of_bytes_from str pos n x :
  x ∈ bytes_from str pos n ↔ ∃ q, pos ≤ q < pos + n ∧ x = byte_at str q.
Proof.
  unfold bytes_from. rewrite list_elem_of_fmap. split.
  - intros (k & -> & Hk%elem_of_seqZ). exists (pos + k). split; [lia|done].
  - intros (q & Hq & ->). exists (q - pos). split; [f_equal; lia|].
    apply elem_of_seqZ. lia.
Qed.

(** A ring that holds the positions of a window has the distinct bytes of
    the window. *)
Lemma ring_holds_distinct str max ring lo hi :
  0 < max → lo ≤ hi →
  ring_holds str max ring lo hi →
  count_unique_bytes ring = distinct_bytes (bytes_from str lo (hi - lo)).
Proof.
  intros Hmax Hle (Hlen & Ha & Hb).
  rewrite count_unique_bytes_distinct.
  2:{ intros ->. simpl in Hlen. lia. }
  apply distinct_bytes_ext. intros x.
  rewrite elem_of_bytes_from, list_elem_of_lookup. split.
  - intros [j Hj]. destruct (Hb j x Hj) as (q & Hq & ->).
    exists q. split; [lia|done].
  - intros (q & Hq & ->). eexists. apply Ha. lia.
Qed.

Section ring.
Variable str : list Z.
Variable max : Z.
Hypothesis Hmax : 0 < max.

Lemma ring_write_holds flags st :
  hex_inv max flags st → ring_ok str max st →
  ring_holds str max (ring_write str max st)
    (hx_string_position st - Z.min (hx_token_length st + 1) max + 1)
    (hx_string_position st + 1).
Proof.
  intros (Hpos & Htl & Htlp & _ & _) Hring.
  set (p := hx_string_position st) in *.
  set (tl := hx_token_length st) in *.
  assert (Hp : 0 ≤ p) by lia.
  unfold ring_write. fold p tl.
  rewrite Z.rem_mod_nonneg by lia.
  pose proof (Z.mod_pos_bound p max Hmax) as Hslot.
  set (base := if tl =? 0 then replicate (Z.to_nat max) (byte_at str p)
               else hx_last st).
  assert (Hbase : length base = Z.to_nat max).
  { unfold base. destruct (Z.eqb_spec tl 0); [apply length_replicate|].
    apply Hring. lia. }
  split; [by rewrite length_insert|]. split.
  - intros q Hq. destruct (decide (q = p)) as [->|Hne].
    + apply list_lookup_insert_eq. lia.
    + assert (Hpos' : 0 < tl) by lia.
      rewrite list_lookup_insert_ne.
      2:{ intros E. apply Z2Nat.inj in E; try lia.
          - eapply (mod_slots_differ max p q); [done|lia|lia|done].
          - pose proof (Z.mod_pos_bound q max Hmax). lia. }
      unfold base. destruct (Z.eqb_spec tl 0); [lia|].
      apply Hring; [done|]. lia.
  - intros j x Hj.
    destruct (decide (j = Z.to_nat (p mod max))) as [->|Hne].
    + rewrite list_lookup_insert_eq in Hj by lia. injection Hj as <-.
      exists p. split; [lia|done].
    + rewrite list_lookup_insert_ne in Hj by done.
      unfold base in Hj. destruct (Z.eqb_spec tl 0) as [H0|H0].
      * apply lookup_replicate in Hj as [-> _]. exists p. split; [lia|done].
      * destruct (Hring ltac:(lia)) as (Hlen & Ha & Hb).
        destruct (decide (tl < max)) as [Hlt|Hge].
        -- destruct (Hb j x Hj) as (q & Hq & ->). exists q.
           split; [lia|done].
        -- assert (tl = max) by lia.
           assert (Hjmax : 0 ≤ Z.of_nat j < max).
           { apply lookup_lt_Some in Hj. lia. }
           destruct (mod_slot_position max (p - max) (Z.of_nat j) Hmax Hjmax)
             as (q & Hq & Hqj).
           assert (Hq' : hx_string_position st - hx_token_length st ≤ q
                         < hx_string_position st) by (fold p tl; lia).
           specialize (Ha q Hq'). rewrite Hqj, Nat2Z.id, Hj in Ha.
           injection Ha as ->. exists q. split; [|done].
           assert (q ≠ p - max); [|lia].
           intros ->. apply Hne.
           assert (Hm : (p - max) mod max = p mod max).
           { replace (p - max) with (p + (-1) * max) by lia.
             apply Z.mod_add. lia. }
           by rewrite <- Hm, Hqj, Nat2Z.id.
Qed.

(** At a literal, the count the body computes is the number of distinct
    bytes of the window that ends there. *)
Lemma ring_write_count flags st :
  hex_inv max flags st → ring_ok str max st →
  count_unique_bytes (ring_write str max st)
  = distinct_bytes
      (bytes_from str
         (hx_string_position st - Z.min (hx_token_length st + 1) max + 1)
         (Z.min (hx_token_length st + 1) max)).
Proof.
  intros Hinv Hring.
  pose proof (ring_write_holds flags st Hinv Hring) as Hh.
  destruct Hinv as (_ & Htl & _).
  erewrite ring_holds_distinct; [|done| |exact Hh]; [|lia].
  do 2 f_equal. lia.
Qed.
End ring.

(** ** Windows of literals *)

Lemma literal_window_app flags more pos len :
  literal_window flags pos len → literal_window (flags ++ more) pos len.
Proof.
  intros (Hp & Hl & Hw). split; [done|]. split; [done|].
  intros k Hk. apply lookup_app_l_Some. by apply Hw.
Qed.

Lemma literal_window_empty flags pos : 0 ≤ pos → literal_window flags pos 0.
Proof. intros Hp. split; [done|]. split; [done|]. intros k Hk. lia. Qed.

Lemma literal_window_snoc flags len :
  0 ≤ len ≤ Z.of_nat (length flags) →
  literal_window flags (Z.of_nat (length flags) - len) len →
  literal_window (flags ++ [true]) (Z.of_nat (length flags) - len) (len + 1).
Proof.
  intros Hlen (_ & _ & Hw). split; [lia|]. split; [lia|].
  intros k Hk. destruct (decide (k = length flags)) as [->|Hne].
  - rewrite lookup_app_r by lia. by rewrite Nat.sub_diag.
  - apply lookup_app_l_Some, Hw. lia.
Qed.

Lemma literal_window_shrink flags pos len pos' len' :
  pos ≤ pos' → pos' + len' ≤ pos + len → 0 ≤ len' →
  literal_window flags pos len → literal_window flags pos' len'.
Proof.
  intros H1 H2 H3 (Hp & Hl & Hw). split; [lia|]. split; [done|].
  intros k Hk. apply Hw. lia.
Qed.

Lemma candidate_ok_app max flags more st :
  candidate_ok max flags st → candidate_ok max (flags ++ more) st.
Proof.
  intros (H1 & H2 & H3). split; [done|]. split.
  - rewrite length_app. lia.
  - by apply literal_window_app.
Qed.

Section hex_steps.
Variable Y : yara_h.
Variable str : list Z.
Variable max : Z.
Hypothesis Hd : masks_distinct Y.
Hypothesis Hmax : 0 < max.

(** The six kinds of mask bytes that do not end the mask. *)
Lemma test_mask_cases m :
  m ≠ MASK_END Y →
  (m = 255 ∧ test_mask Y m = literal_tests) ∨
  (m = MASK_OR Y ∧ test_mask Y m = or_tests) ∨
  (m = MASK_OR_END Y ∧ test_mask Y m = or_end_tests) ∨
  (m = MASK_EXACT_SKIP Y ∧ test_mask Y m = exact_skip_tests) ∨
  (m = MASK_RANGE_SKIP Y ∧ test_mask Y m = range_skip_tests) ∨
  (is_wildcard Y m ∧ test_mask Y m = wildcard_tests).
Proof.
  intros Hend.
  destruct (masks_distinct_inv Y Hd)
    as (?&?&?&?&?&?&?&?&?&?&?&?&?&?&?).
  unfold test_mask.
  destruct (Z.eqb_spec m 255) as [->|H255].
  { left. split; [done|]. unfold literal_tests.
    f_equal; by apply Z.eqb_neq. }
  destruct (Z.eqb_spec m (MASK_OR Y)) as [->|Hor].
  { right; left. split; [done|]. unfold or_tests.
    f_equal; by apply Z.eqb_neq. }
  destruct (Z.eqb_spec m (MASK_OR_END Y)) as [->|Hore].
  { do 2 right; left. split; [done|]. unfold or_end_tests.
    f_equal; by apply Z.eqb_neq. }
  destruct (Z.eqb_spec m (MASK_EXACT_SKIP Y)) as [->|Hex].
  { do 3 right; left. split; [done|]. unfold exact_skip_tests.
    f_equal; by apply Z.eqb_neq. }
  destruct (Z.eqb_spec m (MASK_RANGE_SKIP Y)) as [->|Hra].
  { do 4 right; left. split; [done|]. unfold range_skip_tests.
    f_equal; by apply Z.eqb_neq. }
  do 5 right. split; [|done].
  unfold is_wildcard. rewrite !not_elem_of_cons.
  repeat split; try done. apply not_elem_of_nil.
Qed.

Lemma literal_flags_step io m rest :
  m ≠ MASK_END Y →
  literal_flags Y io (m :: rest) =
    if m =? MASK_RANGE_SKIP Y then []
    else if m =? MASK_EXACT_SKIP Y then
      match rest with
      | [] => []
      | _ :: rest' => literal_flags Y io rest'
      end
    else if m =? MASK_OR Y then literal_flags Y true rest
    else if m =? MASK_OR_END Y then literal_flags Y false rest
    else ((m =? 255) && negb io) :: literal_flags Y io rest.
Proof. intros H%Z.eqb_neq. simpl. by rewrite H. Qed.

(** *** The body at a literal outside the alternations *)

Lemma hex_body_literal st :
  hx_inside_or st = false →
  let n := Z.min (hx_token_length st + 1) max in
  let u := count_unique_bytes (ring_write str max st) in
  let better := (hx_max_unique_bytes st <? u)
                || (hx_candidate_token_length st <? n) in
  let stop := better && (n =? max) && (u =? max) in
  hex_body str max literal_tests st =
    (if stop then HEX_BREAK else HEX_NEXT,
     {| hx_inside_or := false;
        hx_token_length := n;
        hx_backtrack :=
          if stop then hx_backtrack st else hx_backtrack st + 1;
        hx_max_unique_bytes :=
          if better then u else hx_max_unique_bytes st;
        hx_candidate_token_position :=
          if better then hx_string_position st - n + 1
          else hx_candidate_token_position st;
        hx_candidate_token_length :=
          if better then n else hx_candidate_token_length st;
        hx_candidate_token_backtrack :=
          if better then hx_backtrack st - n + 1
          else hx_candidate_token_backtrack st;
        hx_or_string_length := hx_or_string_length st;
        hx_previous_or_string_length := hx_previous_or_string_length st;
        hx_string_position :=
          if stop then hx_string_position st
          else hx_string_position st + 1;
        hx_last := ring_write str max st |}).
Proof.
  intros Hin n u better stop. unfold hex_body.
  cbn [is_literal is_or is_or_end is_exact_skip is_range_skip
       literal_tests negb andb orb].
  rewrite Hin. cbn [negb andb orb].
  cbn [hx_max_unique_bytes hx_candidate_token_position
       hx_candidate_token_length hx_candidate_token_backtrack].
  fold (ring_write str max st). fold n. fold u. fold better. fold stop.
  by destruct stop.
Qed.

Lemma hex_step_literal flags st :
  hex_inv max flags st → ring_ok str max st → hx_inside_or st = false →
  ∃ ctl st', hex_body str max literal_tests st = (ctl, st') ∧
    ctl ≠ HEX_SKIP ∧
    candidate_ok max (flags ++ [true]) st' ∧
    (ctl = HEX_NEXT →
     hex_inv max (flags ++ [true]) st' ∧ ring_ok str max st' ∧
     hx_inside_or st' = false).
Proof.
  intros Hinv Hring Hin.
  pose proof (ring_write_holds str max Hmax flags st Hinv Hring) as Hh.
  destruct Hinv as (Hpos & Htl & Htlp & Hrun & Hcand).
  rewrite (hex_body_literal st Hin).
  set (n := Z.min (hx_token_length st + 1) max) in *.
  set (u := count_unique_bytes (ring_write str max st)).
  set (better := (hx_max_unique_bytes st <? u)
                 || (hx_candidate_token_length st <? n)).
  set (stop := better && (n =? max) && (u =? max)).
  assert (Hn : 1 ≤ n ≤ max ∧ n ≤ hx_token_length st + 1) by lia.
  assert (Hwin : literal_window (flags ++ [true])
                   (Z.of_nat (length (flags ++ [true])) - n) n).
  { rewrite length_app. simpl length.
    eapply literal_window_shrink;
      [| |lia|apply (literal_window_snoc flags (hx_token_length st));
              [lia|done]]; lia. }
  assert (Hc : candidate_ok max (flags ++ [true])
                 {| hx_inside_or := false; hx_token_length := n;
                    hx_backtrack :=
                      if stop then hx_backtrack st else hx_backtrack st + 1;
                    hx_max_unique_bytes :=
                      if better then u else hx_max_unique_bytes st;
                    hx_candidate_token_position :=
                      if better then hx_string_position st - n + 1
                      else hx_candidate_token_position st;
                    hx_candidate_token_length :=
                      if better then n else hx_candidate_token_length st;
                    hx_candidate_token_backtrack :=
                      if better then hx_backtrack st - n + 1
                      else hx_candidate_token_backtrack st;
                    hx_or_string_length := hx_or_string_length st;
                    hx_previous_or_string_length :=
                      hx_previous_or_string_length st;
                    hx_string_position :=
                      if stop then hx_string_position st
                      else hx_string_position st + 1;
                    hx_last := ring_write str max st |}).
  { destruct better.
    - unfold candidate_ok. simpl. split; [lia|].
      rewrite length_app in *. simpl length in *. split; [lia|].
      replace (hx_string_position st - n + 1)
        with (Z.of_nat (length flags + 1) - n) by lia.
      exact Hwin.
    - by apply (candidate_ok_app max flags [true] st). }
  eexists _, _. split; [reflexivity|]. split; [by destruct stop|].
  split; [exact Hc|].
  intros Hctl. destruct stop; [done|]. split; [|split; [|done]].
  - unfold hex_inv. simpl. rewrite length_app in *. simpl length in *.
    split; [lia|]. split; [lia|]. split; [lia|].
    split; [exact Hwin|exact Hc].
  - intros _. simpl.
    replace (hx_string_position st + 1 - n)
      with (hx_string_position st - n + 1) by lia.
    exact Hh.
Qed.

(** *** The body at any other byte that advances the position *)

Lemma hex_step_no_literal flags st k :
  hex_inv max flags st →
  is_or k = false → is_or_end k = false → is_exact_skip k = false →
  is_range_skip k = false →
  is_literal k && negb (hx_inside_or st) = false →
  ∃ st', hex_body str max k st = (HEX_NEXT, st') ∧
    hex_inv max (flags ++ [false]) st' ∧ ring_ok str max st' ∧
    hx_inside_or st' = hx_inside_or st.
Proof.
  intros (Hpos & Htl & Htlp & Hrun & Hcand) Hor Hore Hex Hra Hlit.
  unfold hex_body. rewrite Hor, Hore, Hex, Hra.
  cbn [negb andb orb]. rewrite Hlit. cbn [negb andb orb].
  eexists. split; [reflexivity|]. split; [|split; [|done]].
  - unfold hex_inv. simpl. rewrite length_app. simpl length.
    split; [lia|]. split; [lia|]. split; [lia|].
    split; [apply literal_window_empty; lia|].
    exact (candidate_ok_app max flags [false] st Hcand).
  - intros H. simpl in H. lia.
Qed.

(** *** The body at a sentinel *)

Lemma hex_step_sentinel flags st k :
  hex_inv max flags st →
  is_literal k = false →
  is_or k || is_or_end k || is_exact_skip k || is_range_skip k = true →
  ∃ ctl st', hex_body str max k st = (ctl, st') ∧
    candidate_ok max flags st' ∧
    (ctl = HEX_SKIP ↔ is_exact_skip k = true) ∧
    (is_range_skip k = true → is_exact_skip k = false → ctl = HEX_BREAK) ∧
    (ctl ≠ HEX_BREAK →
     hex_inv max flags st' ∧ ring_ok str max st' ∧
     hx_inside_or st' =
       if is_or_end k then false
       else if is_or k then true else hx_inside_or st).
Proof.
  intros (Hpos & Htl & Htlp & Hrun & Hcand) Hlit Hsent.
  assert (Hadv : negb (is_or k) && negb (is_or_end k)
                 && negb (is_exact_skip k) && negb (is_range_skip k)
                 = false).
  { destruct (is_or k), (is_or_end k), (is_exact_skip k),
      (is_range_skip k); done. }
  unfold hex_body. rewrite Hlit, Hadv. cbn [negb andb orb].
  assert (Hinv' : ∀ io bt ol pl,
    hex_inv max flags
      {| hx_inside_or := io; hx_token_length := 0; hx_backtrack := bt;
         hx_max_unique_bytes := hx_max_unique_bytes st;
         hx_candidate_token_position := hx_candidate_token_position st;
         hx_candidate_token_length := hx_candidate_token_length st;
         hx_candidate_token_backtrack := hx_candidate_token_backtrack st;
         hx_or_string_length := ol; hx_previous_or_string_length := pl;
         hx_string_position := hx_string_position st;
         hx_last :=
           if hx_token_length st =? 0
           then replicate (Z.to_nat max)
                  (byte_at str (hx_string_position st))
           else hx_last st |}).
  { intros. unfold hex_inv. simpl. split; [done|]. split; [lia|].
    split; [lia|]. split; [apply literal_window_empty; lia|done]. }
  assert (Hring' : ∀ st', hx_token_length st' = 0 → ring_ok str max st').
  { intros st' H0 H. lia. }
  destruct (is_exact_skip k) eqn:Hex.
  { eexists _, _. split; [reflexivity|]. split; [exact Hcand|].
    split; [done|]. split; [done|]. intros _.
    split; [apply Hinv'|]. split; [by apply Hring'|done]. }
  destruct (is_range_skip k) eqn:Hra.
  { eexists _, _. split; [reflexivity|]. split; [exact Hcand|].
    split; [split; done|]. split; [done|]. done. }
  assert (Hoo : is_or k || is_or_end k = true).
  { destruct (is_or k), (is_or_end k); done. }
  rewrite Hoo.
  match goal with |- context [negb ?c] => destruct c end; cbn [negb].
  - eexists _, _. split; [reflexivity|]. split; [exact Hcand|].
    split; [split; done|]. split; [done|]. intros _.
    split; [apply Hinv'|]. split; [by apply Hring'|done].
  - eexists _, _. split; [reflexivity|]. split; [exact Hcand|].
    split; [split; done|]. split; [done|]. done.
Qed.
End hex_steps.

Section hex_scan.
Variable Y : yara_h.
Variable str : list Z.
Variable max : Z.
Hypothesis Hd : masks_distinct Y.
Hypothesis Hmax : 0 < max.

Lemma hex_inv_init : hex_inv max [] hex_init ∧ ring_ok str max hex_init.
Proof.
  split.
  - unfold hex_inv, candidate_ok. simpl.
    repeat split; try lia; intros k Hk; lia.
  - intros H. simpl in H. lia.
Qed.

Lemma hex_add_skip_inv flags count st :
  hex_inv max flags st → ring_ok str max st →
  hex_inv max flags (hex_add_skip count st) ∧
  ring_ok str max (hex_add_skip count st).
Proof. intros Hinv Hring. split; [exact Hinv|exact Hring]. Qed.

(** One turn of the loop on a mask byte other than [MASK_END]: the
    candidate stays a window of literals of the positions consumed. *)
Lemma hex_step_any flags st m :
  hex_inv max flags st → ring_ok str max st → m ≠ MASK_END Y →
  ∃ ctl st' flags',
    hex_body str max (test_mask Y m) st = (ctl, st') ∧
    candidate_ok max flags' st' ∧
    ∀ rest,
    match ctl with
    | HEX_BREAK =>
      flags' `prefix_of`
        flags ++ literal_flags Y (hx_inside_or st) (m :: rest)
    | HEX_NEXT =>
      hex_inv max flags' st' ∧ ring_ok str max st' ∧
      flags ++ literal_flags Y (hx_inside_or st) (m :: rest)
      = flags' ++ literal_flags Y (hx_inside_or st') rest
    | HEX_SKIP =>
      hex_inv max flags' st' ∧ ring_ok str max st' ∧
      ∀ c rest', rest = c :: rest' →
        flags ++ literal_flags Y (hx_inside_or st) (m :: rest)
        = flags' ++ literal_flags Y (hx_inside_or st') rest'
    end.
Proof.
  intros Hinv Hring Hend.
  pose proof (λ io rest, literal_flags_step Y io m rest Hend) as Hfl.
  destruct (test_mask_cases Y Hd m Hend)
    as [[Hm Ht]|[[Hm Ht]|[[Hm Ht]|[[Hm Ht]|[[Hm Ht]|[Hw Ht]]]]]];
    pose proof (f_equal is_literal Ht) as Hl;
    pose proof (f_equal is_or Ht) as Hor;
    pose proof (f_equal is_or_end Ht) as Hore;
    pose proof (f_equal is_exact_skip Ht) as Hex;
    pose proof (f_equal is_range_skip Ht) as Hra;
    cbn [is_literal is_or is_or_end is_exact_skip is_range_skip test_mask
         literal_tests or_tests or_end_tests exact_skip_tests
         range_skip_tests wildcard_tests] in Hl, Hor, Hore, Hex, Hra;
    rewrite Ht.
  - (* a significant byte *)
    destruct (hx_inside_or st) eqn:Hin.
    + destruct (hex_step_no_literal str max Hmax flags st literal_tests
                  Hinv)
        as (st' & Hb & Hinv' & Hring' & Hin'); try done.
      { by rewrite Hin. }
      exists HEX_NEXT, st', (flags ++ [false]).
      split; [done|]. split; [apply Hinv'|]. intros rest.
      split; [done|]. split; [done|].
      rewrite Hfl, Hl, Hor, Hore, Hex, Hra, Hin', Hin. simpl.
      by rewrite <- app_assoc.
    + destruct (hex_step_literal str max Hmax flags st Hinv Hring Hin)
        as (ctl & st' & Hb & Hns & Hc & Hnext).
      exists ctl, st', (flags ++ [true]). split; [done|]. split; [done|].
      intros rest. rewrite Hfl, Hl, Hor, Hore, Hex, Hra.
      destruct ctl; [|done|].
      * destruct (Hnext eq_refl) as (Hinv' & Hring' & Hin').
        split; [done|]. split; [done|]. rewrite Hin'. simpl.
        by rewrite <- app_assoc.
      * simpl. apply prefix_app, prefix_cons, prefix_nil.
  - (* MASK_OR *)
    destruct (hex_step_sentinel str max Hmax flags st or_tests Hinv)
      as (ctl & st' & Hb & Hc & Hskip & _ & Hgo); try done.
    exists ctl, st', flags. split; [done|]. split; [done|].
    intros rest. rewrite Hfl, Hor, Hex, Hra.
    destruct ctl.
    + destruct (Hgo ltac:(done)) as (Hinv' & Hring' & Hin').
      split; [done|]. split; [done|]. by rewrite Hin'.
    + by apply proj1 in Hskip; specialize (Hskip eq_refl).
    + by apply prefix_app_r.
  - (* MASK_OR_END *)
    destruct (hex_step_sentinel str max Hmax flags st or_end_tests Hinv)
      as (ctl & st' & Hb & Hc & Hskip & _ & Hgo); try done.
    exists ctl, st', flags. split; [done|]. split; [done|].
    intros rest. rewrite Hfl, Hor, Hore, Hex, Hra.
    destruct ctl.
    + destruct (Hgo ltac:(done)) as (Hinv' & Hring' & Hin').
      split; [done|]. split; [done|]. by rewrite Hin'.
    + by apply proj1 in Hskip; specialize (Hskip eq_refl).
    + by apply prefix_app_r.
  - (* MASK_EXACT_SKIP *)
    destruct (hex_step_sentinel str max Hmax flags st exact_skip_tests Hinv)
      as (ctl & st' & Hb & Hc & Hskip & _ & Hgo); try done.
    exists ctl, st', flags. split; [done|]. split; [done|].
    intros rest. rewrite Hfl, Hex, Hra.
    assert (ctl = HEX_SKIP) as -> by (by apply Hskip).
    destruct (Hgo ltac:(done)) as (Hinv' & Hring' & Hin').
    split; [done|]. split; [done|]. intros c rest' ->. by rewrite Hin'.
  - (* MASK_RANGE_SKIP *)
    destruct (hex_step_sentinel str max Hmax flags st range_skip_tests Hinv)
      as (ctl & st' & Hb & Hc & _ & Hbreak & _); try done.
    exists ctl, st', flags. split; [done|]. split; [done|].
    intros rest. rewrite Hfl, Hra.
    rewrite (Hbreak eq_refl eq_refl). by apply prefix_app_r.
  - (* a wildcarded byte *)
    destruct (hex_step_no_literal str max Hmax flags st wildcard_tests Hinv)
      as (st' & Hb & Hinv' & Hring' & Hin'); try done.
    exists HEX_NEXT, st', (flags ++ [false]).
    split; [done|]. split; [apply Hinv'|]. intros rest.
    split; [done|]. split; [done|].
    rewrite Hfl, Hl, Hor, Hore, Hex, Hra, Hin'. simpl.
    by rewrite <- app_assoc.
Qed.

Lemma hex_run_inv n : ∀ pre flags st0 st,
  (length pre ≤ n)%nat →
  hex_inv max flags st0 → ring_ok str max st0 →
  hex_run Y str max pre st0 = Some st →
  ∃ flags', hex_inv max flags' st ∧ ring_ok str max st ∧
    ∀ rest, flags ++ literal_flags Y (hx_inside_or st0) (pre ++ rest)
            = flags' ++ literal_flags Y (hx_inside_or st) rest.
Proof.
  induction n as [|n IH]; intros pre flags st0 st Hlen Hinv Hring Hrun.
  { destruct pre; [|simpl in Hlen; lia]. injection Hrun as <-. eauto. }
  destruct pre as [|m pre']. { injection Hrun as <-. eauto. }
  simpl in Hrun, Hlen.
  destruct (Z.eqb_spec m (MASK_END Y)) as [|Hend]; [done|].
  destruct (hex_step_any flags st0 m Hinv Hring Hend)
    as (ctl & st' & flags' & Hb & Hc & Hctl).
  rewrite Hb in Hrun. destruct ctl; [| |done].
  - destruct (Hctl pre') as (Hinv' & Hring' & _).
    destruct (IH pre' flags' st' st ltac:(lia) Hinv' Hring' Hrun)
      as (flags'' & ? & ? & Hfl').
    exists flags''. split; [done|]. split; [done|]. intros rest.
    rewrite <- Hfl'.
    change ((m :: pre') ++ rest) with (m :: (pre' ++ rest)).
    by destruct (Hctl (pre' ++ rest)) as (_ & _ & ->).
  - destruct pre' as [|c pre'']; [done|].
    destruct (Hctl (c :: pre'')) as (Hinv' & Hring' & _).
    destruct (IH pre'' flags' (hex_add_skip c st') st
                ltac:(simpl in Hlen; lia) Hinv' Hring' Hrun)
      as (flags'' & ? & ? & Hfl').
    exists flags''. split; [done|]. split; [done|]. intros rest.
    rewrite <- Hfl'.
    change ((m :: c :: pre'') ++ rest) with (m :: c :: (pre'' ++ rest)).
    destruct (Hctl (c :: pre'' ++ rest)) as (_ & _ & Hfl).
    by rewrite (Hfl c (pre'' ++ rest)).
Qed.

Lemma hex_scan_inv n : ∀ mask flags st0 st,
  (length mask ≤ n)%nat →
  hex_inv max flags st0 → ring_ok str max st0 →
  hex_scan Y str max mask st0 = Some st →
  ∃ flags', candidate_ok max flags' st ∧
    flags' `prefix_of` flags ++ literal_flags Y (hx_inside_or st0) mask.
Proof.
  induction n as [|n IH]; intros mask flags st0 st Hlen Hinv Hring Hscan.
  { destruct mask; [done|simpl in Hlen; lia]. }
  destruct mask as [|m mask']; [done|].
  simpl in Hscan, Hlen.
  destruct (Z.eqb_spec m (MASK_END Y)) as [Hend|Hend].
  { injection Hscan as <-. exists flags. split; [apply Hinv|].
    by apply prefix_app_r. }
  destruct (hex_step_any flags st0 m Hinv Hring Hend)
    as (ctl & st' & flags' & Hb & Hc & Hctl).
  rewrite Hb in Hscan. destruct ctl.
  - destruct (Hctl mask') as (Hinv' & Hring' & ->).
    by apply (IH mask' flags' st' st ltac:(lia)).
  - destruct mask' as [|c mask'']; [done|].
    destruct (Hctl (c :: mask'')) as (Hinv' & Hring' & Hfl).
    rewrite (Hfl c mask'' eq_refl).
    by apply (IH mask'' flags' (hex_add_skip c st') st
                ltac:(simpl in Hlen; lia)).
  - injection Hscan as <-. exists flags'. split; [done|]. apply Hctl.
Qed.
(** *** The scan and the choice event by event *)

Lemma hex_body_other k st :
  is_or k = false → is_or_end k = false → is_exact_skip k = false →
  is_range_skip k = false →
  is_literal k && negb (hx_inside_or st) = false →
  ∃ st', hex_body str max k st = (HEX_NEXT, st') ∧
    candidate st' = candidate st ∧ hx_token_length st' = 0 ∧
    hx_inside_or st' = hx_inside_or st ∧
    hx_string_position st' = hx_string_position st + 1 ∧
    hx_backtrack st' = (if hx_inside_or st then hx_backtrack st
                        else hx_backtrack st + 1) ∧
    hx_or_string_length st' = (if hx_inside_or st
                               then hx_or_string_length st + 1
                               else hx_or_string_length st) ∧
    hx_previous_or_string_length st' = hx_previous_or_string_length st.
Proof.
  intros Hor Hore Hex Hra Hlit. unfold hex_body.
  rewrite Hor, Hore, Hex, Hra. cbn [negb andb orb]. rewrite Hlit.
  cbn [negb andb orb]. eexists. split; [reflexivity|].
  unfold candidate. cbn. by destruct (hx_inside_or st).
Qed.

Lemma hex_body_exact_skip st :
  ∃ st', hex_body str max exact_skip_tests st = (HEX_SKIP, st') ∧
    candidate st' = candidate st ∧ hx_token_length st' = 0 ∧
    hx_inside_or st' = hx_inside_or st ∧
    hx_string_position st' = hx_string_position st ∧
    hx_backtrack st' = hx_backtrack st ∧
    hx_or_string_length st' = hx_or_string_length st ∧
    hx_previous_or_string_length st' = hx_previous_or_string_length st.
Proof.
  unfold hex_body. cbn. eexists. split; [reflexivity|]. done.
Qed.

Lemma hex_body_range_skip st :
  ∃ st', hex_body str max range_skip_tests st = (HEX_BREAK, st') ∧
    candidate st' = candidate st.
Proof.
  unfold hex_body. cbn. eexists. split; [reflexivity|]. done.
Qed.

Lemma hex_body_or st :
  let branch := if hx_previous_or_string_length st =? 0
                then hx_or_string_length st
                else hx_previous_or_string_length st in
  ∃ st', candidate st' = candidate st ∧
    if hx_or_string_length st =? branch then
      hex_body str max or_tests st = (HEX_NEXT, st') ∧
      hx_token_length st' = 0 ∧ hx_inside_or st' = true ∧
      hx_string_position st' = hx_string_position st ∧
      hx_backtrack st' = hx_backtrack st ∧
      hx_or_string_length st' = 0 ∧
      hx_previous_or_string_length st' = branch
    else hex_body str max or_tests st = (HEX_BREAK, st').
Proof.
  intros branch. unfold hex_body. cbn. fold branch.
  destruct (hx_or_string_length st =? branch); cbn;
    eexists; (split; [|try split; try reflexivity; done]); done.
Qed.

Lemma hex_body_or_end st :
  let branch := if hx_previous_or_string_length st =? 0
                then hx_or_string_length st
                else hx_previous_or_string_length st in
  ∃ st', candidate st' = candidate st ∧
    if hx_or_string_length st =? branch then
      hex_body str max or_end_tests st = (HEX_NEXT, st') ∧
      hx_token_length st' = 0 ∧ hx_inside_or st' = false ∧
      hx_string_position st' = hx_string_position st ∧
      hx_backtrack st' = hx_backtrack st + branch ∧
      hx_or_string_length st' = 0 ∧
      hx_previous_or_string_length st' = 0
    else hex_body str max or_end_tests st = (HEX_BREAK, st').
Proof.
  intros branch. unfold hex_body. cbn. fold branch.
  destruct (hx_or_string_length st =? branch); cbn;
    eexists; (split; [|try split; try reflexivity; done]); done.
Qed.

Lemma hex_events_step io ol pl m rest :
  m ≠ MASK_END Y →
  hex_events Y io ol pl (m :: rest) =
    if m =? MASK_EXACT_SKIP Y then
      match rest with
      | [] => []
      | count :: rest' => EV_GAP count :: hex_events Y io ol pl rest'
      end
    else if m =? MASK_RANGE_SKIP Y then []
    else if (m =? MASK_OR Y) || (m =? MASK_OR_END Y) then
      let branch := if pl =? 0 then ol else pl in
      if ol =? branch then
        if m =? MASK_OR_END Y
        then EV_GAP branch :: hex_events Y false 0 0 rest
        else EV_GAP 0 :: hex_events Y true 0 branch rest
      else []
    else
      (if (m =? 255) && negb io then EV_LITERAL else EV_OTHER (negb io))
      :: hex_events Y io (if io then ol + 1 else ol) pl rest.
Proof. intros H%Z.eqb_neq. cbn [hex_events]. by rewrite H. Qed.

(** The candidate the scan ends with is the greedy choice over the events
    of the mask that is left. *)
Lemma hex_scan_greedy n : ∀ mask flags st0 st,
  (length mask ≤ n)%nat →
  hex_inv max flags st0 → ring_ok str max st0 →
  hex_scan Y str max mask st0 = Some st →
  candidate st =
    greedy_choice str max
      (hex_events Y (hx_inside_or st0) (hx_or_string_length st0)
         (hx_previous_or_string_length st0) mask)
      (hx_string_position st0) (hx_token_length st0) (hx_backtrack st0)
      (candidate st0).
Proof.
  induction n as [|n IH]; intros mask flags st0 st Hlen Hinv Hring Hscan.
  { destruct mask; [done|simpl in Hlen; lia]. }
  destruct mask as [|m mask']; [done|].
  cbn [hex_scan] in Hscan. simpl in Hlen.
  destruct (Z.eqb_spec m (MASK_END Y)) as [Hend|Hend].
  { injection Hscan as <-. cbn [hex_events].
    apply Z.eqb_eq in Hend. by rewrite Hend. }
  rewrite (hex_events_step _ _ _ m mask' Hend).
  destruct (masks_distinct_inv Y Hd)
    as (?&?&?&?&?&?&?&?&?&?&?&?&?&?&?).
  destruct (test_mask_cases Y Hd m Hend)
    as [[Hm Ht]|[[Hm Ht]|[[Hm Ht]|[[Hm Ht]|[[Hm Ht]|[Hw Ht]]]]]];
    rewrite Ht in Hscan.
  - (* a significant byte *)
    subst m.
    rewrite (proj2 (Z.eqb_neq 255 (MASK_EXACT_SKIP Y))),
      (proj2 (Z.eqb_neq 255 (MASK_RANGE_SKIP Y))),
      (proj2 (Z.eqb_neq 255 (MASK_OR Y))),
      (proj2 (Z.eqb_neq 255 (MASK_OR_END Y))) by done.
    cbn [orb]. rewrite Z.eqb_refl. cbn [andb].
    destruct (hx_inside_or st0) eqn:Hin; cbn [negb].
    + destruct (hex_body_other literal_tests st0)
        as (st' & Hb & Hc & Htl & Hio & Hpos & Hbt & Hol & Hpl);
        try done.
      { by rewrite Hin. }
      destruct (hex_step_no_literal str max Hmax flags st0 literal_tests
                  Hinv) as (st'' & Hb' & Hinv' & Hring' & _); try done.
      { by rewrite Hin. }
      rewrite Hb in Hb'. injection Hb' as <-.
      rewrite Hb in Hscan.
      rewrite (IH mask' _ st' st ltac:(lia) Hinv' Hring' Hscan).
      cbn [greedy_choice]. rewrite Hc, Htl, Hio, Hpos, Hbt, Hol, Hpl, Hin.
      reflexivity.
    + pose proof (ring_write_count str max Hmax flags st0 Hinv Hring)
        as Hcount.
      destruct (hex_step_literal str max Hmax flags st0 Hinv Hring Hin)
        as (ctl & st' & Hb & _ & _ & Hnext).
      rewrite (hex_body_literal str max st0 Hin) in Hb.
      rewrite (hex_body_literal str max st0 Hin) in Hscan.
      rewrite Hcount in Hb, Hscan.
      cbn [greedy_choice]. unfold candidate at 2.
      set (n' := Z.min (hx_token_length st0 + 1) max) in *.
      set (u := distinct_bytes
                  (bytes_from str (hx_string_position st0 - n' + 1) n'))
        in *.
      set (better := (hx_max_unique_bytes st0 <? u)
                     || (hx_candidate_token_length st0 <? n')) in *.
      destruct better eqn:Hbetter; cbn [andb] in *.
      * destruct ((n' =? max) && (u =? max)) eqn:Hstop.
        -- injection Hscan as <-. reflexivity.
        -- injection Hb as <- <-.
           destruct (Hnext eq_refl) as (Hinv' & Hring' & _).
           rewrite (IH mask' _ _ st ltac:(lia) Hinv' Hring' Hscan).
           reflexivity.
      * injection Hb as <- <-.
        destruct (Hnext eq_refl) as (Hinv' & Hring' & _).
        rewrite (IH mask' _ _ st ltac:(lia) Hinv' Hring' Hscan).
        reflexivity.
  - (* MASK_OR *)
    subst m.
    rewrite (proj2 (Z.eqb_neq (MASK_OR Y) (MASK_EXACT_SKIP Y))),
      (proj2 (Z.eqb_neq (MASK_OR Y) (MASK_RANGE_SKIP Y))),
      (proj2 (Z.eqb_neq (MASK_OR Y) (MASK_OR_END Y))) by done.
    rewrite Z.eqb_refl. cbn [orb]. cbv zeta.
    destruct (hex_body_or st0) as (st' & Hc & Hcase).
    destruct (hex_step_sentinel str max Hmax flags st0 or_tests Hinv)
      as (ctl & st'' & Hb' & _ & _ & _ & Hgo); try done.
    destruct (hx_or_string_length st0 =? _).
    + destruct Hcase as (Hb & Htl & Hio & Hpos & Hbt & Hol & Hpl).
      rewrite Hb in Hb'. injection Hb' as <- <-.
      destruct (Hgo ltac:(done)) as (Hinv' & Hring' & _).
      rewrite Hb in Hscan.
      rewrite (IH mask' _ st' st ltac:(lia) Hinv' Hring' Hscan).
      cbn [greedy_choice]. rewrite Hc, Htl, Hio, Hpos, Hbt, Hol, Hpl.
      by rewrite Z.add_0_r.
    + rewrite Hcase in Hscan. injection Hscan as <-. exact Hc.
  - (* MASK_OR_END *)
    subst m.
    rewrite (proj2 (Z.eqb_neq (MASK_OR_END Y) (MASK_EXACT_SKIP Y))),
      (proj2 (Z.eqb_neq (MASK_OR_END Y) (MASK_RANGE_SKIP Y))),
      (proj2 (Z.eqb_neq (MASK_OR_END Y) (MASK_OR Y))) by done.
    rewrite Z.eqb_refl. cbn [orb]. cbv zeta.
    destruct (hex_body_or_end st0) as (st' & Hc & Hcase).
    destruct (hex_step_sentinel str max Hmax flags st0 or_end_tests Hinv)
      as (ctl & st'' & Hb' & _ & _ & _ & Hgo); try done.
    destruct (hx_or_string_length st0 =? _).
    + destruct Hcase as (Hb & Htl & Hio & Hpos & Hbt & Hol & Hpl).
      rewrite Hb in Hb'. injection Hb' as <- <-.
      destruct (Hgo ltac:(done)) as (Hinv' & Hring' & _).
      rewrite Hb in Hscan.
      rewrite (IH mask' _ st' st ltac:(lia) Hinv' Hring' Hscan).
      cbn [greedy_choice]. rewrite Hc, Htl, Hio, Hpos, Hbt, Hol, Hpl.
      reflexivity.
    + rewrite Hcase in Hscan. injection Hscan as <-. exact Hc.
  - (* MASK_EXACT_SKIP *)
    subst m. rewrite Z.eqb_refl.
    destruct (hex_body_exact_skip st0)
      as (st' & Hb & Hc & Htl & Hio & Hpos & Hbt & Hol & Hpl).
    destruct (hex_step_sentinel str max Hmax flags st0 exact_skip_tests Hinv)
      as (ctl & st'' & Hb' & _ & _ & _ & Hgo); try done.
    rewrite Hb in Hb'. injection Hb' as <- <-.
    destruct (Hgo ltac:(done)) as (Hinv' & Hring' & _).
    rewrite Hb in Hscan.
    destruct mask' as [|count mask'']; [done|].
    destruct (hex_add_skip_inv flags count st' Hinv' Hring')
      as [Hinv'' Hring''].
    rewrite (IH mask'' _ _ st ltac:(simpl in Hlen; lia) Hinv'' Hring''
               Hscan).
    cbn [greedy_choice].
    change (candidate (hex_add_skip count st')) with (candidate st').
    cbn [hex_add_skip hx_inside_or hx_or_string_length
         hx_previous_or_string_length hx_string_position hx_token_length
         hx_backtrack].
    rewrite Hc, Htl, Hio, Hpos, Hbt, Hol, Hpl. reflexivity.
  - (* MASK_RANGE_SKIP *)
    subst m.
    rewrite (proj2 (Z.eqb_neq (MASK_RANGE_SKIP Y) (MASK_EXACT_SKIP Y)))
      by done.
    rewrite Z.eqb_refl.
    destruct (hex_body_range_skip st0) as (st' & Hb & Hc).
    rewrite Hb in Hscan. injection Hscan as <-. exact Hc.
  - (* a wildcarded byte *)
    unfold is_wildcard in Hw. rewrite !not_elem_of_cons in Hw.
    destruct Hw as (Hw255 & Hwor & Hwore & Hwex & Hwra & _).
    rewrite (proj2 (Z.eqb_neq m (MASK_EXACT_SKIP Y))),
      (proj2 (Z.eqb_neq m (MASK_RANGE_SKIP Y))),
      (proj2 (Z.eqb_neq m (MASK_OR Y))),
      (proj2 (Z.eqb_neq m (MASK_OR_END Y))),
      (proj2 (Z.eqb_neq m 255)) by done.
    cbn [orb andb].
    destruct (hex_body_other wildcard_tests st0)
      as (st' & Hb & Hc & Htl & Hio & Hpos & Hbt & Hol & Hpl);
      try done.
    destruct (hex_step_no_literal str max Hmax flags st0 wildcard_tests
                Hinv) as (st'' & Hb' & Hinv' & Hring' & _); try done.
    rewrite Hb in Hb'. injection Hb' as <-.
    rewrite Hb in Hscan.
    rewrite (IH mask' _ st' st ltac:(lia) Hinv' Hring' Hscan).
    cbn [greedy_choice]. rewrite Hc, Htl, Hio, Hpos, Hbt, Hol, Hpl.
    by destruct (hx_inside_or st0).
Qed.
(** At a mask byte that is not a literal outside the alternations the body
    ends the run of literals and leaves the candidate as it is. *)
Lemma hex_body_no_literal k st :
  is_literal k
  && negb (if is_or_end k then false
           else if is_or k then true else hx_inside_or st) = false →
  candidate (hex_body str max k st).2 = candidate st ∧
  hx_token_length (hex_body str max k st).2 = 0.
Proof.
  intros Hlit. unfold hex_body. rewrite Hlit. cbn [andb].
  repeat match goal with
         | |- context [if ?c then _ else _] => destruct c
         end; done.
Qed.

End hex_scan.

(** C3, amended: the token of a hex pattern is a window of significant
    literals outside the alternations, of at most MAX_TOKEN bytes, and it is
    the record the generator emits. The scan chooses it greedily, as
    [greedy_choice] does over the events of the mask: at every literal
    outside an alternation the window of the last [n] bytes of the current
    run ([n] the length of the run so far, at most MAX_TOKEN) is a window of
    literals, its count [u] is the number of its distinct bytes, and it
    replaces the candidate exactly when [u] is above the count recorded for
    the candidate or [n] is above the candidate's length, whatever its
    count; the scan stops there exactly when a replacement has
    [n] = [u] = MAX_TOKEN. Every other mask byte ends the run of literals
    and leaves the candidate as it is. *)
Theorem hex_token_choice (Y : yara_h) (s : STRING) :
  masks_distinct Y →
  let str := str_bytes s in
  let mask := str_mask s in
  let flags := literal_flags Y false mask in
  (∀ st, hex_scan Y str MAX_TOKEN mask hex_init = Some st →
     0 ≤ hx_candidate_token_length st ≤ MAX_TOKEN ∧
     literal_window flags (hx_candidate_token_position st)
       (hx_candidate_token_length st) ∧
     _yr_ac_gen_hex_tokens Y s MAX_TOKEN [] =
       Some (encode_tokens
               [{| tk_backtrack := hx_candidate_token_backtrack st;
                   tk_bytes := bytes_from str (hx_candidate_token_position st)
                                 (hx_candidate_token_length st) |}]) ∧
     candidate st =
       greedy_choice str MAX_TOKEN (hex_events Y false 0 0 mask) 0 0 0
         (0, 0, 0, 0)) ∧
  (∀ pre rest st,
     mask = pre ++ 255 :: rest →
     hex_run Y str MAX_TOKEN pre hex_init = Some st →
     hx_inside_or st = false →
     let p := hx_string_position st in
     let n := Z.min (hx_token_length st + 1) MAX_TOKEN in
     let u := distinct_bytes (bytes_from str (p - n + 1) n) in
     let replaced := (hx_max_unique_bytes st <? u)
                     || (hx_candidate_token_length st <? n) in
     literal_window flags (p - n + 1) n ∧
     ∃ ctl st',
       hex_body str MAX_TOKEN (test_mask Y 255) st = (ctl, st') ∧
       candidate st' =
         (if replaced then (p - n + 1, n, hx_backtrack st - n + 1, u)
          else candidate st) ∧
       hx_token_length st' = n ∧
       (ctl = HEX_BREAK ↔ replaced = true ∧ n = MAX_TOKEN ∧ u = MAX_TOKEN)) ∧
  (∀ pre m rest st,
     mask = pre ++ m :: rest →
     hex_run Y str MAX_TOKEN pre hex_init = Some st →
     m ≠ MASK_END Y → m ≠ 255 ∨ hx_inside_or st = true →
     ∃ ctl st',
       hex_body str MAX_TOKEN (test_mask Y m) st = (ctl, st') ∧
       candidate st' = candidate st ∧
       hx_token_length st' = 0).
Proof.
  intros Hd str mask flags.
  assert (Hmax : 0 < MAX_TOKEN) by done.
  destruct (hex_inv_init str MAX_TOKEN Hmax) as [Hinv0 Hring0].
  split; [|split].
  - intros st Hscan.
    destruct (hex_scan_inv Y str MAX_TOKEN Hd Hmax (length mask) mask []
                hex_init st ltac:(done) Hinv0 Hring0 Hscan)
      as (flags' & (Hlen & _ & Hwin) & [more Hpre]).
    simpl in Hpre. fold flags in Hpre.
    assert (Hnn : 0 ≤ hx_candidate_token_length st) by apply Hwin.
    split; [lia|]. split.
    { rewrite Hpre. by apply literal_window_app. }
    split.
    { unfold _yr_ac_gen_hex_tokens. fold str mask. rewrite Hscan.
      cbn [mbind option_bind]. unfold hex_emit.
      rewrite write_token_encode; [done|].
      rewrite length_bytes_from. lia. }
    exact (hex_scan_greedy Y str MAX_TOKEN Hd Hmax (length mask) mask []
             hex_init st ltac:(done) Hinv0 Hring0 Hscan).
  - intros pre rest st Hmask Hrun Hin p n u replaced.
    destruct (hex_run_inv Y str MAX_TOKEN Hd Hmax (length pre) pre []
                hex_init st ltac:(done) Hinv0 Hring0 Hrun)
      as (flags' & Hinv & Hring & Hfl).
    specialize (Hfl (255 :: rest)). simpl in Hfl.
    change (literal_flags Y false (pre ++ 255 :: rest) =
            flags' ++ literal_flags Y (hx_inside_or st) (255 :: rest)) in Hfl.
    rewrite <- Hmask in Hfl. fold flags in Hfl.
    destruct (masks_distinct_inv Y Hd) as (?&?&?&?&H255&_).
    rewrite (literal_flags_step Y _ 255 rest H255) in Hfl.
    pose proof (test_mask_literal Y Hd) as Ht.
    pose proof (f_equal is_or Ht) as Hor.
    pose proof (f_equal is_or_end Ht) as Hore.
    pose proof (f_equal is_exact_skip Ht) as Hex.
    pose proof (f_equal is_range_skip Ht) as Hra.
    cbn [is_or is_or_end is_exact_skip is_range_skip test_mask
         literal_tests] in Hor, Hore, Hex, Hra.
    rewrite Hor, Hore, Hex, Hra, Hin in Hfl. simpl in Hfl.
    pose proof (ring_write_count str MAX_TOKEN Hmax flags' st Hinv Hring)
      as Hcount.
    destruct Hinv as (Hpos & Htl & Htlp & Hrunw & Hcand).
    fold p in Hpos, Hcount. fold n in Hcount. fold u in Hcount.
    split.
    { rewrite Hfl, (cons_middle true), (assoc_L (++)).
      apply literal_window_app.
      eapply literal_window_shrink;
        [| |lia|apply (literal_window_snoc flags' (hx_token_length st));
                [lia|done]]; lia. }
    rewrite Ht, (hex_body_literal str MAX_TOKEN st Hin).
    fold n. rewrite Hcount. fold replaced.
    eexists _, _. split; [reflexivity|]. split; [|split].
    + unfold candidate. simpl. by destruct replaced.
    + reflexivity.
    + destruct replaced; simpl; [|split; [done|by intros [? _]]].
      destruct (Z.eqb_spec n MAX_TOKEN), (Z.eqb_spec u MAX_TOKEN); simpl;
        split; try done; intros (_ & ? & ?); done.
  - intros pre m rest st _ _ _ Hm.
    destruct (hex_body str MAX_TOKEN (test_mask Y m) st) as [ctl st'] eqn:Hb.
    exists ctl, st'. split; [reflexivity|].
    pose proof (hex_body_no_literal str MAX_TOKEN (test_mask Y m) st) as Hk.
    rewrite Hb in Hk. apply Hk. cbn [test_mask is_literal is_or is_or_end].
    destruct Hm as [Hm|Hin].
    + apply Z.eqb_neq in Hm. by rewrite Hm.
    + destruct (Z.eqb_spec m 255) as [->|]; [|done].
      destruct (masks_distinct_inv Y Hd) as (Hor & Hore & _).
      apply Z.eqb_neq in Hor, Hore. by rewrite Hor, Hore, Hin.
Qed.

Lemma hex_token_choice_witness :
  let Y := yara_h_example in
  let s := comment_pattern Y 0 in
  let str := str_bytes s in
  let mask := str_mask s in
  let flags := literal_flags Y false mask in
  masks_distinct Y ∧
  (∀ st, hex_scan Y str MAX_TOKEN mask hex_init = Some st →
     0 ≤ hx_candidate_token_length st ≤ MAX_TOKEN ∧
     literal_window flags (hx_candidate_token_position st)
       (hx_candidate_token_length st) ∧
     _yr_ac_gen_hex_tokens Y s MAX_TOKEN [] =
       Some (encode_tokens
               [{| tk_backtrack := hx_candidate_token_backtrack st;
                   tk_bytes := bytes_from str (hx_candidate_token_position st)
                                 (hx_candidate_token_length st) |}]) ∧
     candidate st =
       greedy_choice str MAX_TOKEN (hex_events Y false 0 0 mask) 0 0 0
         (0, 0, 0, 0)) ∧
  (∀ pre rest st,
     mask = pre ++ 255 :: rest →
     hex_run Y str MAX_TOKEN pre hex_init = Some st →
     hx_inside_or st = false →
     let p := hx_string_position st in
     let n := Z.min (hx_token_length st + 1) MAX_TOKEN in
     let u := distinct_bytes (bytes_from str (p - n + 1) n) in
     let replaced := (hx_max_unique_bytes st <? u)
                     || (hx_candidate_token_length st <? n) in
     literal_window flags (p - n + 1) n ∧
     ∃ ctl st',
       hex_body str MAX_TOKEN (test_mask Y 255) st = (ctl, st') ∧
       candidate st' =
         (if replaced then (p - n + 1, n, hx_backtrack st - n + 1, u)
          else candidate st) ∧
       hx_token_length st' = n ∧
       (ctl = HEX_BREAK ↔ replaced = true ∧ n = MAX_TOKEN ∧ u = MAX_TOKEN)) ∧
  (∀ pre m rest st,
     mask = pre ++ m :: rest →
     hex_run Y str MAX_TOKEN pre hex_init = Some st →
     m ≠ MASK_END Y → m ≠ 255 ∨ hx_inside_or st = true →
     ∃ ctl st',
       hex_body str MAX_TOKEN (test_mask Y m) st = (ctl, st') ∧
       candidate st' = candidate st ∧
       hx_token_length st' = 0).
Proof.
  assert (Hd : masks_distinct yara_h_example).
  { unfold masks_distinct. apply (bool_decide_unpack _). vm_compute.
    exact I. }
  split; [exact Hd|].
  exact (hex_token_choice yara_h_example (comment_pattern yara_h_example 0)
           Hd).
Defined.

(** On 01 02 ?? 05 the candidate 01 02 is kept past the wildcard: the byte
    05 alone is neither longer nor richer in distinct bytes. *)
Example wildcard_keeps_candidate :
  emitted_tokens yara_h_example zeros two_wildcard_one =
    Some [{| tk_backtrack := 0; tk_bytes := [1; 2] |}] ∧
  greedy_choice (str_bytes two_wildcard_one) MAX_TOKEN
    (hex_events yara_h_example false 0 0 (str_mask two_wildcard_one))
    0 0 0 (0, 0, 0, 0) = (0, 2, 0, 2).
Proof. split; vm_compute; reflexivity. Qed.

(** ** Updates of the arena *)

Lemma arena_request_inv a a' :
  arena_request a = Some a' →
  states a' = states a ∧ match_records a' = match_records a ∧
  room a = S (room a').
Proof.
  unfold arena_request. destruct (room a); [done|].
  by intros [= <-].
Qed.

Lemma lookup_update_state a p f q :
  states (update_state a p f) !! q =
    if decide (p = q) then f <$> states a !! q else states a !! q.
Proof.
  unfold update_state. simpl. rewrite list_lookup_alter.
  repeat case_decide; subst; done.
Qed.

Lemma lookup_update_state_eq a p f s :
  states a !! p = Some s → states (update_state a p f) !! p = Some (f s).
Proof. intros H. by rewrite lookup_update_state, decide_True, H. Qed.

Lemma lookup_update_state_ne a p f q :
  p ≠ q → states (update_state a p f) !! q = states a !! q.
Proof. intros H. by rewrite lookup_update_state, decide_False. Qed.

Lemma match_records_update_state a p f :
  match_records (update_state a p f) = match_records a.
Proof. reflexivity. Qed.

Lemma length_states_update_state a p f :
  length (states (update_state a p f)) = length (states a).
Proof. unfold update_state. simpl. apply length_alter. Qed.

Lemma allocate_state_inv a tr n a' :
  allocate_state a tr = Some (n, a') →
  n = length (states a) ∧
  states a' = states a ++ [{| depth := 0; failure := None; matches := None;
                              transitions := tr |}] ∧
  match_records a' = match_records a ∧ room a = S (room a').
Proof.
  unfold allocate_state. destruct (arena_request a) as [a1|] eqn:Hr; [|done].
  apply arena_request_inv in Hr as (Hs & Hm & Hroom).
  simpl. intros [= <- <-]. simpl. by rewrite Hs.
Qed.

(** ** yr_ac_next_state on a state whose content is known *)

Lemma next_state_unfold a state s input :
  states a !! state = Some s →
  yr_ac_next_state a state input =
    if depth s <=? MAX_TABLE_BASED_STATES_DEPTH then
      match transitions s with
      | TABLE t => mjoin (t !! Z.to_nat input)
      | LIST _ => None
      end
    else
      match transitions s with
      | LIST l => find_transition l input
      | TABLE _ => None
      end.
Proof. intros H. unfold yr_ac_next_state. by rewrite H. Qed.

(** After a successful [_yr_ac_create_state] the state returned, which was
    not in the arena, is where the origin goes on the byte; on all other
    bytes the origin goes where it went. *)
Lemma create_state_links (a a' : ARENA) (state n : ptr) (s : AC_STATE)
    (input : Z) :
  states a !! state = Some s → repr_ok s → is_byte input →
  _yr_ac_create_state a state input = (Some n, a') →
  states a !! n = None ∧
  yr_ac_next_state a' state input = Some n ∧
  (∀ b, is_byte b → b ≠ input →
     yr_ac_next_state a' state b = yr_ac_next_state a state b).
Proof.
  intros Hs Hrepr Hin Hcreate. unfold _yr_ac_create_state in Hcreate.
  rewrite Hs in Hcreate.
  destruct (allocate_state a _) as [[n' a1]|] eqn:Halloc; [|done].
  apply allocate_state_inv in Halloc as (-> & Hst1 & Hm1 & Hroom1).
  assert (Hlt : (state < length (states a))%nat)
    by (by eapply lookup_lt_Some).
  assert (Hs1 : states a1 !! state = Some s).
  { rewrite Hst1. by apply lookup_app_l_Some. }
  set (new := {| depth := 0; failure := None; matches := None;
                 transitions := if depth s <? MAX_TABLE_BASED_STATES_DEPTH
                                then empty_table else LIST [] |}) in *.
  assert (Hn1 : states a1 !! length (states a) = Some new).
  { rewrite Hst1. rewrite lookup_app_r by lia. by rewrite Nat.sub_diag. }
  unfold repr_ok in Hrepr. unfold MAX_TABLE_BASED_STATES_DEPTH in *.
  destruct (Z.leb_spec (depth s) 1) as [Hd|Hd].
  - (* the origin is table-based *)
    destruct (yr_arena_make_relocatable a1) as [a2|] eqn:Hrel; [|done].
    apply arena_request_inv in Hrel as (Hst2 & Hm2 & Hroom2).
    injection Hcreate as <- <-.
    destruct (transitions s) as [t|l] eqn:Htr; [|lia].
    destruct Hrepr as [_ Hlen].
    split; [by apply lookup_ge_None|].
    assert (Hs' : states (update_state
                     (update_state a2 state
                        (set_table_entry input (length (states a))))
                     (length (states a)) (set_depth (depth s + 1))) !! state
                  = Some (set_table_entry input (length (states a)) s)).
    { rewrite lookup_update_state_ne by lia.
      apply lookup_update_state_eq. by rewrite Hst2. }
    assert (Hlookup : ∀ b,
      yr_ac_next_state
        (update_state
           (update_state a2 state (set_table_entry input (length (states a))))
           (length (states a)) (set_depth (depth s + 1))) state b
      = mjoin (<[Z.to_nat input := Some (length (states a))]> t
               !! Z.to_nat b)).
    { intros b. rewrite (next_state_unfold _ _ _ _ Hs').
      unfold set_table_entry. rewrite Htr. simpl.
      unfold MAX_TABLE_BASED_STATES_DEPTH.
      destruct (Z.leb_spec (depth s) 1); [done|lia]. }
    split.
    + rewrite Hlookup, list_lookup_insert_eq; [done|].
      unfold is_byte in Hin. lia.
    + intros b Hb Hne. rewrite Hlookup.
      rewrite list_lookup_insert_ne by (unfold is_byte in *; lia).
      rewrite (next_state_unfold _ _ _ _ Hs), Htr.
      unfold MAX_TABLE_BASED_STATES_DEPTH.
      destruct (Z.leb_spec (depth s) 1); [done|lia].
  - (* the origin is list-based *)
    destruct (allocate_transition a1) as [a2|] eqn:Hrel; [|done].
    apply arena_request_inv in Hrel as (Hst2 & Hm2 & Hroom2).
    injection Hcreate as <- <-.
    destruct (transitions s) as [t|l] eqn:Htr; [lia|].
    split; [by apply lookup_ge_None|].
    assert (Hs' : states (update_state
                     (update_state a2 state
                        (push_transition input (length (states a))))
                     (length (states a)) (set_depth (depth s + 1))) !! state
                  = Some (push_transition input (length (states a)) s)).
    { rewrite lookup_update_state_ne by lia.
      apply lookup_update_state_eq. by rewrite Hst2. }
    assert (Hlookup : ∀ b,
      yr_ac_next_state
        (update_state
           (update_state a2 state (push_transition input (length (states a))))
           (length (states a)) (set_depth (depth s + 1))) state b
      = find_transition ((input, length (states a)) :: l) b).
    { intros b. rewrite (next_state_unfold _ _ _ _ Hs').
      unfold push_transition. rewrite Htr. simpl.
      unfold MAX_TABLE_BASED_STATES_DEPTH.
      destruct (Z.leb_spec (depth s) 1); [lia|done]. }
    split.
    + rewrite Hlookup. simpl. by rewrite Z.eqb_refl.
    + intros b Hb Hne. rewrite Hlookup. simpl.
      destruct (Z.eqb_spec input b); [done|].
      rewrite (next_state_unfold _ _ _ _ Hs), Htr.
      unfold MAX_TABLE_BASED_STATES_DEPTH.
      destruct (Z.leb_spec (depth s) 1); [lia|done].
Qed.

(** ** The arena after _yr_ac_create_state *)

Lemma create_state_inv a a' state n s input :
  states a !! state = Some s →
  _yr_ac_create_state a state input = (Some n, a') →
  n = length (states a) ∧
  match_records a' = match_records a ∧
  states a' = <[state := linked_origin s input n]> (states a)
              ++ [created_state s].
Proof.
  intros Hs Hcreate. unfold _yr_ac_create_state in Hcreate.
  rewrite Hs in Hcreate.
  destruct (allocate_state a _) as [[n' a1]|] eqn:Halloc; [|done].
  apply allocate_state_inv in Halloc as (-> & Hst1 & Hm1 & _).
  assert (Hlt : (state < length (states a))%nat)
    by (by eapply lookup_lt_Some).
  assert (Hgoal : ∀ a2 link,
    states a2 = states a1 → match_records a2 = match_records a1 →
    link s = linked_origin s input (length (states a)) →
    match_records
      (update_state (update_state a2 state link) (length (states a))
         (set_depth (depth s + 1))) = match_records a ∧
    states
      (update_state (update_state a2 state link) (length (states a))
         (set_depth (depth s + 1)))
    = <[state := linked_origin s input (length (states a))]> (states a)
      ++ [created_state s]).
  { intros a2 link Hst2 Hm2 Hlink. split; [simpl; congruence|].
    unfold update_state. simpl. rewrite Hst2, Hst1.
    rewrite alter_app_l by done.
    rewrite alter_app_r_alt by (rewrite length_alter; lia).
    rewrite length_alter, Nat.sub_diag. simpl.
    f_equal. apply list_eq. intros i.
    rewrite list_lookup_alter, list_lookup_insert.
    destruct (decide (state = i)) as [<-|Hne].
    - rewrite decide_True by done. rewrite Hs. simpl. by rewrite Hlink.
    - rewrite decide_False by (by intros [? _]). done. }
  destruct (depth s <=? MAX_TABLE_BASED_STATES_DEPTH) eqn:Hd.
  - destruct (yr_arena_make_relocatable a1) as [a2|] eqn:Hrel; [|done].
    apply arena_request_inv in Hrel as (Hst2 & Hm2 & _).
    injection Hcreate as <- <-. split; [done|].
    apply Hgoal; [done|done|]. unfold linked_origin. by rewrite Hd.
  - destruct (allocate_transition a1) as [a2|] eqn:Hrel; [|done].
    apply arena_request_inv in Hrel as (Hst2 & Hm2 & _).
    injection Hcreate as <- <-. split; [done|].
    apply Hgoal; [done|done|]. unfold linked_origin. by rewrite Hd.
Qed.

Lemma depth_linked_origin s input n :
  depth (linked_origin s input n) = depth s ∧
  matches (linked_origin s input n) = matches s ∧
  failure (linked_origin s input n) = failure s.
Proof.
  unfold linked_origin, set_table_entry, push_transition.
  destruct (depth s <=? _), (transitions s); done.
Qed.

Lemma transition_linked_origin s input n b c :
  repr_ok s →
  transition (linked_origin s input n) b c →
  c = n ∨ transition s b c.
Proof.
  unfold repr_ok, linked_origin, set_table_entry, push_transition, transition.
  unfold MAX_TABLE_BASED_STATES_DEPTH.
  destruct (Z.leb_spec (depth s) 1), (transitions s) as [t|l]; simpl;
    try lia; intros Hrepr.
  - intros [Hb Hl].
    destruct (decide (Z.to_nat input = Z.to_nat b)) as [E|Hne].
    + pose proof (lookup_lt_Some _ _ _ Hl) as Hlt.
      rewrite length_insert in Hlt.
      rewrite E in Hl. rewrite list_lookup_insert_eq in Hl by done.
      left. congruence.
    + rewrite list_lookup_insert_ne in Hl by done. by right.
  - rewrite elem_of_cons. intros [[= _ ->]|Hel]; [by left|by right].
Qed.

Lemma repr_ok_linked_origin s input n :
  repr_ok s → repr_ok (linked_origin s input n).
Proof.
  unfold repr_ok, linked_origin, set_table_entry, push_transition.
  unfold MAX_TABLE_BASED_STATES_DEPTH.
  destruct (Z.leb_spec (depth s) 1), (transitions s) as [t|l]; simpl;
    try lia.
  intros [? ?]. by rewrite length_insert.
Qed.

Lemma state_wf_created a s :
  0 ≤ depth s → state_wf a (created_state s).
Proof.
  intros Hd. unfold state_wf, created_state, repr_ok, transition.
  unfold MAX_TABLE_BASED_STATES_DEPTH. cbn [depth transitions].
  destruct (Z.ltb_spec (depth s) 1); unfold empty_table.
  - split; [lia|]. split; [split; [lia|apply length_replicate]|].
    intros b c [_ Hl]. apply lookup_replicate in Hl as [[=] _].
  - split; [lia|]. split; [lia|]. intros b c Hl. by apply elem_of_nil in Hl.
Qed.

(** Creating the state a walk misses keeps the arena well formed and keeps
    what the arena held. *)
Lemma create_state_extends a a' state n s input :
  arena_wf a → states a !! state = Some s → is_byte input →
  yr_ac_next_state a state input = None →
  _yr_ac_create_state a state input = (Some n, a') →
  arena_extends a a' ∧ arena_wf a' ∧
  yr_ac_next_state a' state input = Some n ∧
  states a !! n = None ∧
  ∃ sn, states a' !! n = Some sn ∧ depth sn = depth s + 1.
Proof.
  intros Hwf Hs Hin Hnone Hcreate.
  destruct (Hwf _ _ Hs) as (Hds & Hrepr & Htrans).
  destruct (create_state_links a a' state n s input Hs Hrepr Hin Hcreate)
    as (Hnew & Hnext & Hother).
  destruct (create_state_inv a a' state n s input Hs Hcreate)
    as (-> & Hm & Hst).
  assert (Hlt : (state < length (states a))%nat)
    by (by eapply lookup_lt_Some).
  assert (Hlk_state : states a' !! state
                      = Some (linked_origin s input (length (states a)))).
  { rewrite Hst, lookup_app_l by (rewrite length_insert; lia).
    by apply list_lookup_insert_eq. }
  assert (Hlk_other : ∀ p, p ≠ state → (p < length (states a))%nat →
                           states a' !! p = states a !! p).
  { intros p Hne Hp.
    rewrite Hst, lookup_app_l by (rewrite length_insert; lia).
    by apply list_lookup_insert_ne. }
  assert (Hlk_new : states a' !! length (states a) = Some (created_state s)).
  { rewrite Hst, lookup_app_r by (rewrite length_insert; lia).
    by rewrite length_insert, Nat.sub_diag. }
  assert (Hlen : length (states a') = S (length (states a))).
  { rewrite Hst, length_app, length_insert. simpl. lia. }
  destruct (depth_linked_origin s input (length (states a)))
    as (Hd1 & Hd2 & Hd3).
  assert (Hext1 : ∀ p sp, states a !! p = Some sp →
            ∃ sp', states a' !! p = Some sp' ∧ depth sp' = depth sp ∧
                   matches sp' = matches sp ∧ failure sp' = failure sp).
  { intros p sp Hp. destruct (decide (p = state)) as [->|Hne].
    - rewrite Hs in Hp. injection Hp as <-. eauto.
    - exists sp. rewrite Hlk_other; [done|done|by eapply lookup_lt_Some]. }
  assert (Hext : arena_extends a a').
  { split; [exact Hext1|]. split; [|split; [|done]].
    - intros p b c Hb Hn. destruct (decide (p = state)) as [->|Hne].
      + rewrite Hother; [done|done|]. intros ->. congruence.
      + destruct (states a !! p) as [sp|] eqn:Hp.
        * rewrite (next_state_unfold _ _ _ _ Hp) in Hn.
          rewrite <- Hlk_other in Hp; [|done|by eapply lookup_lt_Some].
          by rewrite (next_state_unfold _ _ _ _ Hp).
        * unfold yr_ac_next_state in Hn. by rewrite Hp in Hn.
    - intros p sp' Hp Hp'. apply lookup_ge_None in Hp.
      apply lookup_lt_Some in Hp' as Hlt'.
      assert (p = length (states a)) as -> by lia.
      rewrite Hlk_new in Hp'. by injection Hp' as <-. }
  split; [exact Hext|]. split; [|split; [done|split; [done|eauto]]].
  intros p sp' Hp'.
  assert (Hkeep : ∀ d c,
    (∃ sc, states a !! c = Some sc ∧ depth sc = d) →
    ∃ sc, states a' !! c = Some sc ∧ depth sc = d).
  { intros d c (sc & Hc & <-).
    destruct (Hext1 _ _ Hc) as (sc' & ? & ? & _). eauto. }
  destruct (decide (p = length (states a))) as [->|Hpn].
  { rewrite Hlk_new in Hp'. injection Hp' as <-. by apply state_wf_created. }
  destruct (decide (p = state)) as [->|Hps].
  - rewrite Hlk_state in Hp'. injection Hp' as <-.
    split; [lia|]. split; [by apply repr_ok_linked_origin|].
    intros b c Ht. rewrite Hd1.
    destruct (transition_linked_origin _ _ _ _ _ Hrepr Ht) as [->|Ht'].
    + eauto.
    + eapply Hkeep. by eapply Htrans.
  - apply lookup_lt_Some in Hp' as Hlt'.
    rewrite Hlk_other in Hp' by lia.
    destruct (Hwf _ _ Hp') as (? & ? & Htr).
    split; [done|]. split; [done|]. intros b c Ht.
    eapply Hkeep. by eapply Htr.
Qed.

Lemma arena_extends_refl a : arena_extends a a.
Proof.
  split; [eauto|]. split; [done|]. split; [|done]. intros; congruence.
Qed.

Lemma arena_extends_trans a b c :
  arena_extends a b → arena_extends b c → arena_extends a c.
Proof.
  intros (H1 & H2 & H3 & H4) (G1 & G2 & G3 & G4).
  split; [|split; [|split]].
  - intros p sp Hp. destruct (H1 _ _ Hp) as (sp' & Hp' & ? & ? & ?).
    destruct (G1 _ _ Hp') as (sp'' & ? & ? & ? & ?).
    exists sp''. repeat split; congruence.
  - eauto.
  - intros p sp'' Hp Hp''. destruct (states b !! p) as [sp'|] eqn:Hp'.
    + destruct (G1 _ _ Hp') as (sp2 & ? & _ & Hm & _).
      assert (sp2 = sp'') as -> by congruence.
      rewrite Hm. by eapply H3.
    + by eapply G3.
  - congruence.
Qed.

(** ** Arenas that hold the same trie *)

Lemma same_shape_refl a : same_shape a a.
Proof. split; [done|]. eauto. Qed.

Lemma same_shape_trans a b c :
  same_shape a b → same_shape b c → same_shape a c.
Proof.
  intros [L1 H1] [L2 H2]. split; [congruence|].
  intros p s Hp. destruct (H1 _ _ Hp) as (s' & Hp' & ? & ?).
  destruct (H2 _ _ Hp') as (s'' & ? & ? & ?).
  exists s''. repeat split; congruence.
Qed.

Lemma same_shape_lookup_None a a' p :
  same_shape a a' → states a !! p = None → states a' !! p = None.
Proof.
  intros [L _] H. apply lookup_ge_None in H. apply lookup_ge_None. lia.
Qed.

Lemma same_shape_sym a a' : same_shape a a' → same_shape a' a.
Proof.
  intros [L H]. split; [done|]. intros p s' Hp'.
  destruct (states a !! p) as [s|] eqn:Hp.
  - destruct (H _ _ Hp) as (s2 & Hp2 & ? & ?).
    assert (s2 = s') as -> by congruence. eauto.
  - apply lookup_ge_None in Hp. apply lookup_lt_Some in Hp'. lia.
Qed.

Lemma same_shape_update_state a p f :
  (∀ s, depth (f s) = depth s ∧ transitions (f s) = transitions s) →
  same_shape a (update_state a p f).
Proof.
  intros Hf. split; [apply length_states_update_state|].
  intros q s Hq. rewrite lookup_update_state.
  destruct (decide (p = q)) as [->|]; [|eauto].
  rewrite Hq. simpl. exists (f s). split; [done|]. apply Hf.
Qed.

Lemma same_shape_states a a' :
  states a' = states a → same_shape a a'.
Proof. intros H. split; [by rewrite H|]. intros p s Hp. rewrite H. eauto. Qed.

Lemma same_shape_next_state a a' p b :
  same_shape a a' → yr_ac_next_state a' p b = yr_ac_next_state a p b.
Proof.
  intros Hsh. unfold yr_ac_next_state.
  destruct (states a !! p) as [s|] eqn:Hp.
  - destruct Hsh as [_ H]. destruct (H _ _ Hp) as (s' & -> & Hd & Ht).
    simpl. by rewrite Hd, Ht.
  - by rewrite (same_shape_lookup_None a a' p Hsh Hp).
Qed.

Lemma same_shape_next_child a a' p it :
  same_shape a a' → _yr_ac_next_child a' p it = _yr_ac_next_child a p it.
Proof.
  intros Hsh. unfold _yr_ac_next_child.
  destruct (states a !! p) as [s|] eqn:Hp.
  - destruct Hsh as [_ H]. destruct (H _ _ Hp) as (s' & -> & Hd & Ht).
    simpl. by rewrite Hd, Ht.
  - by rewrite (same_shape_lookup_None a a' p Hsh Hp).
Qed.

Lemma same_shape_first_child a a' p :
  same_shape a a' → _yr_ac_first_child a' p = _yr_ac_first_child a p.
Proof.
  intros Hsh. unfold _yr_ac_first_child.
  rewrite (same_shape_next_child a a' p 0 Hsh).
  destruct (states a !! p) as [s|] eqn:Hp.
  - destruct Hsh as [_ H]. destruct (H _ _ Hp) as (s' & -> & Hd & Ht).
    simpl. by rewrite Hd, Ht.
  - by rewrite (same_shape_lookup_None a a' p Hsh Hp).
Qed.

Lemma same_shape_follow a a' p bytes :
  same_shape a a' → follow a' p bytes = follow a p bytes.
Proof.
  intros Hsh. revert p. induction bytes as [|b bytes IH]; intros p; [done|].
  simpl. rewrite (same_shape_next_state a a' p b Hsh).
  destruct (yr_ac_next_state a p b); simpl; [apply IH|done].
Qed.

Lemma same_shape_wf a a' : same_shape a a' → arena_wf a → arena_wf a'.
Proof.
  intros Hsh Hwf p s' Hp'.
  destruct (same_shape_sym _ _ Hsh) as [_ Hback].
  destruct (Hback _ _ Hp') as (s & Hp & Hd & Ht).
  destruct (Hwf _ _ Hp) as (H0 & Hrepr & Htr).
  unfold state_wf, repr_ok, transition in *. rewrite <- Hd, <- Ht.
  split; [done|]. split; [done|]. intros b c Hbc.
  destruct (Htr b c Hbc) as (sc & Hc & Hdc).
  destruct Hsh as [_ Hfwd]. destruct (Hfwd _ _ Hc) as (sc' & ? & ? & _).
  exists sc'. split; [done|]. congruence.
Qed.

(** ** The walk of a token *)

Lemma next_state_transition a state s b c :
  states a !! state = Some s → 0 ≤ b →
  yr_ac_next_state a state b = Some c → transition s b c.
Proof.
  intros Hs Hb. rewrite (next_state_unfold _ _ _ _ Hs). unfold transition.
  destruct (depth s <=? _), (transitions s) as [t|l]; try done.
  - intros H. split; [done|].
    destruct (t !! Z.to_nat b) as [[c'|]|]; simpl in H; congruence.
  - induction l as [|[b' c'] l IH]; simpl; [done|].
    destruct (Z.eqb_spec b' b) as [->|].
    + intros [= ->]. apply list_elem_of_here.
    + intros H. apply list_elem_of_further. by apply IH.
Qed.

Lemma walk_token_spec bytes : ∀ a state s rest,
  arena_wf a → states a !! state = Some s → Forall is_byte bytes →
  ∃ reached a' cur',
    walk_token (length bytes) a state ((BYTE <$> bytes) ++ rest)
      = Some (reached, a', cur') ∧
    ∀ terminal, reached = Some terminal →
      cur' = rest ∧ arena_wf a' ∧ arena_extends a a' ∧
      follow a' state bytes = Some terminal ∧
      ∃ st, states a' !! terminal = Some st ∧
            depth st = depth s + Z.of_nat (length bytes).
Proof.
  induction bytes as [|b bytes IH]; intros a state s rest Hwf Hs Hbytes.
  { exists (Some state), a, rest. split; [done|]. intros t [= <-].
    split; [done|]. split; [done|]. split; [apply arena_extends_refl|].
    split; [done|]. exists s. split; [done|]. simpl. lia. }
  apply Forall_cons in Hbytes as [Hb Hbytes].
  cbn [length fmap list_fmap app walk_token read_byte mbind option_bind].
  destruct (yr_ac_next_state a state b) as [nx|] eqn:Hnext.
  - destruct (Hwf _ _ Hs) as (_ & _ & Htr).
    destruct (Htr b nx) as (sc & Hc & Hdc).
    { eapply next_state_transition; [done|apply Hb|done]. }
    destruct (IH a nx sc rest Hwf Hc Hbytes)
      as (reached & a' & cur' & Hwalk & Hok).
    exists reached, a', cur'. split; [exact Hwalk|].
    intros t Ht. destruct (Hok t Ht) as (-> & Hwf' & Hext & Hfol & st & Hst & Hd).
    split; [done|]. split; [done|]. split; [done|]. split.
    + simpl. destruct Hext as (_ & Hn & _). by rewrite (Hn _ _ _ Hb Hnext).
    + exists st. split; [done|]. simpl length. lia.
  - destruct (_yr_ac_create_state a state b) as [[n|] a1] eqn:Hcreate.
    2:{ exists None, a1, ((BYTE <$> bytes) ++ rest). split; [done|]. done. }
    destruct (create_state_extends a a1 state n s b Hwf Hs Hb Hnext Hcreate)
      as (Hext1 & Hwf1 & Hnext1 & _ & sn & Hn & Hdn).
    destruct (IH a1 n sn rest Hwf1 Hn Hbytes)
      as (reached & a' & cur' & Hwalk & Hok).
    exists reached, a', cur'. split; [exact Hwalk|].
    intros t Ht. destruct (Hok t Ht) as (-> & Hwf' & Hext & Hfol & st & Hst & Hd).
    split; [done|]. split; [done|].
    split; [by eapply arena_extends_trans|]. split.
    + simpl. destruct Hext as (_ & Hnx & _). by rewrite (Hnx _ _ _ Hb Hnext1).
    + exists st. split; [done|]. simpl length. lia.
Qed.

(** ** Output chains *)

Lemma chain_of_det a p l1 l2 : chain_of a p l1 → chain_of a p l2 → l1 = l2.
Proof.
  intros H1. revert l2. induction H1 as [|m r l Hm _ IH]; intros l2 H2.
  - by inversion H2.
  - inversion H2 as [|m' r' l' Hm' Hl']; subst.
    rewrite Hm in Hm'. injection Hm' as <-. f_equal. by apply IH.
Qed.

(** Records added at the end of the arena do not change the chains. *)
Lemma chain_of_app a a' p l more :
  match_records a' = match_records a ++ more →
  chain_of a p l → chain_of a' p l.
Proof.
  intros Hm H. induction H as [|m r l Hr _ IH]; [constructor|].
  econstructor; [|exact IH]. rewrite Hm. by apply lookup_app_l_Some.
Qed.

Lemma chain_of_records a a' p l :
  match_records a' = match_records a → chain_of a p l → chain_of a' p l.
Proof.
  intros Hm. apply (chain_of_app a a' p l []). by rewrite app_nil_r.
Qed.

(** ** The output record of a token *)

Lemma allocate_match_inv a r m a' :
  allocate_match a r = Some (m, a') →
  m = length (match_records a) ∧ states a' = states a ∧
  match_records a' = match_records a ++ [r] ∧ room a = S (room a').
Proof.
  unfold allocate_match. destruct (arena_request a) as [a1|] eqn:Hr; [|done].
  apply arena_request_inv in Hr as (Hs & Hm & Hroom).
  simpl. intros [= <- <-]. simpl. by rewrite Hm.
Qed.

Lemma new_match_at_inv a state s bt a' st :
  states a !! state = Some st →
  new_match_at a state s bt = Some a' →
  let m := length (match_records a) in
  match_records a' =
    match_records a ++ [{| m_backtrack := bt; m_string := s;
                           m_next := matches st |}] ∧
  states a' !! state = Some (set_matches (Some m) st) ∧
  (∀ p, p ≠ state → states a' !! p = states a !! p) ∧
  same_shape a a' ∧ room a = S (room a').
Proof.
  intros Hst Hnew m. unfold new_match_at in Hnew. rewrite Hst in Hnew.
  simpl in Hnew.
  destruct (allocate_match a _) as [[m' a1]|] eqn:Halloc; [|done].
  apply allocate_match_inv in Halloc as (-> & Hs1 & Hm1 & Hroom).
  injection Hnew as <-. split; [done|]. split; [|split; [|split]].
  - apply lookup_update_state_eq. by rewrite Hs1.
  - intros p Hne. rewrite lookup_update_state_ne by done. by rewrite Hs1.
  - eapply same_shape_trans; [by apply same_shape_states|].
    by apply same_shape_update_state.
  - done.
Qed.

Lemma new_match_at_room a state s bt st :
  states a !! state = Some st → (0 < room a)%nat →
  is_Some (new_match_at a state s bt).
Proof.
  intros Hst Hroom. unfold new_match_at, allocate_match, arena_request.
  rewrite Hst. simpl. destruct (room a); [lia|]. by eexists.
Qed.

(** The walk of the bytes of a token from the root and the record attached
    where it ends: the token is attached. *)
Lemma walk_then_attach a root_state sr s t a1 terminal st a2 :
  arena_wf a → states a !! root_state = Some sr → depth sr = 0 →
  arena_wf a1 → arena_extends a a1 →
  follow a1 root_state (tk_bytes t) = Some terminal →
  states a1 !! terminal = Some st →
  depth st = depth sr + Z.of_nat (length (tk_bytes t)) →
  new_match_at a1 terminal s (depth st + tk_backtrack t) = Some a2 →
  token_attached a root_state s t a2 ∧ arena_wf a2 ∧
  ∃ sr', states a2 !! root_state = Some sr' ∧ depth sr' = 0.
Proof.
  intros Hwf Hroot Hd0 Hwf1 Hext Hfol Hst Hdepth Hnew.
  destruct (new_match_at_inv _ _ _ _ _ _ Hst Hnew)
    as (Hm2 & Hterm2 & Hother2 & Hsh & _).
  destruct Hext as (Hext1 & _ & Hext3 & Hext4).
  assert (Hold : matches st = matches_of a terminal).
  { unfold matches_of. destruct (states a !! terminal) as [st0|] eqn:H0.
    - destruct (Hext1 _ _ H0) as (st' & Hst' & _ & Hm & _).
      simpl. congruence.
    - simpl. by eapply Hext3. }
  split; [|split].
  - exists terminal, (set_matches (Some (length (match_records a1))) st),
      (length (match_records a1)).
    split; [by rewrite (same_shape_follow a1 a2)|].
    split; [done|]. split; [simpl; unfold tk_length; lia|].
    split; [done|]. split.
    { apply lookup_ge_None. rewrite Hext4. lia. }
    split.
    { rewrite Hm2, lookup_app_r by lia. rewrite Nat.sub_diag. simpl.
      by rewrite Hold. }
    intros l Hl. econstructor.
    + rewrite Hm2, lookup_app_r by lia. by rewrite Nat.sub_diag.
    + simpl. rewrite Hold. eapply chain_of_app; [exact Hm2|].
      eapply chain_of_records; [|exact Hl]. done.
  - by eapply same_shape_wf.
  - destruct (Hext1 _ _ Hroot) as (sr1 & Hr1 & Hdr1 & _).
    destruct Hsh as [_ Hsh]. destruct (Hsh _ _ Hr1) as (sr2 & ? & ? & _).
    exists sr2. split; [done|]. congruence.
Qed.

(** ** The loop over the tokens of the buffer *)

Lemma min_length_cons bound t ts :
  min_length bound (t :: ts) = min_length (Z.min bound (tk_length t)) ts.
Proof. reflexivity. Qed.

Lemma add_tokens_spec ts : ∀ t fuel a automaton s sr bound rest,
  arena_wf a → states a !! root automaton = Some sr → depth sr = 0 →
  Forall (λ t, tk_bytes t ≠ [] ∧ Forall is_byte (tk_bytes t)) (t :: ts) →
  (length ts < fuel)%nat →
  ∃ result a' m,
    add_tokens fuel a automaton s (tk_length t) bound
      (INT (tk_backtrack t) :: (BYTE <$> tk_bytes t)
       ++ encode_tokens ts ++ INT 0 :: rest)
      = Some (result, a', m) ∧
    (result = ERROR_SUCCESS →
     tokens_attached (root automaton) s a (t :: ts) a' ∧
     m = min_length bound (t :: ts) ∧ arena_wf a').
Proof.
  induction ts as [|t' ts IH];
    intros t fuel a automaton s sr bound rest Hwf Hroot Hd0 Hts Hfuel.
  - destruct fuel as [|fuel]; [lia|].
    apply Forall_cons in Hts as [[Hne Hbytes] _].
    cbn [add_tokens read_int mbind option_bind].
    replace (Z.to_nat (tk_length t)) with (length (tk_bytes t))
      by (unfold tk_length; lia).
    destruct (walk_token_spec (tk_bytes t) a (root automaton) sr
                (encode_tokens [] ++ INT 0 :: rest) Hwf Hroot Hbytes)
      as (reached & a1 & cur' & Hwalk & Hok).
    rewrite Hwalk. cbn [mbind option_bind].
    destruct reached as [terminal|]; [|by eexists _, _, _].
    destruct (Hok terminal eq_refl)
      as (-> & Hwf1 & Hext & Hfol & st & Hst & Hdepth).
    cbn [encode_tokens mbind list_bind app read_int option_bind].
    rewrite Hst. cbn [mbind option_bind].
    destruct (new_match_at a1 terminal s _) as [a2|] eqn:Hnew;
      [|by eexists _, _, _].
    rewrite Z.eqb_refl. eexists _, _, _. split; [reflexivity|]. intros _.
    destruct (walk_then_attach a (root automaton) sr s t a1 terminal st a2)
      as (Hatt & Hwf2 & _); try done.
    split; [|split; [|done]].
    + econstructor; [exact Hatt|constructor].
    + simpl. destruct (Z.ltb_spec (tk_length t) bound); lia.
  - destruct fuel as [|fuel]; [simpl in Hfuel; lia|].
    apply Forall_cons in Hts as [[Hne Hbytes] Hts].
    cbn [add_tokens read_int mbind option_bind].
    replace (Z.to_nat (tk_length t)) with (length (tk_bytes t))
      by (unfold tk_length; lia).
    destruct (walk_token_spec (tk_bytes t) a (root automaton) sr
                (encode_tokens (t' :: ts) ++ INT 0 :: rest) Hwf Hroot Hbytes)
      as (reached & a1 & cur' & Hwalk & Hok).
    rewrite Hwalk. cbn [mbind option_bind].
    destruct reached as [terminal|]; [|by eexists _, _, _].
    destruct (Hok terminal eq_refl)
      as (-> & Hwf1 & Hext & Hfol & st & Hst & Hdepth).
    rewrite encode_tokens_cons. unfold encode_token at 1.
    cbn [app read_int mbind option_bind].
    rewrite Hst. cbn [mbind option_bind].
    destruct (new_match_at a1 terminal s _) as [a2|] eqn:Hnew;
      [|by eexists _, _, _].
    destruct (walk_then_attach a (root automaton) sr s t a1 terminal st a2)
      as (Hatt & Hwf2 & sr2 & Hroot2 & Hd2); try done.
    assert (Hne' : tk_length t' ≠ 0).
    { apply Forall_cons in Hts as [[Hn _] _]. unfold tk_length.
      destruct (tk_bytes t'); [done|simpl; lia]. }
    apply Z.eqb_neq in Hne'. rewrite Hne'.
    rewrite <- app_assoc.
    destruct (IH t' fuel a2 automaton s sr2
                (if tk_length t <? bound then tk_length t else bound) rest
                Hwf2 Hroot2 Hd2 Hts ltac:(simpl in Hfuel; lia))
      as (result & a' & m & Hadd & Hres).
    exists result, a', m. split; [exact Hadd|].
    intros Hok'. destruct (Hres Hok') as (Hatt' & -> & Hwf').
    split; [|split; [|done]].
    + econstructor; [exact Hatt|exact Hatt'].
    + rewrite (min_length_cons bound t). f_equal.
      destruct (Z.ltb_spec (tk_length t) bound); lia.
Qed.

(** ** The bytes of the tokens are bytes *)

Lemma is_byte_byte_at l i : Forall is_byte l → is_byte (byte_at l i).
Proof.
  intros H. unfold byte_at. destruct (i <? 0); [done|].
  destruct (l !! Z.to_nat i) as [x|] eqn:E; simpl; [|done].
  eapply Forall_lookup_1; eauto.
Qed.

Lemma is_byte_bytes_from l pos n :
  Forall is_byte l → Forall is_byte (bytes_from l pos n).
Proof.
  intros H. unfold bytes_from. apply Forall_fmap, Forall_forall.
  intros k _. by apply is_byte_byte_at.
Qed.

Lemma is_byte_wide_bytes l n :
  Forall is_byte l → Forall is_byte (wide_bytes l n).
Proof.
  intros H. unfold wide_bytes. apply Forall_fmap, Forall_forall.
  intros k _. simpl.
  destruct (Z.eqb _ _); [by apply is_byte_byte_at|done].
Qed.

Lemma is_byte_swap_case c : is_letter c = true → is_byte (swap_case c).
Proof.
  unfold is_letter, swap_case, is_lower, is_upper, is_byte.
  destruct (Z.leb_spec 97 c), (Z.leb_spec c 122), (Z.leb_spec 65 c),
    (Z.leb_spec c 90); simpl; intros; try done; lia.
Qed.

Lemma is_byte_case_variant tok v :
  Forall is_byte tok → v ∈ case_variants tok → Forall is_byte v.
Proof.
  intros Htok Hv%elem_of_case_variants. unfold is_case_variant in Hv.
  induction Hv as [|c d tok v Hd _ IH]; [done|].
  apply Forall_cons in Htok as [Hc Htok]. constructor; [|by apply IH].
  destruct Hd as [->|[Hl ->]]; [done|by apply is_byte_swap_case].
Qed.

(** ** The records of a token and of its case variants *)

Lemma written_records_nonempty nocase past tok :
  tok ≠ [] → written_records nocase past tok = token_records nocase tok.
Proof.
  intros Hne. unfold written_records. destruct tok; [done|].
  by rewrite app_nil_r.
Qed.

Lemma write_token_records (nocase : bool) past tok out :
  (if nocase
   then _yr_ac_gen_case_combinations past tok (Z.of_nat (length tok)) 0 0
          (write_bytes (write_int (write_int out (Z.of_nat (length tok))) 0)
             tok)
   else write_bytes (write_int (write_int out (Z.of_nat (length tok))) 0) tok)
  = out ++ encode_tokens (written_records nocase past tok).
Proof.
  destruct tok as [|c tok].
  - simpl length. change (Z.of_nat 0) with 0.
    rewrite gen_case_combinations_nil, write_token_encode by done.
    unfold written_records, token_records. destruct nocase; [|done].
    cbn [andb]. destruct (is_letter past); [|done].
    rewrite <- app_assoc, <- encode_tokens_app. reflexivity.
  - rewrite written_records_nonempty by done.
    unfold token_records. destruct nocase.
    + by apply token_and_case_combinations.
    + by apply write_token_encode.
Qed.

Lemma token_records_spec nocase tok :
  Forall (λ t, length (tk_bytes t) = length tok ∧
               (Forall is_byte tok → Forall is_byte (tk_bytes t)))
         (token_records nocase tok).
Proof.
  unfold token_records.
  destruct tok as [|c tok]; [by apply Forall_singleton|].
  destruct nocase; [|by apply Forall_singleton].
  unfold variant_tokens. apply Forall_fmap, Forall_forall. intros v Hv.
  cbn [tk_bytes app]. split; [by apply length_case_variant|].
  intros Hb. by eapply is_byte_case_variant.
Qed.

Lemma written_records_spec nocase past tok :
  Forall (λ t, length (tk_bytes t) = length tok ∧
               (Forall is_byte tok → Forall is_byte (tk_bytes t)))
         (written_records nocase past tok).
Proof.
  unfold written_records. apply Forall_app. split.
  - apply token_records_spec.
  - destruct tok; [|done].
    destruct (nocase && is_letter past); [|done].
    by apply Forall_singleton.
Qed.

(** ** The regular-expression prefix *)

Lemma regexp_scan_spec Y str len max n : ∀ i tok,
  0 ≤ max → (length tok ≤ Z.to_nat max)%nat →
  let r := regexp_scan Y str len max n i tok in
  (length r ≤ Z.to_nat max)%nat ∧
  (Forall is_byte str → Forall is_byte tok → Forall is_byte r).
Proof.
  induction n as [|n IH]; intros i tok Hmax Hlen; simpl; [done|].
  destruct ((i <? len) && (Z.of_nat (length tok) <? max)) eqn:Hc; [|done].
  apply andb_true_iff in Hc as [_ Hlt%Z.ltb_lt].
  assert (Hlen' : ∀ x, (length (tok ++ [x]) ≤ Z.to_nat max)%nat).
  { intros x. rewrite length_app. simpl. lia. }
  assert (Hnext : Forall is_byte str →
            is_byte (if i + 1 <? len then byte_at str (i + 1) else 0)).
  { intros. destruct (Z.ltb _ _); [by apply is_byte_byte_at|done]. }
  destruct (_ && isregexescapable Y _).
  - destruct (IH (i + 2) (tok ++ [if i + 1 <? len then byte_at str (i + 1)
                                  else 0]) Hmax (Hlen' _)) as [H1 H2].
    split; [done|]. intros Hs Ht. apply H2; [done|].
    apply Forall_app. split; [done|]. constructor; [auto|done].
  - destruct (_ && _).
    + destruct (IH (i + 1) (tok ++ [byte_at str i]) Hmax (Hlen' _))
        as [H1 H2].
      split; [done|]. intros Hs Ht. apply H2; [done|].
      apply Forall_app. split; [done|].
      constructor; [by apply is_byte_byte_at|done].
    + done.
Qed.

(** ** The lengths of the hex scan *)

Lemma hex_body_lengths str max k st ctl st' :
  0 ≤ max → hex_lengths_ok max st →
  hex_body str max k st = (ctl, st') → hex_lengths_ok max st'.
Proof.
  intros Hmax [Htl Hcl]. unfold hex_body.
  repeat match goal with
         | |- context [if ?c then _ else _] => destruct c eqn:?
         end;
    intros [= <- <-]; unfold hex_lengths_ok; simpl; lia.
Qed.

Lemma hex_scan_lengths Y str max n : ∀ mask st0 st,
  (length mask ≤ n)%nat → 0 ≤ max → hex_lengths_ok max st0 →
  hex_scan Y str max mask st0 = Some st → hex_lengths_ok max st.
Proof.
  induction n as [|n IH]; intros mask st0 st Hlen Hmax Hok Hscan.
  { destruct mask; [done|simpl in Hlen; lia]. }
  destruct mask as [|m mask]; [done|]. simpl in Hscan, Hlen.
  destruct (m =? MASK_END Y); [by injection Hscan as <-|].
  destruct (hex_body str max (test_mask Y m) st0) as [ctl st'] eqn:Hb.
  pose proof (hex_body_lengths _ _ _ _ _ _ Hmax Hok Hb) as Hok'.
  destruct ctl.
  - by apply (IH mask st' st ltac:(lia)).
  - destruct mask as [|c mask']; [done|].
    by apply (IH mask' (hex_add_skip c st') st ltac:(simpl in Hlen; lia)).
  - by injection Hscan as <-.
Qed.

(** ** The records each generator writes *)

(** In both branches of a text pattern, [past] is the byte of the block
    behind the token. *)
Lemma gen_ascii_tokens_records Y mem s out :
  ∃ past,
  gen_ascii_tokens Y mem s MAX_TOKEN out
  = out ++ encode_tokens
             (written_records (is_no_case s) past
                (take (Z.to_nat MAX_TOKEN) (str_bytes s))).
Proof.
  unfold gen_ascii_tokens. rewrite ascii_token_bytes.
  set (tok := take (Z.to_nat MAX_TOKEN) (str_bytes s)).
  assert (Hlen : Z.min (str_length s) MAX_TOKEN = Z.of_nat (length tok)).
  { unfold tok, str_length, MAX_TOKEN. rewrite length_take. lia. }
  rewrite Hlen. eexists. apply write_token_records.
Qed.

Lemma gen_wide_tokens_records Y mem s out :
  ∃ past,
  gen_wide_tokens Y mem s MAX_TOKEN out
  = out ++ encode_tokens
             (written_records (is_no_case s) past
                (wide_bytes (str_bytes s)
                   (Z.min (str_length s * 2) MAX_TOKEN))).
Proof.
  unfold gen_wide_tokens.
  set (tok := wide_bytes (str_bytes s) (Z.min (str_length s * 2) MAX_TOKEN)).
  assert (Hlen : Z.min (str_length s * 2) MAX_TOKEN = Z.of_nat (length tok)).
  { unfold tok, wide_bytes. rewrite length_fmap, length_seqZ.
    unfold str_length, MAX_TOKEN. lia. }
  rewrite Hlen. eexists. apply write_token_records.
Qed.

Lemma write_first_bytes_records fb out :
  write_first_bytes fb out
  = out ++ encode_tokens
             ((λ b, {| tk_backtrack := 0; tk_bytes := [b] |}) <$> fb).
Proof.
  unfold write_first_bytes. revert out.
  induction fb as [|b fb IH]; intros out; simpl.
  - by rewrite app_nil_r.
  - rewrite IH, (write_token_encode out 1 0 [b]) by done.
    rewrite <- app_assoc. by rewrite <- encode_tokens_app.
Qed.

Lemma gen_regexp_tokens_records Y s out :
  ∃ rs, _yr_ac_gen_regexp_tokens Y s MAX_TOKEN out = out ++ encode_tokens rs ∧
    Forall (λ t, tk_bytes t ≠ [] ∧ tk_length t ≤ MAX_TOKEN ∧
                 (string_wf s → Forall is_byte (tk_bytes t))) rs.
Proof.
  unfold _yr_ac_gen_regexp_tokens.
  set (i := if byte_at (str_bytes s) 0 =? 94 then 1 else 0).
  destruct (regexp_scan_spec Y (str_bytes s) (str_length s) MAX_TOKEN
              (Z.to_nat MAX_TOKEN) i [] ltac:(done) ltac:(simpl; lia))
    as [Hlen Hbytes].
  set (tok := regexp_scan Y (str_bytes s) (str_length s) MAX_TOKEN
                (Z.to_nat MAX_TOKEN) i []) in *.
  destruct (Z.ltb_spec 0 (Z.of_nat (length tok))) as [Hpos|Hzero].
  - exists (written_records (is_no_case s) 0 tok).
    split; [apply write_token_records|].
    eapply Forall_impl; [apply written_records_spec|].
    intros t [Hl Hb]. split; [|split].
    + destruct (tk_bytes t); [simpl in Hl; lia|done].
    + unfold tk_length. rewrite Hl. unfold MAX_TOKEN in *. lia.
    + intros [Hs _]. apply Hb, Hbytes; [done|constructor].
  - exists ((λ b, {| tk_backtrack := 0; tk_bytes := [b] |})
            <$> re_first_bytes s).
    split; [apply write_first_bytes_records|].
    apply Forall_fmap, Forall_forall. intros b Hb. simpl.
    split; [done|]. split; [done|]. intros [_ Hfb].
    constructor; [|done]. eapply Forall_forall; eauto.
Qed.

Lemma gen_hex_tokens_records Y s out :
  _yr_ac_gen_hex_tokens Y s MAX_TOKEN [] = Some out →
  ∃ t, out = encode_tokens [t] ∧ tk_length t ≤ MAX_TOKEN ∧
       (string_wf s → Forall is_byte (tk_bytes t)).
Proof.
  unfold _yr_ac_gen_hex_tokens.
  destruct (hex_scan Y (str_bytes s) MAX_TOKEN (str_mask s) hex_init)
    as [st|] eqn:Hscan; [|done].
  intros [= <-].
  assert (Hok : hex_lengths_ok MAX_TOKEN st).
  { eapply (hex_scan_lengths Y (str_bytes s) MAX_TOKEN
              (length (str_mask s))); [done|done| |exact Hscan].
    by unfold hex_lengths_ok, MAX_TOKEN. }
  destruct Hok as [_ Hcl].
  exists {| tk_backtrack := hx_candidate_token_backtrack st;
            tk_bytes := bytes_from (str_bytes s)
                          (hx_candidate_token_position st)
                          (hx_candidate_token_length st) |}.
  split; [|split].
  - unfold hex_emit. rewrite write_token_encode; [done|].
    rewrite length_bytes_from. lia.
  - unfold tk_length. simpl. rewrite length_bytes_from. lia.
  - intros [Hs _]. by apply is_byte_bytes_from.
Qed.

Lemma same_length_all_or_none (rs : list token) n :
  Forall (λ t, length (tk_bytes t) = n) rs →
  Forall (λ t, tk_bytes t ≠ []) rs ∨ Forall (λ t, tk_bytes t = []) rs.
Proof.
  intros H. destruct n as [|n].
  - right. eapply Forall_impl; [exact H|]. intros t Ht. simpl in Ht.
    by destruct (tk_bytes t).
  - left. eapply Forall_impl; [exact H|]. intros t Ht. simpl in Ht.
    by destruct (tk_bytes t).
Qed.

(** The scratch buffer of every pattern is a sequence of records and the
    terminator; the records are all tokens of at least one byte or all
    empty, none is longer than MAX_TOKEN, and their bytes are bytes. *)
Lemma gen_tokens_records Y mem s out :
  _yr_ac_gen_tokens Y mem s MAX_TOKEN = Some out →
  ∃ rs, out = encode_tokens rs ++ [INT 0] ∧
    (Forall (λ t, tk_bytes t ≠ []) rs ∨ Forall (λ t, tk_bytes t = []) rs) ∧
    Forall (λ t, tk_length t ≤ MAX_TOKEN) rs ∧
    (string_wf s → Forall (λ t, Forall is_byte (tk_bytes t)) rs).
Proof.
  unfold _yr_ac_gen_tokens. destruct (is_hex s).
  { destruct (_yr_ac_gen_hex_tokens Y s MAX_TOKEN []) as [o|] eqn:Hhex;
      [|done].
    intros [= <-].
    destruct (gen_hex_tokens_records Y s o Hhex) as (t & -> & Hl & Hb).
    exists [t]. split; [done|]. split; [|split].
    - destruct (tk_bytes t) eqn:E.
      + right. by apply Forall_singleton.
      + left. apply Forall_singleton. by rewrite E.
    - by apply Forall_singleton.
    - intros Hs. apply Forall_singleton. auto. }
  destruct (is_regexp s).
  { intros [= <-].
    destruct (gen_regexp_tokens_records Y s []) as (rs & -> & Hrs).
    exists rs. split; [done|]. split; [|split].
    - left. eapply Forall_impl; [exact Hrs|]. by intros t (? & _).
    - eapply Forall_impl; [exact Hrs|]. by intros t (_ & ? & _).
    - intros Hs. eapply Forall_impl; [exact Hrs|]. intros t (_ & _ & H).
      auto. }
  intros [= <-].
  set (ta := take (Z.to_nat MAX_TOKEN) (str_bytes s)).
  set (tw := wide_bytes (str_bytes s) (Z.min (str_length s * 2) MAX_TOKEN)).
  destruct (gen_ascii_tokens_records Y mem s []) as [pa Hga].
  set (oa := if is_ascii s then gen_ascii_tokens Y mem s MAX_TOKEN [] else []).
  destruct (gen_wide_tokens_records Y mem s oa) as [pw Hgw].
  set (ra := if is_ascii s then written_records (is_no_case s) pa ta else []).
  set (rw := if is_wide s then written_records (is_no_case s) pw tw else []).
  exists (ra ++ rw). split.
  { unfold write_int. f_equal. rewrite encode_tokens_app.
    assert (Hoa : oa = encode_tokens ra).
    { unfold oa, ra. destruct (is_ascii s); [exact Hga|done]. }
    unfold rw. destruct (is_wide s).
    - rewrite Hgw. by rewrite Hoa.
    - by rewrite app_nil_r. }
  clear Hga Hgw.
  assert (Hta : (length ta ≤ 4)%nat ∧
                (length ta = 0%nat ↔ str_bytes s = [])).
  { unfold ta, MAX_TOKEN. rewrite length_take. split; [lia|].
    destruct (str_bytes s); simpl; [done|]. split; [lia|done]. }
  assert (Htw : (length tw ≤ 4)%nat ∧
                (length tw = 0%nat ↔ str_bytes s = [])).
  { unfold tw, wide_bytes, str_length, MAX_TOKEN.
    rewrite length_fmap, length_seqZ. split; [lia|].
    destruct (str_bytes s); simpl; [done|]. split; [lia|done]. }
  assert (Hra : Forall (λ t, length (tk_bytes t) = length ta ∧
                   (Forall is_byte ta → Forall is_byte (tk_bytes t))) ra).
  { unfold ra. destruct (is_ascii s); [apply written_records_spec|done]. }
  assert (Hrw : Forall (λ t, length (tk_bytes t) = length tw ∧
                   (Forall is_byte tw → Forall is_byte (tk_bytes t))) rw).
  { unfold rw. destruct (is_wide s); [apply written_records_spec|done]. }
  split; [|split].
  - destruct Hta as [_ Hta]. destruct Htw as [_ Htw].
    destruct (decide (str_bytes s = [])) as [Hs|Hs].
    + right. apply Hta in Hs as Ha. apply Htw in Hs as Hw.
      apply Forall_app. split.
      * eapply Forall_impl; [exact Hra|]. intros t [Hl _].
        destruct (tk_bytes t); [done|]. simpl in Hl. lia.
      * eapply Forall_impl; [exact Hrw|]. intros t [Hl _].
        destruct (tk_bytes t); [done|]. simpl in Hl. lia.
    + left. apply Forall_app. split.
      * eapply Forall_impl; [exact Hra|]. intros t [Hl _].
        destruct (tk_bytes t); [|done]. simpl in Hl.
        exfalso. apply Hs, Hta. done.
      * eapply Forall_impl; [exact Hrw|]. intros t [Hl _].
        destruct (tk_bytes t); [|done]. simpl in Hl.
        exfalso. apply Hs, Htw. done.
  - apply Forall_app. split.
    + eapply Forall_impl; [exact Hra|]. intros t [Hl _].
      unfold tk_length, MAX_TOKEN. lia.
    + eapply Forall_impl; [exact Hrw|]. intros t [Hl _].
      unfold tk_length, MAX_TOKEN. lia.
  - intros [Hs _]. apply Forall_app. split.
    + eapply Forall_impl; [exact Hra|]. intros t [_ Hb]. apply Hb.
      by apply Forall_take.
    + eapply Forall_impl; [exact Hrw|]. intros t [_ Hb]. apply Hb.
      by apply is_byte_wide_bytes.
Qed.

(** What [yr_ac_add_string] reads back from such a buffer: the records when
    they are tokens, nothing when they are empty. *)
Lemma read_tokens_records rs fuel :
  Forall (λ t, tk_bytes t ≠ []) rs ∨ Forall (λ t, tk_bytes t = []) rs →
  (length rs < fuel)%nat →
  read_tokens fuel (encode_tokens rs ++ [INT 0])
  = Some (filter (λ t, tk_bytes t ≠ []) rs).
Proof.
  intros [Hall|Hnone] Hfuel.
  - rewrite read_tokens_encode by done. f_equal. symmetry.
    induction Hall as [|t rs Ht _ IH]; [done|].
    rewrite filter_cons, decide_True by done. f_equal. apply IH.
    simpl in Hfuel. lia.
  - destruct fuel as [|fuel]; [lia|].
    destruct Hnone as [|t rs Ht Hrs]; [done|].
    rewrite encode_tokens_cons. unfold encode_token, tk_length. rewrite Ht.
    simpl. f_equal. symmetry. rewrite filter_cons, decide_False by tauto.
    induction Hrs as [|t' rs' Ht' _ IH]; [done|].
    rewrite filter_cons, decide_False by tauto. apply IH. simpl in *. lia.
Qed.

Lemma emitted_tokens_records Y mem s out rs :
  _yr_ac_gen_tokens Y mem s MAX_TOKEN = Some out →
  out = encode_tokens rs ++ [INT 0] →
  Forall (λ t, tk_bytes t ≠ []) rs ∨ Forall (λ t, tk_bytes t = []) rs →
  emitted_tokens Y mem s = Some (filter (λ t, tk_bytes t ≠ []) rs).
Proof.
  intros Hgen -> Hrs. unfold emitted_tokens. rewrite Hgen.
  cbn [mbind option_bind]. apply read_tokens_records; [done|].
  rewrite length_app. pose proof (length_encode_tokens rs). simpl. lia.
Qed.

(** The tokens of a pattern do not depend on what the scratch buffer holds
    when it is handed over. *)
Lemma emitted_tokens_block Y mem mem' s :
  emitted_tokens Y mem s = emitted_tokens Y mem' s.
Proof.
  unfold emitted_tokens, _yr_ac_gen_tokens.
  destruct (is_hex s); [done|]. destruct (is_regexp s); [done|].
  cbn [mbind option_bind].
  assert (Hrec : ∀ m, ∃ ra rw,
    write_int
      (if is_wide s
       then gen_wide_tokens Y m s MAX_TOKEN
              (if is_ascii s then gen_ascii_tokens Y m s MAX_TOKEN [] else [])
       else if is_ascii s then gen_ascii_tokens Y m s MAX_TOKEN [] else []) 0
    = encode_tokens (ra ++ rw) ++ [INT 0] ∧
    Forall (λ t, length (tk_bytes t)
                 = length (take (Z.to_nat MAX_TOKEN) (str_bytes s))) ra ∧
    Forall (λ t, length (tk_bytes t)
                 = length (wide_bytes (str_bytes s)
                             (Z.min (str_length s * 2) MAX_TOKEN))) rw ∧
    (str_bytes s ≠ [] →
     ra = (if is_ascii s
           then written_records (is_no_case s) 0
                  (take (Z.to_nat MAX_TOKEN) (str_bytes s)) else []) ∧
     rw = (if is_wide s
           then written_records (is_no_case s) 0
                  (wide_bytes (str_bytes s)
                     (Z.min (str_length s * 2) MAX_TOKEN)) else []))).
  { intros m.
    destruct (gen_ascii_tokens_records Y m s []) as [pa Ha].
    set (oa := if is_ascii s then gen_ascii_tokens Y m s MAX_TOKEN [] else []).
    destruct (gen_wide_tokens_records Y m s oa) as [pw Hw].
    set (ta := take (Z.to_nat MAX_TOKEN) (str_bytes s)) in *.
    set (tw := wide_bytes (str_bytes s)
                 (Z.min (str_length s * 2) MAX_TOKEN)) in *.
    exists (if is_ascii s then written_records (is_no_case s) pa ta else []),
           (if is_wide s then written_records (is_no_case s) pw tw else []).
    split; [|split; [|split]].
    - unfold write_int. f_equal. rewrite encode_tokens_app.
      assert (Hoa : oa = encode_tokens
                (if is_ascii s then written_records (is_no_case s) pa ta
                 else [])).
      { unfold oa. destruct (is_ascii s); [exact Ha|done]. }
      destruct (is_wide s).
      + rewrite Hw. by rewrite Hoa.
      + by rewrite app_nil_r.
    - destruct (is_ascii s); [|done].
      eapply Forall_impl; [apply written_records_spec|]. by intros t [? _].
    - destruct (is_wide s); [|done].
      eapply Forall_impl; [apply written_records_spec|]. by intros t [? _].
    - intros Hne.
      assert (Hta : ta ≠ []).
      { unfold ta. by destruct (str_bytes s). }
      assert (Htw : tw ≠ []).
      { unfold tw, wide_bytes, str_length, MAX_TOKEN.
        destruct (str_bytes s) as [|c l]; [done|].
        intros H%(f_equal length). rewrite length_fmap, length_seqZ in H.
        simpl in H. lia. }
      split.
      + destruct (is_ascii s); [|done]. unfold token_records.
        by destruct ta.
      + destruct (is_wide s); [|done]. unfold token_records.
        by destruct tw. }
  cbv zeta.
  destruct (Hrec mem) as (ra & rw & Hb & Hra & Hrw & Heq).
  destruct (Hrec mem') as (ra' & rw' & Hb' & Hra' & Hrw' & Heq').
  rewrite Hb, Hb'. clear Hb Hb' Hrec.
  destruct (decide (str_bytes s = [])) as [Hs|Hs].
  - assert (Hnone : ∀ r1 r2 : list token,
              Forall (λ t, length (tk_bytes t)
                 = length (take (Z.to_nat MAX_TOKEN) (str_bytes s))) r1 →
              Forall (λ t, length (tk_bytes t)
                 = length (wide_bytes (str_bytes s)
                             (Z.min (str_length s * 2) MAX_TOKEN))) r2 →
              Forall (λ t, tk_bytes t = []) (r1 ++ r2)).
    { intros r1 r2 H1 H2. apply Forall_app. split.
      - eapply Forall_impl; [exact H1|]. intros t Ht. rewrite Hs in Ht.
        by destruct (tk_bytes t).
      - eapply Forall_impl; [exact H2|]. intros t Ht.
        unfold str_length in Ht. rewrite Hs in Ht.
        by destruct (tk_bytes t). }
    assert (Hread : ∀ rs : list token, Forall (λ t, tk_bytes t = []) rs →
              read_tokens (length (encode_tokens rs ++ [INT 0]))
                (encode_tokens rs ++ [INT 0])
              = Some (filter (λ t, tk_bytes t ≠ []) rs)).
    { intros rs Hrs. apply read_tokens_records; [by right|].
      rewrite length_app. pose proof (length_encode_tokens rs).
      simpl. lia. }
    rewrite !Hread by (by apply Hnone).
    f_equal.
    assert (Hf : ∀ l : list token, Forall (λ t, tk_bytes t = []) l →
              filter (λ t, tk_bytes t ≠ []) l = []).
    { intros l Hl. induction Hl as [|t l Ht _ IH]; [done|].
      rewrite filter_cons, decide_False by tauto. exact IH. }
    rewrite !Hf by (by apply Hnone). done.
  - destruct (Heq Hs) as [-> ->]. destruct (Heq' Hs) as [-> ->].
    rewrite !length_app. reflexivity.
Qed.

(** ** The minimum of the token lengths *)

Lemma min_length_bounds ts : ∀ bound,
  min_length bound ts ≤ bound ∧
  (∀ t, t ∈ ts → min_length bound ts ≤ tk_length t) ∧
  (min_length bound ts = bound ∨
   ∃ t, t ∈ ts ∧ min_length bound ts = tk_length t).
Proof.
  induction ts as [|t ts IH]; intros bound.
  - split; [done|]. split; [|by left]. intros t Ht. by apply elem_of_nil in Ht.
  - rewrite min_length_cons.
    destruct (IH (Z.min bound (tk_length t))) as (H1 & H2 & H3).
    split; [lia|]. split.
    + intros t' [->|Ht']%elem_of_cons; [lia|by apply H2].
    + destruct H3 as [H3|(t' & Ht' & H3)].
      * destruct (Z.min_spec bound (tk_length t)) as [[_ E]|[_ E]].
        -- left. lia.
        -- right. exists t. split; [apply list_elem_of_here|lia].
      * right. exists t'. split; [by apply list_elem_of_further|done].
Qed.

Lemma min_length_is_min bound ts :
  ts ≠ [] → Forall (λ t, tk_length t ≤ bound) ts →
  is_min_length (min_length bound ts) ts.
Proof.
  intros Hne Hle. destruct (min_length_bounds ts bound) as (H1 & H2 & H3).
  split; [|done]. destruct H3 as [H3|H3]; [|done].
  destruct ts as [|t ts]; [done|]. exists t.
  split; [apply list_elem_of_here|].
  apply Forall_cons in Hle as [Ht _].
  specialize (H2 t (list_elem_of_here _ _)). lia.
Qed.

(** ** yr_ac_add_string on the buffer of a pattern *)

Lemma root_attach_spec a root_state sr s a' :
  states a !! root_state = Some sr →
  new_match_at a root_state s 0 = Some a' →
  root_attached a root_state s a' ∧ same_shape a a'.
Proof.
  intros Hroot Hnew.
  destruct (new_match_at_inv _ _ _ _ _ _ Hroot Hnew)
    as (Hm & Hr & _ & Hsh & _).
  split; [|done]. exists (length (match_records a)).
  assert (Hold : matches_of a root_state = matches sr).
  { unfold matches_of. by rewrite Hroot. }
  split; [|split; [|split]].
  - unfold matches_of. by rewrite Hr.
  - by apply lookup_ge_None.
  - rewrite Hm, lookup_app_r by lia. rewrite Nat.sub_diag. simpl.
    by rewrite Hold.
  - intros l Hl. econstructor.
    + rewrite Hm, lookup_app_r by lia. by rewrite Nat.sub_diag.
    + simpl. rewrite <- Hold. by eapply chain_of_app.
Qed.

Lemma add_string_spec Y mem a automaton s sr min0 out :
  arena_wf a → states a !! root automaton = Some sr → depth sr = 0 →
  string_wf s →
  _yr_ac_gen_tokens Y mem s MAX_TOKEN = Some out →
  buffer_size Y out ≤ tokens_capacity Y →
  ∃ ts result a' m,
    emitted_tokens Y mem s = Some ts ∧
    yr_ac_add_string Y (Some mem) a automaton s min0 = Some (result, a', m) ∧
    Forall (λ t, tk_bytes t ≠ [] ∧ tk_length t ≤ MAX_TOKEN) ts ∧
    (ts = [] → m = 0 ∧
       (result = ERROR_SUCCESS → root_attached a (root automaton) s a')) ∧
    (ts ≠ [] → result = ERROR_SUCCESS →
       tokens_attached (root automaton) s a ts a' ∧
       m = min_length MAX_TOKEN ts).
Proof.
  intros Hwf Hroot Hd0 Hs Hgen Hfit.
  destruct (gen_tokens_records Y mem s out Hgen) as (rs & Hout & Hrs & Hlen & Hb).
  specialize (Hb Hs).
  pose proof (emitted_tokens_records Y mem s out rs Hgen Hout Hrs) as Hem.
  exists (filter (λ t, tk_bytes t ≠ []) rs). rewrite Hem.
  unfold yr_ac_add_string. cbn [negb]. rewrite Hgen.
  cbn [mbind option_bind].
  destruct (Z.ltb_spec (tokens_capacity Y) (buffer_size Y out)); [lia|].
  assert (Hdegenerate :
    ∃ result a' m,
      (_ ← states a !! root automaton;
       match new_match_at a (root automaton) s 0 with
       | Some a0 => Some (ERROR_SUCCESS, a0, 0)
       | None => Some (ERROR_INSUFICIENT_MEMORY, a, 0)
       end) = Some (result, a', m) ∧ m = 0 ∧
      (result = ERROR_SUCCESS → root_attached a (root automaton) s a')).
  { rewrite Hroot. cbn [mbind option_bind].
    destruct (new_match_at a (root automaton) s 0) as [a0|] eqn:Hnew.
    - eexists _, _, _. split; [done|]. split; [done|]. intros _.
      by eapply root_attach_spec.
    - eexists _, _, _. split; [done|]. split; [done|]. done. }
  assert (Hfuel : (length rs < length out)%nat).
  { rewrite Hout, length_app. pose proof (length_encode_tokens rs).
    simpl. lia. }
  clear Hgen Hfit Hem H. revert Hfuel. generalize (length out) as fuel.
  intros fuel Hfuel.
  destruct rs as [|t rs].
  { subst out. cbn [encode_tokens mbind list_bind app read_int option_bind].
    rewrite Z.eqb_refl.
    destruct Hdegenerate as (result & a' & m & -> & -> & Hres).
    exists result, a', 0. split; [done|]. split; [done|].
    split; [done|]. split; [done|]. done. }
  subst out. rewrite encode_tokens_cons. unfold encode_token at 1.
  cbn [app read_int mbind option_bind].
  destruct Hrs as [Hall|Hnone].
  - (* tokens *)
    assert (Hfilter : filter (λ t, tk_bytes t ≠ []) (t :: rs) = t :: rs).
    { clear -Hall. induction Hall as [|t' rs' Ht _ IH]; [done|].
      by rewrite filter_cons, decide_True, IH. }
    rewrite Hfilter.
    assert (Hne : tk_length t ≠ 0).
    { apply Forall_cons in Hall as [Hn _]. unfold tk_length.
      destruct (tk_bytes t); [done|simpl; lia]. }
    apply Z.eqb_neq in Hne. rewrite Hne. rewrite <- app_assoc.
    destruct (add_tokens_spec rs t fuel
                a automaton s sr MAX_TOKEN [] Hwf Hroot Hd0)
      as (result & a' & m & Hadd & Hres).
    { apply Forall_forall. intros t' Ht'. split.
      - by eapply Forall_forall in Hall.
      - by eapply Forall_forall in Hb. }
    { simpl in Hfuel. lia. }
    exists result, a', m. split; [done|]. split; [exact Hadd|].
    split.
    { apply Forall_forall. intros t' Ht'. split.
      - by eapply Forall_forall in Hall.
      - by eapply Forall_forall in Hlen. }
    split; [done|]. intros _ Hok.
    destruct (Hres Hok) as (? & ? & _). done.
  - (* only empty records *)
    assert (Hfilter : filter (λ t, tk_bytes t ≠ []) (t :: rs) = []).
    { clear -Hnone. induction Hnone as [|t' rs' Ht _ IH]; [done|].
      by rewrite filter_cons, decide_False, IH by tauto. }
    rewrite Hfilter.
    assert (H0 : tk_length t = 0).
    { apply Forall_cons in Hnone as [Hn _]. unfold tk_length.
      by rewrite Hn. }
    rewrite H0, Z.eqb_refl.
    destruct Hdegenerate as (result & a' & m & -> & -> & Hres).
    exists result, a', 0. split; [done|]. split; [done|].
    split; [done|]. split; [done|]. done.
Qed.

Lemma add_string_success_inv Y mem a automaton s min0 a' m :
  yr_ac_add_string Y (Some mem) a automaton s min0 = Some (ERROR_SUCCESS, a', m) →
  ∃ out, _yr_ac_gen_tokens Y mem s MAX_TOKEN = Some out ∧
         buffer_size Y out ≤ tokens_capacity Y.
Proof.
  unfold yr_ac_add_string. cbn [negb].
  destruct (_yr_ac_gen_tokens Y mem s MAX_TOKEN) as [out|]; [|done].
  cbn [mbind option_bind].
  destruct (Z.ltb_spec (tokens_capacity Y) (buffer_size Y out)); [done|].
  intros _. exists out. split; [done|lia].
Qed.

(** ** yr_ac_create_automaton *)

Lemma arena_wf_empty n : arena_wf (empty_arena n).
Proof. intros p s H. by destruct p. Qed.

Lemma create_automaton_wf a0 a automaton :
  arena_wf a0 →
  yr_ac_create_automaton a0 = (ERROR_SUCCESS, a, AUTOMATON automaton) →
  arena_wf a ∧
  ∃ sr, states a !! root automaton = Some sr ∧ depth sr = 0 ∧
        matches sr = None.
Proof.
  intros Hwf. unfold yr_ac_create_automaton.
  destruct (arena_request a0) as [a1|] eqn:Hreq; [|done].
  apply arena_request_inv in Hreq as (Hs1 & _ & _).
  destruct (allocate_state a1 empty_table) as [[r a2]|] eqn:Halloc; [|done].
  apply allocate_state_inv in Halloc as (-> & Hs2 & _ & _).
  intros [= <- <-]. simpl.
  set (new := {| depth := 0; failure := None; matches := None;
                 transitions := empty_table |}) in *.
  assert (Hroot : states (update_state a2 (length (states a1))
                            (λ s, set_matches None (set_depth 0 s)))
                  !! length (states a1)
                  = Some (set_matches None (set_depth 0 new))).
  { apply (lookup_update_state_eq a2 _
             (λ s, set_matches None (set_depth 0 s)) new).
    rewrite Hs2, lookup_app_r by lia. by rewrite Nat.sub_diag. }
  split; [|eauto].
  intros p s Hp. rewrite lookup_update_state in Hp.
  destruct (decide (length (states a1) = p)) as [<-|Hne].
  - rewrite Hs2, lookup_app_r in Hp by lia.
    rewrite Nat.sub_diag in Hp. simpl in Hp. injection Hp as <-.
    split; [done|]. split.
    + unfold repr_ok. cbn [transitions set_matches set_depth new depth].
      split; [done|]. apply length_replicate.
    + intros b c [_ Hl]. cbn [transitions set_matches set_depth new] in Hl.
      apply lookup_replicate in Hl as [[=] _].
  - assert (Hp0 : states a0 !! p = Some s).
    { rewrite Hs2, Hs1 in Hp. apply lookup_app_Some in Hp as [Hp|[Hge Hp]];
        [done|].
      rewrite Hs1 in Hne. destruct (p - length (states a0))%nat eqn:E;
        [lia|]. by rewrite lookup_cons, lookup_nil in Hp. }
    destruct (Hwf _ _ Hp0) as (H0 & Hrepr & Htr).
    split; [done|]. split; [done|]. intros b c Hbc.
    destruct (Htr b c Hbc) as (sc & Hc & Hdc). exists sc. split; [|done].
    rewrite lookup_update_state_ne.
    + rewrite Hs2, Hs1. by apply lookup_app_l_Some.
    + apply lookup_lt_Some in Hc. rewrite Hs1. lia.
Qed.

Lemma example_arena_wf :
  arena_wf example_arena ∧
  ∃ sr, states example_arena !! root example_automaton = Some sr ∧
        depth sr = 0 ∧ matches sr = None.
Proof.
  apply (create_automaton_wf (empty_arena 100)); [apply arena_wf_empty|].
  reflexivity.
Qed.

(** C4: when [yr_ac_add_string] succeeds on a pattern, its tokens have been
    inserted one after the other, and each insertion leaves the arena as
    [token_attached] says: the state reached from the root along the bytes
    of the token, at the depth of the token's length, has at the head of its
    output chain a record that was not in the arena, whose pattern is the
    pattern added, whose backtrack is the depth of that state plus the
    backtrack of the token, and whose successor is the head the chain had
    before, so that the chain is the new record followed by the old chain.
    On a well-formed arena the call has a result whenever the tokens fit the
    scratch buffer. *)
Theorem add_string_attaches_tokens (Y : yara_h) (mem : block) (a a' : ARENA)
    (automaton : AC_AUTOMATON) (s : STRING) (sr : AC_STATE) (min0 m : Z) :
  arena_wf a → states a !! root automaton = Some sr → depth sr = 0 →
  string_wf s →
  yr_ac_add_string Y (Some mem) a automaton s min0 = Some (ERROR_SUCCESS, a', m) →
  ∃ ts, emitted_tokens Y mem s = Some ts ∧
        (ts ≠ [] → tokens_attached (root automaton) s a ts a').
Proof.
  intros Hwf Hroot Hd0 Hs Hadd.
  destruct (add_string_success_inv Y mem a automaton s min0 a' m Hadd)
    as (out & Hgen & Hfit).
  destruct (add_string_spec Y mem a automaton s sr min0 out Hwf Hroot Hd0 Hs
              Hgen Hfit)
    as (ts & result & a2 & m2 & Hem & Hadd2 & _ & Hnil & Hcons).
  rewrite Hadd in Hadd2. injection Hadd2 as <- <- <-.
  exists ts. split; [done|]. intros Hne. by apply Hcons.
Qed.

Lemma string_wf_she : string_wf she.
Proof.
  split; [|constructor]. repeat constructor; unfold is_byte; lia.
Qed.

Lemma add_string_attaches_tokens_witness :
  ∃ ts, emitted_tokens yara_h_example zeros she = Some ts ∧
        (ts ≠ [] → tokens_attached (root example_automaton) she
                     example_arena ts arena_with_she).
Proof.
  destruct example_arena_wf as [Hwf (sr & Hr & Hd & _)].
  apply (add_string_attaches_tokens yara_h_example zeros example_arena
           arena_with_she example_automaton she sr 0 3 Hwf Hr Hd
           string_wf_she).
  vm_compute. reflexivity.
Defined.

(** C8: a successful [_yr_ac_create_state] on a state [s] (of the
    representation its depth calls for) and a byte returns a state that was
    not in the arena; afterwards [s] goes to it on that byte and to the same
    states as before on every other byte; the new state is one level deeper
    than [s], has no output record and no failure link, and is table-based
    exactly when its depth is at most MAX_TABLE_BASED_STATES_DEPTH = 1. *)
Theorem create_state_spec (a a' : ARENA) (state n : ptr) (s : AC_STATE)
    (input : Z) :
  states a !! state = Some s → repr_ok s → is_byte input →
  _yr_ac_create_state a state input = (Some n, a') →
  states a !! n = None ∧
  yr_ac_next_state a' state input = Some n ∧
  (∀ b, is_byte b → b ≠ input →
     yr_ac_next_state a' state b = yr_ac_next_state a state b) ∧
  ∃ sn, states a' !! n = Some sn ∧
    depth sn = depth s + 1 ∧ matches sn = None ∧ failure sn = None ∧
    (is_table_based sn ↔ depth sn ≤ MAX_TABLE_BASED_STATES_DEPTH) ∧
    MAX_TABLE_BASED_STATES_DEPTH = 1.
Proof.
  intros Hs Hrepr Hin Hcreate.
  destruct (create_state_links a a' state n s input Hs Hrepr Hin Hcreate)
    as (Hnew & Hnext & Hother).
  destruct (create_state_inv a a' state n s input Hs Hcreate)
    as (-> & _ & Hst).
  split; [exact Hnew|]. split; [exact Hnext|]. split; [exact Hother|].
  exists (created_state s). split.
  { rewrite Hst, lookup_app_r by (rewrite length_insert; lia).
    by rewrite length_insert, Nat.sub_diag. }
  cbn [created_state depth matches failure transitions].
  split; [done|]. split; [done|]. split; [done|]. split; [|done].
  unfold is_table_based, created_state, MAX_TABLE_BASED_STATES_DEPTH.
  cbn [transitions].
  destruct (Z.ltb_spec (depth s) 1).
  - split; [lia|]. intros _. by eexists.
  - split; [intros [? [=]]|lia].
Qed.

Lemma create_state_spec_witness :
  ∃ s n,
    states example_arena !! 0%nat = Some s ∧ repr_ok s ∧ is_byte 115 ∧
    _yr_ac_create_state example_arena 0 115 = (Some n, arena_with_s) ∧
    states example_arena !! n = None ∧
    yr_ac_next_state arena_with_s 0 115 = Some n ∧
    (∀ b, is_byte b → b ≠ 115 →
       yr_ac_next_state arena_with_s 0 b
       = yr_ac_next_state example_arena 0 b) ∧
    ∃ sn, states arena_with_s !! n = Some sn ∧
      depth sn = depth s + 1 ∧ matches sn = None ∧ failure sn = None ∧
      (is_table_based sn ↔ depth sn ≤ MAX_TABLE_BASED_STATES_DEPTH) ∧
      MAX_TABLE_BASED_STATES_DEPTH = 1.
Proof.
  destruct example_arena_wf as [Hwf (sr & Hr & Hd & _)].
  assert (Hrepr : repr_ok sr) by (by destruct (Hwf _ _ Hr) as (_ & ? & _)).
  assert (Hb : is_byte 115) by (unfold is_byte; lia).
  assert (Hc : _yr_ac_create_state example_arena 0 115
               = (Some 1%nat, arena_with_s)) by (vm_compute; reflexivity).
  exists sr, 1%nat. split; [exact Hr|]. split; [exact Hrepr|].
  split; [exact Hb|]. split; [exact Hc|].
  exact (create_state_spec example_arena arena_with_s 0 1 sr 115
           Hr Hrepr Hb Hc).
Defined.

(** ** The linked queue is a first-in first-out queue *)

Lemma linked_frame m m' prev p ns :
  (∀ x, x ∈ ns.*1 → m' !! x = m !! x) →
  linked m prev p ns → linked m' prev p ns.
Proof.
  revert prev p. induction ns as [|[x v] ns IH]; intros prev p Hsame; [done|].
  simpl. intros (-> & nx & Hx & Hl). split; [done|]. exists nx. split.
  - rewrite Hsame; [done|]. simpl. apply list_elem_of_here.
  - apply IH; [|done]. intros y Hy. apply Hsame. simpl.
    by apply list_elem_of_further.
Qed.

Lemma linked_nil_inv m prev ns : linked m prev None ns → ns = [].
Proof. destruct ns as [|[x v] ns]; [done|]. by intros [[=] _]. Qed.

Lemma queue_rep_size h q ns :
  queue_rep h q ns → size (nodes h) = length ns.
Proof.
  intros (Hnd & _ & _ & Hdom).
  rewrite <- size_dom, Hdom, size_list_to_set by done.
  by rewrite length_fmap.
Qed.

Lemma list_to_set_pop (x : nat) (l : list nat) :
  x ∉ l → list_to_set (x :: l) ∖ {[x]} =@{gset nat} list_to_set l.
Proof.
  intros Hx. simpl.
  rewrite difference_union_distr_l_L, difference_diag_L, (left_id_L ∅ (∪)).
  apply difference_disjoint_L, disjoint_singleton_r.
  by rewrite elem_of_list_to_set.
Qed.

Lemma queue_rep_empty limit : queue_rep (empty_heap limit) empty_queue [].
Proof.
  split; [constructor|]. split; [done|]. split; [done|].
  simpl. by rewrite dom_empty_L.
Qed.

(** Appending a node behind the last one. *)
Lemma linked_snoc m prev p ns new v :
  NoDup ns.*1 → m !! new = None → linked m prev p ns →
  linked
    (match fst <$> last ns with
     | Some t =>
       alter (qn_set_next (Some new)) t
         (<[new := {| qn_value := v; qn_previous := Some t;
                      qn_next := None |}]> m)
     | None =>
       <[new := {| qn_value := v; qn_previous := prev;
                   qn_next := None |}]> m
     end)
    prev (match ns with [] => Some new | _ => p end)
    (ns ++ [(new, v)]).
Proof.
  revert prev p. induction ns as [|[x vx] ns IH]; intros prev p Hnd Hnew.
  - simpl. intros ->. split; [done|]. exists None.
    split; [apply lookup_insert_eq|done].
  - simpl. intros (-> & nx & Hx & Hl).
    apply NoDup_cons in Hnd as [Hxn Hnd].
    assert (Hxnew : x ≠ new) by (intros ->; congruence).
    split; [done|]. destruct ns as [|[y vy] ns'].
    + simpl in *. subst nx. exists (Some new). split.
      * rewrite lookup_alter_eq, lookup_insert_ne, Hx by done. done.
      * split; [done|]. exists None. split; [|done].
        rewrite lookup_alter_ne, lookup_insert_eq by done. done.
    + specialize (IH (Some x) nx Hnd Hnew Hl).
      change (last ((x, vx) :: (y, vy) :: ns')) with (last ((y, vy) :: ns')).
      destruct (fst <$> last ((y, vy) :: ns')) as [t|] eqn:Ht.
      * exists nx. split; [|exact IH].
        assert (t ∈ ((y, vy) :: ns').*1).
        { destruct (last ((y, vy) :: ns')) as [[t' vt]|] eqn:Hlast; [|done].
          injection Ht as <-. apply last_Some_elem_of in Hlast.
          apply list_elem_of_fmap. by exists (t', vt). }
        assert (x ≠ t) by (intros ->; done).
        rewrite lookup_alter_ne, lookup_insert_ne by done. done.
      * by destruct (last ((y, vy) :: ns')) eqn:E; [|apply last_None in E].
Qed.

Lemma push_rep h q ns v :
  queue_rep h q ns →
  ∃ s h' q' ns',
    _yr_ac_queue_push h q v = (s, h', q') ∧
    fifo_step (limit h) ns.*2 (OP_PUSH v) = (OBS_STATUS s, ns'.*2) ∧
    queue_rep h' q' ns' ∧ limit h' = limit h ∧
    (ns' = ns ∨ ∃ x, ns' = ns ++ [(x, v)]).
Proof.
  intros Hrep. pose proof (queue_rep_size h q ns Hrep) as Hsize.
  destruct Hrep as (Hnd & Hl & Htail & Hdom).
  unfold _yr_ac_queue_push, yr_malloc, fifo_step.
  rewrite length_fmap, Hsize.
  destruct (decide (length ns < limit h)%nat) as [Hroom|Hfull].
  2:{ exists ERROR_INSUFICIENT_MEMORY, h, q, ns.
      split; [done|]. split; [done|]. split; [done|]. split; [done|by left]. }
  set (new := fresh (dom (nodes h))).
  assert (Hnew : nodes h !! new = None).
  { apply not_elem_of_dom. apply is_fresh. }
  assert (Hnotin : new ∉ ns.*1).
  { intros Hin. apply (is_fresh (dom (nodes h))). fold new. rewrite Hdom.
    by apply elem_of_list_to_set. }
  pose proof (linked_snoc (nodes h) None (q_head q) ns new v Hnd Hnew Hl)
    as Hsnoc.
  assert (Hnd' : NoDup (ns ++ [(new, v)]).*1).
  { rewrite fmap_app. apply NoDup_app. split; [done|]. split.
    - intros x Hx [->|[]%elem_of_nil]%elem_of_cons. done.
    - simpl. apply NoDup_singleton. }
  assert (Hlast' : fst <$> last (ns ++ [(new, v)]) = Some new)
    by (by rewrite last_snoc).
  rewrite Htail.
  destruct (fst <$> last ns) as [t|] eqn:Ht.
  - assert (Hne : ns ≠ []) by (by intros ->).
    exists ERROR_SUCCESS. eexists _, _, (ns ++ [(new, v)]).
    split; [reflexivity|]. split; [by rewrite fmap_app|].
    split; [|split; [done|right; by eexists]].
    split; [done|]. split.
    { simpl. destruct ns; [done|]. exact Hsnoc. }
    split; [by rewrite Hlast'|].
    simpl. rewrite dom_alter_L, dom_insert_L, Hdom, fmap_app,
      list_to_set_app_L. simpl.
    by rewrite (right_id_L ∅ (∪)), (comm_L (∪)).
  - assert (ns = []) as ->.
    { destruct (last ns) eqn:E; [done|]. by apply last_None in E. }
    exists ERROR_SUCCESS. eexists _, _, [(new, v)].
    split; [reflexivity|]. split; [done|].
    split; [|split; [done|right; by eexists]].
    split; [done|]. split; [exact Hsnoc|]. split; [done|].
    simpl. by rewrite dom_insert_L, Hdom.
Qed.

Lemma pop_rep h q ns :
  queue_rep h q ns →
  ∃ v h' q',
    _yr_ac_queue_pop h q = (v, h', q') ∧
    fifo_step (limit h) ns.*2 OP_POP = (OBS_VALUE v, (tail ns).*2) ∧
    queue_rep h' q' (tail ns) ∧ limit h' = limit h ∧
    v = mjoin (snd <$> head ns).
Proof.
  intros (Hnd & Hl & Htail & Hdom). unfold _yr_ac_queue_pop.
  destruct ns as [|[x v] ns].
  { simpl in Hl. rewrite Hl. exists None, h, q.
    split; [done|]. split; [done|]. split; [|done].
    split; [done|]. split; [by simpl|]. done. }
  simpl in Hl. destruct Hl as (-> & nx & Hx & Hl).
  rewrite Hx. cbn [qn_next qn_value].
  apply NoDup_cons in Hnd as [Hxn Hnd].
  destruct nx as [hd|].
  - destruct ns as [|[y vy] ns']; [by simpl in Hl|].
    simpl in Hl. destruct Hl as ([= ->] & ny & Hy & Hl).
    apply NoDup_cons in Hnd as Hnd2. destruct Hnd2 as [Hyn Hnd2].
    assert (Hxy : x ≠ y).
    { intros ->. apply Hxn. simpl. apply list_elem_of_here. }
    eexists v, _, _. split; [reflexivity|]. split; [done|].
    split; [|done]. split; [done|]. split; [|split].
    + simpl. split; [done|]. exists ny. split.
      * rewrite lookup_delete_ne, lookup_alter_eq, Hy by done. done.
      * eapply linked_frame; [|exact Hl]. intros z Hz.
        assert (z ≠ x).
        { intros ->. apply Hxn. simpl. by apply list_elem_of_further. }
        assert (z ≠ y) by (intros ->; done).
        rewrite lookup_delete_ne, lookup_alter_ne by done. done.
    + simpl. rewrite Htail. done.
    + cbn [nodes set_nodes yr_free tail].
      rewrite dom_delete_L, dom_alter_L, Hdom.
      change (((x, v) :: (y, vy) :: ns').*1) with (x :: ((y, vy) :: ns').*1).
      apply list_to_set_pop. exact Hxn.
  - apply linked_nil_inv in Hl as ->.
    eexists v, _, _. split; [reflexivity|]. split; [done|].
    split; [|done]. split; [constructor|]. split; [done|]. split; [done|].
    cbn [nodes set_nodes yr_free tail].
    rewrite dom_delete_L, Hdom. apply (list_to_set_pop x []).
    apply not_elem_of_nil.
Qed.

Lemma is_empty_rep h q ns :
  queue_rep h q ns → _yr_ac_queue_is_empty q = bool_decide (ns = []).
Proof.
  intros (_ & Hl & _). unfold _yr_ac_queue_is_empty.
  destruct ns as [|[x v] ns]; simpl in Hl.
  - rewrite Hl. done.
  - destruct Hl as [-> _]. done.
Qed.

(** One operation on the linked queue is the same operation on the list
    of its values. *)
Lemma queue_step_fifo h q ns op :
  queue_rep h q ns →
  ∃ obs h' q' ns',
    queue_step h q op = (obs, (h', q')) ∧
    fifo_step (limit h) ns.*2 op = (obs, ns'.*2) ∧
    queue_rep h' q' ns' ∧ limit h' = limit h.
Proof.
  intros Hrep. destruct op as [v| |]; simpl.
  - destruct (push_rep h q ns v Hrep)
      as (s & h' & q' & ns' & -> & Hf & Hrep' & Hlim & _).
    by exists (OBS_STATUS s), h', q', ns'.
  - destruct (pop_rep h q ns Hrep) as (v & h' & q' & -> & Hf & Hrep' & Hlim & _).
    by exists (OBS_VALUE v), h', q', (tail ns).
  - exists (OBS_EMPTY (_yr_ac_queue_is_empty q)), h, q, ns.
    split; [done|]. split; [|done].
    rewrite (is_empty_rep h q ns Hrep). f_equal. f_equal.
    apply bool_decide_ext. by destruct ns.
Qed.

Lemma queue_run_fifo ops : ∀ h q ns,
  queue_rep h q ns → queue_run h q ops = fifo_run (limit h) ns.*2 ops.
Proof.
  induction ops as [|op ops IH]; intros h q ns Hrep; [done|].
  destruct (queue_step_fifo h q ns op Hrep)
    as (obs & h' & q' & ns' & Hq & Hf & Hrep' & Hlim).
  cbn [queue_run fifo_run]. rewrite Hq, Hf. f_equal. rewrite <- Hlim.
  by apply IH.
Qed.

(** ** The traversal keeps the trie *)

Lemma same_shape_update_match a p f : same_shape a (update_match a p f).
Proof. by apply same_shape_states. Qed.

Lemma same_shape_set_failure a p f :
  same_shape a (update_state a p (set_failure f)).
Proof. by apply same_shape_update_state. Qed.

Lemma same_shape_set_matches a p m :
  same_shape a (update_state a p (set_matches m)).
Proof. by apply same_shape_update_state. Qed.

Lemma link_root_matches_shape fuel a root_state current_state a' :
  link_root_matches fuel a root_state current_state = Some a' →
  same_shape a a'.
Proof.
  unfold link_root_matches.
  destruct (states a !! root_state) as [r|]; [|done].
  destruct (states a !! current_state) as [c|]; [|done].
  cbn [mbind option_bind]. destruct (matches c) as [m|].
  - destruct (last_match fuel a m) as [m'|]; [|done].
    cbn [mbind option_bind].
    destruct (match_records a !! m') as [rec|]; [|done].
    cbn [mbind option_bind]. destruct (0 <? m_backtrack rec).
    + intros [= <-]. apply same_shape_update_match.
    + intros [= <-]. apply same_shape_refl.
  - intros [= <-]. apply same_shape_set_matches.
Qed.

Lemma link_to_shape fuel a transition_state temp_state a' :
  link_to fuel a transition_state temp_state = Some a' → same_shape a a'.
Proof.
  unfold link_to.
  set (a1 := update_state a transition_state (set_failure (Some temp_state))).
  assert (H1 : same_shape a a1) by apply same_shape_set_failure.
  clearbody a1.
  destruct (states a1 !! transition_state) as [t|]; [|done].
  destruct (states a1 !! temp_state) as [tmp|]; [|done].
  cbn [mbind option_bind]. destruct (matches t) as [m|].
  - destruct (last_match fuel a1 m) as [m'|]; [|done].
    cbn [mbind option_bind]. intros [= <-].
    eapply same_shape_trans; [exact H1|apply same_shape_update_match].
  - intros [= <-].
    eapply same_shape_trans; [exact H1|apply same_shape_set_matches].
Qed.

Lemma find_failure_shape fuel chain_fuel i root_state transition_state :
  ∀ a failure_state a',
  find_failure fuel chain_fuel a i root_state transition_state failure_state
    = Some a' →
  same_shape a a'.
Proof.
  induction fuel as [|fuel IH]; intros a failure_state a'; [done|].
  cbn [find_failure].
  destruct (states a !! failure_state) as [fs|]; [|done].
  cbn [mbind option_bind].
  destruct (yr_ac_next_state a failure_state (uint8 i)) as [temp|].
  { apply link_to_shape. }
  destruct (decide (failure_state = root_state)).
  { intros [= <-]. apply same_shape_set_failure. }
  destruct (failure fs) as [f|]; [|done]. cbn [mbind option_bind].
  apply IH.
Qed.

(** ** The children of a state *)

Lemma table_scan_child n : ∀ t i c it,
  table_scan n t i = Some (c, it) → ∃ b, 0 ≤ b ∧ t !! Z.to_nat b = Some (Some c).
Proof.
  induction n as [|n IH]; intros t i c it; [done|]. cbn [table_scan].
  destruct (t !! Z.to_nat i) as [[child|]|] eqn:Hi; try apply IH.
  intros [= <- <-]. exists (Z.of_nat (Z.to_nat i)).
  split; [lia|]. by rewrite Nat2Z.id.
Qed.

Lemma next_child_is_child a p it c it' :
  _yr_ac_next_child a p it = Some (c, it') → is_child a p c.
Proof.
  unfold _yr_ac_next_child, is_child.
  destruct (states a !! p) as [s|]; [|done]. cbn [mbind option_bind].
  intros H. exists s. unfold transition.
  destruct (depth s <=? MAX_TABLE_BASED_STATES_DEPTH);
    destruct (transitions s) as [t|l]; try done.
  - destruct (table_scan_child _ _ _ _ _ H) as (b & ? & ?). by exists b.
  - destruct (l !! Z.to_nat (it + 1)) as [[b child]|] eqn:Hl; [|done].
    cbn [mbind option_bind] in H. injection H as <- <-.
    exists b. split; [done|]. by eapply list_elem_of_lookup_2.
Qed.

Lemma first_child_is_child a p c it :
  _yr_ac_first_child a p = Some (c, it) → is_child a p c.
Proof.
  unfold _yr_ac_first_child.
  destruct (states a !! p) as [s|] eqn:Hs; [|done]. cbn [mbind option_bind].
  destruct (depth s <=? MAX_TABLE_BASED_STATES_DEPTH).
  { apply next_child_is_child. }
  destruct (transitions s) as [t|[|[b child] l]] eqn:Ht; try done.
  intros [= <- <-]. exists s, b. split; [done|].
  unfold transition. rewrite Ht. apply list_elem_of_here.
Qed.

Lemma is_child_depth a p c d :
  arena_wf a → depth_is a p d → is_child a p c → depth_is a c (d + 1).
Proof.
  intros Hwf (s & Hs & <-) (s' & b & Hs' & Htr).
  assert (s' = s) as -> by congruence.
  destruct (Hwf _ _ Hs) as (_ & _ & Hc). by apply (Hc b c).
Qed.

Lemma is_child_shape a a' p c :
  same_shape a' a → is_child a p c → is_child a' p c.
Proof.
  intros Hsh (s & b & Hs & Htr).
  destruct (same_shape_sym _ _ Hsh) as [_ H].
  destruct (H _ _ Hs) as (s' & Hs' & _ & Ht).
  exists s', b. split; [done|]. unfold transition in *. by rewrite Ht.
Qed.

(** ** The loops over the children push children *)

Lemma push_child a0 cur h q ns c :
  queue_rep h q ns → is_child a0 cur c →
  ∃ s h' q' new cs,
    _yr_ac_queue_push h q (Some c) = (s, h', q') ∧
    queue_rep h' q' (ns ++ new) ∧ new.*2 = Some <$> cs ∧
    Forall (is_child a0 cur) cs.
Proof.
  intros Hrep Hc.
  destruct (push_rep h q ns (Some c) Hrep)
    as (s & h' & q' & ns' & Hpush & _ & Hrep' & _ & [->|[x ->]]).
  - exists s, h', q', [], []. rewrite app_nil_r.
    split; [done|]. split; [done|]. split; [done|]. constructor.
  - exists s, h', q', [(x, Some c)], [c].
    split; [done|]. split; [done|]. split; [done|]. by apply Forall_singleton.
Qed.

Lemma link_children_pushes a0 i root_state cur fuel :
  ∀ a h q child ns a' h' q',
  same_shape a0 a → queue_rep h q ns →
  (∀ c it, child = Some (c, it) → is_child a0 cur c) →
  link_children fuel a h q i root_state cur child = Some (a', h', q') →
  same_shape a0 a' ∧
  ∃ new cs, queue_rep h' q' (ns ++ new) ∧ new.*2 = Some <$> cs ∧
            Forall (is_child a0 cur) cs.
Proof.
  induction fuel as [|fuel IH]; intros a h q child ns a' h' q' Hsh Hrep Hchild.
  { destruct child as [[c it]|]; [done|]. intros [= <- <- <-].
    split; [done|]. exists [], []. rewrite app_nil_r.
    split; [done|]. split; [done|]. constructor. }
  destruct child as [[c it]|].
  2:{ intros [= <- <- <-]. split; [done|]. exists [], [].
      rewrite app_nil_r. split; [done|]. split; [done|]. constructor. }
  cbn [link_children].
  destruct (push_child a0 cur h q ns c Hrep (Hchild c it eq_refl))
    as (s & h1 & q1 & new1 & cs1 & -> & Hrep1 & Hnew1 & Hcs1).
  destruct (states a !! cur) as [sc|]; [|done]. cbn [mbind option_bind].
  destruct (failure sc) as [f|]; [|done]. cbn [mbind option_bind].
  destruct (find_failure (S fuel) (S fuel) a i root_state c f) as [a1|] eqn:Hff;
    [|done].
  cbn [mbind option_bind]. intros Hrest.
  pose proof (find_failure_shape _ _ _ _ _ _ _ _ Hff) as Hsh1.
  assert (Hsh01 : same_shape a0 a1) by (by eapply same_shape_trans).
  destruct (IH a1 h1 q1 (_yr_ac_next_child a1 cur it) (ns ++ new1) a' h' q'
              Hsh01 Hrep1) as
    (Hsh' & new2 & cs2 & Hrep2 & Hnew2 & Hcs2); [|exact Hrest|].
  { intros c' it' Hnext.
    rewrite (same_shape_next_child a0 a1 cur it Hsh01) in Hnext.
    by eapply next_child_is_child. }
  split; [done|]. exists (new1 ++ new2), (cs1 ++ cs2).
  rewrite app_assoc. split; [done|].
  split; [by rewrite !fmap_app, Hnew1, Hnew2|]. by apply Forall_app.
Qed.

Lemma push_root_children_pushes a0 root_state fuel :
  ∀ a h q child ns a' h' q',
  same_shape a0 a → queue_rep h q ns →
  (∀ c it, child = Some (c, it) → is_child a0 root_state c) →
  push_root_children fuel a h q root_state child = Some (a', h', q') →
  same_shape a0 a' ∧
  ∃ new cs, queue_rep h' q' (ns ++ new) ∧ new.*2 = Some <$> cs ∧
            Forall (is_child a0 root_state) cs.
Proof.
  induction fuel as [|fuel IH]; intros a h q child ns a' h' q' Hsh Hrep Hchild.
  { destruct child as [[c it]|]; [done|]. intros [= <- <- <-].
    split; [done|]. exists [], []. rewrite app_nil_r.
    split; [done|]. split; [done|]. constructor. }
  destruct child as [[c it]|].
  2:{ intros [= <- <- <-]. split; [done|]. exists [], [].
      rewrite app_nil_r. split; [done|]. split; [done|]. constructor. }
  cbn [push_root_children].
  destruct (push_child a0 root_state h q ns c Hrep (Hchild c it eq_refl))
    as (s & h1 & q1 & new1 & cs1 & -> & Hrep1 & Hnew1 & Hcs1).
  set (a1 := update_state a c (set_failure (Some root_state))).
  assert (Hsh01 : same_shape a0 a1).
  { eapply same_shape_trans; [exact Hsh|apply same_shape_set_failure]. }
  clearbody a1. intros Hrest.
  destruct (IH a1 h1 q1 (_yr_ac_next_child a1 root_state it) (ns ++ new1)
              a' h' q' Hsh01 Hrep1) as
    (Hsh' & new2 & cs2 & Hrep2 & Hnew2 & Hcs2); [|exact Hrest|].
  { intros c' it' Hnext.
    rewrite (same_shape_next_child a0 a1 root_state it Hsh01) in Hnext.
    by eapply next_child_is_child. }
  split; [done|]. exists (new1 ++ new2), (cs1 ++ cs2).
  rewrite app_assoc. split; [done|].
  split; [by rewrite !fmap_app, Hnew1, Hnew2|]. by apply Forall_app.
Qed.

(** ** The frontier *)

Lemma frontier_children a d cs :
  Forall (λ p, depth_is a p d) cs → frontier a d cs.
Proof.
  intros H. exists cs, []. rewrite app_nil_r.
  split; [done|]. split; [done|]. constructor.
Qed.

Lemma depth_is_of a p d : depth_is a p d → depth_of a p = d.
Proof. intros (s & Hs & <-). unfold depth_of. by rewrite Hs. Qed.

(** Taking the first state of a frontier and appending its children leaves
    a frontier, at the depth of that state. *)
Lemma frontier_pop a d p ps :
  frontier a d (p :: ps) →
  ∃ d', d ≤ d' ∧ depth_is a p d' ∧
    ∀ cs, Forall (λ c, depth_is a c (d' + 1)) cs → frontier a d' (ps ++ cs).
Proof.
  intros (ps1 & ps2 & Heq & H1 & H2). destruct ps1 as [|p1 ps1].
  - simpl in Heq. subst ps2. apply Forall_cons in H2 as [Hp H2].
    exists (d + 1). split; [lia|]. split; [done|]. intros cs Hcs.
    exists ps, cs. split; [done|]. split; [done|]. done.
  - injection Heq as <- ->. apply Forall_cons in H1 as [Hp H1].
    exists d. split; [lia|]. split; [done|]. intros cs Hcs.
    exists ps1, (ps2 ++ cs). rewrite app_assoc. split; [done|].
    split; [done|]. by apply Forall_app.
Qed.

Lemma frontier_ge a d ps p :
  frontier a d ps → p ∈ ps → d ≤ depth_of a p.
Proof.
  intros (ps1 & ps2 & -> & H1 & H2) [Hin|Hin]%elem_of_app.
  - rewrite Forall_forall in H1. rewrite (depth_is_of _ _ _ (H1 _ Hin)). lia.
  - rewrite Forall_forall in H2. rewrite (depth_is_of _ _ _ (H2 _ Hin)). lia.
Qed.

(** ** The traversal dequeues the states in breadth-first order *)

Lemma non_decreasing_nil : non_decreasing [].
Proof. intros i j x y Hi. by rewrite lookup_nil in Hi. Qed.

Lemma non_decreasing_cons x l :
  Forall (λ y, x ≤ y) l → non_decreasing l → non_decreasing (x :: l).
Proof.
  intros Hx Hl i j a b Hi Hj Hij. rewrite Forall_forall in Hx.
  destruct i as [|i], j as [|j]; simpl in Hi, Hj.
  - assert (a = b) by congruence. lia.
  - injection Hi as <-. apply Hx. by eapply list_elem_of_lookup_2.
  - lia.
  - apply (Hl i j); [done|done|lia].
Qed.

Lemma queue_rep_nil h q : nodes h = ∅ → q = empty_queue → queue_rep h q [].
Proof.
  intros Hh ->. split; [constructor|]. split; [done|]. split; [done|].
  rewrite Hh. simpl. by rewrite dom_empty_L.
Qed.

Lemma failure_links_init_inv fuel a h automaton a1 h1 q1 :
  arena_wf a → nodes h = ∅ →
  failure_links_init fuel a h automaton = Some (a1, h1, q1) →
  ∃ d, bfs_inv a d a1 h1 q1.
Proof.
  intros Hwf Hh. unfold failure_links_init.
  destruct (states a !! root automaton) as [sr|] eqn:Hr; [|done].
  cbn [mbind option_bind].
  set (a0 := update_state a (root automaton) _).
  assert (Hsh : same_shape a a0) by apply same_shape_set_failure.
  clearbody a0. intros Hpush.
  destruct (push_root_children_pushes a (root automaton) fuel a0 h empty_queue
              (_yr_ac_first_child a0 (root automaton)) [] a1 h1 q1 Hsh)
    as (Hsh1 & new & cs & Hrep & Hnew & Hcs); [| |exact Hpush|].
  { by apply queue_rep_nil. }
  { intros c it Hc. rewrite (same_shape_first_child a a0 _ Hsh) in Hc.
    by eapply first_child_is_child. }
  exists (depth sr + 1). split; [done|]. exists new, cs.
  split; [done|]. split; [done|]. apply frontier_children.
  eapply Forall_impl; [exact Hcs|]. intros c Hc.
  apply (is_child_depth a (root automaton)); [done| |done]. by exists sr.
Qed.

Lemma traverse_step_inv a0 d fuel i root_state a h q cur a' h' q' :
  arena_wf a0 → bfs_inv a0 d a h q →
  traverse_step fuel i root_state a h q = Some (cur, (a', h', q')) →
  ∃ d', d ≤ d' ∧ depth_of a0 cur = d' ∧ bfs_inv a0 d' a' h' q'.
Proof.
  intros Hwf (Hsh & ns & ps & Hrep & Hvals & Hfr). unfold traverse_step.
  destruct (pop_rep h q ns Hrep) as (v & h1 & q1 & -> & _ & Hrep1 & _ & Hv).
  destruct ns as [|[x vx] ns].
  { simpl in Hv. by subst v. }
  destruct ps as [|p ps]; [done|].
  injection Hvals as -> Hvals. change (ns.*2 = Some <$> ps) in Hvals.
  simpl in Hv, Hrep1. subst v.
  cbn [mbind option_bind].
  destruct (link_root_matches fuel a root_state p) as [a1|] eqn:Hlink; [|done].
  cbn [mbind option_bind].
  destruct (link_children fuel a1 h1 q1 i root_state p
              (_yr_ac_first_child a1 p)) as [[[a2 h2] q2]|] eqn:Hchildren;
    [|done].
  cbn [mbind option_bind]. intros [= <- <- <- <-].
  assert (Hsh1 : same_shape a0 a1).
  { eapply same_shape_trans; [exact Hsh|].
    by eapply link_root_matches_shape. }
  destruct (link_children_pushes a0 i root_state p fuel a1 h1 q1
              (_yr_ac_first_child a1 p) ns a2 h2 q2 Hsh1 Hrep1)
    as (Hsh2 & new & cs & Hrep2 & Hnew & Hcs); [|exact Hchildren|].
  { intros c it Hc. rewrite (same_shape_first_child a0 a1 _ Hsh1) in Hc.
    by eapply first_child_is_child. }
  destruct (frontier_pop a0 d p ps Hfr) as (d' & Hle & Hp & Hnext).
  exists d'. split; [done|]. split; [by apply depth_is_of|].
  split; [done|]. exists (ns ++ new), (ps ++ cs). split; [done|].
  split; [by rewrite !fmap_app, Hvals, Hnew|].
  apply Hnext. eapply Forall_impl; [exact Hcs|]. intros c Hc.
  by apply (is_child_depth a0 p).
Qed.

Lemma visit_order_sorted a0 fuel i root_state turns :
  ∀ d a h q, arena_wf a0 → bfs_inv a0 d a h q →
  non_decreasing (depth_of a0 <$> visit_order turns fuel i root_state a h q) ∧
  Forall (λ p, d ≤ depth_of a0 p) (visit_order turns fuel i root_state a h q).
Proof.
  induction turns as [|turns IH]; intros d a h q Hwf Hinv.
  { simpl. destruct (_yr_ac_queue_is_empty q);
      (split; [apply non_decreasing_nil|constructor]). }
  cbn [visit_order]. destruct (_yr_ac_queue_is_empty q).
  { split; [apply non_decreasing_nil|constructor]. }
  destruct (traverse_step fuel i root_state a h q)
    as [[cur [[a' h'] q']]|] eqn:Hstep.
  2:{ split; [apply non_decreasing_nil|constructor]. }
  destruct (traverse_step_inv a0 d fuel i root_state a h q cur a' h' q'
              Hwf Hinv Hstep) as (d' & Hle & Hcur & Hinv').
  destruct (IH d' a' h' q' Hwf Hinv') as [Hsorted Hge].
  split.
  - rewrite fmap_cons. apply non_decreasing_cons; [|done].
    rewrite Forall_fmap. eapply Forall_impl; [exact Hge|].
    intros p Hp. unfold compose. cbv beta in *. by rewrite Hcur.
  - apply Forall_cons. split; [lia|].
    eapply Forall_impl; [exact Hge|]. intros p Hp. cbv beta in *. lia.
Qed.

Lemma breadth_first fuel turns i a h automaton a1 h1 q1 :
  arena_wf a → nodes h = ∅ →
  failure_links_init fuel a h automaton = Some (a1, h1, q1) →
  non_decreasing
    (depth_of a <$> visit_order turns fuel i (root automaton) a1 h1 q1).
Proof.
  intros Hwf Hh Hinit.
  destruct (failure_links_init_inv fuel a h automaton a1 h1 q1 Hwf Hh Hinit)
    as [d Hinv].
  by apply (visit_order_sorted a fuel i (root automaton) turns d a1 h1 q1).
Qed.

Lemma arena_s_h_sh_wf : arena_wf arena_s_h_sh.
Proof.
  destruct example_arena_wf as [Hwf0 _].
  assert (Hb : is_byte 115 ∧ is_byte 104) by (unfold is_byte; lia).
  destruct Hb as [Hs Hh].
  destruct (states example_arena !! 0%nat) as [s0|] eqn:H0;
    [|by vm_compute in H0].
  destruct (create_state_extends example_arena arena_with_s 0 1 s0 115
              Hwf0 H0 Hs) as (_ & Hwf1 & _); [by vm_compute..|].
  set (a2 := (_yr_ac_create_state arena_with_s 0 104).2).
  destruct (states arena_with_s !! 0%nat) as [s1|] eqn:H1;
    [|by vm_compute in H1].
  destruct (create_state_extends arena_with_s a2 0 2 s1 104 Hwf1 H1 Hh)
    as (_ & Hwf2 & _); [by vm_compute..|].
  destruct (states a2 !! 1%nat) as [s2|] eqn:H2; [|by vm_compute in H2].
  destruct (create_state_extends a2 arena_s_h_sh 1 3 s2 104 Hwf2 H2 Hh)
    as (_ & Hwf3 & _); [by vm_compute..|].
  exact Hwf3.
Qed.

Example she_he_his_hers_visit_order :
  example_visit_order 0
  = Some [4; 1; 5; 6; 2; 8; 7; 3; 9]%nat.
Proof. vm_compute. reflexivity. Qed.

Example example_ops_run :
  queue_run (empty_heap 2) empty_queue example_ops
  = [OBS_EMPTY true; OBS_STATUS ERROR_SUCCESS; OBS_STATUS ERROR_SUCCESS;
     OBS_STATUS ERROR_INSUFICIENT_MEMORY; OBS_VALUE (Some 1%nat);
     OBS_EMPTY false; OBS_VALUE (Some 2%nat); OBS_EMPTY true;
     OBS_VALUE None].
Proof. vm_compute. reflexivity. Qed.

(** C10: the linked queue of the failure-link builder is a first-in
    first-out queue. Started empty, under every sequence of pushes, pops and
    emptiness tests it answers as the list of the values pushed and not yet
    popped does: a pop returns the oldest of them, or null when there is
    none, and the queue is empty exactly when there is none (a push that the
    heap refuses reports insufficient memory and queues nothing). Hence
    the traversal of [yr_ac_create_failure_links] dequeues the states of a
    well-formed trie in non-decreasing order of depth. *)
Theorem queue_fifo_and_breadth_first :
  (∀ (limit : nat) (ops : list queue_op),
     queue_run (empty_heap limit) empty_queue ops = fifo_run limit [] ops) ∧
  (∀ (fuel turns : nat) (i : Z) (a : ARENA) (h : HEAP)
     (automaton : AC_AUTOMATON) a1 h1 q1,
     arena_wf a → nodes h = ∅ →
     failure_links_init fuel a h automaton = Some (a1, h1, q1) →
     non_decreasing
       (depth_of a <$> visit_order turns fuel i (root automaton) a1 h1 q1)).
Proof.
  split.
  - intros limit ops.
    apply (queue_run_fifo ops (empty_heap limit) empty_queue []).
    apply queue_rep_empty.
  - intros. by eapply breadth_first.
Qed.

Lemma queue_fifo_and_breadth_first_witness :
  queue_run (empty_heap 2) empty_queue example_ops = fifo_run 2 [] example_ops ∧
  arena_wf arena_s_h_sh ∧ nodes (empty_heap 10) = ∅ ∧
  ∃ a1 h1 q1,
    failure_links_init 10 arena_s_h_sh (empty_heap 10) example_automaton
      = Some (a1, h1, q1) ∧
    visit_order 10 10 0 (root example_automaton) a1 h1 q1 = [2; 1; 3]%nat ∧
    non_decreasing
      (depth_of arena_s_h_sh
         <$> visit_order 10 10 0 (root example_automaton) a1 h1 q1).
Proof.
  split; [apply (proj1 queue_fifo_and_breadth_first)|].
  split; [apply arena_s_h_sh_wf|]. split; [reflexivity|].
  destruct (failure_links_init 10 arena_s_h_sh (empty_heap 10)
              example_automaton) as [[[a1 h1] q1]|] eqn:Hinit.
  - exists a1, h1, q1. split; [reflexivity|]. split.
    + vm_compute in Hinit. injection Hinit as <- <- <-.
      vm_compute. reflexivity.
    + exact (proj2 queue_fifo_and_breadth_first 10%nat 10%nat 0
               arena_s_h_sh (empty_heap 10) example_automaton a1 h1 q1
               arena_s_h_sh_wf eq_refl Hinit).
  - vm_compute in Hinit. discriminate Hinit.
Defined.

(** ** The chain of a dequeued state and the chain of the root *)

Lemma chain_of_frame a a' p l :
  (∀ x, x ∈ l → match_records a' !! x = match_records a !! x) →
  chain_of a p l → chain_of a' p l.
Proof.
  intros Hsame H. induction H as [|m r l Hr _ IH]; [constructor|].
  econstructor.
  - rewrite Hsame; [exact Hr|]. apply list_elem_of_here.
  - apply IH. intros x Hx. apply Hsame. by apply list_elem_of_further.
Qed.

Lemma chain_of_from a p l x :
  chain_of a p l → x ∈ l →
  ∃ l', chain_of a (Some x) l' ∧ (length l' ≤ length l)%nat.
Proof.
  intros H. induction H as [|m r l Hr Hl IH]; [by intros ?%elem_of_nil|].
  intros [->|Hx]%elem_of_cons.
  - exists (m :: l). split; [by econstructor|done].
  - destruct (IH Hx) as (l' & Hl' & Hlen). exists l'. split; [done|].
    simpl. lia.
Qed.

Lemma chain_of_NoDup a p l : chain_of a p l → NoDup l.
Proof.
  intros H. induction H as [|m r l Hr Hl IH]; [constructor|].
  apply NoDup_cons. split; [|done]. intros Hin.
  destruct (chain_of_from a _ l m Hl Hin) as (l' & Hl' & Hlen).
  assert (l' = m :: l).
  { eapply chain_of_det; [exact Hl'|]. by econstructor. }
  subst l'. simpl in Hlen. lia.
Qed.

(** The [while (match->next != NULL)] loop stops at the last record. *)
Lemma last_match_chain a fuel : ∀ m l,
  chain_of a (Some m) l → (length l ≤ fuel)%nat →
  ∃ t rec, last l = Some t ∧ last_match fuel a m = Some t ∧
           match_records a !! t = Some rec ∧ m_next rec = None.
Proof.
  induction fuel as [|fuel IH]; intros m l H Hlen.
  { inversion H; subst. simpl in Hlen. lia. }
  inversion H as [|m' r l' Hr Hl']; subst. cbn [last_match].
  rewrite Hr. cbn [mbind option_bind]. destruct (m_next r) as [m'|] eqn:Hn.
  - destruct (IH m' l' Hl') as (t & rec & Hlast & Hlm & Hrec & Hnone).
    { simpl in Hlen. lia. }
    exists t, rec. split; [|done]. inversion Hl'; subst. exact Hlast.
  - inversion Hl'; subst. exists m, r. by repeat split.
Qed.

(** Writing [nxt] into the [next] field of the last record of a chain puts
    the chain of [nxt] behind it. *)
Lemma chain_of_set_next a t nxt lr :
  chain_of a nxt lr → t ∉ lr →
  ∀ p l, chain_of a p l → last l = Some t →
  chain_of (update_match a t (set_next nxt)) p (l ++ lr).
Proof.
  intros Hlr Hnotin p l H.
  pose proof (chain_of_NoDup a p l H) as Hnd.
  induction H as [|m r l Hr Hl IH]; [done|]. intros Hlast.
  apply NoDup_cons in Hnd as [Hm Hnd]. destruct l as [|m' l].
  - injection Hlast as ->. inversion Hl as [Hnone|]; subst.
    simpl. econstructor.
    + unfold update_match. simpl. rewrite list_lookup_alter_eq, Hr. done.
    + simpl. eapply chain_of_frame; [|exact Hlr]. intros x Hx.
      unfold update_match. simpl. apply list_lookup_alter_ne.
      intros ->. done.
  - change (last (m :: m' :: l)) with (last (m' :: l)) in Hlast.
    assert (m ≠ t).
    { intros ->. apply Hm. by apply last_Some_elem_of. }
    simpl. econstructor.
    + unfold update_match. simpl. rewrite list_lookup_alter_ne by done.
      exact Hr.
    + by apply IH.
Qed.

Lemma traverse_step_unfold fuel i root_state a h q current_state h1 q1 a1 :
  _yr_ac_queue_pop h q = (Some current_state, h1, q1) →
  link_root_matches fuel a root_state current_state = Some a1 →
  traverse_step fuel i root_state a h q =
    (res ← link_children fuel a1 h1 q1 i root_state current_state
             (_yr_ac_first_child a1 current_state);
     Some (current_state, res)).
Proof.
  intros Hpop Hlink. unfold traverse_step. rewrite Hpop.
  cbn [mbind option_bind]. rewrite Hlink. done.
Qed.

(** C6: when the traversal dequeues a state, the first statements of its
    body adjust the output chain the state has at that moment with respect
    to the chain of the root. With the two chains well formed the
    statements complete, and: a state whose chain is empty gets the head of
    the root's chain for its own, so that its chain is the root's; a state
    whose chain ends in a record with backtrack > 0 has the head of the
    root's chain written into the next field of that record, so that its
    chain is its former chain followed by the root's; and when the last
    record has a backtrack that is not positive nothing changes. The
    traversal goes on to the children of the state from the arena so
    adjusted. *)
Theorem dequeued_state_meets_root_chain (fuel : nat) (a : ARENA)
    (root_state current_state : ptr) (r c : AC_STATE) (l lr : list ptr) :
  states a !! root_state = Some r →
  states a !! current_state = Some c →
  chain_of a (matches c) l → chain_of a (matches r) lr →
  (length l ≤ fuel)%nat →
  ∃ a1,
    link_root_matches fuel a root_state current_state = Some a1 ∧
    (∀ i h q h1 q1,
       _yr_ac_queue_pop h q = (Some current_state, h1, q1) →
       traverse_step fuel i root_state a h q =
         (res ← link_children fuel a1 h1 q1 i root_state current_state
                  (_yr_ac_first_child a1 current_state);
          Some (current_state, res))) ∧
    (l = [] →
       a1 = update_state a current_state (set_matches (matches r)) ∧
       matches_of a1 current_state = matches r ∧
       chain_of a1 (matches_of a1 current_state) lr) ∧
    (∀ t rec, last l = Some t → match_records a !! t = Some rec →
       (0 < m_backtrack rec →
          a1 = update_match a t (set_next (matches r)) ∧
          match_records a1 !! t = Some (set_next (matches r) rec) ∧
          matches_of a1 current_state = matches c ∧
          (t ∉ lr → chain_of a1 (matches_of a1 current_state) (l ++ lr))) ∧
       (m_backtrack rec ≤ 0 → a1 = a)).
Proof.
  intros Hr Hc Hl Hlr Hfuel.
  assert (Hlink : ∃ a1,
    link_root_matches fuel a root_state current_state = Some a1 ∧
    (l = [] →
       a1 = update_state a current_state (set_matches (matches r)) ∧
       matches_of a1 current_state = matches r ∧
       chain_of a1 (matches_of a1 current_state) lr) ∧
    (∀ t rec, last l = Some t → match_records a !! t = Some rec →
       (0 < m_backtrack rec →
          a1 = update_match a t (set_next (matches r)) ∧
          match_records a1 !! t = Some (set_next (matches r) rec) ∧
          matches_of a1 current_state = matches c ∧
          (t ∉ lr → chain_of a1 (matches_of a1 current_state) (l ++ lr))) ∧
       (m_backtrack rec ≤ 0 → a1 = a))).
  { unfold link_root_matches. rewrite Hr, Hc. cbn [mbind option_bind].
    destruct (matches c) as [m|] eqn:Hm.
    - destruct (last_match_chain a fuel m l Hl Hfuel)
        as (t & rec & Hlast & -> & Hrec & Hnone).
      cbn [mbind option_bind]. rewrite Hrec. cbn [mbind option_bind].
      destruct (Z.ltb_spec 0 (m_backtrack rec)) as [Hpos|Hneg].
      + eexists. split; [reflexivity|]. split.
        { intros ->. done. }
        intros t' rec' Hlast' Hrec'. rewrite Hlast in Hlast'.
        injection Hlast' as <-. rewrite Hrec in Hrec'. injection Hrec' as <-.
        split; [|lia]. intros _. split; [done|].
        assert (Hmo : matches_of (update_match a t (set_next (matches r)))
                        current_state = Some m).
        { unfold matches_of, update_match. simpl. rewrite Hc. exact Hm. }
        split.
        { unfold update_match. simpl. by rewrite list_lookup_alter_eq, Hrec. }
        split; [done|]. intros Hnotin. rewrite Hmo.
        by apply chain_of_set_next.
      + exists a. split; [reflexivity|]. split.
        { intros ->. done. }
        intros t' rec' Hlast' Hrec'. rewrite Hlast in Hlast'.
        injection Hlast' as <-. rewrite Hrec in Hrec'. injection Hrec' as <-.
        split; [lia|done].
    - inversion Hl; subst. eexists. split; [reflexivity|]. split; [|done].
      intros _. split; [done|].
      assert (Hmo : matches_of (update_state a current_state
                                  (set_matches (matches r))) current_state
                    = matches r).
      { unfold matches_of.
        by rewrite (lookup_update_state_eq a current_state _ c Hc). }
      split; [done|]. rewrite Hmo.
      by apply (chain_of_records a). }
  destruct Hlink as (a1 & Hlink & Hrest). exists a1. split; [done|].
  split; [|done]. intros i h q h1 q1 Hpop.
  by apply traverse_step_unfold.
Qed.

Lemma dequeued_state_meets_root_chain_witness :
  ∃ r c,
    states arena_she_and_empty !! 0%nat = Some r ∧
    states arena_she_and_empty !! 3%nat = Some c ∧
    chain_of arena_she_and_empty (matches c) [0%nat] ∧
    chain_of arena_she_and_empty (matches r) [1%nat] ∧
    (length [0%nat] ≤ 1)%nat ∧
    ∃ a1,
      link_root_matches 1 arena_she_and_empty 0 3 = Some a1 ∧
      (∀ i h q h1 q1,
         _yr_ac_queue_pop h q = (Some 3%nat, h1, q1) →
         traverse_step 1 i 0 arena_she_and_empty h q =
           (res ← link_children 1 a1 h1 q1 i 0 3 (_yr_ac_first_child a1 3);
            Some (3%nat, res))) ∧
      ([0%nat] = [] →
         a1 = update_state arena_she_and_empty 3 (set_matches (matches r)) ∧
         matches_of a1 3 = matches r ∧
         chain_of a1 (matches_of a1 3) [1%nat]) ∧
      (∀ t rec, last [0%nat] = Some t →
         match_records arena_she_and_empty !! t = Some rec →
         (0 < m_backtrack rec →
            a1 = update_match arena_she_and_empty t (set_next (matches r)) ∧
            match_records a1 !! t = Some (set_next (matches r) rec) ∧
            matches_of a1 3 = matches c ∧
            (t ∉ [1%nat] →
             chain_of a1 (matches_of a1 3) ([0%nat] ++ [1%nat]))) ∧
         (m_backtrack rec ≤ 0 → a1 = arena_she_and_empty)).
Proof.
  destruct (states arena_she_and_empty !! 0%nat) as [r|] eqn:Hr;
    [|by vm_compute in Hr].
  destruct (states arena_she_and_empty !! 3%nat) as [c|] eqn:Hc;
    [|by vm_compute in Hc].
  assert (Hmr : matches r = Some 1%nat).
  { assert (H : matches <$> states arena_she_and_empty !! 0%nat
                = Some (Some 1%nat)) by (vm_compute; reflexivity).
    rewrite Hr in H. by injection H. }
  assert (Hmc : matches c = Some 0%nat).
  { assert (H : matches <$> states arena_she_and_empty !! 3%nat
                = Some (Some 0%nat)) by (vm_compute; reflexivity).
    rewrite Hc in H. by injection H. }
  assert (Hl : chain_of arena_she_and_empty (matches c) [0%nat]).
  { rewrite Hmc. econstructor; [vm_compute; reflexivity|]. constructor. }
  assert (Hlr : chain_of arena_she_and_empty (matches r) [1%nat]).
  { rewrite Hmr. econstructor; [vm_compute; reflexivity|]. constructor. }
  assert (Hlen : (length [0%nat] ≤ 1)%nat) by (simpl; lia).
  exists r, c. split; [reflexivity|]. split; [reflexivity|].
  split; [exact Hl|]. split; [exact Hlr|]. split; [exact Hlen|].
  exact (dequeued_state_meets_root_chain 1 arena_she_and_empty 0 3 r c
           [0%nat] [1%nat] Hr Hc Hl Hlr Hlen).
Defined.

Example she_meets_root_chain :
  match_records <$> link_root_matches 1 arena_she_and_empty 0 3
  = Some [{| m_backtrack := 3; m_string := she; m_next := Some 1%nat |};
          {| m_backtrack := 0; m_string := ascii 1 []; m_next := None |}].
Proof. vm_compute. reflexivity. Qed.

(** ** The failure links depend on the byte of [i] *)

Lemma uint8_range i : 0 ≤ uint8 i < 256.
Proof. unfold uint8. apply Z.mod_pos_bound. lia. Qed.

Lemma uint8_idemp i : uint8 (uint8 i) = uint8 i.
Proof. unfold uint8. apply Z.mod_mod. lia. Qed.

Lemma find_failure_uint8 fuel chain_fuel i root_state transition_state :
  ∀ a failure_state,
  find_failure fuel chain_fuel a i root_state transition_state failure_state
  = find_failure fuel chain_fuel a (uint8 i) root_state transition_state
      failure_state.
Proof.
  induction fuel as [|fuel IH]; intros a failure_state; [done|].
  cbn [find_failure]. rewrite uint8_idemp.
  destruct (states a !! failure_state) as [fs|]; [|done].
  cbn [mbind option_bind].
  destruct (yr_ac_next_state a failure_state (uint8 i)); [done|].
  destruct (decide (failure_state = root_state)); [done|].
  destruct (failure fs) as [f|]; [|done]. cbn [mbind option_bind].
  apply IH.
Qed.

Lemma link_children_uint8 i root_state current_state fuel :
  ∀ a h q child,
  link_children fuel a h q i root_state current_state child
  = link_children fuel a h q (uint8 i) root_state current_state child.
Proof.
  induction fuel as [|fuel IH]; intros a h q child.
  { by destruct child as [[c it]|]. }
  destruct child as [[c it]|]; [|done]. cbn [link_children].
  destruct (_yr_ac_queue_push h q (Some c)) as [[s h1] q1].
  destruct (states a !! current_state) as [sc|]; [|done].
  cbn [mbind option_bind]. destruct (failure sc) as [f|]; [|done].
  cbn [mbind option_bind]. rewrite <- find_failure_uint8.
  destruct (find_failure (S fuel) (S fuel) a i root_state c f) as [a1|];
    [|done].
  cbn [mbind option_bind]. apply IH.
Qed.

Lemma traverse_step_uint8 fuel i root_state a h q :
  traverse_step fuel i root_state a h q
  = traverse_step fuel (uint8 i) root_state a h q.
Proof.
  unfold traverse_step. destruct (_yr_ac_queue_pop h q) as [[popped h1] q1].
  destruct popped as [cur|]; [|done]. cbn [mbind option_bind].
  destruct (link_root_matches fuel a root_state cur) as [a1|]; [|done].
  cbn [mbind option_bind]. by rewrite <- link_children_uint8.
Qed.

Lemma traverse_uint8 fuel i root_state turns :
  ∀ a h q,
  traverse turns fuel i root_state a h q
  = traverse turns fuel (uint8 i) root_state a h q.
Proof.
  induction turns as [|turns IH]; intros a h q; [done|].
  cbn [traverse]. destruct (_yr_ac_queue_is_empty q); [done|].
  rewrite <- traverse_step_uint8.
  destruct (traverse_step fuel i root_state a h q)
    as [[cur [[a1 h1] q1]]|]; [|done].
  cbn [mbind option_bind]. apply IH.
Qed.

Lemma create_failure_links_uint8 fuel i a h automaton :
  yr_ac_create_failure_links fuel i a h automaton
  = yr_ac_create_failure_links fuel (uint8 i) a h automaton.
Proof.
  unfold yr_ac_create_failure_links.
  destruct (failure_links_init fuel a h automaton) as [[[a1 h1] q1]|]; [|done].
  cbn [mbind option_bind]. apply traverse_uint8.
Qed.

Lemma built_uint8 i : built i = built (uint8 i).
Proof.
  unfold built.
  destruct (yr_ac_create_automaton (empty_arena 100))
    as [[st a] [| |automaton]]; cbv beta iota; [reflexivity..|].
  destruct (add_all yara_h_example a automaton she_he_his_hers) as [a1|];
    cbn [mbind option_bind]; [|reflexivity].
  rewrite <- create_failure_links_uint8. reflexivity.
Qed.

Lemma she_and_he_uint8 i : she_and_he i = she_and_he (uint8 i).
Proof. unfold she_and_he. rewrite <- built_uint8. reflexivity. Qed.

Lemma she_failure_found_uint8 i :
  she_failure_found i = she_failure_found (uint8 i).
Proof. unfold she_failure_found. by rewrite uint8_idemp. Qed.

Lemma she_and_he_bytes :
  forallb (λ b, bool_decide
                  (she_and_he b
                   = Some (3%nat, 5%nat, Some (she_failure_found b))))
          (seqZ 0 256) = true.
Proof. vm_compute. reflexivity. Qed.

(** C1: for the patterns "she", "he", "his" and "hers", whatever value the
    local variable [i] of [yr_ac_create_failure_links] holds, the function
    completes, the state for "she" is state 3 and the state for "he" state
    5, and the failure link of the state for "she" is not the state for
    "he": it is the root, or the state for "h" or for "s" when that is the
    byte of [i]. The failure link is therefore not the longest proper
    suffix of "she" that is a state of the trie, which is "he". *)
Theorem she_fails_to_he_never (i : Z) :
  she_and_he i = Some (3%nat, 5%nat, Some (she_failure_found i)) ∧
  she_failure_found i ≠ 5%nat.
Proof.
  split.
  - rewrite she_and_he_uint8, she_failure_found_uint8.
    pose proof (uint8_range i) as Hb.
    pose proof she_and_he_bytes as Hall.
    rewrite forallb_forall in Hall.
    eapply bool_decide_eq_true_1, (Hall (uint8 i)).
    apply list_elem_of_In, elem_of_seqZ. lia.
  - unfold she_failure_found. repeat case_decide; done.
Qed.

(** ** The queue gives back what it takes from the heap *)

Lemma queue_rep_nodes h q ns :
  queue_rep h q ns → (nodes h = ∅ ↔ ns = []).
Proof.
  intros (_ & _ & _ & Hdom). split.
  - intros Hh. rewrite Hh, dom_empty_L in Hdom.
    destruct ns as [|[x v] ns]; [done|]. simpl in Hdom.
    assert (x ∈ (∅ : gset nat)); [|by apply not_elem_of_empty in H].
    rewrite Hdom. apply elem_of_union_l, elem_of_singleton. done.
  - intros ->. simpl in Hdom. by apply dom_empty_iff_L.
Qed.

Lemma queue_exec_rep ops : ∀ h q ns,
  queue_rep h q ns → (length ns ≤ limit h)%nat →
  ∃ ns', queue_rep (queue_exec h q ops).1 (queue_exec h q ops).2 ns' ∧
         (length ns' ≤ limit h)%nat ∧
         limit (queue_exec h q ops).1 = limit h.
Proof.
  induction ops as [|op ops IH]; intros h q ns Hrep Hlen.
  { exists ns. split; [exact Hrep|]. split; [exact Hlen|reflexivity]. }
  cbn [queue_exec]. destruct op as [v| |]; cbn [queue_step].
  - destruct (push_rep h q ns v Hrep)
      as (s & h' & q' & ns' & -> & Hf & Hrep' & Hlim & Hns').
    assert (Hlen' : (length ns' ≤ limit h')%nat).
    { rewrite Hlim. destruct Hns' as [->|[x ->]]; [done|].
      unfold fifo_step in Hf. rewrite length_fmap in Hf.
      destruct (decide (length ns < limit h)%nat) as [Hlt|Hge].
      - rewrite length_app. simpl. lia.
      - injection Hf as _ Hf. apply (f_equal length) in Hf.
        rewrite !length_fmap, length_app in Hf. simpl in Hf. lia. }
    destruct (IH h' q' ns' Hrep' Hlen') as (ns'' & ? & ? & ?).
    exists ns''. rewrite <- Hlim. split; [done|]. split; [done|]. done.
  - destruct (pop_rep h q ns Hrep) as (v & h' & q' & -> & _ & Hrep' & Hlim & _).
    assert (Hlen' : (length (tail ns) ≤ limit h')%nat).
    { rewrite Hlim. destruct ns; simpl in *; lia. }
    destruct (IH h' q' (tail ns) Hrep' Hlen') as (ns'' & ? & ? & ?).
    exists ns''. rewrite <- Hlim. split; [done|]. split; [done|]. done.
  - by apply (IH h q ns).
Qed.

(** X1: whatever pushes, pops and emptiness tests a queue has gone through
    since it was empty, the heap holds one node for each value that is
    queued and none besides: never more than the heap serves, and none at
    all exactly when the queue is empty, so that a queue popped to the end
    has freed every node its pushes allocated. *)
Theorem queue_frees_its_nodes (limit0 : nat) (ops : list queue_op) :
  let h := (queue_exec (empty_heap limit0) empty_queue ops).1 in
  let q := (queue_exec (empty_heap limit0) empty_queue ops).2 in
  (size (nodes h) ≤ limit0)%nat ∧
  (_yr_ac_queue_is_empty q = true ↔ nodes h = ∅) ∧
  (_yr_ac_queue_is_empty q = true → q = empty_queue).
Proof.
  intros h q.
  destruct (queue_exec_rep ops (empty_heap limit0) empty_queue []
              (queue_rep_empty limit0) ltac:(simpl; lia))
    as (ns & Hrep & Hlen & _).
  fold h q in Hrep. simpl in Hlen.
  split; [by rewrite (queue_rep_size h q ns Hrep)|].
  rewrite (is_empty_rep h q ns Hrep), bool_decide_eq_true.
  split; [by rewrite (queue_rep_nodes h q ns Hrep)|].
  intros ->. destruct Hrep as (_ & Hl & Ht & _). simpl in Hl, Ht.
  destruct q as [hd tl]. simpl in *. by subst.
Qed.

(** ** The iteration over the children of a state *)

(** The scan of a table from the index [i] finds the first entry that is
    not null. *)
Lemma table_scan_drop (t : list (option ptr)) n : ∀ i : nat,
  length t = (i + n)%nat →
  match table_scan n t (Z.of_nat i) with
  | Some (c, it) =>
    ∃ j : nat, it = Z.of_nat (S j) ∧ (j < length t)%nat ∧
               omap id (drop i t) = c :: omap id (drop (S j) t)
  | None => omap id (drop i t) = []
  end.
Proof.
  induction n as [|n IH]; intros i Hlen.
  { simpl. by rewrite drop_ge by lia. }
  cbn [table_scan]. rewrite Nat2Z.id.
  destruct (t !! i) as [x|] eqn:Hi.
  2:{ apply lookup_ge_None in Hi. lia. }
  rewrite (drop_S t x i Hi). destruct x as [c|].
  - exists i. split; [lia|]. split; [lia|done].
  - replace (Z.of_nat i + 1) with (Z.of_nat (S i)) by lia.
    specialize (IH (S i) ltac:(lia)).
    destruct (table_scan n t (Z.of_nat (S i))) as [[c it]|]; exact IH.
Qed.

Lemma children_from_table a p s t fuel : ∀ i : nat,
  states a !! p = Some s → depth s ≤ MAX_TABLE_BASED_STATES_DEPTH →
  transitions s = TABLE t → length t = 256%nat → (i ≤ 256)%nat →
  (length (omap id (drop i t)) ≤ fuel)%nat →
  children_from fuel a p (_yr_ac_next_child a p (Z.of_nat i))
  = omap id (drop i t).
Proof.
  induction fuel as [|fuel IH]; intros i Hs Hd Ht Hlen Hi Hfuel.
  - destruct (omap id (drop i t)); [|simpl in Hfuel; lia].
    by destruct (_yr_ac_next_child a p (Z.of_nat i)) as [[c it]|].
  - unfold _yr_ac_next_child at 1. rewrite Hs. cbn [mbind option_bind].
    destruct (Z.leb_spec (depth s) MAX_TABLE_BASED_STATES_DEPTH); [|lia].
    rewrite Ht.
    replace (Z.to_nat (256 - Z.of_nat i)) with (256 - i)%nat by lia.
    pose proof (table_scan_drop t (256 - i) i ltac:(lia)) as Hscan.
    destruct (table_scan (256 - i) t (Z.of_nat i)) as [[c it]|].
    + destruct Hscan as (j & -> & Hj & Heq). rewrite Heq in *.
      cbn [children_from]. f_equal.
      apply IH; try done; [lia|]. simpl in Hfuel. lia.
    + by rewrite Hscan.
Qed.

Lemma children_from_list a p s l fuel : ∀ k : nat,
  states a !! p = Some s → MAX_TABLE_BASED_STATES_DEPTH < depth s →
  transitions s = LIST l →
  (length (drop (S k) l) ≤ fuel)%nat →
  children_from fuel a p (_yr_ac_next_child a p (Z.of_nat k))
  = (drop (S k) l).*2.
Proof.
  induction fuel as [|fuel IH]; intros k Hs Hd Ht Hfuel.
  - destruct (drop (S k) l) eqn:E; [|simpl in Hfuel; lia].
    by destruct (_yr_ac_next_child a p (Z.of_nat k)) as [[c it]|].
  - unfold _yr_ac_next_child at 1. rewrite Hs. cbn [mbind option_bind].
    destruct (Z.leb_spec (depth s) MAX_TABLE_BASED_STATES_DEPTH); [lia|].
    rewrite Ht.
    replace (Z.to_nat (Z.of_nat k + 1)) with (S k) by lia.
    destruct (l !! S k) as [[b c]|] eqn:Hk.
    + cbn [mbind option_bind children_from].
      rewrite (drop_S l (b, c) (S k) Hk) in *. rewrite fmap_cons. simpl.
      f_equal. replace (Z.of_nat k + 1) with (Z.of_nat (S k)) by lia.
      apply IH; try done. simpl in Hfuel. lia.
    + cbn [mbind option_bind children_from].
      apply lookup_ge_None in Hk. by rewrite drop_ge by lia.
Qed.

(** X2: iterating with [_yr_ac_first_child] and [_yr_ac_next_child] until
    the null pointer meets every transition of a state once: the entries
    of a table that are not null by increasing byte, the records of a chain
    from the newest on. Hence a state is met exactly when the state has a
    transition to it. *)
Theorem children_are_the_targets (fuel : nat) (a : ARENA) (p : ptr)
    (s : AC_STATE) :
  states a !! p = Some s → repr_ok s →
  (length (targets s) ≤ fuel)%nat →
  children fuel a p = targets s ∧
  ∀ c, c ∈ children fuel a p ↔ ∃ b, transition s b c.
Proof.
  intros Hs Hrepr Hfuel.
  assert (Heq : children fuel a p = targets s).
  { unfold children, _yr_ac_first_child, targets, repr_ok in *.
    rewrite Hs. cbn [mbind option_bind].
    destruct (transitions s) as [t|l] eqn:Ht.
    - destruct Hrepr as [Hd Hlen].
      destruct (Z.leb_spec (depth s) MAX_TABLE_BASED_STATES_DEPTH); [|lia].
      apply (children_from_table a p s t fuel 0 Hs Hd Ht Hlen); [lia|].
      by rewrite drop_0.
    - destruct (Z.leb_spec (depth s) MAX_TABLE_BASED_STATES_DEPTH); [lia|].
      destruct l as [|[b c] l]; [by destruct fuel|].
      destruct fuel as [|fuel]; [simpl in Hfuel; lia|].
      cbn [children_from fmap list_fmap]. simpl. f_equal.
      apply (children_from_list a p s ((b, c) :: l) fuel 0 Hs); [lia|done|].
      simpl in *. rewrite length_fmap in Hfuel. rewrite drop_0. lia. }
  split; [exact Heq|]. intros c. rewrite Heq. unfold targets, transition.
  destruct (transitions s) as [t|l].
  - rewrite list_elem_of_omap. split.
    + intros (x & Hx & Hc). simpl in Hc. subst x.
      apply list_elem_of_lookup in Hx as [i Hi].
      exists (Z.of_nat i). split; [lia|]. by rewrite Nat2Z.id.
    + intros (b & _ & Hb). exists (Some c). split; [|done].
      by eapply list_elem_of_lookup_2.
  - rewrite list_elem_of_fmap. split.
    + intros ([b c'] & -> & Hin). by exists b.
    + intros (b & Hin). by exists (b, c).
Qed.

Lemma children_are_the_targets_witness :
  ∃ s, states arena_s_h_sh !! 0%nat = Some s ∧ repr_ok s ∧
       (length (targets s) ≤ 2)%nat ∧
       children 2 arena_s_h_sh 0 = targets s ∧
       (∀ c, c ∈ children 2 arena_s_h_sh 0 ↔ ∃ b, transition s b c) ∧
       children 2 arena_s_h_sh 0 = [2; 1]%nat.
Proof.
  destruct (states arena_s_h_sh !! 0%nat) as [s|] eqn:Hs;
    [|by vm_compute in Hs].
  assert (Hrepr : repr_ok s).
  { by destruct (arena_s_h_sh_wf _ _ Hs) as (_ & ? & _). }
  assert (Hlen : (length (targets s) ≤ 2)%nat).
  { assert (H : length <$> (targets <$> states arena_s_h_sh !! 0%nat)
                = Some 2%nat) by (vm_compute; reflexivity).
    rewrite Hs in H. injection H as ->. lia. }
  exists s. split; [reflexivity|]. split; [exact Hrepr|].
  split; [exact Hlen|].
  destruct (children_are_the_targets 2 arena_s_h_sh 0 s Hs Hrepr Hlen)
    as [H1 H2].
  split; [exact H1|]. split; [exact H2|]. vm_compute. reflexivity.
Defined.

(** ** yr_ac_create_automaton and the arena *)

Lemma empty_table_lookup (i : nat) :
  mjoin (replicate 256 (@None ptr) !! i) = None.
Proof.
  destruct (replicate 256 (@None ptr) !! i) as [x|] eqn:E; [|done].
  by apply lookup_replicate in E as [-> _].
Qed.

Lemma table_scan_empty :
  table_scan (Z.to_nat (256 - 0)) (replicate 256 None) 0 = None.
Proof. vm_compute. reflexivity. Qed.

(** X3: [yr_ac_create_automaton] needs the arena to serve two requests.
    With them it succeeds: the root is a new state at depth 0, without
    output record, failure link or transition on any byte, and the states
    and records that were in the arena are as before. Without them it
    answers insufficient memory and leaves the states and records as they
    were: when the arena serves one request only, that request is used up
    and the caller's pointer is left on an automaton whose root is null;
    when it serves none, the pointer is not written and the arena is as it
    was. *)
Theorem create_automaton_root (a : ARENA) :
  ((2 ≤ room a)%nat →
   ∃ a' automaton sr,
     yr_ac_create_automaton a = (ERROR_SUCCESS, a', AUTOMATON automaton) ∧
     root automaton = length (states a) ∧
     states a' = states a ++ [sr] ∧
     match_records a' = match_records a ∧
     room a = S (S (room a')) ∧
     depth sr = 0 ∧ matches sr = None ∧ failure sr = None ∧
     (∀ b, yr_ac_next_state a' (root automaton) b = None) ∧
     _yr_ac_first_child a' (root automaton) = None) ∧
  (room a = 1%nat →
   ∃ a', yr_ac_create_automaton a
           = (ERROR_INSUFICIENT_MEMORY, a', WITHOUT_ROOT) ∧
         states a' = states a ∧ match_records a' = match_records a ∧
         room a' = 0%nat) ∧
  (room a = 0%nat →
   yr_ac_create_automaton a = (ERROR_INSUFICIENT_MEMORY, a, NOT_WRITTEN)).
Proof.
  destruct a as [sts ms r]. unfold yr_ac_create_automaton, allocate_state,
    arena_request. cbn [room states match_records].
  split; [|split].
  - intros Hroom. destruct r as [|[|r]]; [lia|lia|].
    cbn [mbind option_bind states match_records room]. unfold set_states.
    cbn [states match_records room].
    set (sr := {| depth := 0; failure := None; matches := None;
                  transitions := empty_table |}).
    assert (Hst : states
              (update_state
                 {| states := sts ++ [sr]; match_records := ms; room := r |}
                 (length sts) (λ s, set_matches None (set_depth 0 s)))
              = sts ++ [sr]).
    { unfold update_state. cbn [states set_states].
      rewrite alter_app_r_alt by lia. by rewrite Nat.sub_diag. }
    eexists _, _, sr. split; [reflexivity|]. cbn [root].
    split; [done|]. split; [exact Hst|]. split; [done|]. split; [done|].
    split; [done|]. split; [done|]. split; [done|].
    assert (Hroot : states
              (update_state
                 {| states := sts ++ [sr]; match_records := ms; room := r |}
                 (length sts) (λ s, set_matches None (set_depth 0 s)))
              !! length sts = Some sr).
    { rewrite Hst, lookup_app_r by lia. by rewrite Nat.sub_diag. }
    split.
    + intros b. rewrite (next_state_unfold _ _ sr _ Hroot).
      cbn [depth sr transitions]. unfold empty_table.
      change (0 <=? MAX_TABLE_BASED_STATES_DEPTH) with true. cbv iota.
      apply empty_table_lookup.
    + unfold _yr_ac_first_child, _yr_ac_next_child. rewrite Hroot.
      cbn [mbind option_bind depth sr transitions].
      change (0 <=? MAX_TABLE_BASED_STATES_DEPTH) with true. cbv iota.
      unfold empty_table. exact table_scan_empty.
  - intros ->.
    cbn [mbind option_bind states match_records room set_states].
    by eexists.
  - intros ->. reflexivity.
Qed.

Lemma create_automaton_root_witness :
  ((2 ≤ room (empty_arena 2))%nat ∧
   ∃ a' automaton sr,
     yr_ac_create_automaton (empty_arena 2)
       = (ERROR_SUCCESS, a', AUTOMATON automaton) ∧
     root automaton = length (states (empty_arena 2)) ∧
     states a' = states (empty_arena 2) ++ [sr] ∧
     match_records a' = match_records (empty_arena 2) ∧
     room (empty_arena 2) = S (S (room a')) ∧
     depth sr = 0 ∧ matches sr = None ∧ failure sr = None ∧
     (∀ b, yr_ac_next_state a' (root automaton) b = None) ∧
     _yr_ac_first_child a' (root automaton) = None) ∧
  (room (empty_arena 1) = 1%nat ∧
   ∃ a', yr_ac_create_automaton (empty_arena 1)
           = (ERROR_INSUFICIENT_MEMORY, a', WITHOUT_ROOT) ∧
         states a' = states (empty_arena 1) ∧
         match_records a' = match_records (empty_arena 1) ∧
         room a' = 0%nat) ∧
  (room (empty_arena 0) = 0%nat ∧
   yr_ac_create_automaton (empty_arena 0)
     = (ERROR_INSUFICIENT_MEMORY, empty_arena 0, NOT_WRITTEN)).
Proof.
  split; [|split].
  - assert (H : (2 ≤ room (empty_arena 2))%nat) by (simpl; lia).
    split; [exact H|]. exact (proj1 (create_automaton_root (empty_arena 2)) H).
  - assert (H : room (empty_arena 1) = 1%nat) by reflexivity.
    split; [exact H|].
    exact (proj1 (proj2 (create_automaton_root (empty_arena 1))) H).
  - assert (H : room (empty_arena 0) = 0%nat) by reflexivity.
    split; [exact H|].
    exact (proj2 (proj2 (create_automaton_root (empty_arena 0))) H).
Defined.

(** ** _yr_ac_create_state without memory *)

(** X4: on a state of the arena [_yr_ac_create_state] returns the null
    pointer exactly when the arena cannot serve two requests, one for the
    new state and one for its link. When it does, no output record and no
    state that was in the arena has changed, and [yr_ac_next_state] answers
    on every state and byte as before: a failed creation leaves no
    transition behind. *)
Theorem create_state_failure (a : ARENA) (state : ptr) (input : Z)
    (s : AC_STATE) :
  states a !! state = Some s →
  ((_yr_ac_create_state a state input).1 = None ↔ (room a < 2)%nat) ∧
  ((_yr_ac_create_state a state input).1 = None →
   match_records (_yr_ac_create_state a state input).2 = match_records a ∧
   (∀ p sp, states a !! p = Some sp →
      states (_yr_ac_create_state a state input).2 !! p = Some sp) ∧
   (∀ p b, yr_ac_next_state (_yr_ac_create_state a state input).2 p b
           = yr_ac_next_state a p b)).
Proof.
  intros Hs. unfold _yr_ac_create_state. rewrite Hs.
  destruct a as [sts ms r]. cbn [states] in Hs.
  unfold allocate_state, yr_arena_make_relocatable, allocate_transition,
    arena_request.
  cbn [room states match_records].
  destruct r as [|[|r]]; cbn [mbind option_bind states match_records room].
  - split; [split; [lia|done]|]. intros _. done.
  - unfold set_states. cbn [states match_records room].
    set (new := {| depth := 0; failure := None; matches := None;
                   transitions := if depth s <? MAX_TABLE_BASED_STATES_DEPTH
                                  then empty_table else LIST [] |}).
    assert (Hnone : ∀ (linked : option ARENA) a1,
      linked = None →
      match linked with
      | Some a2 =>
        (Some (length sts),
         update_state a2 (length sts) (set_depth (depth s + 1)))
      | None => (None, a1)
      end = (None, a1)) by (by intros ? ? ->).
    rewrite Hnone by (by destruct (depth s <=? MAX_TABLE_BASED_STATES_DEPTH)).
    cbn [fst snd states match_records].
    split; [split; [lia|done]|]. intros _. split; [done|]. split.
    + intros p sp Hp. by apply lookup_app_l_Some.
    + intros p b. unfold yr_ac_next_state. cbn [states].
      destruct (sts !! p) as [sp|] eqn:Hp.
      * by rewrite (lookup_app_l_Some _ _ _ _ Hp).
      * apply lookup_ge_None in Hp.
        rewrite lookup_app_r by done.
        destruct (p - length sts)%nat as [|k]; [|by rewrite lookup_cons].
        cbn [lookup list_lookup mbind option_bind new depth transitions].
        change (0 <=? MAX_TABLE_BASED_STATES_DEPTH) with true. cbv iota.
        destruct (depth s <? MAX_TABLE_BASED_STATES_DEPTH); [|done].
        apply empty_table_lookup.
  - unfold set_states. cbn [states match_records room].
    assert (Hsome : ∀ (linked : option ARENA) a1,
      is_Some linked →
      (match linked with
       | Some a2 =>
         (Some (length sts),
          update_state a2 (length sts) (set_depth (depth s + 1)))
       | None => (None, a1)
       end).1 = Some (length sts)) by (by intros ? ? [? ->]).
    split; [|intros Hn; rewrite Hsome in Hn; [done|]];
      [split; [|lia]; intros Hn; rewrite Hsome in Hn; [done|]|];
      by destruct (depth s <=? MAX_TABLE_BASED_STATES_DEPTH).
Qed.

Lemma create_state_failure_witness :
  ∃ a s,
    a = {| states := states arena_with_s;
           match_records := match_records arena_with_s; room := 1 |} ∧
    states a !! 1%nat = Some s ∧
    ((_yr_ac_create_state a 1 104).1 = None ↔ (room a < 2)%nat) ∧
    ((_yr_ac_create_state a 1 104).1 = None →
     match_records (_yr_ac_create_state a 1 104).2 = match_records a ∧
     (∀ p sp, states a !! p = Some sp →
        states (_yr_ac_create_state a 1 104).2 !! p = Some sp) ∧
     (∀ p b, yr_ac_next_state (_yr_ac_create_state a 1 104).2 p b
             = yr_ac_next_state a p b)) ∧
    (_yr_ac_create_state a 1 104).1 = None ∧
    length (states (_yr_ac_create_state a 1 104).2) = 3%nat.
Proof.
  set (a := {| states := states arena_with_s;
               match_records := match_records arena_with_s; room := 1 |}).
  destruct (states a !! 1%nat) as [s|] eqn:Hs; [|by vm_compute in Hs].
  exists a, s. split; [reflexivity|]. split; [exact Hs|].
  destruct (create_state_failure a 1 104 s Hs) as [H1 H2].
  split; [exact H1|]. split; [exact H2|].
  split; vm_compute; reflexivity.
Defined.

(** ** The tokens of a text pattern *)

Lemma wide_bytes_widen (str : list Z) :
  wide_bytes str (Z.min (Z.of_nat (length str) * 2) MAX_TOKEN)
  = take (Z.to_nat MAX_TOKEN) (widen str).
Proof.
  unfold MAX_TOKEN. destruct str as [|a [|b rest]].
  - reflexivity.
  - reflexivity.
  - replace (Z.min (Z.of_nat (length (a :: b :: rest)) * 2) 4) with 4
      by (simpl length; lia).
    reflexivity.
Qed.

Lemma token_records_nonempty nocase tok :
  tok ≠ [] → Forall (λ t, tk_bytes t ≠ []) (token_records nocase tok).
Proof.
  intros Hne. eapply Forall_impl; [apply token_records_spec|].
  intros t [Hlen _]. destruct (tk_bytes t); [|done].
  destruct tok; [done|]. simpl in Hlen. lia.
Qed.

Lemma filter_all {A} (P : A → Prop) `{∀ x, Decision (P x)} (l : list A) :
  Forall P l → filter P l = l.
Proof.
  induction 1 as [|x l Hx _ IH]; [done|].
  by rewrite filter_cons, decide_True, IH.
Qed.

(** The tokens of a text pattern, and the degenerate patterns. *)
Lemma text_tokens_records Y mem s :
  is_hex s = false → is_regexp s = false →
  emitted_tokens Y mem s
  = Some (filter (λ t, tk_bytes t ≠ [])
            ((if is_ascii s
              then token_records (is_no_case s)
                     (take (Z.to_nat MAX_TOKEN) (str_bytes s))
              else []) ++
             (if is_wide s
              then token_records (is_no_case s)
                     (take (Z.to_nat MAX_TOKEN) (widen (str_bytes s)))
              else []))).
Proof.
  intros Hhex Hre.
  set (ta := take (Z.to_nat MAX_TOKEN) (str_bytes s)).
  set (tw := take (Z.to_nat MAX_TOKEN) (widen (str_bytes s))).
  destruct (gen_ascii_tokens_records Y mem s []) as [pa Hga].
  set (oa := if is_ascii s then gen_ascii_tokens Y mem s MAX_TOKEN [] else []).
  destruct (gen_wide_tokens_records Y mem s oa) as [pw Hgw].
  unfold str_length in Hgw. rewrite wide_bytes_widen in Hgw.
  fold ta in Hga. fold tw in Hgw.
  set (ra := if is_ascii s then written_records (is_no_case s) pa ta else []).
  set (rw := if is_wide s then written_records (is_no_case s) pw tw else []).
  assert (Hgen : _yr_ac_gen_tokens Y mem s MAX_TOKEN
                 = Some (encode_tokens (ra ++ rw) ++ [INT 0])).
  { unfold _yr_ac_gen_tokens. rewrite Hhex, Hre. cbn [mbind option_bind].
    unfold write_int. f_equal. f_equal. rewrite encode_tokens_app.
    assert (Hoa : oa = encode_tokens ra).
    { unfold oa, ra. destruct (is_ascii s); [exact Hga|done]. }
    fold oa. unfold rw. destruct (is_wide s).
    - rewrite Hgw. by rewrite Hoa.
    - by rewrite app_nil_r. }
  clear Hga Hgw.
  destruct (str_bytes s) as [|c str] eqn:Hstr.
  - assert (Hnone : Forall (λ t, tk_bytes t = []) (ra ++ rw)).
    { apply Forall_app. unfold ra, rw, ta, tw. split.
      - destruct (is_ascii s); [|constructor].
        eapply Forall_impl; [apply written_records_spec|].
        intros t [Hl _]. by destruct (tk_bytes t).
      - destruct (is_wide s); [|constructor].
        eapply Forall_impl; [apply written_records_spec|].
        intros t [Hl _]. by destruct (tk_bytes t). }
    rewrite (emitted_tokens_records Y mem s _ (ra ++ rw) Hgen eq_refl
               (or_intror Hnone)).
    f_equal.
    assert (Hf : ∀ l : list token, Forall (λ t, tk_bytes t = []) l →
              filter (λ t, tk_bytes t ≠ []) l = []).
    { intros l Hl. induction Hl as [|t l Ht _ IH]; [done|].
      rewrite filter_cons, decide_False by tauto. exact IH. }
    rewrite (Hf _ Hnone). symmetry. apply Hf.
    unfold ta, tw. simpl.
    destruct (is_ascii s), (is_wide s); repeat constructor.
  - assert (Hta : ta ≠ []) by done.
    assert (Htw : tw ≠ []) by done.
    unfold ra, rw in Hgen.
    rewrite !written_records_nonempty in Hgen by done.
    apply (emitted_tokens_records Y mem s _ _ Hgen eq_refl).
    left. apply Forall_app. split.
    + destruct (is_ascii s); [|constructor].
      by apply token_records_nonempty.
    + destruct (is_wide s); [|constructor].
      by apply token_records_nonempty.
Qed.

(** X5: a text pattern with at least one byte gives the automaton the
    first MAX_TOKEN bytes of the text when it is ASCII, followed by the
    first MAX_TOKEN bytes of its wide form (each byte followed by a zero)
    when it is wide, each with backtrack 0, and with all the case variants
    of each when the pattern is case-insensitive. A text pattern without
    bytes, or neither ASCII nor wide, gives no token. *)
Theorem text_tokens (Y : yara_h) (mem : block) (s : STRING) :
  is_hex s = false → is_regexp s = false →
  (str_bytes s ≠ [] →
   emitted_tokens Y mem s
   = Some ((if is_ascii s
            then token_records (is_no_case s)
                   (take (Z.to_nat MAX_TOKEN) (str_bytes s))
            else []) ++
           (if is_wide s
            then token_records (is_no_case s)
                   (take (Z.to_nat MAX_TOKEN) (widen (str_bytes s)))
            else [])) ∧
   (is_no_case s = false →
    emitted_tokens Y mem s
    = Some ((if is_ascii s
             then [{| tk_backtrack := 0;
                      tk_bytes := take (Z.to_nat MAX_TOKEN) (str_bytes s) |}]
             else []) ++
            (if is_wide s
             then [{| tk_backtrack := 0;
                      tk_bytes := take (Z.to_nat MAX_TOKEN)
                                    (widen (str_bytes s)) |}]
             else [])))) ∧
  (str_bytes s = [] ∨ (is_ascii s = false ∧ is_wide s = false) →
   emitted_tokens Y mem s = Some []).
Proof.
  intros Hhex Hre. split.
  - intros Hne.
    assert (Hall : emitted_tokens Y mem s
      = Some ((if is_ascii s
               then token_records (is_no_case s)
                      (take (Z.to_nat MAX_TOKEN) (str_bytes s))
               else []) ++
              (if is_wide s
               then token_records (is_no_case s)
                      (take (Z.to_nat MAX_TOKEN) (widen (str_bytes s)))
               else []))).
    { rewrite (text_tokens_records Y mem s Hhex Hre). f_equal.
      apply filter_all, Forall_app. destruct (str_bytes s) as [|c str]; [done|].
      split.
      - destruct (is_ascii s); [|constructor].
        by apply token_records_nonempty.
      - destruct (is_wide s); [|constructor].
        by apply token_records_nonempty. }
    split; [exact Hall|]. intros Hnc. rewrite Hall, Hnc.
    destruct (str_bytes s) as [|c str]; [done|].
    by destruct (is_ascii s), (is_wide s).
  - rewrite (text_tokens_records Y mem s Hhex Hre). intros [Hnil|[Ha Hw]].
    + rewrite Hnil. by destruct (is_ascii s), (is_wide s), (is_no_case s).
    + by rewrite Ha, Hw.
Qed.

Lemma text_tokens_witness :
  is_hex ascii_wide_ab = false ∧ is_regexp ascii_wide_ab = false ∧
  str_bytes ascii_wide_ab ≠ [] ∧ is_no_case ascii_wide_ab = false ∧
  emitted_tokens yara_h_example zeros ascii_wide_ab
  = Some [{| tk_backtrack := 0; tk_bytes := [97; 98] |};
          {| tk_backtrack := 0; tk_bytes := [97; 0; 98; 0] |}] ∧
  (str_bytes (ascii 0 []) = [] ∨
   (is_ascii (ascii 0 []) = false ∧ is_wide (ascii 0 []) = false)) ∧
  emitted_tokens yara_h_example zeros (ascii 0 []) = Some [].
Proof.
  assert (Hne : str_bytes ascii_wide_ab ≠ []) by discriminate.
  split; [reflexivity|]. split; [reflexivity|]. split; [exact Hne|].
  split; [reflexivity|]. split.
  - exact (proj2 (proj1 (text_tokens yara_h_example zeros ascii_wide_ab
                           eq_refl eq_refl) Hne) eq_refl).
  - split; [left; reflexivity|].
    exact (proj2 (text_tokens yara_h_example zeros (ascii 0 []) eq_refl eq_refl)
             (or_introl eq_refl)).
Defined.

(** ** The size of what the generators write *)

Lemma buffer_size_encode Y rs :
  0 ≤ sizeof_int Y → Forall (λ t, tk_length t ≤ MAX_TOKEN) rs →
  buffer_size Y (encode_tokens rs)
  ≤ Z.of_nat (length rs) * (2 * sizeof_int Y + MAX_TOKEN).
Proof.
  intros Hsi. induction 1 as [|t rs Ht _ IH]; [done|].
  rewrite encode_tokens_cons, buffer_size_app. unfold encode_token.
  change (buffer_size Y (INT (tk_length t) :: INT (tk_backtrack t)
                         :: (BYTE <$> tk_bytes t)))
    with (sizeof_int Y + (sizeof_int Y + buffer_size Y (BYTE <$> tk_bytes t))).
  rewrite buffer_size_bytes. unfold tk_length in Ht.
  simpl length. lia.
Qed.

Lemma count_letters_le tok : (count_letters tok ≤ length tok)%nat.
Proof. unfold count_letters. apply length_filter. Qed.

Lemma length_token_records nocase tok :
  (length tok ≤ Z.to_nat MAX_TOKEN)%nat →
  (length (token_records nocase tok) ≤ 16)%nat.
Proof.
  intros Hlen. unfold token_records. destruct tok as [|c tok]; [simpl; lia|].
  destruct nocase; [|simpl; lia].
  unfold variant_tokens. rewrite length_fmap, length_case_variants.
  change 16%nat with (2 ^ 4)%nat. apply Nat.pow_le_mono_r; [lia|].
  pose proof (count_letters_le (c :: tok)). unfold MAX_TOKEN in Hlen. lia.
Qed.

Lemma token_records_lengths nocase tok :
  (length tok ≤ Z.to_nat MAX_TOKEN)%nat →
  Forall (λ t, tk_length t ≤ MAX_TOKEN) (token_records nocase tok).
Proof.
  intros Hlen. eapply Forall_impl; [apply token_records_spec|].
  intros t [Hl _]. unfold tk_length. rewrite Hl. unfold MAX_TOKEN in *. lia.
Qed.

Lemma length_written_records nocase past tok :
  (length tok ≤ Z.to_nat MAX_TOKEN)%nat →
  (length (written_records nocase past tok) ≤ 16)%nat.
Proof.
  intros Hlen. destruct tok as [|c tok].
  - unfold written_records, token_records.
    destruct (nocase && is_letter past); simpl; lia.
  - rewrite written_records_nonempty by done.
    by apply length_token_records.
Qed.

Lemma written_records_lengths nocase past tok :
  (length tok ≤ Z.to_nat MAX_TOKEN)%nat →
  Forall (λ t, tk_length t ≤ MAX_TOKEN) (written_records nocase past tok).
Proof.
  intros Hlen. eapply Forall_impl; [apply written_records_spec|].
  intros t [Hl _]. unfold tk_length. rewrite Hl. unfold MAX_TOKEN in *. lia.
Qed.

Lemma length_take_max {A} (l : list A) :
  (length (take (Z.to_nat MAX_TOKEN) l) ≤ Z.to_nat MAX_TOKEN)%nat.
Proof. rewrite length_take. lia. Qed.

(** X6: the scratch buffer of [yr_ac_add_string] is large enough for what
    the generators write, the final terminator included, for every hex
    pattern, every text pattern, and every regular expression that has a
    literal prefix or at most 32 first bytes. *)
Theorem tokens_fit_scratch (Y : yara_h) (mem : block) (s : STRING) (out : buffer) :
  0 ≤ sizeof_int Y →
  (is_hex s = false → is_regexp s = true →
   regexp_prefix Y s ≠ [] ∨ (length (re_first_bytes s) ≤ 32)%nat) →
  _yr_ac_gen_tokens Y mem s MAX_TOKEN = Some out →
  buffer_size Y out ≤ tokens_capacity Y.
Proof.
  intros Hsi Hre Hgen.
  assert (Hcount : ∃ rs, out = encode_tokens rs ++ [INT 0] ∧
            Forall (λ t, tk_length t ≤ MAX_TOKEN) rs ∧ (length rs ≤ 32)%nat).
  { unfold _yr_ac_gen_tokens in Hgen. destruct (is_hex s) eqn:Hhex.
    - destruct (_yr_ac_gen_hex_tokens Y s MAX_TOKEN []) as [o|] eqn:Ho;
        [|done].
      injection Hgen as <-.
      destruct (gen_hex_tokens_records Y s o Ho) as (t & -> & Hl & _).
      exists [t]. split; [done|]. split; [by constructor|simpl; lia].
    - destruct (is_regexp s) eqn:Hregexp.
      + injection Hgen as <-.
        specialize (Hre eq_refl eq_refl).
        unfold _yr_ac_gen_regexp_tokens. unfold regexp_prefix in Hre.
        set (tok := regexp_scan Y (str_bytes s) (str_length s) MAX_TOKEN
                      (Z.to_nat MAX_TOKEN)
                      (if byte_at (str_bytes s) 0 =? 94 then 1 else 0) [])
          in *.
        destruct (regexp_scan_spec Y (str_bytes s) (str_length s) MAX_TOKEN
                    (Z.to_nat MAX_TOKEN)
                    (if byte_at (str_bytes s) 0 =? 94 then 1 else 0) []
                    ltac:(done) ltac:(simpl; lia)) as [Hlen _].
        fold tok in Hlen.
        destruct (Z.ltb_spec 0 (Z.of_nat (length tok))) as [Hpos|Hzero].
        * exists (written_records (is_no_case s) 0 tok). split.
          { unfold write_int at 1. f_equal.
            apply (write_token_records (is_no_case s) 0 tok []). }
          split; [by apply written_records_lengths|].
          pose proof (length_written_records (is_no_case s) 0 tok Hlen). lia.
        * destruct Hre as [Hpos|Hfb]; [by destruct tok; [|simpl in *; lia]|].
          exists ((λ b, {| tk_backtrack := 0; tk_bytes := [b] |})
                  <$> re_first_bytes s). split.
          { unfold write_int. f_equal.
            apply (write_first_bytes_records (re_first_bytes s) []). }
          split; [|by rewrite length_fmap].
          apply Forall_fmap, Forall_forall. intros b _. done.
      + injection Hgen as <-.
        destruct (gen_ascii_tokens_records Y mem s []) as [pa Hga].
        set (oa := if is_ascii s then gen_ascii_tokens Y mem s MAX_TOKEN []
                   else []).
        destruct (gen_wide_tokens_records Y mem s oa) as [pw Hgw].
        unfold str_length in Hgw. rewrite wide_bytes_widen in Hgw.
        set (ra := if is_ascii s
                   then written_records (is_no_case s) pa
                          (take (Z.to_nat MAX_TOKEN) (str_bytes s))
                   else []).
        set (rw := if is_wide s
                   then written_records (is_no_case s) pw
                          (take (Z.to_nat MAX_TOKEN) (widen (str_bytes s)))
                   else []).
        exists (ra ++ rw). split; [|split].
        * unfold write_int. f_equal. rewrite encode_tokens_app.
          assert (Hoa : oa = encode_tokens ra).
          { unfold oa, ra. destruct (is_ascii s); [exact Hga|done]. }
          fold oa. unfold rw. destruct (is_wide s).
          -- rewrite Hgw. by rewrite Hoa.
          -- by rewrite app_nil_r.
        * apply Forall_app. unfold ra, rw. split.
          -- destruct (is_ascii s); [|constructor].
             apply written_records_lengths, length_take_max.
          -- destruct (is_wide s); [|constructor].
             apply written_records_lengths, length_take_max.
        * rewrite length_app.
          assert ((length ra ≤ 16)%nat).
          { unfold ra. destruct (is_ascii s); [|simpl; lia].
            apply length_written_records, length_take_max. }
          assert ((length rw ≤ 16)%nat).
          { unfold rw. destruct (is_wide s); [|simpl; lia].
            apply length_written_records, length_take_max. }
          lia. }
  destruct Hcount as (rs & -> & Hl & Hn).
  rewrite buffer_size_app.
  pose proof (buffer_size_encode Y rs Hsi Hl) as Hsize.
  change (buffer_size Y [INT 0]) with (sizeof_int Y + 0).
  unfold tokens_capacity, MAX_TOKEN in *.
  change (Z.shiftl 1 4) with 16. nia.
Qed.

Lemma tokens_fit_scratch_witness :
  0 ≤ sizeof_int yara_h_example ∧
  (is_hex dot_star_abc_32 = false → is_regexp dot_star_abc_32 = true →
   regexp_prefix yara_h_example dot_star_abc_32 ≠ []
   ∨ (length (re_first_bytes dot_star_abc_32) ≤ 32)%nat) ∧
  ∃ out, _yr_ac_gen_tokens yara_h_example zeros dot_star_abc_32 MAX_TOKEN
         = Some out ∧
         buffer_size yara_h_example out ≤ tokens_capacity yara_h_example ∧
         buffer_size yara_h_example out = 292 ∧
         tokens_capacity yara_h_example = 388.
Proof.
  assert (Hsi : 0 ≤ sizeof_int yara_h_example) by (simpl; lia).
  assert (Hre : is_hex dot_star_abc_32 = false →
                is_regexp dot_star_abc_32 = true →
                regexp_prefix yara_h_example dot_star_abc_32 ≠ []
                ∨ (length (re_first_bytes dot_star_abc_32) ≤ 32)%nat).
  { intros _ _. right. vm_compute. lia. }
  split; [exact Hsi|]. split; [exact Hre|].
  destruct (_yr_ac_gen_tokens yara_h_example zeros dot_star_abc_32 MAX_TOKEN)
    as [out|] eqn:Hout; [|by vm_compute in Hout].
  exists out. split; [reflexivity|]. split.
  - exact (tokens_fit_scratch yara_h_example zeros dot_star_abc_32 out
             Hsi Hre Hout).
  - vm_compute in Hout. injection Hout as <-. split; vm_compute; reflexivity.
Defined.

(** ** The failure-link pass changes links only *)

Lemma links_only_refl a : links_only a a.
Proof.
  split; [apply same_shape_refl|]. split; [done|]. split; [done|]. eauto.
Qed.

Lemma links_only_trans a b c :
  links_only a b → links_only b c → links_only a c.
Proof.
  intros (S1 & R1 & L1 & M1) (S2 & R2 & L2 & M2).
  split; [by eapply same_shape_trans|]. split; [congruence|].
  split; [congruence|]. intros m r Hm.
  destruct (M1 _ _ Hm) as (r1 & Hm1 & ? & ?).
  destruct (M2 _ _ Hm1) as (r2 & Hm2 & ? & ?).
  exists r2. split; [done|]. split; congruence.
Qed.

Lemma links_only_update_state a p f :
  (∀ s, depth (f s) = depth s ∧ transitions (f s) = transitions s) →
  links_only a (update_state a p f).
Proof.
  intros Hf. split; [by apply same_shape_update_state|].
  split; [done|]. split; [done|]. eauto.
Qed.

Lemma links_only_set_next a m n : links_only a (update_match a m (set_next n)).
Proof.
  split; [apply same_shape_update_match|]. split; [done|].
  split; [unfold update_match; simpl; apply length_alter|].
  intros m' r Hm'. unfold update_match. simpl.
  destruct (decide (m = m')) as [->|Hne].
  - exists (set_next n r). by rewrite list_lookup_alter_eq, Hm'.
  - exists r. by rewrite list_lookup_alter_ne.
Qed.

Lemma link_root_matches_links fuel a root_state current_state a' :
  link_root_matches fuel a root_state current_state = Some a' →
  links_only a a'.
Proof.
  unfold link_root_matches.
  destruct (states a !! root_state) as [r|]; [|done].
  destruct (states a !! current_state) as [c|]; [|done].
  cbn [mbind option_bind]. destruct (matches c) as [m|].
  - destruct (last_match fuel a m) as [m'|]; [|done].
    cbn [mbind option_bind].
    destruct (match_records a !! m') as [rec|]; [|done].
    cbn [mbind option_bind]. destruct (0 <? m_backtrack rec).
    + intros [= <-]. apply links_only_set_next.
    + intros [= <-]. apply links_only_refl.
  - intros [= <-]. by apply links_only_update_state.
Qed.

Lemma link_to_links fuel a transition_state temp_state a' :
  link_to fuel a transition_state temp_state = Some a' → links_only a a'.
Proof.
  unfold link_to.
  set (a1 := update_state a transition_state (set_failure (Some temp_state))).
  assert (H1 : links_only a a1) by (by apply links_only_update_state).
  clearbody a1.
  destruct (states a1 !! transition_state) as [t|]; [|done].
  destruct (states a1 !! temp_state) as [tmp|]; [|done].
  cbn [mbind option_bind]. destruct (matches t) as [m|].
  - destruct (last_match fuel a1 m) as [m'|]; [|done].
    cbn [mbind option_bind]. intros [= <-].
    eapply links_only_trans; [exact H1|apply links_only_set_next].
  - intros [= <-].
    eapply links_only_trans; [exact H1|by apply links_only_update_state].
Qed.

Lemma find_failure_links fuel chain_fuel i root_state transition_state :
  ∀ a failure_state a',
  find_failure fuel chain_fuel a i root_state transition_state failure_state
    = Some a' →
  links_only a a'.
Proof.
  induction fuel as [|fuel IH]; intros a failure_state a'; [done|].
  cbn [find_failure].
  destruct (states a !! failure_state) as [fs|]; [|done].
  cbn [mbind option_bind].
  destruct (yr_ac_next_state a failure_state (uint8 i)) as [temp|].
  { apply link_to_links. }
  destruct (decide (failure_state = root_state)).
  { intros [= <-]. by apply links_only_update_state. }
  destruct (failure fs) as [f|]; [|done]. cbn [mbind option_bind].
  apply IH.
Qed.

Lemma link_children_links i root_state cur fuel :
  ∀ a h q child a' h' q',
  link_children fuel a h q i root_state cur child = Some (a', h', q') →
  links_only a a'.
Proof.
  induction fuel as [|fuel IH]; intros a h q child a' h' q'.
  { destruct child as [[c it]|]; [done|]. intros [= <- <- <-].
    apply links_only_refl. }
  destruct child as [[c it]|].
  2:{ intros [= <- <- <-]. apply links_only_refl. }
  cbn [link_children].
  destruct (_yr_ac_queue_push h q (Some c)) as [[st h1] q1].
  destruct (states a !! cur) as [sc|]; [|done]. cbn [mbind option_bind].
  destruct (failure sc) as [f|]; [|done]. cbn [mbind option_bind].
  destruct (find_failure (S fuel) (S fuel) a i root_state c f) as [a1|] eqn:Hff;
    [|done].
  cbn [mbind option_bind]. intros Hrest.
  eapply links_only_trans; [by eapply find_failure_links|by eapply IH].
Qed.

Lemma push_root_children_links root_state fuel :
  ∀ a h q child a' h' q',
  push_root_children fuel a h q root_state child = Some (a', h', q') →
  links_only a a'.
Proof.
  induction fuel as [|fuel IH]; intros a h q child a' h' q'.
  { destruct child as [[c it]|]; [done|]. intros [= <- <- <-].
    apply links_only_refl. }
  destruct child as [[c it]|].
  2:{ intros [= <- <- <-]. apply links_only_refl. }
  cbn [push_root_children].
  destruct (_yr_ac_queue_push h q (Some c)) as [[st h1] q1].
  intros Hrest.
  eapply links_only_trans; [|by eapply IH].
  by apply links_only_update_state.
Qed.

Lemma traverse_links fuel i root_state turns :
  ∀ a h q a', traverse turns fuel i root_state a h q = Some a' →
  links_only a a'.
Proof.
  induction turns as [|turns IH]; intros a h q a'; cbn [traverse].
  { destruct (_yr_ac_queue_is_empty q); [|done]. intros [= <-].
    apply links_only_refl. }
  destruct (_yr_ac_queue_is_empty q).
  { intros [= <-]. apply links_only_refl. }
  unfold traverse_step.
  destruct (_yr_ac_queue_pop h q) as [[popped h1] q1].
  destruct popped as [cur|]; [|done]. cbn [mbind option_bind].
  destruct (link_root_matches fuel a root_state cur) as [a1|] eqn:Hlink;
    [|done].
  cbn [mbind option_bind].
  destruct (link_children fuel a1 h1 q1 i root_state cur
              (_yr_ac_first_child a1 cur)) as [[[a2 h2] q2]|] eqn:Hch; [|done].
  cbn [mbind option_bind]. intros Hrest.
  eapply links_only_trans; [by eapply link_root_matches_links|].
  eapply links_only_trans; [by eapply link_children_links|by eapply IH].
Qed.

(** X7: when [yr_ac_create_failure_links] completes it has changed failure
    links, heads of output chains and [next] fields of output records, and
    nothing else: every state keeps its depth and its transitions, so that
    [yr_ac_next_state] answers as before, every output record keeps its
    pattern and its backtrack, and nothing has been allocated in the
    arena. *)
Theorem create_failure_links_changes_links_only (fuel : nat) (i : Z)
    (a : ARENA) (h : HEAP) (automaton : AC_AUTOMATON) (a' : ARENA) :
  yr_ac_create_failure_links fuel i a h automaton = Some a' →
  links_only a a' ∧
  length (states a') = length (states a) ∧
  (∀ p b, yr_ac_next_state a' p b = yr_ac_next_state a p b) ∧
  (∀ p bytes, follow a' p bytes = follow a p bytes).
Proof.
  unfold yr_ac_create_failure_links, failure_links_init.
  destruct (states a !! root automaton) as [sr|]; [|done].
  cbn [mbind option_bind].
  set (a0 := update_state a (root automaton) _).
  assert (H0 : links_only a a0) by (by apply links_only_update_state).
  clearbody a0.
  destruct (push_root_children fuel a0 h empty_queue (root automaton)
              (_yr_ac_first_child a0 (root automaton)))
    as [[[a1 h1] q1]|] eqn:Hpush; [|done].
  cbn [mbind option_bind]. intros Htr.
  assert (H : links_only a a').
  { eapply links_only_trans; [exact H0|].
    eapply links_only_trans; [by eapply push_root_children_links|].
    by eapply traverse_links. }
  split; [exact H|]. destruct H as (Hsh & _). split; [apply Hsh|].
  split.
  - intros p b. by apply same_shape_next_state.
  - intros p bytes. by apply same_shape_follow.
Qed.

Lemma create_failure_links_changes_links_only_witness :
  ∃ a a',
    built 0 = Some (a, a') ∧
    yr_ac_create_failure_links 100 0 a (empty_heap 100) example_automaton
      = Some a' ∧
    links_only a a' ∧
    length (states a') = length (states a) ∧
    (∀ p b, yr_ac_next_state a' p b = yr_ac_next_state a p b) ∧
    (∀ p bytes, follow a' p bytes = follow a p bytes).
Proof.
  destruct (built 0) as [[a a']|] eqn:Hb; [|by vm_compute in Hb].
  assert (Hrun : yr_ac_create_failure_links 100 0 a (empty_heap 100)
                   example_automaton = Some a').
  { vm_compute in Hb. injection Hb as <- <-. vm_compute. reflexivity. }
  exists a, a'. split; [reflexivity|]. split; [exact Hrun|].
  exact (create_failure_links_changes_links_only 100 0 a (empty_heap 100)
           example_automaton a' Hrun).
Defined.

(** ** Failure links lead towards the root *)

Section shallower.
Variable a0 : ARENA.
Variable root_state : ptr.
Hypothesis Hwf : arena_wf a0.

Lemma shallower_same_failures a a' :
  (∀ p, failure <$> states a' !! p = failure <$> states a !! p) →
  links_shallower a0 root_state a → links_shallower a0 root_state a'.
Proof.
  intros Hsame [(sr & Hr & Hfr) Hall]. split.
  - pose proof (Hsame root_state) as H. rewrite Hr in H. simpl in H.
    destruct (states a' !! root_state) as [sr'|]; [|done].
    exists sr'. split; [done|]. simpl in H. congruence.
  - intros p s f Hp Hf Hne. pose proof (Hsame p) as H. rewrite Hp in H.
    destruct (states a !! p) as [s0|] eqn:Hp0; [|done].
    simpl in H. apply (Hall p s0 f); [done| |done]. congruence.
Qed.

Lemma shallower_set_matches a p m :
  links_shallower a0 root_state a →
  links_shallower a0 root_state (update_state a p (set_matches m)).
Proof.
  apply shallower_same_failures. intros q. rewrite lookup_update_state.
  destruct (decide (p = q)); [|done]. by destruct (states a !! q).
Qed.

Lemma shallower_update_match a m f :
  links_shallower a0 root_state a →
  links_shallower a0 root_state (update_match a m f).
Proof. by apply shallower_same_failures. Qed.

Lemma shallower_set_failure a p f sf :
  p ≠ root_state → states a0 !! f = Some sf → depth sf < depth_of a0 p →
  links_shallower a0 root_state a →
  links_shallower a0 root_state (update_state a p (set_failure (Some f))).
Proof.
  intros Hne Hf Hlt [(sr & Hr & Hfr) Hall]. split.
  - exists sr. by rewrite lookup_update_state_ne.
  - intros q s g Hq Hg Hqr. rewrite lookup_update_state in Hq.
    destruct (decide (p = q)) as [<-|Hpq]; [|by eapply Hall].
    destruct (states a !! p) as [s0|]; [|done]. simpl in Hq.
    injection Hq as <-. simpl in Hg. injection Hg as <-. by exists sf.
Qed.

Lemma link_root_matches_shallower fuel a current_state a' :
  links_shallower a0 root_state a →
  link_root_matches fuel a root_state current_state = Some a' →
  links_shallower a0 root_state a'.
Proof.
  intros HJ. unfold link_root_matches.
  destruct (states a !! root_state) as [r|]; [|done].
  destruct (states a !! current_state) as [c|]; [|done].
  cbn [mbind option_bind]. destruct (matches c) as [m|].
  - destruct (last_match fuel a m) as [m'|]; [|done].
    cbn [mbind option_bind].
    destruct (match_records a !! m') as [rec|]; [|done].
    cbn [mbind option_bind]. destruct (0 <? m_backtrack rec).
    + intros [= <-]. by apply shallower_update_match.
    + by intros [= <-].
  - intros [= <-]. by apply shallower_set_matches.
Qed.

Lemma link_to_shallower fuel a transition_state temp_state sf a' :
  transition_state ≠ root_state →
  states a0 !! temp_state = Some sf →
  depth sf < depth_of a0 transition_state →
  links_shallower a0 root_state a →
  link_to fuel a transition_state temp_state = Some a' →
  links_shallower a0 root_state a'.
Proof.
  intros Hne Hsf Hlt HJ. unfold link_to.
  set (a1 := update_state a transition_state (set_failure (Some temp_state))).
  assert (H1 : links_shallower a0 root_state a1)
    by (by eapply shallower_set_failure).
  clearbody a1.
  destruct (states a1 !! transition_state) as [t|]; [|done].
  destruct (states a1 !! temp_state) as [tmp|]; [|done].
  cbn [mbind option_bind]. destruct (matches t) as [m|].
  - destruct (last_match fuel a1 m) as [m'|]; [|done].
    cbn [mbind option_bind]. intros [= <-]. by apply shallower_update_match.
  - intros [= <-]. by apply shallower_set_matches.
Qed.

Lemma find_failure_shallower chain_fuel i t d sr0 fuel :
  t ≠ root_state → depth_of a0 t = d + 1 →
  states a0 !! root_state = Some sr0 → depth sr0 ≤ d →
  ∀ a fs sfs a',
  same_shape a0 a → links_shallower a0 root_state a →
  states a0 !! fs = Some sfs → depth sfs < d →
  find_failure fuel chain_fuel a i root_state t fs = Some a' →
  links_shallower a0 root_state a'.
Proof.
  intros Ht Hdt Hr0 Hdr.
  induction fuel as [|fuel IH]; intros a fs sfs a' Hsh HJ Hfs Hlt; [done|].
  cbn [find_failure].
  destruct (states a !! fs) as [fsa|] eqn:Hfsa; [|done].
  cbn [mbind option_bind].
  rewrite (same_shape_next_state a0 a fs (uint8 i) Hsh).
  destruct (yr_ac_next_state a0 fs (uint8 i)) as [temp|] eqn:Hnext.
  { pose proof (uint8_range i) as Hb.
    pose proof (next_state_transition a0 fs sfs (uint8 i) temp Hfs
                  ltac:(lia) Hnext) as Htr.
    destruct (Hwf _ _ Hfs) as (_ & _ & Hch).
    destruct (Hch _ _ Htr) as (stemp & Htemp & Hdtemp).
    apply (link_to_shallower _ _ _ _ stemp); [done|done|lia|done]. }
  destruct (decide (fs = root_state)) as [->|Hfr].
  { intros [= <-]. apply (shallower_set_failure _ _ _ sr0); [done|done|lia|done]. }
  destruct (failure fsa) as [f|] eqn:Hf; [|done]. cbn [mbind option_bind].
  destruct HJ as [HK Hall].
  destruct (Hall fs fsa f Hfsa Hf Hfr) as (sf & Hsf & Hlt').
  apply (IH a f sf a' Hsh (conj HK Hall) Hsf).
  unfold depth_of in Hlt'. rewrite Hfs in Hlt'. simpl in Hlt'. lia.
Qed.

Lemma link_children_shallower i cur d sr0 fuel :
  depth_is a0 cur d → states a0 !! root_state = Some sr0 → depth sr0 < d →
  ∀ a h q child a' h' q',
  same_shape a0 a → links_shallower a0 root_state a →
  (∀ c it, child = Some (c, it) → is_child a0 cur c) →
  link_children fuel a h q i root_state cur child = Some (a', h', q') →
  links_shallower a0 root_state a'.
Proof.
  intros Hcur Hr0 Hdr.
  assert (Hcr : cur ≠ root_state).
  { intros ->. destruct Hcur as (s & Hs & Hd). rewrite Hr0 in Hs.
    injection Hs as <-. lia. }
  induction fuel as [|fuel IH]; intros a h q child a' h' q' Hsh HJ Hchild.
  { destruct child as [[c it]|]; [done|]. by intros [= <- <- <-]. }
  destruct child as [[c it]|]; [|by intros [= <- <- <-]].
  cbn [link_children].
  destruct (_yr_ac_queue_push h q (Some c)) as [[st h1] q1].
  destruct (states a !! cur) as [sc|] eqn:Hsc; [|done].
  cbn [mbind option_bind].
  destruct (failure sc) as [f|] eqn:Hf; [|done]. cbn [mbind option_bind].
  destruct (find_failure (S fuel) (S fuel) a i root_state c f) as [a1|] eqn:Hff;
    [|done].
  cbn [mbind option_bind]. intros Hrest.
  pose proof (is_child_depth a0 cur c d Hwf Hcur (Hchild c it eq_refl)) as Hc.
  assert (Hcne : c ≠ root_state).
  { intros ->. destruct Hc as (s & Hs & Hd). rewrite Hr0 in Hs.
    injection Hs as <-. lia. }
  destruct HJ as [HK Hall].
  destruct (Hall cur sc f Hsc Hf Hcr) as (sf & Hsf & Hlt).
  rewrite (depth_is_of _ _ _ Hcur) in Hlt.
  assert (HJ1 : links_shallower a0 root_state a1).
  { eapply (find_failure_shallower (S fuel) i c d sr0 (S fuel));
      [done|by apply depth_is_of|done|lia|exact Hsh|exact (conj HK Hall)
      |exact Hsf|exact Hlt|exact Hff]. }
  assert (Hsh1 : same_shape a0 a1).
  { eapply same_shape_trans; [exact Hsh|by eapply find_failure_shape]. }
  eapply (IH a1 h1 q1 _ a' h' q' Hsh1 HJ1); [|exact Hrest].
  intros c' it' Hnext.
  rewrite (same_shape_next_child a0 a1 cur it Hsh1) in Hnext.
  by eapply next_child_is_child.
Qed.

Lemma push_root_children_shallower sr0 fuel :
  states a0 !! root_state = Some sr0 →
  ∀ a h q child a' h' q',
  same_shape a0 a → links_shallower a0 root_state a →
  (∀ c it, child = Some (c, it) → is_child a0 root_state c) →
  push_root_children fuel a h q root_state child = Some (a', h', q') →
  links_shallower a0 root_state a'.
Proof.
  intros Hr0.
  induction fuel as [|fuel IH]; intros a h q child a' h' q' Hsh HJ Hchild.
  { destruct child as [[c it]|]; [done|]. by intros [= <- <- <-]. }
  destruct child as [[c it]|]; [|by intros [= <- <- <-]].
  cbn [push_root_children].
  destruct (_yr_ac_queue_push h q (Some c)) as [[st h1] q1].
  pose proof (is_child_depth a0 root_state c (depth sr0) Hwf
                ltac:(by exists sr0) (Hchild c it eq_refl)) as Hc.
  assert (Hcne : c ≠ root_state).
  { intros ->. destruct Hc as (s & Hs & Hd). rewrite Hr0 in Hs.
    injection Hs as <-. lia. }
  set (a1 := update_state a c (set_failure (Some root_state))).
  assert (HJ1 : links_shallower a0 root_state a1).
  { apply (shallower_set_failure _ _ _ sr0); [done|done| |done].
    rewrite (depth_is_of _ _ _ Hc). lia. }
  assert (Hsh1 : same_shape a0 a1).
  { eapply same_shape_trans; [exact Hsh|apply same_shape_set_failure]. }
  clearbody a1. intros Hrest.
  eapply (IH a1 h1 q1 _ a' h' q' Hsh1 HJ1); [|exact Hrest].
  intros c' it' Hnext.
  rewrite (same_shape_next_child a0 a1 root_state it Hsh1) in Hnext.
  by eapply next_child_is_child.
Qed.

Lemma traverse_shallower fuel i sr0 turns :
  states a0 !! root_state = Some sr0 →
  ∀ d a h q a',
  depth sr0 < d → bfs_inv a0 d a h q → links_shallower a0 root_state a →
  traverse turns fuel i root_state a h q = Some a' →
  links_shallower a0 root_state a'.
Proof.
  intros Hr0.
  induction turns as [|turns IH]; intros d a h q a' Hd Hinv HJ;
    cbn [traverse].
  { destruct (_yr_ac_queue_is_empty q); [|done]. by intros [= <-]. }
  destruct (_yr_ac_queue_is_empty q); [by intros [= <-]|].
  destruct (traverse_step fuel i root_state a h q)
    as [[cur [[a2 h2] q2]]|] eqn:Hstep; [|done].
  cbn [mbind option_bind]. intros Hrest.
  destruct (traverse_step_inv a0 d fuel i root_state a h q cur a2 h2 q2
              Hwf Hinv Hstep) as (d' & Hle & Hcur & Hinv').
  apply (IH d' a2 h2 q2 a' ltac:(lia) Hinv'); [|exact Hrest].
  assert (Hcur' : depth_is a0 cur d').
  { unfold depth_of in Hcur. destruct (states a0 !! cur) as [sc|] eqn:Hsc.
    - by exists sc.
    - simpl in Hcur. destruct (Hwf _ _ Hr0) as (? & _). lia. }
  unfold traverse_step in Hstep.
  destruct (_yr_ac_queue_pop h q) as [[popped h1] q1].
  destruct popped as [cur0|]; [|done]. cbn [mbind option_bind] in Hstep.
  destruct (link_root_matches fuel a root_state cur0) as [a1|] eqn:Hlink;
    [|done].
  cbn [mbind option_bind] in Hstep.
  destruct (link_children fuel a1 h1 q1 i root_state cur0
              (_yr_ac_first_child a1 cur0)) as [[[a3 h3] q3]|] eqn:Hch;
    [|done].
  cbn [mbind option_bind] in Hstep. injection Hstep as -> -> -> ->.
  destruct Hinv as [Hsh _].
  assert (Hsh1 : same_shape a0 a1).
  { eapply same_shape_trans; [exact Hsh|by eapply link_root_matches_shape]. }
  eapply (link_children_shallower i cur d' sr0 fuel Hcur' Hr0 ltac:(lia)
            a1 h1 q1 _ a2 h2 q2 Hsh1); [| |exact Hch].
  - by eapply link_root_matches_shallower.
  - intros c it Hc. rewrite (same_shape_first_child a0 a1 _ Hsh1) in Hc.
    by eapply first_child_is_child.
Qed.

End shallower.

(** X8: when [yr_ac_create_failure_links] completes on a well-formed trie
    without failure links, it leaves, whatever the value of its local
    variable [i], failure links that lead towards the root: the failure
    link of the root is the root, and every other state that has a failure
    link has it to a state of strictly smaller depth. *)
Theorem failure_links_lead_to_the_root (fuel : nat) (i : Z) (a : ARENA)
    (h : HEAP) (automaton : AC_AUTOMATON) (a' : ARENA) :
  arena_wf a → nodes h = ∅ → no_failure_links a →
  yr_ac_create_failure_links fuel i a h automaton = Some a' →
  (∃ sr, states a' !! root automaton = Some sr ∧
         failure sr = Some (root automaton)) ∧
  ∀ p s f, states a' !! p = Some s → failure s = Some f →
    p ≠ root automaton →
    ∃ sf, states a' !! f = Some sf ∧ depth sf < depth s.
Proof.
  intros Hwf Hh Hnone Hrun.
  assert (HJ : links_shallower a (root automaton) a' ∧ same_shape a a').
  { unfold yr_ac_create_failure_links, failure_links_init in Hrun.
    destruct (states a !! root automaton) as [sr|] eqn:Hr; [|done].
    cbn [mbind option_bind] in Hrun.
    set (a0 := update_state a (root automaton)
                 (set_failure (Some (root automaton)))) in *.
    assert (Hsh0 : same_shape a a0) by apply same_shape_set_failure.
    assert (HJ0 : links_shallower a (root automaton) a0).
    { split.
      - exists (set_failure (Some (root automaton)) sr).
        split; [by apply lookup_update_state_eq|done].
      - intros p s f Hp Hf Hne. unfold a0 in Hp.
        rewrite lookup_update_state_ne in Hp by done.
        rewrite (Hnone p s Hp) in Hf. done. }
    clearbody a0.
    destruct (push_root_children fuel a0 h empty_queue (root automaton)
                (_yr_ac_first_child a0 (root automaton)))
      as [[[a1 h1] q1]|] eqn:Hpush; [|done].
    cbn [mbind option_bind] in Hrun.
    assert (Hchild : ∀ c it,
      _yr_ac_first_child a0 (root automaton) = Some (c, it) →
      is_child a (root automaton) c).
    { intros c it Hc. rewrite (same_shape_first_child a a0 _ Hsh0) in Hc.
      by eapply first_child_is_child. }
    destruct (push_root_children_pushes a (root automaton) fuel a0 h
                empty_queue (_yr_ac_first_child a0 (root automaton)) []
                a1 h1 q1 Hsh0 (queue_rep_nil h empty_queue Hh eq_refl)
                Hchild Hpush) as (Hsh1 & new & cs & Hrep & Hnew & Hcs).
    assert (Hinv : bfs_inv a (depth sr + 1) a1 h1 q1).
    { split; [done|]. exists new, cs. split; [done|]. split; [done|].
      apply frontier_children. eapply Forall_impl; [exact Hcs|].
      intros c Hc. apply (is_child_depth a (root automaton)); [done| |done].
      by exists sr. }
    pose proof (push_root_children_shallower a (root automaton) Hwf sr fuel
                  Hr a0 h empty_queue _ a1 h1 q1 Hsh0 HJ0 Hchild Hpush)
      as HJ1.
    split.
    - apply (traverse_shallower a (root automaton) Hwf fuel i sr fuel Hr
               (depth sr + 1) a1 h1 q1 a' ltac:(lia) Hinv HJ1 Hrun).
    - eapply same_shape_trans; [exact Hsh1|].
      by destruct (traverse_links _ _ _ _ _ _ _ _ Hrun). }
  destruct HJ as [[HK Hall] Hsh]. split; [exact HK|].
  intros p s f Hp Hf Hne.
  destruct (Hall p s f Hp Hf Hne) as (sf & Hsf & Hlt).
  destruct (same_shape_sym _ _ Hsh) as [_ Hback].
  destruct Hsh as [_ Hfwd].
  destruct (Hfwd _ _ Hsf) as (sf' & Hsf' & Hd' & _).
  destruct (Hback _ _ Hp) as (s0 & Hs0 & Hd0 & _).
  exists sf'. split; [done|].
  unfold depth_of in Hlt. rewrite Hs0 in Hlt. simpl in Hlt. lia.
Qed.

Lemma no_failure_links_s_h_sh : no_failure_links arena_s_h_sh.
Proof.
  assert (H : Forall (λ s, failure s = None) (states arena_s_h_sh)).
  { apply (bool_decide_unpack _). vm_compute. exact I. }
  intros p s Hp. by eapply Forall_lookup_1 in H.
Qed.

Lemma failure_links_lead_to_the_root_witness :
  arena_wf arena_s_h_sh ∧ nodes (empty_heap 10) = ∅ ∧
  no_failure_links arena_s_h_sh ∧
  ∃ a',
    yr_ac_create_failure_links 10 104 arena_s_h_sh (empty_heap 10)
      example_automaton = Some a' ∧
    failure <$> states a' = [Some 0; Some 0; Some 0; Some 2]%nat ∧
    (∃ sr, states a' !! root example_automaton = Some sr ∧
           failure sr = Some (root example_automaton)) ∧
    ∀ p s f, states a' !! p = Some s → failure s = Some f →
      p ≠ root example_automaton →
      ∃ sf, states a' !! f = Some sf ∧ depth sf < depth s.
Proof.
  split; [exact arena_s_h_sh_wf|]. split; [reflexivity|].
  split; [exact no_failure_links_s_h_sh|].
  destruct (yr_ac_create_failure_links 10 104 arena_s_h_sh (empty_heap 10)
              example_automaton) as [a'|] eqn:Hrun; [|by vm_compute in Hrun].
  exists a'. split; [reflexivity|]. split.
  - vm_compute in Hrun. injection Hrun as <-. vm_compute. reflexivity.
  - exact (failure_links_lead_to_the_root 10 104 arena_s_h_sh (empty_heap 10)
             example_automaton a' arena_s_h_sh_wf eq_refl
             no_failure_links_s_h_sh Hrun).
Defined.

(** ** The arena grows *)

Lemma trie_grows_refl a : trie_grows a a.
Proof.
  split; [|split; [done|]].
  - intros p sp Hp. exists sp. split; [done|]. split; [done|].
    split; [done|]. intros l Hl. by exists [].
  - exists []. by rewrite app_nil_r.
Qed.

Lemma trie_grows_trans a b c :
  trie_grows a b → trie_grows b c → trie_grows a c.
Proof.
  intros (H1 & N1 & [m1 M1]) (H2 & N2 & [m2 M2]). split; [|split].
  - intros p sp Hp. destruct (H1 _ _ Hp) as (sp1 & Hp1 & Hd1 & Hf1 & Hc1).
    destruct (H2 _ _ Hp1) as (sp2 & Hp2 & Hd2 & Hf2 & Hc2).
    exists sp2. split; [done|]. split; [congruence|]. split; [congruence|].
    intros l Hl. destruct (Hc1 l Hl) as [pre1 Hl1].
    destruct (Hc2 _ Hl1) as [pre2 Hl2]. exists (pre2 ++ pre1).
    by rewrite <- app_assoc.
  - eauto.
  - exists (m1 ++ m2). by rewrite M2, M1, app_assoc.
Qed.

Lemma arena_extends_grows a a' : arena_extends a a' → trie_grows a a'.
Proof.
  intros (H1 & H2 & _ & H4). split; [|split; [done|]].
  - intros p sp Hp. destruct (H1 _ _ Hp) as (sp' & Hp' & Hd & Hm & Hf).
    exists sp'. split; [done|]. split; [done|]. split; [done|].
    intros l Hl. exists []. rewrite Hm. by apply (chain_of_records a).
  - exists []. by rewrite app_nil_r.
Qed.

Lemma same_shape_next_state_Some a a' p b c :
  same_shape a a' → yr_ac_next_state a p b = Some c →
  yr_ac_next_state a' p b = Some c.
Proof. intros Hsh. by rewrite (same_shape_next_state a a' p b Hsh). Qed.

Lemma new_match_at_grows a state s bt st a' :
  states a !! state = Some st →
  new_match_at a state s bt = Some a' →
  trie_grows a a'.
Proof.
  intros Hst Hnew.
  destruct (new_match_at_inv _ _ _ _ _ _ Hst Hnew)
    as (Hm & Hterm & Hother & Hsh & _).
  split; [|split].
  - intros p sp Hp. destruct (decide (p = state)) as [->|Hne].
    + rewrite Hst in Hp. injection Hp as <-.
      exists (set_matches (Some (length (match_records a))) st).
      split; [done|]. split; [done|]. split; [done|].
      intros l Hl. exists [length (match_records a)]. simpl.
      econstructor.
      * rewrite Hm, lookup_app_r by lia. by rewrite Nat.sub_diag.
      * simpl. by eapply chain_of_app.
    + exists sp. rewrite (Hother p Hne). split; [done|]. split; [done|].
      split; [done|]. intros l Hl. exists []. by eapply chain_of_app.
  - intros p b c _. by apply same_shape_next_state_Some.
  - eauto.
Qed.

(** ** _yr_ac_create_state without memory, again *)

Lemma create_state_null_inv a state input a' :
  _yr_ac_create_state a state input = (None, a') →
  match_records a' = match_records a ∧
  ∃ extra, states a' = states a ++ extra ∧
    Forall (λ s, depth s = 0 ∧
                 (transitions s = empty_table ∨ transitions s = LIST []))
           extra.
Proof.
  unfold _yr_ac_create_state.
  destruct (states a !! state) as [s|].
  2:{ intros [= <-]. split; [done|]. exists []. by rewrite app_nil_r. }
  destruct (allocate_state a _) as [[n a1]|] eqn:Halloc.
  2:{ intros [= <-]. split; [done|]. exists []. by rewrite app_nil_r. }
  apply allocate_state_inv in Halloc as (-> & Hst1 & Hm1 & _).
  destruct (depth s <=? MAX_TABLE_BASED_STATES_DEPTH).
  - destruct (yr_arena_make_relocatable a1); [done|].
    intros [= <-]. split; [done|]. eexists. split; [exact Hst1|].
    apply Forall_singleton. split; [done|].
    destruct (depth s <? MAX_TABLE_BASED_STATES_DEPTH); [by left|by right].
  - destruct (allocate_transition a1); [done|].
    intros [= <-]. split; [done|]. eexists. split; [exact Hst1|].
    apply Forall_singleton. split; [done|].
    destruct (depth s <? MAX_TABLE_BASED_STATES_DEPTH); [by left|by right].
Qed.

Lemma create_state_null_grows a state input a' :
  _yr_ac_create_state a state input = (None, a') → trie_grows a a'.
Proof.
  intros H. apply create_state_null_inv in H as (Hm & extra & Hst & _).
  split; [|split].
  - intros p sp Hp. exists sp. rewrite Hst.
    split; [by apply lookup_app_l_Some|]. split; [done|]. split; [done|].
    intros l Hl. exists []. by apply (chain_of_records a).
  - intros p b c _. unfold yr_ac_next_state.
    destruct (states a !! p) as [sp|] eqn:Hp; [|done].
    by rewrite Hst, (lookup_app_l_Some _ _ _ _ Hp).
  - exists []. by rewrite app_nil_r.
Qed.

(** ** The walk of a token, whatever its outcome *)

Lemma walk_token_inv n : ∀ a state s cur reached a' cur',
  arena_wf a → states a !! state = Some s → Forall cell_ok cur →
  walk_token n a state cur = Some (reached, a', cur') →
  trie_grows a a' ∧ Forall cell_ok cur' ∧
  ∀ terminal, reached = Some terminal →
    arena_wf a' ∧ arena_extends a a' ∧
    ∃ bytes st,
      read_bytes n cur = Some (bytes, cur') ∧ Forall is_byte bytes ∧
      follow a' state bytes = Some terminal ∧
      states a' !! terminal = Some st ∧
      depth st = depth s + Z.of_nat n.
Proof.
  induction n as [|n IH]; intros a state s cur reached a' cur' Hwf Hs Hcur.
  { intros [= <- <- <-]. split; [apply trie_grows_refl|]. split; [done|].
    intros t [= <-]. split; [done|]. split; [apply arena_extends_refl|].
    exists [], s. repeat split; try done. simpl. lia. }
  cbn [walk_token read_bytes].
  destruct cur as [|[v|b] cur]; try done.
  cbn [read_byte mbind option_bind].
  apply Forall_cons in Hcur as [Hb Hcur]. simpl in Hb.
  destruct (yr_ac_next_state a state b) as [nx|] eqn:Hnext.
  - destruct (Hwf _ _ Hs) as (_ & _ & Htr).
    destruct (Htr b nx) as (sc & Hc & Hdc).
    { eapply next_state_transition; [done|apply Hb|done]. }
    intros Hwalk.
    destruct (IH a nx sc cur reached a' cur' Hwf Hc Hcur Hwalk)
      as (Hgrow & Hcur' & Hok).
    split; [done|]. split; [done|]. intros t Ht.
    destruct (Hok t Ht) as (Hwf' & Hext & bytes & st & Hrd & Hbs & Hfol & Hst & Hd).
    split; [done|]. split; [done|]. exists (b :: bytes), st.
    rewrite Hrd. cbn [mbind option_bind]. split; [done|].
    split; [by constructor|]. split.
    + simpl. destruct Hext as (_ & Hn & _). by rewrite (Hn _ _ _ Hb Hnext).
    + split; [done|]. lia.
  - destruct (_yr_ac_create_state a state b) as [[nw|] a1] eqn:Hcreate.
    2:{ intros [= <- <- <-]. split; [by eapply create_state_null_grows|].
        split; [done|]. done. }
    destruct (create_state_extends a a1 state nw s b Hwf Hs Hb Hnext Hcreate)
      as (Hext1 & Hwf1 & Hnext1 & _ & sn & Hn & Hdn).
    intros Hwalk.
    destruct (IH a1 nw sn cur reached a' cur' Hwf1 Hn Hcur Hwalk)
      as (Hgrow & Hcur' & Hok).
    split.
    { eapply trie_grows_trans; [by apply arena_extends_grows|done]. }
    split; [done|]. intros t Ht.
    destruct (Hok t Ht) as (Hwf' & Hext & bytes & st & Hrd & Hbs & Hfol & Hst & Hd).
    split; [done|]. split; [by eapply arena_extends_trans|].
    exists (b :: bytes), st.
    rewrite Hrd. cbn [mbind option_bind]. split; [done|].
    split; [by constructor|]. split.
    + simpl. destruct Hext as (_ & Hnx & _). by rewrite (Hnx _ _ _ Hb Hnext1).
    + split; [done|]. lia.
Qed.

(** ** Output chains end, and tokens stay listed *)

Lemma arena_extends_chains_ok a a' :
  arena_extends a a' → chains_ok a → chains_ok a'.
Proof.
  intros (H1 & _ & H3 & H4) Hok p sp' Hp'.
  destruct (states a !! p) as [sp|] eqn:Hp.
  - destruct (H1 _ _ Hp) as (sp2 & Hp2 & _ & Hm & _).
    assert (sp2 = sp') as -> by congruence.
    destruct (Hok _ _ Hp) as [l Hl]. exists l. rewrite Hm.
    by apply (chain_of_records a).
  - rewrite (H3 _ _ Hp Hp'). exists []. constructor.
Qed.

Lemma new_match_at_chains_ok a state s bt st a' :
  states a !! state = Some st →
  new_match_at a state s bt = Some a' →
  chains_ok a → chains_ok a'.
Proof.
  intros Hst Hnew Hok p sp' Hp'.
  destruct (new_match_at_inv _ _ _ _ _ _ Hst Hnew)
    as (Hm & Hterm & Hother & _ & _).
  destruct (decide (p = state)) as [->|Hne].
  - rewrite Hterm in Hp'. injection Hp' as <-.
    destruct (Hok _ _ Hst) as [l Hl].
    exists (length (match_records a) :: l). simpl. econstructor.
    + rewrite Hm, lookup_app_r by lia. by rewrite Nat.sub_diag.
    + simpl. by eapply chain_of_app.
  - rewrite (Hother p Hne) in Hp'. destruct (Hok _ _ Hp') as [l Hl].
    exists l. by eapply chain_of_app.
Qed.

Lemma follow_grows a a' p bytes t :
  trie_grows a a' → Forall is_byte bytes →
  follow a p bytes = Some t → follow a' p bytes = Some t.
Proof.
  intros (_ & Hn & _) Hbytes. revert p.
  induction Hbytes as [|b bytes Hb _ IH]; intros p; [done|]. simpl.
  destruct (yr_ac_next_state a p b) as [nx|] eqn:Hnext; [|done].
  rewrite (Hn _ _ _ Hb Hnext). simpl. apply IH.
Qed.

Lemma listed_grows a a' root_state s t :
  trie_grows a a' → Forall is_byte (tk_bytes t) →
  listed a root_state s t → listed a' root_state s t.
Proof.
  intros Hgrow Hbytes (terminal & st & l & m & r & Hfol & Hst & Hd & Hl & Hin
                       & Hr & Hs & Hbt).
  pose proof (follow_grows a a' root_state _ _ Hgrow Hbytes Hfol) as Hfol'.
  destruct Hgrow as (H1 & _ & [more Hm]).
  destruct (H1 _ _ Hst) as (st' & Hst' & Hd' & _ & Hc).
  destruct (Hc l Hl) as [pre Hl'].
  exists terminal, st', (pre ++ l), m, r.
  split; [done|]. split; [done|]. split; [congruence|]. split; [done|].
  split; [apply elem_of_app; by right|].
  split; [rewrite Hm; by apply lookup_app_l_Some|]. done.
Qed.

Lemma read_bytes_length n : ∀ cur bytes cur',
  read_bytes n cur = Some (bytes, cur') → length bytes = n.
Proof.
  induction n as [|n IH]; intros cur bytes cur'; [by intros [= <- _]|].
  cbn [read_bytes]. destruct (read_byte cur) as [[b cur1]|]; [|done].
  cbn [mbind option_bind].
  destruct (read_bytes n cur1) as [[bs cur2]|] eqn:E; [|done].
  cbn [mbind option_bind]. intros [= <- _]. simpl. f_equal. by eapply IH.
Qed.

Lemma automaton_ok_attach a a1 root_state terminal st s bt a2 :
  automaton_ok a root_state → arena_wf a1 → arena_extends a a1 →
  states a1 !! terminal = Some st →
  new_match_at a1 terminal s bt = Some a2 →
  automaton_ok a2 root_state.
Proof.
  intros (Hwf & Hch & sr & Hr & Hd0) Hwf1 Hext Hst Hnew.
  destruct (new_match_at_inv _ _ _ _ _ _ Hst Hnew) as (_ & _ & _ & Hsh & _).
  split; [by eapply same_shape_wf|]. split.
  - eapply new_match_at_chains_ok; [done|done|].
    by eapply arena_extends_chains_ok.
  - destruct Hext as (H1 & _). destruct (H1 _ _ Hr) as (sr1 & Hr1 & Hd1 & _).
    destruct Hsh as [_ Hsh]. destruct (Hsh _ _ Hr1) as (sr2 & Hr2 & Hd2 & _).
    exists sr2. split; [done|]. congruence.
Qed.

(** The loop over the tokens: what was in the arena stays, and on success
    every token the buffer holds is listed. *)
Lemma add_tokens_inv automaton s fuel : ∀ a tl m cur result a' m',
  automaton_ok a (root automaton) → Forall cell_ok cur → tl ≠ 0 →
  add_tokens fuel a automaton s tl m cur = Some (result, a', m') →
  trie_grows a a' ∧
  (result = ERROR_SUCCESS →
   automaton_ok a' (root automaton) ∧
   ∀ fuel2 ts, read_tokens fuel2 (INT tl :: cur) = Some ts →
     Forall (listed a' (root automaton) s) ts).
Proof.
  induction fuel as [|fuel IH]; intros a tl m cur result a' m' Hok Hcur Htl;
    [done|].
  cbn [add_tokens].
  destruct cur as [|[bt|?] cur1]; try done.
  cbn [read_int mbind option_bind].
  apply Forall_cons in Hcur as [_ Hcur1].
  destruct (walk_token (Z.to_nat tl) a (root automaton) cur1)
    as [[[reached a1] cur2]|] eqn:Hwalk; [|done].
  cbn [mbind option_bind].
  pose proof Hok as (Hwf & Hch & sr & Hr & Hd0).
  destruct (walk_token_inv _ _ _ sr _ _ _ _ Hwf Hr Hcur1 Hwalk)
    as (Hgrow1 & Hcur2 & Hreached).
  destruct reached as [terminal|].
  2:{ intros [= <- <- <-]. split; [done|]. done. }
  destruct (Hreached terminal eq_refl)
    as (Hwf1 & Hext1 & bytes & st & Hrd & Hbytes & Hfol & Hst & Hdst).
  destruct cur2 as [|[tl'|?] cur3]; try done.
  cbn [read_int mbind option_bind]. rewrite Hst. cbn [mbind option_bind].
  apply Forall_cons in Hcur2 as [_ Hcur3].
  destruct (new_match_at a1 terminal s (depth st + bt)) as [a2|] eqn:Hnew.
  2:{ intros [= <- <- <-]. split; [done|]. done. }
  pose proof (new_match_at_grows _ _ _ _ _ _ Hst Hnew) as Hgrow2.
  pose proof (automaton_ok_attach a a1 (root automaton) terminal st s _ a2
                Hok Hwf1 Hext1 Hst Hnew) as Hok2.
  set (t := {| tk_backtrack := bt; tk_bytes := bytes |}).
  assert (Hlisted : listed a2 (root automaton) s t).
  { destruct (new_match_at_inv _ _ _ _ _ _ Hst Hnew)
      as (Hm2 & Hterm2 & _ & Hsh2 & _).
    destruct (arena_extends_chains_ok a a1 Hext1 Hch _ _ Hst) as [l Hl].
    exists terminal, (set_matches (Some (length (match_records a1))) st),
      (length (match_records a1) :: l), (length (match_records a1)).
    eexists. split; [by rewrite (same_shape_follow a1 a2)|].
    split; [done|].
    assert (Hlen : depth st = tk_length t).
    { unfold tk_length, t. simpl.
      rewrite (read_bytes_length _ _ _ _ Hrd). lia. }
    split; [done|]. split.
    { simpl. econstructor.
      - rewrite Hm2, lookup_app_r by lia. by rewrite Nat.sub_diag.
      - simpl. by eapply chain_of_app. }
    split; [apply list_elem_of_here|]. split.
    { rewrite Hm2, lookup_app_r by lia. by rewrite Nat.sub_diag. }
    simpl. split; [done|]. by rewrite Hlen. }
  assert (Hread : ∀ fuel2 ts,
    read_tokens fuel2 (INT tl :: INT bt :: cur1) = Some ts →
    ∃ f2 ts', fuel2 = S f2 ∧ ts = t :: ts' ∧
              read_tokens f2 (INT tl' :: cur3) = Some ts').
  { intros [|f2] ts; [done|]. cbn [read_tokens read_int mbind option_bind].
    apply Z.eqb_neq in Htl. rewrite Htl. rewrite Hrd.
    cbn [mbind option_bind].
    destruct (read_tokens f2 (INT tl' :: cur3)) as [ts'|] eqn:Hts'; [|done].
    cbn [mbind option_bind]. intros [= <-]. exists f2, ts'.
    split; [reflexivity|]. split; [reflexivity|exact Hts']. }
  destruct (Z.eqb_spec tl' 0) as [->|Htl'].
  - intros [= <- <- <-].
    split; [by eapply trie_grows_trans|]. intros _. split; [done|].
    intros fuel2 ts Hts. destruct (Hread _ _ Hts) as (f2 & ts' & -> & -> & Hts').
    destruct f2 as [|f2]; [done|]. simpl in Hts'. injection Hts' as <-.
    by apply Forall_singleton.
  - intros Hrest.
    destruct (IH a2 tl' _ cur3 result a' m' Hok2 Hcur3 Htl' Hrest)
      as (Hgrow3 & Hsucc).
    split.
    { eapply trie_grows_trans; [exact Hgrow1|].
      by eapply trie_grows_trans. }
    intros Hres. destruct (Hsucc Hres) as (Hok' & Hall).
    split; [done|]. intros fuel2 ts Hts.
    destruct (Hread _ _ Hts) as (f2 & ts' & -> & -> & Hts').
    apply Forall_cons. split; [|by eapply Hall].
    by apply (listed_grows a2 a').
Qed.

(** ** yr_ac_add_string, whatever its outcome *)

Lemma cell_ok_encode rs :
  Forall (λ t, Forall is_byte (tk_bytes t)) rs →
  Forall cell_ok (encode_tokens rs).
Proof.
  induction 1 as [|t rs Ht _ IH]; [constructor|].
  rewrite encode_tokens_cons. apply Forall_app. split; [|done].
  unfold encode_token. constructor; [done|]. constructor; [done|].
  by apply Forall_fmap.
Qed.

(** The two ways through [yr_ac_add_string] once the scratch buffer is
    there: the record on the root, or the loop over the tokens. *)
Lemma add_string_cases Y mem a automaton s min0 result a' m :
  string_wf s →
  yr_ac_add_string Y (Some mem) a automaton s min0 = Some (result, a', m) →
  ∃ out tl cur,
    _yr_ac_gen_tokens Y mem s MAX_TOKEN = Some out ∧ out = INT tl :: cur ∧
    Forall cell_ok cur ∧
    ((tl = 0 ∧ m = 0 ∧ ∃ sr, states a !! root automaton = Some sr ∧
        ((new_match_at a (root automaton) s 0 = Some a' ∧
          result = ERROR_SUCCESS) ∨
         (new_match_at a (root automaton) s 0 = None ∧ a' = a ∧
          result = ERROR_INSUFICIENT_MEMORY))) ∨
     (tl ≠ 0 ∧
      add_tokens (length out) a automaton s tl MAX_TOKEN cur
      = Some (result, a', m))).
Proof.
  intros Hs. unfold yr_ac_add_string. cbn [negb].
  destruct (_yr_ac_gen_tokens Y mem s MAX_TOKEN) as [out|] eqn:Hgen; [|done].
  cbn [mbind option_bind].
  destruct (tokens_capacity Y <? buffer_size Y out); [done|].
  destruct (gen_tokens_records Y mem s out Hgen) as (rs & Hout & _ & _ & Hb).
  assert (Hcells : Forall cell_ok out).
  { rewrite Hout. apply Forall_app. split; [by apply cell_ok_encode, Hb|].
    by apply Forall_singleton. }
  destruct out as [|[tl|?] cur]; try done.
  cbn [read_int mbind option_bind].
  apply Forall_cons in Hcells as [_ Hcur].
  intros Hrun. exists (INT tl :: cur), tl, cur.
  split; [done|]. split; [done|]. split; [done|].
  destruct (Z.eqb_spec tl 0) as [->|Hne]; [left|right; by split].
  destruct (states a !! root automaton) as [sr|]; [|done].
  cbn [mbind option_bind] in Hrun.
  destruct (new_match_at a (root automaton) s 0) as [a2|];
    injection Hrun as <- <- <-.
  - split; [done|]. split; [done|]. exists sr. split; [done|]. by left.
  - split; [done|]. split; [done|]. exists sr. split; [done|]. by right.
Qed.

(** X9: [yr_ac_add_string] never takes anything away, whether it succeeds
    or runs out of memory on the way: every state that was in the arena is
    still there with its depth and failure link, every transition still
    leads where it led, every output record is as it was, and the output
    chain of every state is the end of the chain the state has now. When it
    succeeds the automaton is still well formed. *)
Theorem add_string_keeps_the_trie (Y : yara_h) (mem : block) (a : ARENA)
    (automaton : AC_AUTOMATON) (s : STRING) (min0 : Z) (result : status)
    (a' : ARENA) (m : Z) :
  automaton_ok a (root automaton) → string_wf s →
  yr_ac_add_string Y (Some mem) a automaton s min0 = Some (result, a', m) →
  trie_grows a a' ∧
  (result = ERROR_SUCCESS → automaton_ok a' (root automaton)).
Proof.
  intros Hok Hs Hrun.
  destruct (add_string_cases Y mem a automaton s min0 result a' m Hs Hrun)
    as (out & tl & cur & _ & -> & Hcur & [Hroot|[Hne Hadd]]).
  - destruct Hroot as (_ & _ & sr & Hr & [[Hnew _]|(_ & -> & ->)]).
    + split; [by eapply new_match_at_grows|]. intros _.
      eapply (automaton_ok_attach a a); [done|apply Hok|
        apply arena_extends_refl|exact Hr|exact Hnew].
    + split; [apply trie_grows_refl|done].
  - destruct (add_tokens_inv automaton s _ a tl MAX_TOKEN cur result a' m
                Hok Hcur Hne Hadd) as [Hgrow Hsucc].
    split; [done|]. intros Hres. by destruct (Hsucc Hres).
Qed.

(** X10: after a successful [yr_ac_add_string] every token of the pattern
    can be looked up: from the root its bytes lead to a state at the depth
    of its length, and the output chain of that state has a record for the
    pattern whose backtrack is that depth plus the backtrack of the token.
    A pattern without token has a record with backtrack 0 in the chain of
    the root. *)
Theorem add_string_lists_tokens (Y : yara_h) (mem : block) (a : ARENA)
    (automaton : AC_AUTOMATON) (s : STRING) (min0 : Z) (a' : ARENA) (m : Z) :
  automaton_ok a (root automaton) → string_wf s →
  yr_ac_add_string Y (Some mem) a automaton s min0 = Some (ERROR_SUCCESS, a', m) →
  ∃ ts, emitted_tokens Y mem s = Some ts ∧
        Forall (listed a' (root automaton) s) ts ∧
        (ts = [] → listed a' (root automaton) s no_token).
Proof.
  intros Hok Hs Hrun.
  destruct (add_string_cases Y mem a automaton s min0 _ a' m Hs Hrun)
    as (out & tl & cur & Hgen & -> & Hcur & [Hroot|[Hne Hadd]]).
  - destruct Hroot as (-> & _ & sr & Hr & [[Hnew _]|(_ & _ & [=])]).
    exists []. split.
    { unfold emitted_tokens. rewrite Hgen. reflexivity. }
    split; [constructor|]. intros _.
    destruct Hok as (_ & Hch & sr0 & Hr0 & Hd0).
    assert (sr0 = sr) as -> by congruence.
    destruct (new_match_at_inv _ _ _ _ _ _ Hr Hnew) as (Hm & Hterm & _).
    destruct (Hch _ _ Hr) as [l Hl].
    exists (root automaton),
      (set_matches (Some (length (match_records a))) sr),
      (length (match_records a) :: l), (length (match_records a)).
    eexists. split; [done|]. split; [done|]. split; [done|]. split.
    { simpl. econstructor.
      - rewrite Hm, lookup_app_r by lia. by rewrite Nat.sub_diag.
      - simpl. by eapply chain_of_app. }
    split; [apply list_elem_of_here|]. split.
    { rewrite Hm, lookup_app_r by lia. by rewrite Nat.sub_diag. }
    done.
  - destruct (add_tokens_inv automaton s _ a tl MAX_TOKEN cur _ a' m
                Hok Hcur Hne Hadd) as [_ Hsucc].
    destruct (Hsucc eq_refl) as [_ Hall].
    destruct (gen_tokens_records Y mem s _ Hgen) as (rs & Hout & Hrs & _).
    pose proof (emitted_tokens_records Y mem s _ rs Hgen Hout Hrs) as Hem.
    exists (filter (λ t, tk_bytes t ≠ []) rs). split; [exact Hem|].
    unfold emitted_tokens in Hem. rewrite Hgen in Hem.
    cbn [mbind option_bind] in Hem.
    split; [by eapply Hall|]. intros Hnil. rewrite Hnil in Hem.
    destruct (length (INT tl :: cur)) as [|f]; [done|].
    cbn [read_tokens read_int mbind option_bind] in Hem.
    apply Z.eqb_neq in Hne. rewrite Hne in Hem.
    destruct cur as [|[bt|?] cur1]; try done.
    cbn [read_int mbind option_bind] in Hem.
    destruct (read_bytes (Z.to_nat tl) cur1) as [[bs cur2]|]; [|done].
    cbn [mbind option_bind] in Hem.
    by destruct (read_tokens f cur2).
Qed.

Lemma automaton_ok_example : automaton_ok example_arena 0.
Proof.
  destruct example_arena_wf as [Hwf (sr & Hr & Hd & Hm)].
  split; [exact Hwf|]. split; [|by exists sr].
  intros p sp Hp. destruct p as [|p]; [|by vm_compute in Hp].
  change (root example_automaton) with 0%nat in Hr.
  rewrite Hr in Hp. injection Hp as <-. rewrite Hm. exists []. constructor.
Qed.

Lemma automaton_ok_room a a' root_state :
  states a' = states a → match_records a' = match_records a →
  automaton_ok a root_state → automaton_ok a' root_state.
Proof.
  intros Hst Hm (Hwf & Hch & Hroot). split; [|split].
  - intros p s Hp. rewrite Hst in Hp. destruct (Hwf p s Hp) as (? & ? & Htr).
    split; [done|]. split; [done|]. intros b c Hbc. rewrite Hst. eauto.
  - intros p sp Hp. rewrite Hst in Hp. destruct (Hch p sp Hp) as [l Hl].
    exists l. by apply (chain_of_records a).
  - by rewrite Hst.
Qed.

Lemma automaton_ok_room3 : automaton_ok example_arena_room3 0.
Proof. by apply (automaton_ok_room example_arena), automaton_ok_example. Qed.

Lemma add_string_keeps_the_trie_witness :
  automaton_ok example_arena (root example_automaton) ∧ string_wf she ∧
  (yr_ac_add_string yara_h_example (Some zeros) example_arena example_automaton
     she 0 = Some (ERROR_SUCCESS, arena_with_she, 3) ∧
   trie_grows example_arena arena_with_she ∧
   (ERROR_SUCCESS = ERROR_SUCCESS →
    automaton_ok arena_with_she (root example_automaton))) ∧
  ∃ a', yr_ac_add_string yara_h_example (Some zeros) example_arena_room3
          example_automaton she 0 = Some (ERROR_INSUFICIENT_MEMORY, a', 3) ∧
        trie_grows example_arena_room3 a'.
Proof.
  assert (Hrun : yr_ac_add_string yara_h_example (Some zeros) example_arena
                   example_automaton she 0
                 = Some (ERROR_SUCCESS, arena_with_she, 3))
    by (vm_compute; reflexivity).
  split; [exact automaton_ok_example|]. split; [exact string_wf_she|].
  split.
  - split; [exact Hrun|].
    exact (add_string_keeps_the_trie yara_h_example zeros example_arena
             example_automaton she 0 ERROR_SUCCESS arena_with_she 3
             automaton_ok_example string_wf_she Hrun).
  - destruct (yr_ac_add_string yara_h_example (Some zeros) example_arena_room3
                example_automaton she 0) as [[[r a'] m]|] eqn:Hfail;
      [|by vm_compute in Hfail].
    assert (Hr : r = ERROR_INSUFICIENT_MEMORY ∧ m = 3).
    { vm_compute in Hfail. by injection Hfail as <- _ <-. }
    destruct Hr as [-> ->]. exists a'. split; [reflexivity|].
    exact (proj1 (add_string_keeps_the_trie yara_h_example zeros
                    example_arena_room3 example_automaton she 0 _ a' 3
                    automaton_ok_room3 string_wf_she Hfail)).
Defined.

Lemma add_string_lists_tokens_witness :
  automaton_ok example_arena (root example_automaton) ∧ string_wf she ∧
  yr_ac_add_string yara_h_example (Some zeros) example_arena example_automaton
    she 0 = Some (ERROR_SUCCESS, arena_with_she, 3) ∧
  ∃ ts, emitted_tokens yara_h_example zeros she = Some ts ∧
        Forall (listed arena_with_she (root example_automaton) she) ts ∧
        (ts = [] →
         listed arena_with_she (root example_automaton) she no_token).
Proof.
  assert (Hrun : yr_ac_add_string yara_h_example (Some zeros) example_arena
                   example_automaton she 0
                 = Some (ERROR_SUCCESS, arena_with_she, 3))
    by (vm_compute; reflexivity).
  split; [exact automaton_ok_example|]. split; [exact string_wf_she|].
  split; [exact Hrun|].
  exact (add_string_lists_tokens yara_h_example zeros example_arena
           example_automaton she 0 arena_with_she 3
           automaton_ok_example string_wf_she Hrun).
Defined.

(** ** Patterns whose tokens are in the trie already *)

Lemma walk_existing n : ∀ a state cur bytes cur' t,
  read_bytes n cur = Some (bytes, cur') →
  follow a state bytes = Some t →
  walk_token n a state cur = Some (Some t, a, cur').
Proof.
  induction n as [|n IH]; intros a state cur bytes cur' t.
  { intros [= <- <-] [= <-]. done. }
  cbn [read_bytes walk_token].
  destruct (read_byte cur) as [[b cur1]|]; [|done]. cbn [mbind option_bind].
  destruct (read_bytes n cur1) as [[bs cur2]|] eqn:Hrd; [|done].
  cbn [mbind option_bind]. intros [= <- <-]. cbn [follow].
  destruct (yr_ac_next_state a state b) as [nx|]; [|done].
  cbn [mbind option_bind]. intros Hfol. by eapply IH.
Qed.

Lemma add_tokens_existing automaton s fuel :
  ∀ a tl m cur result a' m' fuel2 ts,
  tl ≠ 0 →
  read_tokens fuel2 (INT tl :: cur) = Some ts →
  Forall (λ t, is_Some (follow a (root automaton) (tk_bytes t))) ts →
  add_tokens fuel a automaton s tl m cur = Some (result, a', m') →
  same_shape a a'.
Proof.
  induction fuel as [|fuel IH];
    intros a tl m cur result a' m' fuel2 ts Htl Hread Hall; [done|].
  destruct fuel2 as [|f2]; [done|].
  cbn [read_tokens read_int mbind option_bind] in Hread.
  apply Z.eqb_neq in Htl. rewrite Htl in Hread.
  destruct cur as [|[bt|?] cur1]; try done.
  cbn [read_int mbind option_bind] in Hread.
  destruct (read_bytes (Z.to_nat tl) cur1) as [[bytes cur2]|] eqn:Hrd;
    [|done].
  cbn [mbind option_bind] in Hread.
  destruct (read_tokens f2 cur2) as [ts'|] eqn:Hts'; [|done].
  injection Hread as <-. apply Forall_cons in Hall as [[t Hfol] Hall].
  cbn [tk_bytes] in Hfol.
  cbn [add_tokens read_int mbind option_bind].
  rewrite (walk_existing _ _ _ _ _ _ _ Hrd Hfol). cbn [mbind option_bind].
  destruct cur2 as [|[tl'|?] cur3]; try done.
  cbn [read_int mbind option_bind].
  destruct (states a !! t) as [st|] eqn:Hst; [|done].
  cbn [mbind option_bind].
  destruct (new_match_at a t s (depth st + bt)) as [a2|] eqn:Hnew.
  2:{ intros [= <- <- <-]. apply same_shape_refl. }
  destruct (new_match_at_inv _ _ _ _ _ _ Hst Hnew) as (_ & _ & _ & Hsh & _).
  destruct (Z.eqb_spec tl' 0) as [->|Htl'].
  { by intros [= <- <- <-]. }
  intros Hrest. eapply same_shape_trans; [exact Hsh|].
  eapply (IH a2 tl' _ cur3 result a' m' f2 ts' Htl' Hts'); [|exact Hrest].
  eapply Forall_impl; [exact Hall|]. intros t' Ht'. simpl in *.
  by rewrite (same_shape_follow a a2).
Qed.

(** X11: when the bytes of every token of a pattern already lead from the
    root to a state, [yr_ac_add_string] creates no state and changes no
    transition, whatever its outcome: the pattern is attached to the states
    that are there. Adding a pattern a second time, or a pattern whose
    tokens other patterns share, leaves the trie as it is. *)
Theorem add_string_on_existing_paths (Y : yara_h) (mem : block) (a : ARENA)
    (automaton : AC_AUTOMATON) (s : STRING) (min0 : Z) (result : status)
    (a' : ARENA) (m : Z) (ts : list token) :
  string_wf s →
  emitted_tokens Y mem s = Some ts →
  Forall (λ t, is_Some (follow a (root automaton) (tk_bytes t))) ts →
  yr_ac_add_string Y (Some mem) a automaton s min0 = Some (result, a', m) →
  same_shape a a' ∧ length (states a') = length (states a) ∧
  ∀ p bytes, follow a' p bytes = follow a p bytes.
Proof.
  intros Hs Hem Hall Hrun.
  assert (Hsh : same_shape a a').
  { destruct (add_string_cases Y mem a automaton s min0 result a' m Hs Hrun)
      as (out & tl & cur & Hgen & -> & _ & [Hroot|[Hne Hadd]]).
    - destruct Hroot as (_ & _ & sr & Hr & [[Hnew _]|(_ & -> & _)]).
      + by destruct (new_match_at_inv _ _ _ _ _ _ Hr Hnew) as (_ & _ & _ & ? & _).
      + apply same_shape_refl.
    - unfold emitted_tokens in Hem. rewrite Hgen in Hem.
      cbn [mbind option_bind] in Hem.
      by eapply (add_tokens_existing automaton s _ a tl MAX_TOKEN cur
                   result a' m _ ts Hne Hem Hall). }
  split; [exact Hsh|]. split; [apply Hsh|].
  intros p bytes. by apply same_shape_follow.
Qed.

Lemma add_string_on_existing_paths_witness :
  string_wf she ∧
  emitted_tokens yara_h_example zeros she
  = Some [{| tk_backtrack := 0; tk_bytes := [115; 104; 101] |}] ∧
  Forall (λ t, is_Some (follow arena_with_she (root example_automaton)
                          (tk_bytes t)))
         [{| tk_backtrack := 0; tk_bytes := [115; 104; 101] |}] ∧
  ∃ a', yr_ac_add_string yara_h_example (Some zeros) arena_with_she
          example_automaton she 0 = Some (ERROR_SUCCESS, a', 3) ∧
        same_shape arena_with_she a' ∧
        length (states a') = length (states arena_with_she) ∧
        (∀ p bytes, follow a' p bytes = follow arena_with_she p bytes) ∧
        length (match_records a') = 2%nat.
Proof.
  assert (Hem : emitted_tokens yara_h_example zeros she
                = Some [{| tk_backtrack := 0; tk_bytes := [115; 104; 101] |}])
    by (vm_compute; reflexivity).
  assert (Hall : Forall (λ t, is_Some (follow arena_with_she
                                         (root example_automaton)
                                         (tk_bytes t)))
                   [{| tk_backtrack := 0; tk_bytes := [115; 104; 101] |}]).
  { apply Forall_singleton. exists 3%nat. vm_compute. reflexivity. }
  split; [exact string_wf_she|]. split; [exact Hem|]. split; [exact Hall|].
  destruct (yr_ac_add_string yara_h_example (Some zeros) arena_with_she
              example_automaton she 0) as [[[r a'] m]|] eqn:Hrun;
    [|by vm_compute in Hrun].
  assert (Hr : r = ERROR_SUCCESS ∧ m = 3 ∧ length (match_records a') = 2%nat).
  { vm_compute in Hrun. by injection Hrun as <- <- <-. }
  destruct Hr as (-> & -> & Hlen). exists a'. split; [reflexivity|].
  destruct (add_string_on_existing_paths yara_h_example zeros arena_with_she
              example_automaton she 0 _ a' 3 _ string_wf_she Hem Hall Hrun)
    as (H1 & H2 & H3).
  split; [exact H1|]. split; [exact H2|]. split; [exact H3|exact Hlen].
Defined.

(** ** Hex patterns without alternation or skip *)

Lemma hex_body_simple str max k st ctl st' :
  is_or k = false → is_or_end k = false → is_exact_skip k = false →
  is_range_skip k = false →
  backtrack_is_position st →
  hex_body str max k st = (ctl, st') →
  ctl ≠ HEX_SKIP ∧ backtrack_is_position st'.
Proof.
  intros Hor Hore Hex Hra (Hio & Hbt & Hcbt). unfold hex_body.
  rewrite Hor, Hore, Hex, Hra, Hio. cbn [negb andb orb].
  repeat match goal with
         | |- context [if ?c then _ else _] => destruct c eqn:?
         end;
    intros [= <- <-]; (split; [done|]);
    unfold backtrack_is_position; cbn; repeat split; lia.
Qed.

Lemma simple_mask_flags Y pre rest :
  masks_distinct Y → simple_mask Y pre →
  literal_flags Y false (pre ++ MASK_END Y :: rest)
  = (λ m, m =? 255) <$> pre.
Proof.
  intros Hd. induction 1 as [|m pre Hm _ IH].
  { simpl. by rewrite Z.eqb_refl. }
  change ((m :: pre) ++ MASK_END Y :: rest)
    with (m :: (pre ++ MASK_END Y :: rest)).
  assert (Hne : m ≠ MASK_END Y ∧ m ≠ MASK_RANGE_SKIP Y ∧
                m ≠ MASK_EXACT_SKIP Y ∧ m ≠ MASK_OR Y ∧ m ≠ MASK_OR_END Y).
  { destruct (masks_distinct_inv Y Hd) as (?&?&?&?&?&_).
    destruct Hm as [->|Hw]; [done|].
    unfold is_wildcard in Hw. rewrite !not_elem_of_cons in Hw.
    tauto. }
  destruct Hne as (H1 & H2 & H3 & H4 & H5).
  rewrite literal_flags_step by done.
  apply Z.eqb_neq in H2, H3, H4, H5. rewrite H2, H3, H4, H5.
  rewrite fmap_cons, IH. by rewrite andb_true_r.
Qed.

(** The scan of such a mask has a result. *)
Lemma hex_scan_simple Y str max rest pre : ∀ st,
  masks_distinct Y → simple_mask Y pre → backtrack_is_position st →
  ∃ st', hex_scan Y str max (pre ++ MASK_END Y :: rest) st = Some st' ∧
         backtrack_is_position st'.
Proof.
  intros st Hd Hpre. revert st.
  induction Hpre as [|m pre Hm _ IH]; intros st HQ.
  { exists st. simpl. by rewrite Z.eqb_refl. }
  change ((m :: pre) ++ MASK_END Y :: rest)
    with (m :: (pre ++ MASK_END Y :: rest)).
  assert (Hk : m ≠ MASK_END Y ∧
               (test_mask Y m = literal_tests ∨
                test_mask Y m = wildcard_tests)).
  { destruct Hm as [->|Hw].
    - destruct (masks_distinct_inv Y Hd) as (?&?&?&?&?&_).
      split; [done|]. left. by apply test_mask_literal.
    - split; [|right; by apply test_mask_wildcard].
      unfold is_wildcard in Hw. rewrite !not_elem_of_cons in Hw. tauto. }
  destruct Hk as [Hend Hk]. rewrite hex_scan_step by done.
  destruct (hex_body str max (test_mask Y m) st) as [ctl st'] eqn:Hb.
  destruct (hex_body_simple str max (test_mask Y m) st ctl st')
    as [Hctl HQ']; try done; try (by destruct Hk as [->| ->]).
  destruct ctl; [by apply IH|done|by exists st'].
Qed.

(** X12: a hex pattern made of significant bytes and wildcards only, with
    its mask terminated, always has a token record: a run of at most
    MAX_TOKEN significant bytes of the pattern, none of them wildcarded,
    whose backtrack is the offset of the run in the pattern. The automaton
    gets this token when the run is not empty, and no token otherwise. *)
Theorem hex_simple_pattern (Y : yara_h) (mem : block) (s : STRING) (pre : list Z) :
  masks_distinct Y → is_hex s = true →
  str_mask s = pre ++ [MASK_END Y] → simple_mask Y pre →
  ∃ pos len,
    0 ≤ pos ∧ 0 ≤ len ≤ MAX_TOKEN ∧ pos + len ≤ Z.of_nat (length pre) ∧
    (∀ k : nat, pos ≤ Z.of_nat k < pos + len → pre !! k = Some 255) ∧
    emitted_tokens Y mem s
    = Some (if len =? 0 then []
            else [{| tk_backtrack := pos;
                     tk_bytes := bytes_from (str_bytes s) pos len |}]).
Proof.
  intros Hd Hhex Hmask Hpre.
  destruct (hex_scan_simple Y (str_bytes s) MAX_TOKEN [] pre hex_init Hd Hpre)
    as (st & Hscan & _ & _ & Hbt); [done|].
  rewrite <- Hmask in Hscan.
  destruct (hex_inv_init (str_bytes s) MAX_TOKEN ltac:(done)) as [Hinv Hring].
  destruct (hex_scan_inv Y (str_bytes s) MAX_TOKEN Hd ltac:(done)
              (length (str_mask s)) (str_mask s) [] hex_init st
              ltac:(done) Hinv Hring Hscan)
    as (flags & (Hlen & Hend & Hp0 & Hl0 & Hwin) & Hprefix).
  rewrite Hmask in Hprefix. cbn [hex_init hx_inside_or app] in Hprefix.
  rewrite (simple_mask_flags Y pre [] Hd Hpre) in Hprefix.
  exists (hx_candidate_token_position st), (hx_candidate_token_length st).
  apply prefix_length in Hprefix as Hplen. rewrite length_fmap in Hplen.
  split; [done|]. split; [lia|]. split; [lia|]. split.
  - intros k Hk. specialize (Hwin k Hk).
    destruct Hprefix as [more Hmore].
    assert (Hk' : ((λ m, m =? 255) <$> pre) !! k = Some true).
    { rewrite Hmore. by apply lookup_app_l_Some. }
    rewrite list_lookup_fmap in Hk'.
    destruct (pre !! k) as [m|]; [|done]. simpl in Hk'.
    injection Hk' as Hm. apply Z.eqb_eq in Hm. by subst.
  - set (t := {| tk_backtrack := hx_candidate_token_position st;
                 tk_bytes := bytes_from (str_bytes s)
                               (hx_candidate_token_position st)
                               (hx_candidate_token_length st) |}).
    assert (Hgen : _yr_ac_gen_tokens Y mem s MAX_TOKEN
                   = Some (encode_tokens [t] ++ [INT 0])).
    { unfold _yr_ac_gen_tokens, _yr_ac_gen_hex_tokens.
      rewrite Hhex, Hscan. cbn [mbind option_bind]. unfold write_int.
      f_equal. f_equal. unfold hex_emit. rewrite Hbt.
      rewrite write_token_encode; [done|].
      rewrite length_bytes_from. lia. }
    assert (Hlt : length (tk_bytes t)
                  = Z.to_nat (hx_candidate_token_length st)).
    { unfold t. simpl. apply length_bytes_from. }
    rewrite (emitted_tokens_records Y mem s _ [t] Hgen eq_refl).
    + f_equal. rewrite filter_cons, filter_nil.
      destruct (Z.eqb_spec (hx_candidate_token_length st) 0) as [H0|H0].
      * rewrite decide_False; [done|]. intros Hne. apply Hne.
        destruct (tk_bytes t); [done|]. simpl in Hlt. lia.
      * rewrite decide_True; [done|]. intros Hnil. rewrite Hnil in Hlt.
        simpl in Hlt. lia.
    + destruct (tk_bytes t) eqn:E.
      * right. by apply Forall_singleton.
      * left. apply Forall_singleton. by rewrite E.
Qed.

Lemma hex_simple_pattern_witness :
  masks_distinct yara_h_example ∧
  is_hex (wildcard_then_five yara_h_example 0) = true ∧
  str_mask (wildcard_then_five yara_h_example 0)
  = [255; 0; 255; 255; 255; 255; 255] ++ [MASK_END yara_h_example] ∧
  simple_mask yara_h_example [255; 0; 255; 255; 255; 255; 255] ∧
  (∃ pos len,
     0 ≤ pos ∧ 0 ≤ len ≤ MAX_TOKEN ∧
     pos + len ≤ Z.of_nat (length [255; 0; 255; 255; 255; 255; 255]) ∧
     (∀ k : nat, pos ≤ Z.of_nat k < pos + len →
        [255; 0; 255; 255; 255; 255; 255] !! k = Some 255) ∧
     emitted_tokens yara_h_example zeros (wildcard_then_five yara_h_example 0)
     = Some (if len =? 0 then []
             else [{| tk_backtrack := pos;
                      tk_bytes :=
                        bytes_from
                          (str_bytes (wildcard_then_five yara_h_example 0))
                          pos len |}])) ∧
  emitted_tokens yara_h_example zeros (wildcard_then_five yara_h_example 0)
  = Some [{| tk_backtrack := 2; tk_bytes := [1; 2; 3; 4] |}].
Proof.
  assert (Hd : masks_distinct yara_h_example).
  { unfold masks_distinct. apply (bool_decide_unpack _). vm_compute. exact I. }
  assert (Hw : is_wildcard yara_h_example 0).
  { unfold is_wildcard. apply (bool_decide_unpack _). vm_compute. exact I. }
  assert (Hpre : simple_mask yara_h_example [255; 0; 255; 255; 255; 255; 255]).
  { unfold simple_mask.
    repeat (apply Forall_cons; split; [first [by left|by right]|]).
    constructor. }
  split; [exact Hd|]. split; [reflexivity|]. split; [reflexivity|].
  split; [exact Hpre|]. split.
  - exact (hex_simple_pattern yara_h_example zeros
             (wildcard_then_five yara_h_example 0)
             [255; 0; 255; 255; 255; 255; 255] Hd eq_refl eq_refl Hpre).
  - vm_compute. reflexivity.
Defined.

(** ** Patterns added one after the other *)

Lemma emitted_tokens_bytes Y mem s ts :
  string_wf s → emitted_tokens Y mem s = Some ts →
  Forall (λ t, Forall is_byte (tk_bytes t)) ts.
Proof.
  intros Hs Hem.
  destruct (_yr_ac_gen_tokens Y mem s MAX_TOKEN) as [out|] eqn:Hgen.
  2:{ unfold emitted_tokens in Hem. by rewrite Hgen in Hem. }
  destruct (gen_tokens_records Y mem s out Hgen) as (rs & Hout & Hrs & _ & Hb).
  rewrite (emitted_tokens_records Y mem s out rs Hgen Hout Hrs) in Hem.
  injection Hem as <-.
  apply list.Forall_forall. intros t [_ Ht]%list_elem_of_filter.
  specialize (Hb Hs). by eapply list.Forall_forall in Hb.
Qed.

(** One successful call. *)
Lemma add_string_step Y mem a automaton s min0 a' m :
  automaton_ok a (root automaton) → string_wf s →
  yr_ac_add_string Y (Some mem) a automaton s min0 = Some (ERROR_SUCCESS, a', m) →
  trie_grows a a' ∧ automaton_ok a' (root automaton) ∧
  ∀ ts, emitted_tokens Y mem s = Some ts →
        Forall (listed a' (root automaton) s) ts.
Proof.
  intros Hok Hs Hrun.
  destruct (add_string_cases Y mem a automaton s min0 _ a' m Hs Hrun)
    as (out & tl & cur & Hgen & -> & Hcur & [Hroot|[Hne Hadd]]).
  - destruct Hroot as (-> & _ & sr & Hr & [[Hnew _]|(_ & _ & [=])]).
    split; [by eapply new_match_at_grows|]. split.
    + eapply (automaton_ok_attach a a); [done|apply Hok|
        apply arena_extends_refl|exact Hr|exact Hnew].
    + intros ts Hem. unfold emitted_tokens in Hem. rewrite Hgen in Hem.
      injection Hem as <-. constructor.
  - destruct (add_tokens_inv automaton s _ a tl MAX_TOKEN cur _ a' m
                Hok Hcur Hne Hadd) as [Hgrow Hsucc].
    destruct (Hsucc eq_refl) as [Hok' Hall].
    split; [done|]. split; [done|]. intros ts Hem.
    unfold emitted_tokens in Hem. rewrite Hgen in Hem.
    by eapply Hall.
Qed.

(** X13: when patterns have been added one after the other by successful
    calls of [yr_ac_add_string] to a well-formed automaton, the automaton
    is well formed, nothing that was in it has been taken away, and every
    token of every one of the patterns can be looked up in the automaton as
    it is at the end: later additions keep the tokens of earlier patterns
    listed. *)
Theorem added_patterns_are_listed (Y : yara_h) (mem : block) (automaton : AC_AUTOMATON)
    (a : ARENA) (l : list STRING) (a' : ARENA) :
  automaton_ok a (root automaton) → Forall string_wf l →
  adds Y automaton a l a' →
  automaton_ok a' (root automaton) ∧ trie_grows a a' ∧
  ∀ s ts t, s ∈ l → emitted_tokens Y mem s = Some ts → t ∈ ts →
            listed a' (root automaton) s t.
Proof.
  intros Hok Hl Hadds.
  induction Hadds as [a|a s mem1 min0 a1 m l a' Hrun _ IH].
  { split; [done|]. split; [apply trie_grows_refl|].
    intros s ts t Hin. by apply elem_of_nil in Hin. }
  apply Forall_cons in Hl as [Hs Hl].
  destruct (add_string_step Y mem1 a automaton s min0 a1 m Hok Hs Hrun)
    as (Hgrow1 & Hok1 & Hlisted1).
  destruct (IH Hok1 Hl) as (Hok' & Hgrow' & Hlisted').
  split; [done|]. split; [by eapply trie_grows_trans|].
  intros s' ts t [->|Hin]%elem_of_cons Hem Ht.
  - apply (listed_grows a1 a'); [done| |].
    + pose proof (emitted_tokens_bytes Y mem s ts Hs Hem) as Hb.
      by eapply list.Forall_forall in Hb.
    + rewrite (emitted_tokens_block Y mem mem1) in Hem.
      specialize (Hlisted1 ts Hem). by eapply list.Forall_forall in Hlisted1.
  - by eapply Hlisted'.
Qed.

Lemma string_wf_he : string_wf he.
Proof.
  split; [|constructor]. repeat constructor; unfold is_byte; lia.
Qed.

Lemma added_patterns_are_listed_witness :
  automaton_ok example_arena (root example_automaton) ∧
  Forall string_wf [she; he] ∧
  adds yara_h_example example_automaton example_arena [she; he]
    arena_she_he ∧
  automaton_ok arena_she_he (root example_automaton) ∧
  trie_grows example_arena arena_she_he ∧
  ∀ s ts t, s ∈ [she; he] → emitted_tokens yara_h_example zeros s = Some ts →
            t ∈ ts → listed arena_she_he (root example_automaton) s t.
Proof.
  assert (Hl : Forall string_wf [she; he]).
  { apply Forall_cons. split; [exact string_wf_she|].
    apply Forall_singleton. exact string_wf_he. }
  assert (Hadds : adds yara_h_example example_automaton example_arena
                    [she; he] arena_she_he).
  { apply (adds_cons _ _ example_arena she zeros 0 arena_with_she 3);
      [vm_compute; reflexivity|].
    apply (adds_cons _ _ arena_with_she he letters 0 arena_she_he 2);
      [vm_compute; reflexivity|].
    apply adds_nil. }
  split; [exact automaton_ok_example|]. split; [exact Hl|].
  split; [exact Hadds|].
  exact (added_patterns_are_listed yara_h_example zeros example_automaton
           example_arena [she; he] arena_she_he automaton_ok_example
           Hl Hadds).
Defined.

(** ** The depth of the trie *)

Lemma depth_bounded_same_shape bound a a' :
  same_shape a a' → depth_bounded bound a → depth_bounded bound a'.
Proof.
  intros Hsh Hb p sp' Hp'.
  destruct (same_shape_sym _ _ Hsh) as [_ Hback].
  destruct (Hback _ _ Hp') as (sp & Hp & Hd & _).
  specialize (Hb _ _ Hp). lia.
Qed.

Lemma create_state_depth bound a state s input n a' :
  states a !! state = Some s → depth s + 1 ≤ bound →
  _yr_ac_create_state a state input = (Some n, a') →
  depth_bounded bound a → depth_bounded bound a'.
Proof.
  intros Hs Hd Hcreate Hb p sp' Hp'.
  destruct (create_state_inv a a' state n s input Hs Hcreate)
    as (-> & _ & Hst).
  rewrite Hst in Hp'. apply lookup_app_Some in Hp' as [Hp'|[_ Hp']].
  - rewrite list_lookup_insert in Hp'. case_decide as Hc.
    + injection Hp' as <-.
      destruct (depth_linked_origin s input (length (states a))) as [-> _].
      by eapply Hb.
    + by eapply Hb.
  - destruct (p - _)%nat; [|by rewrite lookup_cons, lookup_nil in Hp'].
    injection Hp' as <-. simpl. lia.
Qed.

Lemma create_state_null_depth bound a state input a' :
  0 ≤ bound →
  _yr_ac_create_state a state input = (None, a') →
  depth_bounded bound a → depth_bounded bound a'.
Proof.
  intros H0 Hcreate Hb p sp' Hp'.
  apply create_state_null_inv in Hcreate as (_ & extra & Hst & Hextra).
  rewrite Hst in Hp'. apply lookup_app_Some in Hp' as [Hp'|[_ Hp']].
  - by eapply Hb.
  - eapply Forall_lookup_1 in Hextra; [|exact Hp'].
    destruct Hextra as [-> _]. done.
Qed.

Lemma walk_token_depth bound n : ∀ a state s cur reached a' cur',
  arena_wf a → states a !! state = Some s → Forall cell_ok cur →
  0 ≤ bound → depth s + Z.of_nat n ≤ bound →
  walk_token n a state cur = Some (reached, a', cur') →
  depth_bounded bound a → depth_bounded bound a'.
Proof.
  induction n as [|n IH];
    intros a state s cur reached a' cur' Hwf Hs Hcur H0 Hd.
  { by intros [= <- <- <-]. }
  cbn [walk_token].
  destruct cur as [|[v|b] cur]; try done.
  cbn [read_byte mbind option_bind].
  apply Forall_cons in Hcur as [Hb Hcur]. simpl in Hb.
  destruct (yr_ac_next_state a state b) as [nx|] eqn:Hnext.
  - destruct (Hwf _ _ Hs) as (_ & _ & Htr).
    destruct (Htr b nx) as (sc & Hc & Hdc).
    { eapply next_state_transition; [done|apply Hb|done]. }
    intros Hwalk Hbound.
    eapply (IH a nx sc cur reached a' cur' Hwf Hc Hcur H0); [lia|done|done].
  - destruct (_yr_ac_create_state a state b) as [[nw|] a1] eqn:Hcreate.
    2:{ intros [= <- <- <-]. by eapply create_state_null_depth. }
    destruct (create_state_extends a a1 state nw s b Hwf Hs Hb Hnext Hcreate)
      as (_ & Hwf1 & _ & _ & sn & Hn & Hdn).
    intros Hwalk Hbound.
    eapply (IH a1 nw sn cur reached a' cur' Hwf1 Hn Hcur H0);
      [lia|done|].
    eapply create_state_depth; [exact Hs| |exact Hcreate|done]. lia.
Qed.

Lemma add_tokens_depth automaton s fuel :
  ∀ a tl m cur result a' m' fuel2 ts,
  automaton_ok a (root automaton) → Forall cell_ok cur → tl ≠ 0 →
  read_tokens fuel2 (INT tl :: cur) = Some ts →
  Forall (λ t, tk_length t ≤ MAX_TOKEN) ts →
  add_tokens fuel a automaton s tl m cur = Some (result, a', m') →
  depth_bounded MAX_TOKEN a → depth_bounded MAX_TOKEN a'.
Proof.
  induction fuel as [|fuel IH];
    intros a tl m cur result a' m' fuel2 ts Hok Hcur Htl Hread Hlen; [done|].
  destruct fuel2 as [|f2]; [done|].
  cbn [read_tokens read_int mbind option_bind] in Hread.
  apply Z.eqb_neq in Htl as Htl'. rewrite Htl' in Hread.
  destruct cur as [|[bt|?] cur1]; try done.
  cbn [read_int mbind option_bind] in Hread.
  destruct (read_bytes (Z.to_nat tl) cur1) as [[bytes cur2]|] eqn:Hrd;
    [|done].
  cbn [mbind option_bind] in Hread.
  destruct (read_tokens f2 cur2) as [ts'|] eqn:Hts'; [|done].
  injection Hread as <-. apply Forall_cons in Hlen as [Ht Hlen].
  unfold tk_length in Ht. cbn [tk_bytes] in Ht.
  rewrite (read_bytes_length _ _ _ _ Hrd) in Ht.
  cbn [add_tokens read_int mbind option_bind].
  apply Forall_cons in Hcur as [_ Hcur1].
  destruct (walk_token (Z.to_nat tl) a (root automaton) cur1)
    as [[[reached a1] cur2']|] eqn:Hwalk; [|done].
  cbn [mbind option_bind].
  pose proof Hok as (Hwf & Hch & sr & Hr & Hd0).
  intros Hrest Hbound.
  assert (Hb1 : depth_bounded MAX_TOKEN a1).
  { eapply (walk_token_depth MAX_TOKEN _ a (root automaton) sr);
      [done|done|done|done| |exact Hwalk|done]. lia. }
  destruct (walk_token_inv _ _ _ sr _ _ _ _ Hwf Hr Hcur1 Hwalk)
    as (_ & Hcur2 & Hreached).
  destruct reached as [terminal|]; [|by injection Hrest as <- <- <-].
  destruct (Hreached terminal eq_refl)
    as (Hwf1 & Hext1 & bytes' & st & Hrd' & _ & _ & Hst & _).
  assert (cur2' = cur2) as -> by congruence.
  destruct cur2 as [|[tl'|?] cur3]; try done.
  cbn [read_int mbind option_bind] in Hrest. rewrite Hst in Hrest.
  cbn [mbind option_bind] in Hrest.
  apply Forall_cons in Hcur2 as [_ Hcur3].
  destruct (new_match_at a1 terminal s (depth st + bt)) as [a2|] eqn:Hnew;
    [|by injection Hrest as <- <- <-].
  destruct (new_match_at_inv _ _ _ _ _ _ Hst Hnew) as (_ & _ & _ & Hsh & _).
  pose proof (depth_bounded_same_shape _ _ _ Hsh Hb1) as Hb2.
  destruct (Z.eqb_spec tl' 0) as [->|Hne'];
    [by injection Hrest as <- <- <-|].
  pose proof (automaton_ok_attach a a1 (root automaton) terminal st s _ a2
                Hok Hwf1 Hext1 Hst Hnew) as Hok2.
  by eapply (IH a2 tl' _ cur3 result a' m' f2 ts' Hok2 Hcur3 Hne' Hts' Hlen
               Hrest).
Qed.

(** X14: [yr_ac_add_string] never makes the trie deeper than MAX_TOKEN:
    when no state of a well-formed automaton is deeper than MAX_TOKEN
    before the call, none is after it, whether the call succeeds or runs
    out of memory. *)
Theorem add_string_depth_bounded (Y : yara_h) (mem : block) (a : ARENA)
    (automaton : AC_AUTOMATON) (s : STRING) (min0 : Z) (result : status)
    (a' : ARENA) (m : Z) :
  automaton_ok a (root automaton) → string_wf s →
  depth_bounded MAX_TOKEN a →
  yr_ac_add_string Y (Some mem) a automaton s min0 = Some (result, a', m) →
  depth_bounded MAX_TOKEN a'.
Proof.
  intros Hok Hs Hbound Hrun.
  destruct (add_string_cases Y mem a automaton s min0 result a' m Hs Hrun)
    as (out & tl & cur & Hgen & -> & Hcur & [Hroot|[Hne Hadd]]).
  - destruct Hroot as (_ & _ & sr & Hr & [[Hnew _]|(_ & -> & _)]); [|done].
    destruct (new_match_at_inv _ _ _ _ _ _ Hr Hnew) as (_ & _ & _ & Hsh & _).
    by eapply depth_bounded_same_shape.
  - destruct (gen_tokens_records Y mem s _ Hgen) as (rs & Hout & Hrs & Hlen & _).
    pose proof (emitted_tokens_records Y mem s _ rs Hgen Hout Hrs) as Hem.
    unfold emitted_tokens in Hem. rewrite Hgen in Hem.
    cbn [mbind option_bind] in Hem.
    eapply (add_tokens_depth automaton s _ a tl MAX_TOKEN cur result a' m
              _ _ Hok Hcur Hne Hem); [|exact Hadd|exact Hbound].
    apply list.Forall_forall. intros t [_ Ht]%list_elem_of_filter.
    by eapply list.Forall_forall in Hlen.
Qed.

Lemma depth_bounded_example : depth_bounded MAX_TOKEN example_arena.
Proof.
  intros p sp Hp. destruct p as [|p]; [|by vm_compute in Hp].
  destruct example_arena_wf as [_ (sr & Hr & Hd & _)].
  change (root example_automaton) with 0%nat in Hr.
  assert (sp = sr) as -> by congruence. rewrite Hd. done.
Qed.

Lemma add_string_depth_bounded_witness :
  automaton_ok example_arena (root example_automaton) ∧ string_wf she ∧
  depth_bounded MAX_TOKEN example_arena ∧
  yr_ac_add_string yara_h_example (Some zeros) example_arena example_automaton
    she 0 = Some (ERROR_SUCCESS, arena_with_she, 3) ∧
  depth_bounded MAX_TOKEN arena_with_she.
Proof.
  assert (Hrun : yr_ac_add_string yara_h_example (Some zeros) example_arena
                   example_automaton she 0
                 = Some (ERROR_SUCCESS, arena_with_she, 3))
    by (vm_compute; reflexivity).
  split; [exact automaton_ok_example|]. split; [exact string_wf_she|].
  split; [exact depth_bounded_example|]. split; [exact Hrun|].
  exact (add_string_depth_bounded yara_h_example zeros example_arena
           example_automaton she 0 ERROR_SUCCESS arena_with_she 3
           automaton_ok_example string_wf_she depth_bounded_example Hrun).
Defined.

(** ** The token of a regular expression *)

Lemma byte_at_cons c str i : 0 ≤ i → byte_at (c :: str) (i + 1) = byte_at str i.
Proof.
  intros Hi. unfold byte_at.
  destruct (Z.ltb_spec (i + 1) 0), (Z.ltb_spec i 0); try lia.
  replace (Z.to_nat (i + 1)) with (S (Z.to_nat i)) by lia. done.
Qed.

(** The scan one byte further in a pattern that is one byte longer. *)
Lemma regexp_scan_shift Y c str len max n : ∀ i tok,
  0 ≤ i →
  regexp_scan Y (c :: str) (len + 1) max n (i + 1) tok
  = regexp_scan Y str len max n i tok.
Proof.
  induction n as [|n IH]; intros i tok Hi; [done|]. cbn [regexp_scan].
  replace (i + 1 <? len + 1) with (i <? len)
    by (destruct (Z.ltb_spec i len), (Z.ltb_spec (i + 1) (len + 1)); lia).
  replace (i + 1 + 1 <? len + 1) with (i + 1 <? len)
    by (destruct (Z.ltb_spec (i + 1) len),
          (Z.ltb_spec (i + 1 + 1) (len + 1)); lia).
  rewrite (byte_at_cons c str i Hi).
  rewrite (byte_at_cons c str (i + 1)) by lia.
  replace (i + 1 + 2) with (i + 2 + 1) by lia.
  rewrite !IH by lia. done.
Qed.

Lemma regexp_tokens_of_prefix Y mem s :
  is_hex s = false → is_regexp s = true →
  _yr_ac_gen_tokens Y mem s MAX_TOKEN
  = Some ((if 0 <? Z.of_nat (length (regexp_prefix Y s))
           then encode_tokens
                  (token_records (is_no_case s) (regexp_prefix Y s))
           else encode_tokens
                  ((λ b, {| tk_backtrack := 0; tk_bytes := [b] |})
                     <$> re_first_bytes s)) ++ [INT 0]).
Proof.
  intros Hhex Hre. unfold _yr_ac_gen_tokens. rewrite Hhex, Hre.
  cbn [mbind option_bind]. unfold write_int at 1. f_equal. f_equal.
  unfold _yr_ac_gen_regexp_tokens. fold (regexp_prefix Y s).
  destruct (Z.ltb_spec 0 (Z.of_nat (length (regexp_prefix Y s)))) as [Hp|_].
  - rewrite (write_token_records (is_no_case s) 0 (regexp_prefix Y s) []).
    rewrite written_records_nonempty; [done|].
    intros Hnil. rewrite Hnil in Hp. simpl in Hp. lia.
  - apply (write_first_bytes_records (re_first_bytes s) []).
Qed.

(** X15: a leading [^] does not change the tokens of a regular expression;
    and a regular expression whose first character is not a backslash and
    is followed by one of the quantifiers [*], [{] and [?] has no literal
    token: it gets one token of one byte, with backtrack 0, for each of
    its first bytes. *)
Theorem regexp_anchor_and_quantifier (Y : yara_h) (mem : block) (s : STRING) :
  is_hex s = false → is_regexp s = true →
  byte_at (str_bytes s) 0 ≠ 94 →
  emitted_tokens Y mem (with_bytes s (94 :: str_bytes s)) = emitted_tokens Y mem s ∧
  (byte_at (str_bytes s) 0 ≠ 92 → second_byte s ∈ [42; 123; 63] →
   emitted_tokens Y mem s
   = Some ((λ b, {| tk_backtrack := 0; tk_bytes := [b] |})
             <$> re_first_bytes s)).
Proof.
  intros Hhex Hre Hanchor. split.
  - assert (Hprefix : regexp_prefix Y (with_bytes s (94 :: str_bytes s))
                      = regexp_prefix Y s).
    { unfold regexp_prefix, with_bytes, str_length. cbn [str_bytes].
      change (byte_at (94 :: str_bytes s) 0) with 94.
      apply Z.eqb_neq in Hanchor. rewrite Hanchor.
      change (94 =? 94) with true. cbv iota.
      replace (Z.of_nat (length (94 :: str_bytes s)))
        with (Z.of_nat (length (str_bytes s)) + 1) by (simpl length; lia).
      apply (regexp_scan_shift Y 94 (str_bytes s) _ MAX_TOKEN _ 0 []). lia. }
    unfold emitted_tokens.
    rewrite (regexp_tokens_of_prefix Y mem s Hhex Hre).
    rewrite (regexp_tokens_of_prefix Y mem (with_bytes s _) Hhex Hre).
    by rewrite Hprefix.
  - intros Hslash Hq.
    assert (Hnil : regexp_prefix Y s = []).
    { unfold regexp_prefix. apply Z.eqb_neq in Hanchor. rewrite Hanchor.
      change (Z.to_nat MAX_TOKEN) with 4%nat. cbn [regexp_scan].
      destruct ((0 <? str_length s) && (Z.of_nat (length []) <? MAX_TOKEN));
        [|done].
      apply Z.eqb_neq in Hslash. rewrite Hslash. cbn [andb].
      change (0 + 1) with 1. fold (second_byte s).
      assert (Hquant : negb (second_byte s =? 42)
                       && negb (second_byte s =? 123)
                       && negb (second_byte s =? 63) = false).
      { rewrite !elem_of_cons in Hq.
        destruct Hq as [->|[->|[->|[]%elem_of_nil]]]; reflexivity. }
      destruct (isregexhashable Y (byte_at (str_bytes s) 0)); [|done].
      cbn [andb] in *.
      destruct (negb (second_byte s =? 42)); [|done].
      destruct (negb (second_byte s =? 123)); [|done].
      cbn [andb] in *. by rewrite Hquant. }
    pose proof (regexp_tokens_of_prefix Y mem s Hhex Hre) as Hgen.
    rewrite Hnil in Hgen. cbn [length] in Hgen.
    change (0 <? Z.of_nat 0) with false in Hgen. cbv iota in Hgen.
    assert (Hall : Forall (λ t, tk_bytes t ≠ [])
              ((λ b, {| tk_backtrack := 0; tk_bytes := [b] |})
                 <$> re_first_bytes s)).
    { apply Forall_fmap, list.Forall_forall. intros b _. done. }
    rewrite (emitted_tokens_records Y mem s _ _ Hgen eq_refl (or_introl Hall)).
    f_equal. by apply filter_all.
Qed.

Lemma regexp_anchor_and_quantifier_witness :
  (is_hex abc_dot_star = false ∧ is_regexp abc_dot_star = true ∧
   byte_at (str_bytes abc_dot_star) 0 ≠ 94 ∧
   emitted_tokens yara_h_example zeros
     (with_bytes abc_dot_star (94 :: str_bytes abc_dot_star))
   = emitted_tokens yara_h_example zeros abc_dot_star ∧
   emitted_tokens yara_h_example zeros abc_dot_star
   = Some [{| tk_backtrack := 0; tk_bytes := [97; 98; 99] |}]) ∧
  (is_hex dot_star_abc_32 = false ∧ is_regexp dot_star_abc_32 = true ∧
   byte_at (str_bytes dot_star_abc_32) 0 ≠ 94 ∧
   byte_at (str_bytes dot_star_abc_32) 0 ≠ 92 ∧
   second_byte dot_star_abc_32 ∈ [42; 123; 63] ∧
   emitted_tokens yara_h_example zeros dot_star_abc_32
   = Some ((λ b, {| tk_backtrack := 0; tk_bytes := [b] |})
             <$> re_first_bytes dot_star_abc_32)).
Proof.
  split.
  - assert (H94 : byte_at (str_bytes abc_dot_star) 0 ≠ 94) by discriminate.
    split; [reflexivity|]. split; [reflexivity|]. split; [exact H94|].
    split.
    + exact (proj1 (regexp_anchor_and_quantifier yara_h_example zeros abc_dot_star
                      eq_refl eq_refl H94)).
    + vm_compute. reflexivity.
  - assert (H94 : byte_at (str_bytes dot_star_abc_32) 0 ≠ 94)
      by discriminate.
    assert (H92 : byte_at (str_bytes dot_star_abc_32) 0 ≠ 92)
      by discriminate.
    assert (Hq : second_byte dot_star_abc_32 ∈ [42; 123; 63]).
    { change (second_byte dot_star_abc_32) with 42. apply list_elem_of_here. }
    split; [reflexivity|]. split; [reflexivity|]. split; [exact H94|].
    split; [exact H92|]. split; [exact Hq|].
    exact (proj2 (regexp_anchor_and_quantifier yara_h_example zeros dot_star_abc_32
                    eq_refl eq_refl H94) H92 Hq).
Defined.

(** ** yr_ac_add_string with enough room in the arena *)

Lemma create_state_room a state s input :
  states a !! state = Some s → (2 ≤ room a)%nat →
  ∃ n a', _yr_ac_create_state a state input = (Some n, a') ∧
          room a = S (S (room a')).
Proof.
  intros Hs Hroom. unfold _yr_ac_create_state. rewrite Hs.
  unfold allocate_state, yr_arena_make_relocatable, allocate_transition,
    arena_request.
  destruct a as [sts ms [|[|r]]]; cbn [room] in Hroom; [lia|lia|].
  cbn [room states match_records mbind option_bind set_states].
  destruct (depth s <=? MAX_TABLE_BASED_STATES_DEPTH);
    cbn [room states match_records mbind option_bind];
    eexists _, _; (split; [reflexivity|done]).
Qed.

(** A token whose bytes the arena has room for is walked to its end. *)
Lemma walk_token_room n : ∀ a state s cur reached a' cur',
  arena_wf a → states a !! state = Some s → Forall cell_ok cur →
  (2 * n ≤ room a)%nat →
  walk_token n a state cur = Some (reached, a', cur') →
  is_Some reached ∧ (room a ≤ room a' + 2 * n)%nat.
Proof.
  induction n as [|n IH]; intros a state s cur reached a' cur' Hwf Hs Hcur
    Hroom.
  { intros [= <- <- <-]. split; [by eexists|lia]. }
  cbn [walk_token].
  destruct cur as [|[v|b] cur]; try done.
  cbn [read_byte mbind option_bind].
  apply Forall_cons in Hcur as [Hb Hcur]. simpl in Hb.
  destruct (yr_ac_next_state a state b) as [nx|] eqn:Hnext.
  - destruct (Hwf _ _ Hs) as (_ & _ & Htr).
    destruct (Htr b nx) as (sc & Hc & _).
    { eapply next_state_transition; [done|apply Hb|done]. }
    intros Hwalk.
    destruct (IH a nx sc cur reached a' cur' Hwf Hc Hcur ltac:(lia) Hwalk)
      as [Hsome Hr].
    split; [done|lia].
  - destruct (create_state_room a state s b Hs ltac:(lia))
      as (nw & a1 & Hcreate & Hr1).
    rewrite Hcreate.
    destruct (create_state_extends a a1 state nw s b Hwf Hs Hb Hnext Hcreate)
      as (_ & Hwf1 & _ & _ & sn & Hn & _).
    intros Hwalk.
    destruct (IH a1 nw sn cur reached a' cur' Hwf1 Hn Hcur ltac:(lia) Hwalk)
      as [Hsome Hr].
    split; [done|lia].
Qed.

(** The loop over the tokens succeeds when the arena has room for the
    tokens that are left in the buffer. *)
Lemma add_tokens_room automaton s fuel :
  ∀ a sr tl m cur result a' m',
  arena_wf a → states a !! root automaton = Some sr → depth sr = 0 →
  Forall cell_ok cur → tl ≠ 0 →
  add_tokens fuel a automaton s tl m cur = Some (result, a', m') →
  ∀ fuel2 ts, read_tokens fuel2 (INT tl :: cur) = Some ts →
    (foldr (λ t n, 2 * length (tk_bytes t) + 1 + n) 0 ts ≤ room a)%nat →
    result = ERROR_SUCCESS.
Proof.
  induction fuel as [|fuel IH];
    intros a sr tl m cur result a' m' Hwf Hr Hd0 Hcur Htl; [done|].
  cbn [add_tokens].
  destruct cur as [|[bt|?] cur1]; try done.
  cbn [read_int mbind option_bind].
  apply Forall_cons in Hcur as [_ Hcur1].
  destruct (walk_token (Z.to_nat tl) a (root automaton) cur1)
    as [[[reached a1] cur2]|] eqn:Hwalk; [|done].
  cbn [mbind option_bind].
  intros Hadd [|f2] ts Hts Hroom; [done|].
  cbn [read_tokens read_int mbind option_bind] in Hts.
  pose proof Htl as Htl0. apply Z.eqb_neq in Htl0. rewrite Htl0 in Hts.
  destruct (read_bytes (Z.to_nat tl) cur1) as [[bytes cur2']|] eqn:Hrd;
    [|done].
  cbn [mbind option_bind] in Hts.
  destruct (read_tokens f2 cur2') as [ts'|] eqn:Hts'; [|done].
  cbn [mbind option_bind] in Hts. injection Hts as <-.
  cbn [foldr tk_bytes] in Hroom.
  pose proof (read_bytes_length _ _ _ _ Hrd) as Hlen.
  destruct (walk_token_inv _ _ _ sr _ _ _ _ Hwf Hr Hcur1 Hwalk)
    as (_ & Hcur2 & Hreached).
  assert (Hroom1 : (2 * Z.to_nat tl ≤ room a)%nat) by lia.
  destruct (walk_token_room _ _ _ sr _ _ _ _ Hwf Hr Hcur1 Hroom1 Hwalk)
    as [[terminal ->] Hr1].
  destruct (Hreached terminal eq_refl)
    as (Hwf1 & Hext1 & bytes' & st & Hrd' & _ & _ & Hst & _).
  rewrite Hrd in Hrd'. injection Hrd' as <- <-.
  destruct cur2' as [|[tl'|?] cur3]; try done.
  cbn [read_int mbind option_bind] in Hadd. rewrite Hst in Hadd.
  cbn [mbind option_bind] in Hadd.
  apply Forall_cons in Hcur2 as [_ Hcur3].
  destruct (new_match_at_room a1 terminal s (depth st + bt) st Hst
              ltac:(lia)) as [a2 Hnew].
  rewrite Hnew in Hadd.
  destruct (new_match_at_inv _ _ _ _ _ _ Hst Hnew)
    as (_ & _ & _ & Hsh2 & Hr2).
  destruct (Z.eqb_spec tl' 0) as [->|Htl'].
  { by injection Hadd as <- _ _. }
  destruct Hext1 as (Hstates1 & _).
  destruct (Hstates1 _ _ Hr) as (sr1 & Hsr1 & Hd1 & _).
  destruct Hsh2 as [Hlen2 Hfwd2].
  destruct (Hfwd2 _ _ Hsr1) as (sr2 & Hsr2 & Hd2 & _).
  eapply (IH a2 sr2 tl' _ cur3 result a' m'); try done.
  - eapply same_shape_wf; [|exact Hwf1]. by split.
  - congruence.
  - lia.
Qed.

(** The call succeeds when the tokens fit the scratch buffer and the arena
    has room for them. *)
Lemma add_string_room Y mem a automaton s sr min0 out ts :
  arena_wf a → states a !! root automaton = Some sr → depth sr = 0 →
  string_wf s →
  _yr_ac_gen_tokens Y mem s MAX_TOKEN = Some out →
  buffer_size Y out ≤ tokens_capacity Y →
  emitted_tokens Y mem s = Some ts →
  (requests_for ts ≤ room a)%nat →
  ∃ a' m, yr_ac_add_string Y (Some mem) a automaton s min0
          = Some (ERROR_SUCCESS, a', m).
Proof.
  intros Hwf Hr Hd0 Hs Hgen Hfit Hem Hroom.
  destruct (add_string_spec Y mem a automaton s sr min0 out Hwf Hr Hd0 Hs
              Hgen Hfit)
    as (ts0 & result & a' & m & Hem0 & Hrun & _).
  exists a', m. rewrite Hrun.
  enough (result = ERROR_SUCCESS) as -> by done.
  destruct (add_string_cases Y mem a automaton s min0 result a' m Hs Hrun)
    as (out' & tl & cur & Hgen' & Hout & Hcur & Hcase).
  rewrite Hgen in Hgen'. injection Hgen' as <-.
  unfold emitted_tokens in Hem. rewrite Hgen in Hem.
  cbn [mbind option_bind] in Hem. rewrite Hout in Hem.
  destruct Hcase as [(-> & _ & sr' & Hr' & Hcase)|[Htl Hadd]].
  - destruct Hcase as [[_ ->]|(Hnone & _)]; [done|].
    cbn [length read_tokens read_int mbind option_bind] in Hem.
    injection Hem as <-. cbn [requests_for] in Hroom.
    destruct (new_match_at_room a (root automaton) s 0 sr' Hr' ltac:(lia))
      as [a2 Hsome].
    by rewrite Hsome in Hnone.
  - eapply (add_tokens_room automaton s _ a sr tl MAX_TOKEN cur result a' m
              Hwf Hr Hd0 Hcur Htl Hadd _ ts Hem).
    destruct ts as [|t ts']; [|exact Hroom].
    simpl. lia.
Qed.

(** C5: on a well-formed arena [yr_ac_add_string] has a result for every
    pattern whose tokens fit the scratch buffer, and it succeeds when the
    arena has room for the tokens. Whenever it succeeds, the value left in
    [min_token_length] is 0 exactly when the generator emitted no token,
    and then a record with backtrack 0 for the pattern has been put at the
    head of the output chain of the root; otherwise the value is the
    smallest length among the emitted tokens, between 1 and MAX_TOKEN. *)
Theorem add_string_min_token_length (Y : yara_h) (mem : block) (a : ARENA)
    (automaton : AC_AUTOMATON) (s : STRING) (sr : AC_STATE) (min0 : Z) :
  arena_wf a → states a !! root automaton = Some sr → depth sr = 0 →
  string_wf s →
  (∀ out, _yr_ac_gen_tokens Y mem s MAX_TOKEN = Some out →
          buffer_size Y out ≤ tokens_capacity Y →
          is_Some (yr_ac_add_string Y (Some mem) a automaton s min0)) ∧
  (∀ a' m,
     yr_ac_add_string Y (Some mem) a automaton s min0
       = Some (ERROR_SUCCESS, a', m) →
     ∃ ts, emitted_tokens Y mem s = Some ts ∧
       (m = 0 ↔ ts = []) ∧
       (ts = [] → root_attached a (root automaton) s a') ∧
       (ts ≠ [] → is_min_length m ts ∧ 0 < m ≤ MAX_TOKEN)) ∧
  (∀ out ts,
     _yr_ac_gen_tokens Y mem s MAX_TOKEN = Some out →
     buffer_size Y out ≤ tokens_capacity Y →
     emitted_tokens Y mem s = Some ts →
     (requests_for ts ≤ room a)%nat →
     ∃ a' m,
       yr_ac_add_string Y (Some mem) a automaton s min0
         = Some (ERROR_SUCCESS, a', m) ∧
       (m = 0 ↔ ts = []) ∧
       (ts = [] → root_attached a (root automaton) s a') ∧
       (ts ≠ [] → is_min_length m ts ∧ 0 < m ≤ MAX_TOKEN)).
Proof.
  intros Hwf Hroot Hd0 Hs.
  assert (Hsucc : ∀ a' m,
     yr_ac_add_string Y (Some mem) a automaton s min0
       = Some (ERROR_SUCCESS, a', m) →
     ∃ ts, emitted_tokens Y mem s = Some ts ∧
       (m = 0 ↔ ts = []) ∧
       (ts = [] → root_attached a (root automaton) s a') ∧
       (ts ≠ [] → is_min_length m ts ∧ 0 < m ≤ MAX_TOKEN)).
  { intros a' m Hadd.
    destruct (add_string_success_inv Y mem a automaton s min0 a' m Hadd)
      as (out & Hgen & Hfit).
    destruct (add_string_spec Y mem a automaton s sr min0 out Hwf Hroot Hd0
                Hs Hgen Hfit)
      as (ts & result & a2 & m2 & Hem & Hadd2 & Hts & Hnil & Hcons).
    rewrite Hadd in Hadd2. injection Hadd2 as <- <- <-.
    exists ts. split; [done|].
    assert (Hpos : ts ≠ [] → is_min_length m ts ∧ 0 < m ≤ MAX_TOKEN).
    { intros Hne. destruct (Hcons Hne eq_refl) as [_ ->].
      assert (Hmin : is_min_length (min_length MAX_TOKEN ts) ts).
      { apply min_length_is_min; [done|].
        eapply Forall_impl; [exact Hts|]. by intros t [_ ?]. }
      split; [done|]. destruct Hmin as [(t & Ht & ->) _].
      eapply Forall_forall in Hts as [Hn Hl]; [|exact Ht].
      split; [|done]. unfold tk_length.
      destruct (tk_bytes t); [done|simpl; lia]. }
    split; [|split; [|done]].
    + split.
      * intros ->. destruct ts as [|t ts]; [done|].
        destruct Hpos as [_ ?]; [done|lia].
      * intros Hnil'. by destruct (Hnil Hnil') as [-> _].
    + intros Hnil'. destruct (Hnil Hnil') as [_ H]. by apply H. }
  split; [|split; [exact Hsucc|]].
  - intros out Hgen Hfit.
    destruct (add_string_spec Y mem a automaton s sr min0 out Hwf Hroot Hd0
                Hs Hgen Hfit)
      as (ts & result & a2 & m2 & _ & -> & _). by eexists.
  - intros out ts Hgen Hfit Hem Hroom.
    destruct (add_string_room Y mem a automaton s sr min0 out ts Hwf Hroot
                Hd0 Hs Hgen Hfit Hem Hroom) as (a' & m & Hrun).
    exists a', m. split; [exact Hrun|].
    destruct (Hsucc a' m Hrun) as (ts' & Hem' & Hrest).
    rewrite Hem in Hem'. injection Hem' as <-. exact Hrest.
Qed.

Lemma string_wf_empty : string_wf nocase_empty.
Proof. split; constructor. Qed.

Lemma add_string_min_token_length_witness :
  (∃ a' m,
     yr_ac_add_string yara_h_example (Some zeros) example_arena
       example_automaton she 0 = Some (ERROR_SUCCESS, a', m) ∧
     (m = 0 ↔ [{| tk_backtrack := 0; tk_bytes := [115; 104; 101] |}] = []) ∧
     ([{| tk_backtrack := 0; tk_bytes := [115; 104; 101] |}] = [] →
      root_attached example_arena (root example_automaton) she a') ∧
     ([{| tk_backtrack := 0; tk_bytes := [115; 104; 101] |}] ≠ [] →
      is_min_length m [{| tk_backtrack := 0; tk_bytes := [115; 104; 101] |}]
      ∧ 0 < m ≤ MAX_TOKEN)) ∧
  (∃ a' m,
     yr_ac_add_string yara_h_example (Some letters) example_arena
       example_automaton nocase_empty 0 = Some (ERROR_SUCCESS, a', m) ∧
     (m = 0 ↔ @nil token = []) ∧
     (@nil token = [] →
      root_attached example_arena (root example_automaton) nocase_empty a') ∧
     (@nil token ≠ [] → is_min_length m [] ∧ 0 < m ≤ MAX_TOKEN)).
Proof.
  destruct example_arena_wf as [Hwf (sr & Hr & Hd & _)].
  split.
  - destruct (_yr_ac_gen_tokens yara_h_example zeros she MAX_TOKEN)
      as [out|] eqn:Hgen; [|by vm_compute in Hgen].
    refine (proj2 (proj2 (add_string_min_token_length yara_h_example zeros
                            example_arena example_automaton she sr 0 Hwf Hr
                            Hd string_wf_she)) out _ Hgen _ _ _).
    + vm_compute in Hgen. injection Hgen as <-. vm_compute. discriminate.
    + vm_compute. reflexivity.
    + vm_compute. lia.
  - destruct (_yr_ac_gen_tokens yara_h_example letters nocase_empty
                MAX_TOKEN) as [out|] eqn:Hgen; [|by vm_compute in Hgen].
    refine (proj2 (proj2 (add_string_min_token_length yara_h_example letters
                            example_arena example_automaton nocase_empty sr
                            0 Hwf Hr Hd string_wf_empty)) out _ Hgen _ _ _).
    + vm_compute in Hgen. injection Hgen as <-. vm_compute. discriminate.
    + vm_compute. reflexivity.
    + vm_compute. lia.
Defined.

Example she_min_token_length :
  yr_ac_add_string yara_h_example (Some zeros) example_arena
    example_automaton she 0
  = Some (ERROR_SUCCESS, arena_with_she, 3).
Proof. vm_compute. reflexivity. Qed.
